(** * Cross3D: the subdivision tree, its adjacency graph and the slice walker

    A shallow embedding of [src/infill/Cross3D.cpp].  Coordinates
    ([coord_t]) and arena indices ([idx_t]) are signed machine integers whose
    overflow is undefined in the source; they are embedded as [Z].  The arena
    [cell_data] is a list of cells addressed by position, and every
    [std::list] node carries an identity so that the iterators stored in
    [Link::reverse] can be followed. *)

From stdpp Require Import base list.
From Stdlib Require Import ZArith Lia Bool.

Local Open Scope Z_scope.

(** ** Geometry primitives *)

Module Geometry.

(** Modelled from the spec: [Point] is declared in utils/IntPoint.h, which is
    not part of the sources at hand; it is a pair of integer micron
    coordinates with component-wise arithmetic, and dividing by a
    scalar truncates toward zero as C++ integer division does. *)
Record Point := mkPoint { X : Z; Y : Z }.

Definition padd (p q : Point) : Point := mkPoint (X p + X q) (Y p + Y q).
Definition psub (p q : Point) : Point := mkPoint (X p - X q) (Y p - Y q).
Definition pdiv (p : Point) (i : Z) : Point := mkPoint (Z.quot (X p) i) (Z.quot (Y p) i).

(** Modelled from the spec: [LineSegment] is declared outside the sources at
    hand; it is an oriented pair of end points and [reverse] swaps them. *)
Record LineSegment := mkSeg { from : Point; to : Point }.

Definition reverse (s : LineSegment) : LineSegment := mkSeg (to s) (from s).

Definition midpoint (a b : Point) : Point := pdiv (padd a b) 2.

End Geometry.

Export Geometry.

(** ** Triangle *)

Module Triangle.

Inductive Direction := AC_TO_AB | AC_TO_BC | AB_TO_BC.

Record t := mk {
  straight_corner : Point;
  a : Point;
  b : Point;
  dir : Direction;
  straight_corner_is_left : bool
}.

(** [Triangle::getFromEdge] *)
Definition getFromEdge (T : t) : LineSegment :=
  let ret :=
    match dir T with
    | AB_TO_BC => mkSeg (a T) (b T)
    | AC_TO_AB => mkSeg (straight_corner T) (a T)
    | AC_TO_BC => mkSeg (straight_corner T) (a T)
    end in
  if negb (straight_corner_is_left T) then reverse ret else ret.

(** [Triangle::getToEdge] *)
Definition getToEdge (T : t) : LineSegment :=
  let ret :=
    match dir T with
    | AB_TO_BC => mkSeg (straight_corner T) (b T)
    | AC_TO_AB => mkSeg (b T) (a T)
    | AC_TO_BC => mkSeg (straight_corner T) (b T)
    end in
  if negb (straight_corner_is_left T) then reverse ret else ret.

(** [Triangle::getMiddle] *)
Definition getMiddle (T : t) : Point :=
  pdiv (padd (padd (straight_corner T) (a T)) (b T)) 3.

(** [Triangle::subdivide]: the two children, in the order of the returned
    [std::array]. *)
Definition subdivide (T : t) : t * t :=
  let middle := pdiv (padd (a T) (b T)) 2 in
  let d :=
    match dir T with
    | AB_TO_BC => (AC_TO_BC, AC_TO_AB)
    | AC_TO_AB => (AB_TO_BC, AC_TO_BC)
    | AC_TO_BC => (AB_TO_BC, AC_TO_AB)
    end in
  (mk middle (a T) (straight_corner T) (fst d) (negb (straight_corner_is_left T)),
   mk middle (straight_corner T) (b T) (snd d) (negb (straight_corner_is_left T))).

(** The tables of section 4.1 of the specification, written from its words
    to be compared with the functions above. *)
Definition spec_from_edge (T : t) : LineSegment :=
  match dir T with
  | AB_TO_BC => mkSeg (a T) (b T)
  | AC_TO_AB => mkSeg (straight_corner T) (a T)
  | AC_TO_BC => mkSeg (straight_corner T) (a T)
  end.

Definition spec_to_edge (T : t) : LineSegment :=
  match dir T with
  | AB_TO_BC => mkSeg (straight_corner T) (b T)
  | AC_TO_AB => mkSeg (b T) (a T)
  | AC_TO_BC => mkSeg (straight_corner T) (b T)
  end.

Definition spec_child_dirs (d : Direction) : Direction * Direction :=
  match d with
  | AB_TO_BC => (AC_TO_BC, AC_TO_AB)
  | AC_TO_AB => (AB_TO_BC, AC_TO_BC)
  | AC_TO_BC => (AB_TO_BC, AC_TO_AB)
  end.

End Triangle.

(** ** Prisms, links and cells *)

(** Modelled from the spec: [vSize] is declared in utils/IntPoint.h, not part
    of the sources at hand; it is the Euclidean length of a vector, the
    square root being truncated to an integer coordinate. *)
Definition vSize (p : Point) : Z := Z.sqrt (X p * X p + Y p * Y p).

Record Range := mkRange { rmin : Z; rmax : Z }.

Module Prism.

Record t := mk {
  triangle : Triangle.t;
  z_range : Range;
  is_expanding : bool
}.

(** [Prism::isHalfCube] *)
Definition isHalfCube (P : t) : bool :=
  Z.abs (vSize (psub (Triangle.straight_corner (triangle P)) (Triangle.b (triangle P)))
         - (rmax (z_range P) - rmin (z_range P))) <? 10.

(** [Prism::isQuarterCube] *)
Definition isQuarterCube (P : t) : bool :=
  Z.abs (vSize (psub (Triangle.a (triangle P)) (Triangle.b (triangle P)))
         - (rmax (z_range P) - rmin (z_range P))) <? 10.

End Prism.

Inductive Direction := LEFT | RIGHT | UP | DOWN | COUNT.

(** [Cross3D::opposite] *)
Definition opposite (d : Direction) : Direction :=
  match d with
  | LEFT => RIGHT
  | RIGHT => LEFT
  | UP => DOWN
  | DOWN => UP
  | _ => COUNT
  end.

(** The sides a cell has, in the order the loops over
    [0 .. getNumberOfSides() - 1] visit them. *)
Definition sides : list Direction := [LEFT; RIGHT; UP; DOWN].

(** A [LinkIterator] designates one node of one [std::list<Link>]; nodes are
    told apart by the address they were allocated at. *)
Abbreviation LinkIterator := nat (only parsing).

Record Link := mkLink {
  to_index : Z;
  link_reverse : option LinkIterator
}.

(** A list node: its address and the link stored in it. *)
Abbreviation LinkNode := (LinkIterator * Link)%type (only parsing).

(** [std::array<std::list<Link>, 4> adjacent_cells] *)
Record Adjacency := mkAdj {
  adj_left : list LinkNode;
  adj_right : list LinkNode;
  adj_up : list LinkNode;
  adj_down : list LinkNode
}.

(** [adjacent_cells[side]]; the array has no slot for [COUNT], and indexing
    it there is undefined in the source: [None]. *)
Definition adj_get (A : Adjacency) (d : Direction) : option (list LinkNode) :=
  match d with
  | LEFT => Some (adj_left A)
  | RIGHT => Some (adj_right A)
  | UP => Some (adj_up A)
  | DOWN => Some (adj_down A)
  | COUNT => None
  end.

Definition adj_set (A : Adjacency) (d : Direction) (l : list LinkNode)
  : option Adjacency :=
  match d with
  | LEFT => Some (mkAdj l (adj_right A) (adj_up A) (adj_down A))
  | RIGHT => Some (mkAdj (adj_left A) l (adj_up A) (adj_down A))
  | UP => Some (mkAdj (adj_left A) (adj_right A) l (adj_down A))
  | DOWN => Some (mkAdj (adj_left A) (adj_right A) (adj_up A) l)
  | COUNT => None
  end.

Definition adj_empty : Adjacency := mkAdj [] [] [] [].

(** [std::array<idx_t, 4> children] *)
Record Children := mkChildren { child0 : Z; child1 : Z; child2 : Z; child3 : Z }.

Definition children_list (c : Children) : list Z :=
  [child0 c; child1 c; child2 c; child3 c].

(** [children[i] = v] for [i] in [0 .. 3] *)
Definition set_child (c : Children) (i : Z) (v : Z) : Children :=
  if i =? 0 then mkChildren v (child1 c) (child2 c) (child3 c)
  else if i =? 1 then mkChildren (child0 c) v (child2 c) (child3 c)
  else if i =? 2 then mkChildren (child0 c) (child1 c) v (child3 c)
  else if i =? 3 then mkChildren (child0 c) (child1 c) (child2 c) v
  else c.

(** A cell of the arena.  The three density fields are floating-point
    numbers in the source; their type is left open as [F]. *)
Record Cell {F : Type} := mkCell {
  prism : Prism.t;
  index : Z;
  depth : Z;
  volume : F;
  filled_volume_allowance : F;
  minimally_required_density : F;
  is_subdivided : bool;
  adjacent_cells : Adjacency;
  children : Children
}.
Arguments Cell : clear implicits.
Arguments mkCell {F}.

Section CellStore.
Context {F : Type}.

(** Modelled from the spec: the constructor [Cell(prism, index, depth)] is
    declared in Cross3D.h, not part of the sources at hand.  Neighbour lists
    start empty and [is_subdivided] starts false; the density fields start
    at [dflt] and the child slots at [junk], values nothing below relies
    on. *)
Definition Cell_new (dflt : F) (junk : Z) (P : Prism.t) (idx dep : Z) : Cell F :=
  mkCell P idx dep dflt dflt dflt false adj_empty (mkChildren junk junk junk junk).

Definition with_children (c : Cell F) (ch : Children) : Cell F :=
  mkCell (prism c) (index c) (depth c) (volume c) (filled_volume_allowance c)
    (minimally_required_density c) (is_subdivided c) (adjacent_cells c) ch.

Definition with_adjacent (c : Cell F) (A : Adjacency) : Cell F :=
  mkCell (prism c) (index c) (depth c) (volume c) (filled_volume_allowance c)
    (minimally_required_density c) (is_subdivided c) A (children c).

Definition with_subdivided (c : Cell F) (s : bool) : Cell F :=
  mkCell (prism c) (index c) (depth c) (volume c) (filled_volume_allowance c)
    (minimally_required_density c) s (adjacent_cells c) (children c).

(** [cell_data[i]]; an index outside the vector is undefined in the source
    and yields [None] here. *)
Definition cell_at (cd : list (Cell F)) (i : Z) : option (Cell F) :=
  if i <? 0 then None else cd !! Z.to_nat i.

(** In-place update of [cell_data[i]], [None] outside the vector. *)
Definition update_cell (cd : list (Cell F)) (i : Z) (f : Cell F -> Cell F)
  : option (list (Cell F)) :=
  match cell_at cd i with
  | Some c => Some (<[Z.to_nat i := f c]> cd)
  | None => None
  end.

(** [Cell::getChildCount] *)
Definition getChildCount (c : Cell F) : Z :=
  if child2 (children c) <? 0 then 2 else 4.

End CellStore.

(** ** Tree builder *)

Section CreateTree.
Context {F : Type}.
Variables (dflt : F) (junk : Z).

Definition direction_is_AC_TO_BC (d : Triangle.Direction) : bool :=
  match d with Triangle.AC_TO_BC => true | _ => false end.

(** The [is_expanding] flag handed to the child at [(child_z_idx, child_xy_idx)]. *)
Definition child_is_expanding (P : Prism.t) (child_z_idx child_xy_idx : Z) : bool :=
  let is_expanding :=
    if negb (direction_is_AC_TO_BC (Triangle.dir (Prism.triangle P))) && (child_xy_idx =? 1)
    then negb (Prism.is_expanding P)
    else Prism.is_expanding P in
  if child_z_idx =? 1 then negb is_expanding else is_expanding.

(** One iteration of the inner loop of [createTree], for the child at
    [(child_z_idx, child_xy_idx)]; [rec] is the recursive call. *)
Definition createTree_child (rec : list (Cell F) -> Z -> option (list (Cell F)))
    (parent_prism : Prism.t) (subdivided_triangles : Triangle.t * Triangle.t)
    (parent_idx parent_depth child_count : Z)
    (child_z_idx child_xy_idx child_z_min child_z_max : Z)
    (cell_data : list (Cell F)) : option (list (Cell F)) :=
  let child_idx := child_z_idx * 2 + child_xy_idx in
  if child_z_idx =? Z.quot child_count 2 then
    update_cell cell_data parent_idx
      (fun c => with_children c (set_child (children c) child_idx (-1)))
  else
    let is_expanding := child_is_expanding parent_prism child_z_idx child_xy_idx in
    let child_data_index := Z.of_nat (length cell_data) in
    cell_data ← update_cell cell_data parent_idx
      (fun c => with_children c (set_child (children c) child_idx child_data_index));
    let child_triangle :=
      if child_xy_idx =? 0 then fst subdivided_triangles
      else snd subdivided_triangles in
    let cell_data :=
      cell_data ++
        [Cell_new dflt junk
           (Prism.mk child_triangle (mkRange child_z_min child_z_max) is_expanding)
           child_data_index (parent_depth + 1)] in
    rec cell_data (Z.of_nat (length cell_data) - 1).

(** [Cross3D::createTree(Cell& sub_tree_root, int max_depth)].  [root] is the
    position in [cell_data] of the cell the reference designates.  The
    recursion is bounded by [fuel]; the two nested loops of two iterations
    each are the four calls of [createTree_child]. *)
Fixpoint createTree (fuel : nat) (max_depth : Z) (cell_data : list (Cell F)) (root : Z)
  : option (list (Cell F)) :=
  match fuel with
  | O => None
  | S fuel' =>
    sub_tree_root ← cell_at cell_data root;
    let parent_depth := depth sub_tree_root in
    if parent_depth >=? max_depth then
      update_cell cell_data root
        (fun c => with_children c (mkChildren (-1) (-1) (-1) (-1)))
    else
      let parent_prism := prism sub_tree_root in
      let subdivided_triangles := Triangle.subdivide (Prism.triangle parent_prism) in
      let parent_idx := index sub_tree_root in
      let child_count := if Prism.isHalfCube parent_prism then 2 else 4 in
      let zr := Prism.z_range parent_prism in
      let child_z_min0 := rmin zr in
      let child_z_max0 :=
        if child_count =? 2 then rmax zr else Z.quot (rmax zr + rmin zr) 2 in
      let body := createTree_child (createTree fuel' max_depth) parent_prism
                    subdivided_triangles parent_idx parent_depth child_count in
      cell_data ← body 0 0 child_z_min0 child_z_max0 cell_data;
      cell_data ← body 0 1 child_z_min0 child_z_max0 cell_data;
      let child_z_min1 := child_z_max0 in
      let child_z_max1 := rmax zr in
      cell_data ← body 1 0 child_z_min1 child_z_max1 cell_data;
      body 1 1 child_z_min1 child_z_max1 cell_data
  end.

End CreateTree.

(** ** What the tree builder guarantees *)

Section TreeShape.
Context {F : Type}.
Implicit Types (cd : list (Cell F)) (c : Cell F).

(** What a call of [createTree] on the cell at [q] may change: it appends
    cells and rewrites the child slots of the cell at [q], nothing else. *)
Definition tree_frame (q : Z) cd cd' : Prop :=
  (length cd <= length cd')%nat /\
  (forall j c, j <> q -> cell_at cd j = Some c -> cell_at cd' j = Some c) /\
  (forall c, cell_at cd q = Some c -> exists ch, cell_at cd' q = Some (with_children c ch)).

(** The cell at [k] is a child created with the given footprint, z-range,
    orientation flag and depth. *)
Definition is_child cd (k : Z) (T : Triangle.t) (lo hi : Z) (e : bool) (d : Z) : Prop :=
  0 <= k /\ exists c, cell_at cd k = Some c /\
    prism c = Prism.mk T (mkRange lo hi) e /\ depth c = d /\ index c = k.

(** The children [createTree] gives a cell below [max_depth]: two across
    the whole z-range when the prism is a half-cube, else four, two in each
    half of the z-range. *)
Definition built_children cd' (root root' : Cell F) : Prop :=
  let P := prism root in
  let tris := Triangle.subdivide (Prism.triangle P) in
  let z_min := rmin (Prism.z_range P) in
  let z_max := rmax (Prism.z_range P) in
  let z_mid := Z.quot (z_max + z_min) 2 in
  let d := depth root + 1 in
  let ch := children root' in
  root' = with_children root ch /\
  if Prism.isHalfCube P then
    getChildCount root' = 2 /\
    is_child cd' (child0 ch) (fst tris) z_min z_max (child_is_expanding P 0 0) d /\
    is_child cd' (child1 ch) (snd tris) z_min z_max (child_is_expanding P 0 1) d /\
    child2 ch = -1 /\ child3 ch = -1
  else
    getChildCount root' = 4 /\
    is_child cd' (child0 ch) (fst tris) z_min z_mid (child_is_expanding P 0 0) d /\
    is_child cd' (child1 ch) (snd tris) z_min z_mid (child_is_expanding P 0 1) d /\
    is_child cd' (child2 ch) (fst tris) z_mid z_max (child_is_expanding P 1 0) d /\
    is_child cd' (child3 ch) (snd tris) z_mid z_max (child_is_expanding P 1 1) d.

End TreeShape.

(** ** Building the whole tree *)

Module Point3.
(** Modelled from the spec: [Point3] is declared in utils/intpoint.h, not
    part of the sources at hand; it is a point of integer micron
    coordinates in space. *)
Record t := mk { x : Z; y : Z; z : Z }.
End Point3.

Module AABB3D.
(** Modelled from the spec: [AABB3D] is declared outside the sources at
    hand; it is the bounding volume, given by its two extreme corners. *)
Record t := mk { min : Point3.t; max : Point3.t }.
End AABB3D.

(** Modelled from the spec: [vSize2] is declared in utils/IntPoint.h, not
    part of the sources at hand; it is the squared length of a vector. *)
Definition vSize2 (p : Point) : Z := X p * X p + Y p * Y p.

Section CellFields.
Context {F : Type}.

Definition with_volume (c : Cell F) (v : F) : Cell F :=
  mkCell (prism c) (index c) (depth c) v (filled_volume_allowance c)
    (minimally_required_density c) (is_subdivided c) (adjacent_cells c) (children c).

Definition with_allowance (c : Cell F) (allowance density : F) : Cell F :=
  mkCell (prism c) (index c) (depth c) (volume c) allowance density
    (is_subdivided c) (adjacent_cells c) (children c).

(** A loop over the child slots that stops at the first slot for which
    [stop] holds. *)
Fixpoint for_children (stop : Z -> bool)
    (body : list (Cell F) -> Z -> option (list (Cell F)))
    (cd : list (Cell F)) (chs : list Z) : option (list (Cell F)) :=
  match chs with
  | [] => Some cd
  | child_idx :: rest =>
      if stop child_idx then Some cd
      else cd ← body cd child_idx; for_children stop body cd rest
  end.

End CellFields.

Section BuildTree.
Context {F : Type}.
Variables (dflt : F) (junk : Z).
(** The prism of the sentinel root, "initialized with invalid data". *)
Variable root_prism : Prism.t.
(** Floating-point arithmetic of the source, left open: the conversions
    [INT2MM] and [INT2MM2], product, sum, maximum and the constant 0.5. *)
Variables (INT2MM INT2MM2 : Z -> F) (fmul fadd fmax : F -> F -> F) (fhalf : F).
(** The density provider handed to the constructor. *)
Variable density_provider : AABB3D.t -> F.

(** [Cross3D::getDensity]: the density of the bounding box of the prism. *)
Definition getDensity (cell : Cell F) : F :=
  let T := Prism.triangle (prism cell) in
  let xs := [X (Triangle.a T); X (Triangle.b T)] in
  let ys := [Y (Triangle.a T); Y (Triangle.b T)] in
  let x0 := X (Triangle.straight_corner T) in
  let y0 := Y (Triangle.straight_corner T) in
  density_provider
    (AABB3D.mk
       (Point3.mk (foldr Z.min x0 xs) (foldr Z.min y0 ys) (rmin (Prism.z_range (prism cell))))
       (Point3.mk (foldr Z.max x0 xs) (foldr Z.max y0 ys) (rmax (Prism.z_range (prism cell))))).

(** [Cross3D::setVolume]; the two [assert]s on a child index abort with
    [None]. *)
Fixpoint setVolume (fuel : nat) (cell_data : list (Cell F)) (sub_tree_root : Z)
  : option (list (Cell F)) :=
  match fuel with
  | O => None
  | S fuel' =>
      C ← cell_at cell_data sub_tree_root;
      let parent_triangle := Prism.triangle (prism C) in
      let ac := psub (Triangle.straight_corner parent_triangle) (Triangle.a parent_triangle) in
      let area := fmul fhalf (INT2MM2 (vSize2 ac)) in
      let volume :=
        fmul area (INT2MM (rmax (Prism.z_range (prism C)) - rmin (Prism.z_range (prism C)))) in
      cell_data ← update_cell cell_data sub_tree_root (fun c => with_volume c volume);
      let has_children := child0 (children C) >=? 0 in
      if has_children then
        for_children (fun child_idx => child_idx =? -1)
          (fun cell_data child_idx =>
             if (child_idx >? 0) && (child_idx <? Z.of_nat (length cell_data))
             then setVolume fuel' cell_data child_idx
             else None)
          cell_data (children_list (children C))
      else Some cell_data
  end.

(** [Cross3D::setSpecificationAllowance] *)
Fixpoint setSpecificationAllowance (fuel : nat) (cell_data : list (Cell F))
    (sub_tree_root : Z) : option (list (Cell F)) :=
  match fuel with
  | O => None
  | S fuel' =>
      C ← cell_at cell_data sub_tree_root;
      let has_children := child0 (children C) >=? 0 in
      if has_children then
        for_children (fun child_idx => child_idx <? 0)
          (fun cell_data child_idx =>
             _ ← cell_at cell_data child_idx;
             cell_data ← setSpecificationAllowance fuel' cell_data child_idx;
             child ← cell_at cell_data child_idx;
             update_cell cell_data sub_tree_root
               (fun c => with_allowance c
                  (fadd (filled_volume_allowance c) (filled_volume_allowance child))
                  (fmax (minimally_required_density c) (minimally_required_density child))))
          cell_data (children_list (children C))
      else
        let requested_density := getDensity C in
        update_cell cell_data sub_tree_root
          (fun c => with_allowance c (fmul (volume c) requested_density) requested_density)
  end.

(** The level-1 cell appended by [Cross3D::createTree()] in slot [slot] of
    the root, with its subtree and its volumes. *)
Definition createTree_first_level (fuel : nat) (max_depth : Z) (aabb : AABB3D.t)
    (slot : Z) (T : Triangle.t) (cell_data : list (Cell F)) : option (list (Cell F)) :=
  let child_prism :=
    Prism.mk T (mkRange (Point3.z (AABB3D.min aabb)) (Point3.z (AABB3D.max aabb))) true in
  let child_index := Z.of_nat (length cell_data) in
  cell_data ← update_cell cell_data 0
    (fun c => with_children c (set_child (children c) slot child_index));
  let cell_data := cell_data ++ [Cell_new dflt junk child_prism child_index 1] in
  cell_data ← createTree dflt junk fuel max_depth cell_data (Z.of_nat (length cell_data) - 1);
  setVolume fuel cell_data child_index.

(** [Cross3D::createTree()]; [assert(cell_data.empty())] aborts with
    [None]. [cell_data.reserve] has no effect on the contents. *)
Definition createTreeRoot (fuel : nat) (max_depth : Z) (aabb : AABB3D.t)
    (cell_data : list (Cell F)) : option (list (Cell F)) :=
  match cell_data with
  | _ :: _ => None
  | [] =>
      let cell_data := [Cell_new dflt junk root_prism 0 0] in
      let aabb_min := AABB3D.min aabb in
      let aabb_max := AABB3D.max aabb in
      let root_volume :=
        fmul (fmul (INT2MM (Point3.x aabb_max - Point3.x aabb_min))
                   (INT2MM (Point3.y aabb_max - Point3.y aabb_min)))
             (INT2MM (Point3.z aabb_max - Point3.z aabb_min)) in
      cell_data ← update_cell cell_data 0 (fun c => with_volume c root_volume);
      cell_data ← update_cell cell_data 0
        (fun c => with_children c (set_child (children c) 2 (-1)));
      cell_data ← update_cell cell_data 0
        (fun c => with_children c (set_child (children c) 3 (-1)));
      let aabb2d_min := mkPoint (Point3.x aabb_min) (Point3.y aabb_min) in
      let aabb2d_max := mkPoint (Point3.x aabb_max) (Point3.y aabb_max) in
      let first_triangle :=
        Triangle.mk (mkPoint (X aabb2d_min) (Y aabb2d_max)) aabb2d_min aabb2d_max
          Triangle.AC_TO_AB true in
      cell_data ← createTree_first_level fuel max_depth aabb 0 first_triangle cell_data;
      let second_triangle :=
        Triangle.mk (mkPoint (X aabb2d_max) (Y aabb2d_min)) aabb2d_max aabb2d_min
          Triangle.AB_TO_BC true in
      cell_data ← createTree_first_level fuel max_depth aabb 1 second_triangle cell_data;
      setSpecificationAllowance fuel cell_data 0
  end.

End BuildTree.

(** ** Operations of [std::list<Link>] *)

(** [emplace(pos, x)]: insert [x] before the node at address [pos]; an
    iterator that designates no node of the list is undefined in the
    source: [None]. *)
Fixpoint list_emplace (pos : LinkIterator) (x : LinkNode) (l : list LinkNode)
  : option (list LinkNode) :=
  match l with
  | [] => None
  | y :: l' =>
      if Nat.eqb (fst y) pos then Some (x :: y :: l')
      else l'' ← list_emplace pos x l'; Some (y :: l'')
  end.

(** [erase(pos)] *)
Fixpoint list_erase (pos : LinkIterator) (l : list LinkNode) : option (list LinkNode) :=
  match l with
  | [] => None
  | y :: l' =>
      if Nat.eqb (fst y) pos then Some l'
      else l'' ← list_erase pos l'; Some (y :: l'')
  end.

(** [pos->reverse = r] *)
Fixpoint list_set_reverse (pos r : LinkIterator) (l : list LinkNode)
  : option (list LinkNode) :=
  match l with
  | [] => None
  | y :: l' =>
      if Nat.eqb (fst y) pos then Some ((fst y, mkLink (to_index (snd y)) (Some r)) :: l')
      else l'' ← list_set_reverse pos r l'; Some (y :: l'')
  end.

(** [std::prev(pos)]: the address of the node in front of the one at [pos]. *)
Fixpoint list_prev (pos : LinkIterator) (l : list LinkNode) : option LinkIterator :=
  match l with
  | x :: ((y :: _) as l') =>
      if Nat.eqb (fst x) pos then None
      else if Nat.eqb (fst y) pos then Some (fst x)
      else list_prev pos l'
  | _ => None
  end.

(** ** The adjacency manager *)

(** The arena together with the next free node address. *)
Record State {F : Type} := mkState {
  cell_data : list (Cell F);
  next_node : LinkIterator
}.
Arguments State : clear implicits.
Arguments mkState {F}.

Section Adjacency.
Context {F : Type}.

(** [cell_data[c].adjacent_cells[d]] *)
Definition links (st : State F) (c : Z) (d : Direction) : option (list LinkNode) :=
  C ← cell_at (cell_data st) c; adj_get (adjacent_cells C) d.

Definition set_links (st : State F) (c : Z) (d : Direction) (l : list LinkNode)
  : option (State F) :=
  C ← cell_at (cell_data st) c;
  A ← adj_set (adjacent_cells C) d l;
  Some (mkState (<[Z.to_nat c := with_adjacent C A]> (cell_data st)) (next_node st)).

(** [cell_data[c].adjacent_cells[d].emplace_front(to)] *)
Definition emplace_front (st : State F) (c : Z) (d : Direction) (to : Z)
  : option (State F) :=
  l ← links st c d;
  st' ← set_links st c d ((next_node st, mkLink to None) :: l);
  Some (mkState (cell_data st') (S (next_node st))).

(** [cell_data[c].adjacent_cells[d].emplace(pos, to)] *)
Definition emplace (st : State F) (c : Z) (d : Direction) (pos : LinkIterator) (to : Z)
  : option (State F) :=
  l ← links st c d;
  l' ← list_emplace pos (next_node st, mkLink to None) l;
  st' ← set_links st c d l';
  Some (mkState (cell_data st') (S (next_node st))).

(** [cell_data[c].adjacent_cells[d].erase(pos)] *)
Definition erase (st : State F) (c : Z) (d : Direction) (pos : LinkIterator)
  : option (State F) :=
  l ← links st c d; l' ← list_erase pos l; set_links st c d l'.

(** [pos->reverse = r] for a node of [cell_data[c].adjacent_cells[d]] *)
Definition set_reverse (st : State F) (c : Z) (d : Direction) (pos r : LinkIterator)
  : option (State F) :=
  l ← links st c d; l' ← list_set_reverse pos r l; set_links st c d l'.

(** [cell_data[c].adjacent_cells[d].begin()], of a list that is not empty *)
Definition begin (st : State F) (c : Z) (d : Direction) : option LinkIterator :=
  l ← links st c d; fst <$> head l.

(** [Cross3D::initialConnection]; [before] and [after] are the positions of
    the two cells. *)
Definition initialConnection (st : State F) (before after : Z) (dir : Direction)
  : option (State F) :=
  B ← cell_at (cell_data st) before;
  A ← cell_at (cell_data st) after;
  st ← emplace_front st before dir (index A);
  st ← emplace_front st after (opposite dir) (index B);
  before_to_after ← begin st before dir;
  after_to_before ← begin st after (opposite dir);
  st ← set_reverse st before dir before_to_after after_to_before;
  set_reverse st after (opposite dir) after_to_before before_to_after.

(** [Cross3D::isConstrainedBy] *)
Definition isConstrainedBy (constrainee constrainer : Cell F) : bool :=
  depth constrainer <? depth constrainee.

(** The inner loop of [isConstrained], over the links of one side. *)
Fixpoint isConstrained_side (cd : list (Cell F)) (cell : Cell F) (side : list LinkNode)
  : option bool :=
  match side with
  | [] => Some false
  | neighbor :: rest =>
      N ← cell_at cd (to_index (snd neighbor));
      if isConstrainedBy cell N then Some true else isConstrained_side cd cell rest
  end.

Fixpoint isConstrained_sides (cd : list (Cell F)) (cell : Cell F)
    (all_sides : list (list LinkNode)) : option bool :=
  match all_sides with
  | [] => Some false
  | side :: rest =>
      b ← isConstrained_side cd cell side;
      if b : bool then Some true else isConstrained_sides cd cell rest
  end.

Definition adjacency_lists (A : Adjacency) : list (list LinkNode) :=
  [adj_left A; adj_right A; adj_up A; adj_down A].

(** [Cross3D::isConstrained] *)
Definition isConstrained (st : State F) (cell : Cell F) : option bool :=
  isConstrained_sides (cell_data st) cell (adjacency_lists (adjacent_cells cell)).

Section WithMaxDepth.
Variable max_depth : Z.

(** [Cross3D::canSubdivide] *)
Definition canSubdivide (st : State F) (cell : Cell F) : option bool :=
  if depth cell >=? max_depth then Some false
  else b ← isConstrained st cell; Some (negb b : bool).

End WithMaxDepth.

End Adjacency.

(** ** Subdivision *)

Section Subdivide.
Context {F : Type}.
(** [Cross3D::isNextTo], a geometric test on the prisms of two cells.  It
    aborts with [None] where the source fails an [assert]: on a triangle
    whose polygon has no area, and on a cell that is empty along the
    tested axis. *)
Variable isNextTo : Cell F -> Cell F -> Direction -> option bool.

(** The body of [if (isNextTo(child, neighbor_cell, side))] in
    [Cross3D::subdivide]: link the child at [child_idx] with the neighbour
    at [neighbor_to], whose back-link to the parent is the node at
    [neighbor_reverse]. *)
Definition connect_child (st : State F) (side : Direction) (neighbor_to : Z)
    (neighbor_reverse : LinkIterator) (child_idx : Z) : option (State F) :=
  st ← emplace_front st child_idx side neighbor_to;
  outlink ← begin st child_idx side;
  st ← emplace st neighbor_to (opposite side) neighbor_reverse child_idx;
  neighboring_edge_links ← links st neighbor_to (opposite side);
  inlink ← list_prev neighbor_reverse neighboring_edge_links;
  st ← set_reverse st child_idx side outlink inlink;
  set_reverse st neighbor_to (opposite side) inlink outlink.

(** [for (idx_t child_idx : cell.children)], which stops at the first
    negative slot. [assert(neighbor.to_index > 0)] aborts with [None], and
    so does a call of [isNextTo] that aborts. *)
Fixpoint children_loop (st : State F) (side : Direction) (neighbor_to : Z)
    (neighbor_reverse : LinkIterator) (chs : list Z) : option (State F) :=
  match chs with
  | [] => Some st
  | child_idx :: rest =>
      if child_idx <? 0 then Some st
      else
        child ← cell_at (cell_data st) child_idx;
        neighbor_cell ← cell_at (cell_data st) neighbor_to;
        if neighbor_to >? 0 then
          next_to ← isNextTo child neighbor_cell side;
          st ← (if next_to : bool
                then connect_child st side neighbor_to neighbor_reverse child_idx
                else Some st);
          children_loop st side neighbor_to neighbor_reverse rest
        else None
  end.

(** The loop over the links of one side of the cell at [cell].  It walks the
    list as it stands when the loop starts: its body changes the lists of
    the children and the opposite-side lists of the neighbours only.
    [assert(neighbor.reverse)] aborts with [None]. *)
Fixpoint links_loop (st : State F) (cell : Z) (side : Direction)
    (nodes : list LinkNode) : option (State F) :=
  match nodes with
  | [] => Some st
  | neighbor :: rest =>
      neighbor_reverse ← link_reverse (snd neighbor);
      _ ← cell_at (cell_data st) (to_index (snd neighbor));
      C ← cell_at (cell_data st) cell;
      st ← children_loop st side (to_index (snd neighbor)) neighbor_reverse
             (children_list (children C));
      st ← erase st (to_index (snd neighbor)) (opposite side) neighbor_reverse;
      links_loop st cell side rest
  end.

(** One round of [for (side = 0; side < getNumberOfSides(); side++)] *)
Definition side_loop (st : State F) (cell : Z) (side : Direction) : option (State F) :=
  nodes ← links st cell side;
  st ← links_loop st cell side nodes;
  set_links st cell side [].

Fixpoint sides_loop (st : State F) (cell : Z) (all_sides : list Direction)
  : option (State F) :=
  match all_sides with
  | [] => Some st
  | side :: rest => st ← side_loop st cell side; sides_loop st cell rest
  end.

Definition set_is_subdivided (st : State F) (cell : Z) : option (State F) :=
  cd ← update_cell (cell_data st) cell (fun C => with_subdivided C true);
  Some (mkState cd (next_node st)).

(** [Cross3D::subdivide]; [cell] is the position of the cell.  The leading
    [assert] on the first two child slots aborts with [None]. *)
Definition subdivide (st : State F) (cell : Z) : option (State F) :=
  C ← cell_at (cell_data st) cell;
  let ch := children C in
  if (child0 ch >=? 0) && (child1 ch >=? 0) then
    st ← initialConnection st (child0 ch) (child1 ch) RIGHT;
    st ← (if getChildCount C =? 4 then
            st ← initialConnection st (child2 ch) (child3 ch) RIGHT;
            st ← initialConnection st (child0 ch) (child2 ch) UP;
            initialConnection st (child1 ch) (child3 ch) UP
          else Some st);
    st ← sides_loop st cell sides;
    set_is_subdivided st cell
  else None.

End Subdivide.

(** ** Density-driven subdivision *)

Section DensityPolicy.
Context {F : Type}.
Variable isNextTo : Cell F -> Cell F -> Direction -> option bool.
Variable max_depth : Z.
(** Floating-point arithmetic of the source, left open: the volume of the
    curve inside a cell ([Cross3D::getActualizedVolume]), division and
    comparison. *)
Variable getActualizedVolume : Cell F -> F.
Variable fdiv : F -> F -> F.
Variable flt : F -> F -> bool.

(** The lambda [shouldBeSubdivided] of [createMinimalDensityPattern] *)
Definition shouldBeSubdivided (cell : Cell F) : bool :=
  flt (fdiv (getActualizedVolume cell) (volume cell)) (minimally_required_density cell).

(** [for (idx_t child_idx : to_be_subdivided.children)]: push to the back
    every child that is present and too sparse. *)
Fixpoint push_children (cd : list (Cell F)) (chs : list Z) (queue : list Z)
  : option (list Z) :=
  match chs with
  | [] => Some queue
  | child_idx :: rest =>
      if child_idx >=? 0 then
        child ← cell_at cd child_idx;
        push_children cd rest
          (if shouldBeSubdivided child then queue ++ [child_idx] else queue)
      else push_children cd rest queue
  end.

(** The loop over the links of one side of a constrained cell: push to the
    front every neighbour that constrains it. *)
Fixpoint push_constrainers_side (cd : list (Cell F)) (cell : Cell F)
    (side : list LinkNode) (queue : list Z) : option (list Z) :=
  match side with
  | [] => Some queue
  | neighbor :: rest =>
      N ← cell_at cd (to_index (snd neighbor));
      push_constrainers_side cd cell rest
        (if isConstrainedBy cell N then to_index (snd neighbor) :: queue else queue)
  end.

Fixpoint push_constrainers (cd : list (Cell F)) (cell : Cell F)
    (all_sides : list (list LinkNode)) (queue : list Z) : option (list Z) :=
  match all_sides with
  | [] => Some queue
  | side :: rest =>
      queue ← push_constrainers_side cd cell side queue;
      push_constrainers cd cell rest queue
  end.

(** One round of the [while] loop of [createMinimalDensityPattern], on a
    queue that is not empty. *)
Definition density_step (st : State F) (queue : list Z) : option (State F * list Z) :=
  match queue with
  | [] => None
  | to_be_subdivided_idx :: popped =>
      to_be_subdivided ← cell_at (cell_data st) to_be_subdivided_idx;
      if (child0 (children to_be_subdivided) <? 0)
         || (depth to_be_subdivided >=? max_depth)
      then Some (st, popped)
      else
        constrained ← isConstrained st to_be_subdivided;
        if negb constrained then
          st' ← subdivide isNextTo st to_be_subdivided_idx;
          to_be_subdivided' ← cell_at (cell_data st') to_be_subdivided_idx;
          queue' ← push_children (cell_data st')
                     (children_list (children to_be_subdivided')) popped;
          Some (st', queue')
        else
          queue' ← push_constrainers (cell_data st) to_be_subdivided
                     (adjacency_lists (adjacent_cells to_be_subdivided)) queue;
          Some (st, queue')
  end.

(** [while (!all_to_be_subdivided.empty())], bounded by [fuel] *)
Fixpoint density_loop (fuel : nat) (st : State F) (queue : list Z) : option (State F) :=
  match queue with
  | [] => Some st
  | _ =>
      match fuel with
      | O => None
      | S fuel' =>
          match density_step st queue with
          | Some (st', queue') => density_loop fuel' st' queue'
          | None => None
          end
      end
  end.

(** [Cross3D::createMinimalDensityPattern]; the [assert] on an arena that is
    empty aborts with [None]. *)
Definition createMinimalDensityPattern (fuel : nat) (st : State F) : option (State F) :=
  match cell_data st with
  | [] => None
  | _ => density_loop fuel st [0]
  end.

(** The description of the queue discipline in the specification: the
    children that are present and too sparse, in slot order ... *)
Definition too_sparse (cd : list (Cell F)) (child_idx : Z) : bool :=
  (child_idx >=? 0) &&
  match cell_at cd child_idx with
  | Some child => shouldBeSubdivided child
  | None => false
  end.

Definition sparse_children (cd : list (Cell F)) (cell : Cell F) : list Z :=
  List.filter (too_sparse cd) (children_list (children cell)).

(** ... and the neighbours that are strictly shallower than the cell, side
    by side and link by link. *)
Definition constrains (cd : list (Cell F)) (cell : Cell F) (neighbor : LinkNode) : bool :=
  match cell_at cd (to_index (snd neighbor)) with
  | Some N => depth N <? depth cell
  | None => false
  end.

Definition constraining_neighbors (cd : list (Cell F)) (cell : Cell F) : list Z :=
  List.map (fun neighbor : LinkNode => to_index (snd neighbor))
    (List.filter (constrains cd cell) (concat (adjacency_lists (adjacent_cells cell)))).

End DensityPolicy.

(** ** The slice walker *)

(** What the walker writes to the log. *)
Inductive LogEvent := CellsAboveAlreadyIn | LayersHigherThanPrisms.

Section SliceWalker.
Context {F : Type}.

(** The first loop of [Cross3D::getBottomSequence]: follow [children[0]]
    while the cell is subdivided. *)
Fixpoint descend (fuel : nat) (cd : list (Cell F)) (last_cell : Z) : option Z :=
  C ← cell_at cd last_cell;
  if is_subdivided C then
    match fuel with
    | O => None
    | S fuel' => descend fuel' cd (child0 (children C))
    end
  else Some last_cell.

(** The second loop: follow the first link to the right while there is one;
    the cells after [last_cell], in order. *)
Fixpoint walk_right (fuel : nat) (cd : list (Cell F)) (last_cell : Z) : option (list Z) :=
  C ← cell_at cd last_cell;
  right_links ← adj_get (adjacent_cells C) RIGHT;
  match right_links with
  | [] => Some []
  | front :: _ =>
      match fuel with
      | O => None
      | S fuel' =>
          rest ← walk_right fuel' cd (to_index (snd front));
          Some (to_index (snd front) :: rest)
      end
  end.

(** [Cross3D::getBottomSequence]: the [layer_sequence] of the walker, each
    cell pointer as the position of the cell. *)
Definition getBottomSequence (fuel : nat) (st : State F) : option (list Z) :=
  first ← descend fuel (cell_data st) 0;
  rest ← walk_right fuel (cell_data st) first;
  Some (first :: rest).

(** The [index] of the cell an optional neighbour in the sequence points
    to, [-1] if there is none. *)
Definition index_or_minus_one (cd : list (Cell F)) (it : option Z) : option Z :=
  match it with
  | None => Some (-1)
  | Some p => C ← cell_at cd p; Some (index C)
  end.

(** The loop over [neighbors_above]: the cells to insert, and what is
    logged meanwhile. *)
Fixpoint cells_above (cd : list (Cell F)) (cell_before_idx cell_after_idx : Z)
    (neighbors_above : list LinkNode) : option (list Z * list LogEvent) :=
  match neighbors_above with
  | [] => Some ([], [])
  | neighbor_above :: rest =>
      let to := to_index (snd neighbor_above) in
      if negb (to =? cell_before_idx) && negb (to =? cell_after_idx) then
        _ ← cell_at cd to;
        '(ins, log) ← cells_above cd cell_before_idx cell_after_idx rest;
        Some (to :: ins, log)
      else
        '(ins, log) ← cells_above cd cell_before_idx cell_after_idx rest;
        Some (ins, CellsAboveAlreadyIn :: log)
  end.

(** The first [for] loop of [Cross3D::advanceSequence]: [passed] holds, last
    first, the part of the sequence in front of the iterator, [todo] the
    part from the iterator on.  Both [assert]s abort with [None]. *)
Fixpoint replace_pass (cd : list (Cell F)) (new_z : Z) (passed todo : list Z)
    (log : list LogEvent) : option (list Z * list LogEvent) :=
  match todo with
  | [] => Some (rev passed, log)
  | it :: after =>
      cell ← cell_at cd it;
      if rmax (Prism.z_range (prism cell)) <? new_z then
        cell_before_idx ← index_or_minus_one cd (head passed);
        cell_after_idx ← index_or_minus_one cd (head after);
        neighbors_above ← adj_get (adjacent_cells cell) UP;
        match neighbors_above with
        | [] => None
        | _ =>
            '(ins, log') ← cells_above cd cell_before_idx cell_after_idx neighbors_above;
            match ins with
            | [] => None
            | _ => replace_pass cd new_z (rev ins ++ passed) after (log ++ log')
            end
        end
      else replace_pass cd new_z (it :: passed) after log
  end.

(** The second [for] loop: is some cell of the sequence still below
    [new_z]? *)
Fixpoint still_below (cd : list (Cell F)) (new_z : Z) (sequence : list Z) : option bool :=
  match sequence with
  | [] => Some false
  | it :: rest =>
      cell ← cell_at cd it;
      if rmax (Prism.z_range (prism cell)) <? new_z then Some true
      else still_below cd new_z rest
  end.

(** [Cross3D::advanceSequence]: the [while] loop, bounded by [fuel]; the
    new sequence and the log. *)
Fixpoint advance_loop (fuel : nat) (cd : list (Cell F)) (new_z : Z)
    (sequence : list Z) (log : list LogEvent) : option (list Z * list LogEvent) :=
  match fuel with
  | O => None
  | S fuel' =>
      '(sequence', log') ← replace_pass cd new_z [] sequence log;
      new_z_is_beyond_current ← still_below cd new_z sequence';
      if new_z_is_beyond_current : bool then
        advance_loop fuel' cd new_z sequence' (log' ++ [LayersHigherThanPrisms])
      else Some (sequence', log')
  end.

Definition advanceSequence (fuel : nat) (st : State F) (walker : list Z) (new_z : Z)
  : option (list Z * list LogEvent) :=
  advance_loop fuel (cell_data st) new_z walker [].

(** [c'] is reached from [c] by stepping to [children[0]] from subdivided
    cells only. *)
Inductive descends (cd : list (Cell F)) : Z -> Z -> Prop :=
  | descends_here c : descends cd c c
  | descends_down c C c' :
      cell_at cd c = Some C -> is_subdivided C = true ->
      descends cd (child0 (children C)) c' -> descends cd c c'.

(** Links lead to cells that are not subdivided: [subdivide] hands the
    links of a cell over to its children before it sets the flag. *)
Definition links_reach_active (st : State F) : Prop :=
  forall c C S l it L,
    cell_at (cell_data st) c = Some C ->
    adj_get (adjacent_cells C) S = Some l -> (it, L) ∈ l ->
    exists N, cell_at (cell_data st) (to_index L) = Some N /\ is_subdivided N = false.

End SliceWalker.

(** ** Adjacency of two cells *)

Section NextTo.
Context {F : Type}.
(** The geometry helpers [isNextTo] calls are declared outside the sources
    at hand and are left open: [double] arithmetic, polygons with their
    area and intersection, [LinearAlg2D::areCollinear], and the operations
    of [Range<coord_t>]. *)
Variables (double Polygons : Type).
Variable polygon_area : list Point -> double.
Variable polygon_intersection : list Point -> list Point -> Polygons.
Variable polygons_area : Polygons -> double.
Variables (dsub dmin : double -> double -> double) (dabs : double -> double).
Variable dlt : double -> double -> bool.
Variables (d0 d100 : double).
Variable areCollinear : LineSegment -> LineSegment -> bool.
Variable range_overlap : Range -> Range -> bool.
Variable range_expanded : Range -> Z -> Range.
Variable range_default : Range.
Variable range_include : Range -> Z -> Range.
Variable range_intersection : Range -> Range -> Range.
Variable range_size : Range -> Z.
Variable segment_default : LineSegment.

(** Modelled from the spec: [dot] is declared in utils/IntPoint.h, not part
    of the sources at hand; it is the inner product of two vectors. *)
Definition dot (p q : Point) : Z := X p * X q + Y p * Y q.

(** [LineSegment::getVector] *)
Definition getVector (s : LineSegment) : Point := psub (to s) (from s).

(** [Triangle::toPolygon]; the [assert] on the area aborts with [None]. *)
Definition toPolygon (T : Triangle.t) : option (list Point) :=
  let second := if Triangle.straight_corner_is_left T then Triangle.a T else Triangle.b T in
  let third := if Triangle.straight_corner_is_left T then Triangle.b T else Triangle.a T in
  let ret := [Triangle.straight_corner T; second; third] in
  if dlt d0 (polygon_area ret) then Some ret else None.

(** The part of [isNextTo] behind the [switch], on the two edges chosen
    there; [assert(a_size > 0)] aborts with [None]. *)
Definition edges_next_to (a_edge b_edge : LineSegment) : option bool :=
  if negb (areCollinear a_edge b_edge) then Some false
  else
    let a_vec := getVector a_edge in
    let a_size := vSize a_vec in
    if a_size >? 0 then
      let a_edge_projected := mkRange 0 a_size in
      let b_edge_projected :=
        range_include
          (range_include range_default
             (Z.quot (dot (psub (from b_edge) (from a_edge)) a_vec) a_size))
          (Z.quot (dot (psub (to b_edge) (from a_edge)) a_vec) a_size) in
      Some (range_size (range_intersection a_edge_projected b_edge_projected) >? 10)
    else None.

(** [Cross3D::isNextTo] *)
Definition isNextTo (a b : Cell F) (side : Direction) : option bool :=
  match side with
  | UP | DOWN =>
      if negb (range_overlap (Prism.z_range (prism a))
                 (range_expanded (Prism.z_range (prism b)) 10))
      then Some false
      else
        a_polygon ← toPolygon (Prism.triangle (prism a));
        let a_area := polygon_area a_polygon in
        b_polygon ← toPolygon (Prism.triangle (prism b));
        let b_area := polygon_area b_polygon in
        let intersection := polygon_intersection a_polygon b_polygon in
        let intersection_area := polygons_area intersection in
        let triangles_overlap :=
          dlt (dabs (dsub intersection_area (dmin a_area b_area))) d100 in
        Some triangles_overlap
  | LEFT =>
      edges_next_to (Triangle.getFromEdge (Prism.triangle (prism a)))
                    (Triangle.getToEdge (Prism.triangle (prism b)))
  | RIGHT =>
      edges_next_to (Triangle.getToEdge (Prism.triangle (prism a)))
                    (Triangle.getFromEdge (Prism.triangle (prism b)))
  | COUNT => edges_next_to segment_default segment_default
  end.

(** The two tests in the words of the specification. *)
Definition z_ranges_touch (a b : Cell F) : bool :=
  range_overlap (Prism.z_range (prism a)) (range_expanded (Prism.z_range (prism b)) 10).

Definition footprints_match (a_polygon b_polygon : list Point) : bool :=
  dlt (dabs (dsub (polygons_area (polygon_intersection a_polygon b_polygon))
                  (dmin (polygon_area a_polygon) (polygon_area b_polygon))))
      d100.

Definition projections_overlap (a_edge b_edge : LineSegment) : Z :=
  let a_vec := getVector a_edge in
  let a_size := vSize a_vec in
  range_size
    (range_intersection (mkRange 0 a_size)
       (range_include
          (range_include range_default
             (Z.quot (dot (psub (from b_edge) (from a_edge)) a_vec) a_size))
          (Z.quot (dot (psub (to b_edge) (from a_edge)) a_vec) a_size))).

End NextTo.

(** ** Invariants of the adjacency graph *)

Global Instance Direction_eq_dec : EqDecision Direction.
Proof. solve_decision. Defined.

Section Invariants.
Context {F : Type}.
Implicit Types (st : State F) (c : Z) (d : Direction) (it : LinkIterator) (L : Link).

(** The node at address [it] holds link [L] in side [d] of the cell at [c]. *)
Definition has_link st c d it L : Prop :=
  exists l, links st c d = Some l /\ (it, L) ∈ l.

(** A cell without its neighbour lists. *)
Definition forget_links (C : Cell F) : Cell F := with_adjacent C adj_empty.

(** Two states hold the same cells up to their neighbour lists. *)
Definition same_cells st st' : Prop :=
  forget_links <$> cell_data st' = forget_links <$> cell_data st.

(** A cell of the arena other than the sentinel root, whatever its
    neighbour lists hold. *)
Definition arena_cell st (a : Cell F) : Prop :=
  exists i A, 0 < i /\ cell_at (cell_data st) i = Some A /\ forget_links a = forget_links A.

(** [isNextTo] fails none of its assertions on these cells, for the four
    sides. *)
Definition returns_on_arena (isNextTo : Cell F -> Cell F -> Direction -> option bool) st
  : Prop :=
  forall a b side, side <> COUNT -> arena_cell st a -> arena_cell st b ->
    is_Some (isNextTo a b side).

(** Node addresses: all below the next free one, no address twice. *)
Record wf_mem st : Prop := {
  mem_bounded : forall c d it L, has_link st c d it L -> (it < next_node st)%nat;
  mem_nodup : forall c d l, links st c d = Some l -> NoDup l.*1;
  mem_unique : forall c d it L c' d' L',
    has_link st c d it L -> has_link st c' d' it L' -> c = c' /\ d = d'
}.

(** The pairing invariant, for all links but the [dead] ones: the reverse of
    a link of side [d] of cell [c] sits in the opposite side of the cell the
    link leads to, leads back to [c], and has the link as its reverse. *)
Definition paired_except (dead : LinkIterator -> Prop) st : Prop :=
  forall c d it L, has_link st c d it L -> ~ dead it ->
    exists r, link_reverse L = Some r /\ ~ dead r /\
      has_link st (to_index L) (opposite d) r (mkLink c (Some it)).

Definition paired st : Prop := paired_except (fun _ => False) st.

(** No link leads to the sentinel root. *)
Definition targets_positive st : Prop :=
  forall c d it L, has_link st c d it L -> 0 < to_index L.

(** A cell as [createTree] leaves it: it knows its own position, a child
    slot that is not negative holds the position of a cell one level
    deeper, never that of the root, and slots 2 and 3 are filled together. *)
Definition wf_cell (cd : list (Cell F)) (p : Z) (C : Cell F) : Prop :=
  index C = p /\
  (forall k, k ∈ children_list (children C) -> 0 <= k ->
    0 < k /\ exists K, cell_at cd k = Some K /\ depth K = depth C + 1) /\
  (0 <= child2 (children C) -> 0 <= child3 (children C)).

Definition wf_tree (cd : list (Cell F)) : Prop :=
  forall p C, cell_at cd p = Some C -> wf_cell cd p C.

(** A cell that was never linked nor subdivided. *)
Definition fresh_cell (C : Cell F) : Prop :=
  adjacent_cells C = adj_empty /\ is_subdivided C = false.

(** What [setVolume] and [setSpecificationAllowance] leave of a cell:
    everything but its density bookkeeping. *)
Definition skeleton (C : Cell F) : Prism.t * Z * Z * bool * Adjacency * Children :=
  (prism C, index C, depth C, is_subdivided C, adjacent_cells C, children C).

Definition same_skeleton (cd cd' : list (Cell F)) : Prop :=
  skeleton <$> cd' = skeleton <$> cd.

(** Cells stay where they are and keep all but their child slots. *)
Definition grows (cd cd' : list (Cell F)) : Prop :=
  forall k K, cell_at cd k = Some K -> exists ch, cell_at cd' k = Some (with_children K ch).

(** Cells stay where they are; below the root they keep their skeleton,
    and the root keeps its depth, position, prism, neighbours and flag. *)
Definition settles (cd cd' : list (Cell F)) : Prop :=
  forall k K, cell_at cd k = Some K ->
    exists K', cell_at cd' k = Some K' /\
      depth K' = depth K /\ index K' = index K /\ prism K' = prism K /\
      adjacent_cells K' = adjacent_cells K /\ is_subdivided K' = is_subdivided K /\
      (k <> 0 -> children K' = children K).

(** The child slots as the recursive [createTree] fills them: a slot that
    holds no cell holds -1, a cell has its first two children exactly when
    it lies above [max_depth], and a cell without children holds -1 in
    all four slots. *)
Definition tidy_cell (max_depth : Z) (C : Cell F) : Prop :=
  (forall k, k ∈ children_list (children C) -> k < 0 -> k = -1) /\
  (depth C < max_depth -> 0 <= child0 (children C) /\ 0 <= child1 (children C)) /\
  (max_depth <= depth C -> children C = mkChildren (-1) (-1) (-1) (-1)).

(** What a call of [createTree] on the cell at [q] achieves: beyond
    [tree_frame], the cell at [q] and all cells it appended are as
    [wf_cell] and [tidy_cell] want them, and the appended cells are
    fresh. *)
Definition subtree_built (max_depth : Z) (q : Z) (cd cd' : list (Cell F)) : Prop :=
  tree_frame q cd cd' /\
  (forall p C, p = q \/ Z.of_nat (length cd) <= p ->
     cell_at cd' p = Some C -> wf_cell cd' p C /\ tidy_cell max_depth C) /\
  (forall p C, Z.of_nat (length cd) <= p -> cell_at cd' p = Some C -> fresh_cell C).

(** One-level balance: linked cells differ in depth by one at most. *)
Definition balanced st : Prop :=
  forall c d it L C N, has_link st c d it L ->
    cell_at (cell_data st) c = Some C ->
    cell_at (cell_data st) (to_index L) = Some N ->
    Z.abs (depth C - depth N) <= 1.

(** No neighbour of the cell at [c] is shallower than it. *)
Definition unconstrained st c : Prop :=
  forall d it L C N, has_link st c d it L ->
    cell_at (cell_data st) c = Some C ->
    cell_at (cell_data st) (to_index L) = Some N ->
    depth C <= depth N.

(** What [subdivide] leaves of a cell: everything but its neighbour lists
    and its [is_subdivided] flag. *)
Definition cell_shape (C : Cell F) : Prism.t * Z * Z * Children :=
  (prism C, index C, depth C, children C).

Definition same_tree st st' : Prop :=
  forall j, cell_shape <$> cell_at (cell_data st') j = cell_shape <$> cell_at (cell_data st) j.

(** The invariant of the adjacency manager. *)
Record adjacency_inv st : Prop := {
  inv_tree : wf_tree (cell_data st);
  inv_mem : wf_mem st;
  inv_paired : paired st;
  inv_targets : targets_positive st
}.

End Invariants.

Section Effects.
Context {F : Type}.
Implicit Types (st : State F) (c : Z) (d : Direction) (it : LinkIterator) (L : Link)
  (l : list LinkNode).

(** [st'] is [st] with the list of side [d] of cell [c] replaced by [l'] and
    [k] more node addresses in use. *)
Definition modifies st st' c d l' (k : nat) : Prop :=
  links st' c d = Some l' /\
  (forall c' d', c' <> c \/ d' <> d -> links st' c' d' = links st c' d') /\
  same_cells st st' /\
  next_node st' = (k + next_node st)%nat.

(** [st'] is [st] with two different lists replaced. *)
Definition modifies2 st st' c1 d1 l1' c2 d2 l2' (k : nat) : Prop :=
  links st' c1 d1 = Some l1' /\
  links st' c2 d2 = Some l2' /\
  (forall c' d', c' <> c1 \/ d' <> d1 -> c' <> c2 \/ d' <> d2 ->
     links st' c' d' = links st c' d') /\
  same_cells st st' /\
  next_node st' = (k + next_node st)%nat.

(** [st'] is [st] with two more links, each the reverse of the other: one
    from [c1] to [c2] in side [d1], one back in the opposite side. *)
Definition adds_pair st st' c1 d1 c2 : Prop :=
  same_cells st st' /\
  next_node st' = S (S (next_node st)) /\
  (forall c d it L, has_link st' c d it L <->
     has_link st c d it L \/
     (c = c1 /\ d = d1 /\ it = next_node st /\
        L = mkLink c2 (Some (S (next_node st)))) \/
     (c = c2 /\ d = opposite d1 /\ it = S (next_node st) /\
        L = mkLink c1 (Some (next_node st)))) /\
  (forall c d l, links st c d = Some l -> exists l', links st' c d = Some l') /\
  wf_mem st'.

(** [st'] is [st] without the links that [gone] singles out. *)
Definition removes st st' (gone : Z -> Direction -> LinkIterator -> Prop) : Prop :=
  same_cells st st' /\
  next_node st' = next_node st /\
  (forall c d it L, has_link st' c d it L <-> has_link st c d it L /\ ~ gone c d it) /\
  (forall c d l, links st c d = Some l -> exists l', links st' c d = Some l') /\
  wf_mem st'.

End Effects.

Section LoopInvariants.
Context {F : Type}.
Implicit Types (st : State F).

(** The invariant of the loop of [subdivide] over the links of side [s] of
    the cell at [ci]: [D] holds the addresses of the links the loop is done
    with, whose reverses are erased already; [todo] is what is left of the
    list the loop walks. *)
Record side_inv st (ci : Z) (s : Direction) (D : list LinkIterator)
    (todo : list LinkNode) : Prop := {
  si_tree : wf_tree (cell_data st);
  si_mem : wf_mem st;
  si_paired : paired_except (fun it => it ∈ D) st;
  si_targets : targets_positive st;
  si_dead_here : forall c d it L, has_link st c d it L -> it ∈ D -> c = ci /\ d = s;
  si_dead_bounded : forall it, it ∈ D -> (it < next_node st)%nat;
  si_todo : forall it L, (it, L) ∈ todo -> has_link st ci s it L /\ it ∉ D;
  si_todo_nodup : NoDup todo.*1;
  si_covered : forall it L, has_link st ci s it L -> it ∈ D \/ (it, L) ∈ todo
}.

(** Balance, with the cell at [ci] not constrained by any neighbour. *)
Definition balanced_around st (ci : Z) : Prop := balanced st /\ unconstrained st ci.

End LoopInvariants.

Section Runs.
Context {F : Type}.
Variable isNextTo : Cell F -> Cell F -> Direction -> option bool.
Variable max_depth : Z.

(** A completed sequence of subdivisions, each of a cell for which
    [canSubdivide] holds at that moment. *)
Inductive subdivisions : State F -> State F -> Prop :=
  | subdivisions_nil st : subdivisions st st
  | subdivisions_step st st1 st2 ci C :
      subdivisions st st1 ->
      cell_at (cell_data st1) ci = Some C ->
      canSubdivide max_depth st1 C = Some true ->
      subdivide isNextTo st1 ci = Some st2 ->
      subdivisions st st2.

(** The pairing invariant in the words of the specification: the reverse
    of a link [L] of side [S] of cell [C] is a node of the opposite side of
    the cell [L] leads to, leads back to [C], and has [L] as its reverse. *)
Definition links_paired (st : State F) : Prop :=
  forall c C S l it L,
    cell_at (cell_data st) c = Some C ->
    adj_get (adjacent_cells C) S = Some l -> (it, L) ∈ l ->
    exists r Lr N lr,
      link_reverse L = Some r /\
      cell_at (cell_data st) (to_index L) = Some N /\
      adj_get (adjacent_cells N) (opposite S) = Some lr /\
      (r, Lr) ∈ lr /\
      to_index Lr = index C /\
      link_reverse Lr = Some it.

End Runs.

Section Checks.
Context {F : Type}.

(** An executable form of [wf_tree], for concrete arenas. *)
Definition wf_child_b (cd : list (Cell F)) (C : Cell F) (k : Z) : bool :=
  (k <? 0) ||
  ((0 <? k) &&
   match cell_at cd k with
   | Some K => depth K =? depth C + 1
   | None => false
   end).

Definition wf_cell_b (cd : list (Cell F)) (p : nat) (C : Cell F) : bool :=
  (index C =? Z.of_nat p) &&
  forallb (wf_child_b cd C) (children_list (children C)) &&
  ((child2 (children C) <? 0) || (0 <=? child3 (children C))).

Fixpoint wf_cells_b (cd : list (Cell F)) (p : nat) (cells : list (Cell F)) : bool :=
  match cells with
  | [] => true
  | C :: rest => wf_cell_b cd p C && wf_cells_b cd (S p) rest
  end.

Definition wf_tree_b (cd : list (Cell F)) : bool := wf_cells_b cd 0 cd.

(** No cell has a neighbour yet, as after [createTree]. *)
Definition no_links (st : State F) : Prop :=
  forall c C, cell_at (cell_data st) c = Some C -> adjacent_cells C = adj_empty.

Definition no_links_b (st : State F) : bool :=
  forallb (fun C => match adjacent_cells C with
                    | mkAdj [] [] [] [] => true
                    | _ => false
                    end) (cell_data st).

(** An executable form of [links_reach_active]. *)
Definition reaches_active_b (cd : list (Cell F)) (x : LinkNode) : bool :=
  match cell_at cd (to_index (snd x)) with
  | Some N => negb (is_subdivided N)
  | None => false
  end.

Definition links_reach_active_b (st : State F) : bool :=
  forallb (fun C => forallb (forallb (reaches_active_b (cell_data st)))
                      (adjacency_lists (adjacent_cells C)))
    (cell_data st).

End Checks.

(** ** Concrete arenas *)

Module Examples.

(** The arena at the moment [createTree()] first calls the recursive
    builder, for a bounding box of 10 x 10 x 10 microns: the sentinel root
    and the first level-1 cell. *)
Definition tiny_triangle : Triangle.t :=
  Triangle.mk (mkPoint 0 10) (mkPoint 0 0) (mkPoint 10 10) Triangle.AC_TO_AB true.

Definition tiny_prism : Prism.t := Prism.mk tiny_triangle (mkRange 0 10) true.

Definition sentinel_prism : Prism.t :=
  Prism.mk (Triangle.mk (mkPoint 0 0) (mkPoint 0 0) (mkPoint 0 0) Triangle.AC_TO_AB true)
    (mkRange 0 0) true.

Definition tiny_arena : list (Cell unit) :=
  [ with_children (Cell_new tt 0 sentinel_prism 0 0) (mkChildren 1 0 (-1) (-1));
    Cell_new tt 0 tiny_prism 1 1 ].

(** A level-1 cell whose z-range is as high as its hypotenuse is long. *)
Definition tall_triangle : Triangle.t :=
  Triangle.mk (mkPoint 0 1000) (mkPoint 0 0) (mkPoint 1000 1000) Triangle.AC_TO_AB true.

Definition tall_arena : list (Cell unit) :=
  [ with_children (Cell_new tt 0 sentinel_prism 0 0) (mkChildren 1 0 (-1) (-1));
    Cell_new tt 0 (Prism.mk tall_triangle (mkRange 0 1414) true) 1 1 ].

(** The whole tree over a box of 1000 x 1000 x 1414 microns, with the
    floating-point bookkeeping reduced to [unit]. *)
Definition box : AABB3D.t := AABB3D.mk (Point3.mk 0 0 0) (Point3.mk 1000 1000 1414).

Definition example_tree (max_depth : Z) : list (Cell unit) :=
  default []
    (createTreeRoot tt 0 sentinel_prism (fun _ => tt) (fun _ => tt)
       (fun _ _ => tt) (fun _ _ => tt) (fun _ _ => tt) tt (fun _ => tt)
       (S (S (Z.to_nat max_depth))) max_depth box []).

Definition box_arena : list (Cell unit) := example_tree 3.

Definition box_state : State unit := mkState box_arena 0.

(** Every child is taken to touch every neighbour of its parent. *)
Definition always_next (a b : Cell unit) (d : Direction) : option bool := Some true.

Definition box_state_1 : State unit :=
  default box_state (subdivide always_next box_state 0).

Definition box_state_2 : State unit :=
  default box_state_1 (subdivide always_next box_state_1 1).

(** The other order: the second level-1 cell is subdivided before the
    root is. *)
Definition box_state_14 : State unit :=
  default box_state (subdivide always_next box_state 14).

Definition box_state_14_0 : State unit :=
  default box_state_14 (subdivide always_next box_state_14 0).

(** The tree for [max_depth = 0]: the two level-1 cells are leaves, one
    level below [max_depth]. *)
Definition flat_arena : list (Cell unit) := example_tree 0.

(** Three prisms on top of each other, 10 microns high each, linked
    upwards and downwards, below the sentinel root. *)
Definition slab (idx z_min z_max : Z) (A : Adjacency) : Cell unit :=
  with_adjacent (Cell_new tt (-1) (Prism.mk tiny_triangle (mkRange z_min z_max) true) idx 3) A.

Definition stack_arena : list (Cell unit) :=
  [ Cell_new tt (-1) sentinel_prism 0 0;
    slab 1 0 10 (mkAdj [] [] [(0%nat, mkLink 2 (Some 1%nat))] []);
    slab 2 10 20 (mkAdj [] [] [(2%nat, mkLink 3 (Some 3%nat))]
                              [(1%nat, mkLink 1 (Some 0%nat))]);
    slab 3 20 30 (mkAdj [] [] [] [(3%nat, mkLink 2 (Some 2%nat))]) ].

Definition stack_state : State unit := mkState stack_arena 4.

(** Stand-ins for the geometry helpers, enough to run [isNextTo] on a
    cell and itself: areas by the shoelace formula, a polygon as its own
    intersection with itself, segments collinear when both end points of
    the second lie on the line of the first, and ranges as closed
    intervals. *)
Definition cross (p q : Point) : Z := X p * Y q - Y p * X q.

Definition shoelace (poly : list Point) : Z :=
  match poly with
  | [p; q; r] => Z.quot (cross (psub q p) (psub r p)) 2
  | _ => 0
  end.

Definition same_line (s1 s2 : LineSegment) : bool :=
  (cross (psub (to s1) (from s1)) (psub (from s2) (from s1)) =? 0) &&
  (cross (psub (to s1) (from s1)) (psub (to s2) (from s1)) =? 0).

Definition interval_overlap (r1 r2 : Range) : bool :=
  (rmin r1 <? rmax r2) && (rmin r2 <? rmax r1).

Definition interval_expanded (r : Range) (amount : Z) : Range :=
  mkRange (rmin r - amount) (rmax r + amount).

Definition interval_empty : Range := mkRange (2 ^ 62) (- 2 ^ 62).

Definition interval_include (r : Range) (v : Z) : Range :=
  mkRange (Z.min (rmin r) v) (Z.max (rmax r) v).

Definition interval_intersection (r1 r2 : Range) : Range :=
  mkRange (Z.max (rmin r1) (rmin r2)) (Z.min (rmax r1) (rmax r2)).

Definition interval_size (r : Range) : Z := rmax r - rmin r.

(** [isNextTo] over these stand-ins. *)
Definition geo_next_to (a b : Cell unit) (side : Direction) : option bool :=
  isNextTo (F := unit) Z (list Point) shoelace (fun p _ => p) shoelace
    Z.sub Z.min Z.abs Z.ltb 0 100 same_line interval_overlap
    interval_expanded interval_empty interval_include
    interval_intersection interval_size
    (mkSeg (mkPoint 0 0) (mkPoint 0 0)) a b side.

Definition tall_cell : Cell unit :=
  Cell_new tt 0 (Prism.mk tall_triangle (mkRange 0 1414) true) 1 1.

End Examples.


(** ** The volume of the curve inside a cell *)

Section ActualizedVolume.
Context {F : Type}.
(** Floating-point arithmetic of the source, left open: the conversion
    [INT2MM] and the product. *)
Variables (INT2MM : Z -> F) (fmul : F -> F -> F).
(** The member [line_width]. *)
Variable line_width : Z.

(** [Cross3D::getActualizedVolume] *)
Definition getActualizedVolume (node : Cell F) : F :=
  let triangle := Prism.triangle (prism node) in
  let ac_middle :=
    pdiv (padd (Triangle.a triangle) (Triangle.straight_corner triangle)) 2 in
  let bc_middle :=
    pdiv (padd (Triangle.b triangle) (Triangle.straight_corner triangle)) 2 in
  let ab_middle := pdiv (padd (Triangle.a triangle) (Triangle.b triangle)) 2 in
  let from_to :=
    match Triangle.dir triangle with
    | Triangle.AC_TO_AB => (ac_middle, ab_middle)
    | Triangle.AC_TO_BC => (ac_middle, bc_middle)
    | Triangle.AB_TO_BC => (ab_middle, bc_middle)
    end in
  fmul (fmul (INT2MM line_width) (INT2MM (vSize (psub (fst from_to) (snd from_to)))))
       (INT2MM (rmax (Prism.z_range (prism node)) - rmin (Prism.z_range (prism node)))).

End ActualizedVolume.

(** ** The debugging check of the depths *)

Section DebugChecks.
Context {F : Type}.

(** The inner loop of [Cross3D::debugCheckDepths] over the child slots of
    one cell, which stops at the first negative slot: the number of
    problems it counts.  A slot beyond the arena is undefined in the
    source: [None]. *)
Fixpoint debugCheckDepths_children (cd : list (Cell F)) (cell : Cell F) (chs : list Z)
  : option nat :=
  match chs with
  | [] => Some O
  | child_idx :: rest =>
      if child_idx <? 0 then Some O
      else
        child ← cell_at cd child_idx;
        problems ← debugCheckDepths_children cd cell rest;
        Some (if negb (depth child =? depth cell + 1) then S problems else problems)
  end.

(** The outer loop over the cells of the arena. *)
Fixpoint debugCheckDepths_cells (cd : list (Cell F)) (cells : list (Cell F)) : option nat :=
  match cells with
  | [] => Some O
  | cell :: rest =>
      here ← debugCheckDepths_children cd cell (children_list (children cell));
      later ← debugCheckDepths_cells cd rest;
      Some (here + later)%nat
  end.

(** [Cross3D::debugCheckDepths]; [assert(problems == 0)] aborts with
    [None]. *)
Definition debugCheckDepths (cd : list (Cell F)) : option unit :=
  problems ← debugCheckDepths_cells cd cd;
  if Nat.eqb problems 0 then Some tt else None.

End DebugChecks.

(** ** Relating two arenas cell by cell *)

Section CellByCell.
Context {F : Type}.

(** The arenas have the same length, and the cell at every position of the
    first is related by [R] to the cell at that position of the second. *)
Definition cells_related (R : Cell F -> Cell F -> Prop) (cd cd' : list (Cell F)) : Prop :=
  length cd' = length cd /\
  forall p C, cell_at cd p = Some C -> exists C', cell_at cd' p = Some C' /\ R C C'.

End CellByCell.

(** ** A tree with numbers in the density fields *)

Module Measured.

(** The subtree below one level-1 cell over a box of 1000 x 1000 x 1414
    microns, built down to depth 2, before any volume is set; integers
    stand for the floating-point fields. *)
Definition raw_arena : list (Cell Z) :=
  default []
    (createTree 0 (-1) 5 2
       [ with_children (Cell_new 0 (-1) Examples.sentinel_prism 0 0)
           (mkChildren 1 (-1) (-1) (-1));
         Cell_new 0 (-1) (Prism.mk Examples.tall_triangle (mkRange 0 1414) true) 1 1 ]
       1).

(** The same with the volumes of the cells below cell 1, in cubic microns
    and without the factor 0.5. *)
Definition sized_arena : list (Cell Z) :=
  default [] (setVolume (fun z => z) (fun z => z) Z.mul 1 5 raw_arena 1).

(** The same with allowances for a density of 1 everywhere. *)
Definition rated_arena : list (Cell Z) :=
  default []
    (setSpecificationAllowance Z.mul Z.add Z.max (fun _ => 1) 5 sized_arena 1).

End Measured.

(** ** Accounting for the links around a subdivided cell *)

Section Surgery.
Context {F : Type}.
Implicit Types (st : State F).

(** Side [d] of the cell at [c] holds no link. *)
Definition unlinked st (c : Z) (d : Direction) : Prop :=
  forall it L, ~ has_link st c d it L.

(** Two cells joined by a link of side [dir] from [b] to [a] and its reverse
    in the opposite side of [a]. *)
Definition pair_linked st (b : Z) (dir : Direction) (a : Z) : Prop :=
  exists it r,
    has_link st b dir it (mkLink a (Some r)) /\
    has_link st a (opposite dir) r (mkLink b (Some it)).

(** The child slots the loops [for (idx_t child_idx : cell.children)] of
    [subdivide] visit: those in front of the first negative one. *)
Fixpoint present_children (chs : list Z) : list Z :=
  match chs with
  | [] => []
  | child_idx :: rest => if child_idx <? 0 then [] else child_idx :: present_children rest
  end.

(** What [subdivide] does to the links while it works on the cell at [ci]
    with children [kids]: it links two children with each other, links a
    child with a cell that a link of the opposite side leads from, erases
    a link that leads to [ci], empties one side of [ci], or leaves the
    links alone. *)
Inductive surgery_step (ci : Z) (kids : list Z) : State F -> State F -> Prop :=
  | step_siblings st st' b dir a :
      b ∈ kids -> a ∈ kids -> b <> ci -> a <> ci ->
      adds_pair st st' b dir a -> surgery_step ci kids st st'
  | step_connect st st' ch s n r Lr :
      ch ∈ kids -> ch <> ci -> has_link st n (opposite s) r Lr ->
      adds_pair st st' ch s n -> surgery_step ci kids st st'
  | step_erase st st' n d r nid :
      wf_mem st -> has_link st n d r (mkLink ci (Some nid)) ->
      removes st st' (fun _ _ it => it = r) -> surgery_step ci kids st st'
  | step_clear st st' s :
      removes st st' (fun c d _ => c = ci /\ d = s) -> surgery_step ci kids st st'
  | step_same st st' :
      (forall c d, links st' c d = links st c d) -> surgery_step ci kids st st'.

Inductive surgery (ci : Z) (kids : list Z) : State F -> State F -> Prop :=
  | surgery_done st : surgery ci kids st st
  | surgery_next st st1 st2 :
      surgery_step ci kids st st1 -> surgery ci kids st1 st2 -> surgery ci kids st st2.

End Surgery.

(** ** The cell subdivided second in the example run *)

(** The first level-1 cell of [Examples.box_state_1], linked with the
    second one to its right. *)
Definition box_cell_1 : Cell unit :=
  default (Cell_new tt 0 Examples.sentinel_prism 0 0)
    (cell_at (cell_data Examples.box_state_1) 1).

(** ** Reaching a cell upwards *)

Section UpReach.
Context {F : Type}.

(** [c'] is [c] or is reached from [c] along links of side [UP]. *)
Inductive up_reach (cd : list (Cell F)) : Z -> Z -> Prop :=
  | up_reach_here c : up_reach cd c c
  | up_reach_up c C l it L c' :
      cell_at cd c = Some C -> adj_get (adjacent_cells C) UP = Some l -> (it, L) ∈ l ->
      up_reach cd (to_index L) c' -> up_reach cd c c'.

(** The sequence is a path along the first link to the right of each of
    its cells, and its last cell has no link to the right. *)
Fixpoint right_path (cd : list (Cell F)) (c : Z) (rest : list Z) : Prop :=
  exists C l, cell_at cd c = Some C /\ adj_get (adjacent_cells C) RIGHT = Some l /\
    match rest with
    | [] => l = []
    | c' :: rest' =>
        (exists front l', l = front :: l' /\ to_index (snd front) = c') /\
        right_path cd c' rest'
    end.

End UpReach.

(** ** The arena below the root *)

Section BelowRoot.
Context {F : Type}.

(** Every cell but the sentinel root is as the recursive [createTree]
    leaves the cells it creates. *)
Definition tree_built (max_depth : Z) (cd : list (Cell F)) : Prop :=
  forall p C, 0 < p -> cell_at cd p = Some C -> wf_cell cd p C /\ tidy_cell max_depth C.

End BelowRoot.

(** ** Refining from the top *)

Section TopDown.
Context {F : Type}.
Variable isNextTo : Cell F -> Cell F -> Direction -> option bool.

(** A completed sequence of subdivisions in which every cell is subdivided
    before any of its children is. *)
Inductive top_down_subdivisions : State F -> State F -> Prop :=
  | top_down_nil st : top_down_subdivisions st st
  | top_down_step st st1 st2 ci C :
      top_down_subdivisions st st1 ->
      cell_at (cell_data st1) ci = Some C ->
      (forall k K, k ∈ children_list (children C) -> 0 <= k ->
         cell_at (cell_data st1) k = Some K -> is_subdivided K = false) ->
      subdivide isNextTo st1 ci = Some st2 ->
      top_down_subdivisions st st2.

End TopDown.

(** ** The arena: reading and updating cells *)

Section StoreLemmas.
Context {F : Type}.
Implicit Types (cd : list (Cell F)) (c : Cell F) (i j : Z).

Lemma cell_at_Some cd i c :
  cell_at cd i = Some c <-> 0 <= i /\ cd !! Z.to_nat i = Some c.
Proof.
  unfold cell_at. destruct (Z.ltb_spec i 0); split.
  - discriminate.
  - intros [? _]; lia.
  - auto.
  - by intros [_ ?].
Qed.

Lemma cell_at_range cd i c :
  cell_at cd i = Some c -> 0 <= i < Z.of_nat (length cd).
Proof.
  intros [Hi Hl]%cell_at_Some. apply lookup_lt_Some in Hl. lia.
Qed.

Lemma cell_at_in_range cd i :
  0 <= i < Z.of_nat (length cd) -> exists c, cell_at cd i = Some c.
Proof.
  intros Hi. destruct (lookup_lt_is_Some_2 cd (Z.to_nat i)) as [c Hc]; [lia|].
  exists c. apply cell_at_Some. split; [lia|done].
Qed.

Lemma update_cell_Some cd i f c :
  cell_at cd i = Some c -> update_cell cd i f = Some (<[Z.to_nat i := f c]> cd).
Proof. unfold update_cell. by intros ->. Qed.

Lemma update_cell_inv cd i f cd' :
  update_cell cd i f = Some cd' ->
  exists c, cell_at cd i = Some c /\ cd' = <[Z.to_nat i := f c]> cd.
Proof.
  unfold update_cell. destruct (cell_at cd i) as [c|]; [|discriminate].
  intros [= <-]. eauto.
Qed.

Lemma cell_at_insert_eq cd i c c' :
  cell_at cd i = Some c -> cell_at (<[Z.to_nat i := c']> cd) i = Some c'.
Proof.
  intros H. pose proof (cell_at_range _ _ _ H).
  apply cell_at_Some. split; [lia|]. apply list_lookup_insert_eq. lia.
Qed.

Lemma cell_at_insert_ne cd i j c' :
  0 <= i -> j <> i -> cell_at (<[Z.to_nat i := c']> cd) j = cell_at cd j.
Proof.
  intros Hi Hne. unfold cell_at. destruct (Z.ltb_spec j 0); [done|].
  apply list_lookup_insert_ne. lia.
Qed.

Lemma cell_at_app_l cd l j c :
  cell_at cd j = Some c -> cell_at (cd ++ l) j = Some c.
Proof.
  intros [Hj Hl]%cell_at_Some. apply cell_at_Some. split; [done|].
  by apply lookup_app_l_Some.
Qed.

Lemma cell_at_app_new cd c :
  cell_at (cd ++ [c]) (Z.of_nat (length cd)) = Some c.
Proof.
  apply cell_at_Some. split; [lia|].
  rewrite Nat2Z.id. by rewrite lookup_app_r, Nat.sub_diag.
Qed.

Lemma with_children_twice c ch ch' :
  with_children (with_children c ch) ch' = with_children c ch'.
Proof. done. Qed.

End StoreLemmas.
(** ** Theorems on triangles *)

(** C3: [Triangle::subdivide] returns two children whose straight corner is
    the midpoint of the parent's [a] and [b] and whose
    [straight_corner_is_left] is the parent's negated; child 0 runs from the
    parent's [a] to the parent's straight corner, child 1 from the parent's
    straight corner to the parent's [b]; the directions follow the table. *)
Theorem triangle_subdivide_children (T : Triangle.t) :
  let c0 := fst (Triangle.subdivide T) in
  let c1 := snd (Triangle.subdivide T) in
  Triangle.straight_corner c0 = midpoint (Triangle.a T) (Triangle.b T) /\
  Triangle.straight_corner c1 = midpoint (Triangle.a T) (Triangle.b T) /\
  Triangle.straight_corner_is_left c0 = negb (Triangle.straight_corner_is_left T) /\
  Triangle.straight_corner_is_left c1 = negb (Triangle.straight_corner_is_left T) /\
  Triangle.a c0 = Triangle.a T /\
  Triangle.b c0 = Triangle.straight_corner T /\
  Triangle.a c1 = Triangle.straight_corner T /\
  Triangle.b c1 = Triangle.b T /\
  (Triangle.dir c0, Triangle.dir c1) = Triangle.spec_child_dirs (Triangle.dir T).
Proof.
  destruct T as [sc pa pb d l]; cbn.
  repeat split; by destruct d.
Qed.

(** C7: [getFromEdge] and [getToEdge] return the segment the direction table
    selects when the straight corner is on the left, and its reversal
    otherwise. *)
Theorem triangle_edges_by_direction (T : Triangle.t) :
  Triangle.getFromEdge T =
    (if Triangle.straight_corner_is_left T then Triangle.spec_from_edge T
     else reverse (Triangle.spec_from_edge T)) /\
  Triangle.getToEdge T =
    (if Triangle.straight_corner_is_left T then Triangle.spec_to_edge T
     else reverse (Triangle.spec_to_edge T)).
Proof.
  unfold Triangle.getFromEdge, Triangle.getToEdge,
    Triangle.spec_from_edge, Triangle.spec_to_edge.
  destruct (Triangle.straight_corner_is_left T); by destruct (Triangle.dir T).
Qed.

(** ** The tree builder *)

Section CreateTreeProofs.
Context {F : Type}.
Variables (dflt : F) (junk : Z) (max_depth : Z).
Implicit Types (cd : list (Cell F)) (c : Cell F).

Lemma with_children_same c : with_children c (children c) = c.
Proof. by destruct c. Qed.

Lemma grows_refl cd : grows cd cd.
Proof. intros k K HK. exists (children K). by rewrite with_children_same. Qed.

Lemma grows_trans cd1 cd2 cd3 : grows cd1 cd2 -> grows cd2 cd3 -> grows cd1 cd3.
Proof.
  intros H1 H2 k K HK. destruct (H1 _ _ HK) as [ch1 HK1].
  destruct (H2 _ _ HK1) as [ch2 HK2]. exists ch2. by rewrite HK2.
Qed.

Lemma tree_frame_grows q cd cd' : tree_frame q cd cd' -> grows cd cd'.
Proof.
  intros (_ & Hoth & Hq) k K HK. destruct (decide (k = q)) as [->|Hne]; [by apply Hq|].
  exists (children K). rewrite with_children_same. by apply Hoth.
Qed.

Lemma wf_cell_grows cd cd' p c : grows cd cd' -> wf_cell cd p c -> wf_cell cd' p c.
Proof.
  intros Hg (Hi & Hk & H23). split; [done|]. split; [|done].
  intros k Hin H0. destruct (Hk k Hin H0) as (Hpos & K & HK & Hd).
  split; [done|]. destruct (Hg _ _ HK) as [ch HK']. eexists. split; [exact HK'|done].
Qed.

Lemma createTree_child_spec rec P tris p pd count z xy lo hi cd c :
  (forall cd1 q c1, cell_at cd1 q = Some c1 -> index c1 = q -> depth c1 = pd + 1 ->
     fresh_cell c1 ->
     exists cd2, rec cd1 q = Some cd2 /\ subtree_built max_depth q cd1 cd2) ->
  cell_at cd p = Some c ->
  exists cd',
    createTree_child dflt junk rec P tris p pd count z xy lo hi cd = Some cd' /\
    (length cd <= length cd')%nat /\
    (forall j c0, j <> p -> cell_at cd j = Some c0 -> cell_at cd' j = Some c0) /\
    cell_at cd' p =
      Some (with_children c (set_child (children c) (z * 2 + xy)
              (if z =? Z.quot count 2 then -1 else Z.of_nat (length cd)))) /\
    (z <> Z.quot count 2 ->
       is_child cd' (Z.of_nat (length cd))
         (if xy =? 0 then fst tris else snd tris) lo hi
         (child_is_expanding P z xy) (pd + 1)) /\
    (forall j C, Z.of_nat (length cd) <= j -> cell_at cd' j = Some C ->
       (wf_cell cd' j C /\ tidy_cell max_depth C) /\ fresh_cell C).
Proof.
  intros Hrec Hc. pose proof (cell_at_range _ _ _ Hc) as Hp.
  unfold createTree_child. destruct (Z.eqb_spec z (Z.quot count 2)) as [Hz|Hz].
  - erewrite update_cell_Some by done. eexists; split; [done|].
    rewrite length_insert. split; [done|]. split; [|split; [|split]].
    + intros j c0 Hj Hc0. rewrite cell_at_insert_ne by lia. done.
    + by erewrite cell_at_insert_eq.
    + done.
    + intros j C Hj HC. apply cell_at_range in HC. rewrite length_insert in HC. lia.
  - erewrite update_cell_Some by done. cbn [mbind option_bind].
    set (cd1 := <[Z.to_nat p := _]> cd).
    set (new := Cell_new _ _ _ _ _).
    assert (Hlen : length (cd1 ++ [new]) = S (length cd)).
    { rewrite length_app. subst cd1. rewrite length_insert. cbn. lia. }
    assert (Hnew : cell_at (cd1 ++ [new]) (Z.of_nat (length cd)) = Some new).
    { replace (length cd) with (length cd1) by (subst cd1; apply length_insert).
      apply cell_at_app_new. }
    rewrite Hlen.
    replace (Z.of_nat (S (length cd)) - 1) with (Z.of_nat (length cd)) by lia.
    destruct (Hrec _ _ _ Hnew eq_refl eq_refl) as (cd2 & -> & (Hle & Hoth & Hq) & Hwf & Hfr);
      [done|].
    exists cd2. split; [done|]. split; [lia|]. split; [|split; [|split]].
    + intros j c0 Hj Hc0. pose proof (cell_at_range _ _ _ Hc0).
      apply Hoth; [lia|]. apply cell_at_app_l. subst cd1.
      by rewrite cell_at_insert_ne by lia.
    + apply Hoth; [lia|]. apply cell_at_app_l. subst cd1.
      by erewrite cell_at_insert_eq.
    + intros _. split; [lia|]. destruct (Hq _ Hnew) as [ch Hch].
      eexists; split; [exact Hch|]. done.
    + intros j C Hj HC. split.
      * apply Hwf; [|done]. rewrite Hlen. lia.
      * destruct (decide (j = Z.of_nat (length cd))) as [->|Hne].
        -- destruct (Hq _ Hnew) as [ch Hch]. rewrite Hch in HC. by injection HC as <-.
        -- eapply Hfr; [|done]. rewrite Hlen. lia.
Qed.

Lemma set_child_all ch v0 v1 v2 v3 :
  set_child (set_child (set_child (set_child ch (0 * 2 + 0) v0) (0 * 2 + 1) v1)
               (1 * 2 + 0) v2) (1 * 2 + 1) v3
  = mkChildren v0 v1 v2 v3.
Proof. done. Qed.

Lemma is_child_mono cd cd' p k T lo hi e d :
  (forall j c0, j <> p -> cell_at cd j = Some c0 -> cell_at cd' j = Some c0) ->
  k <> p -> is_child cd k T lo hi e d -> is_child cd' k T lo hi e d.
Proof.
  intros Hoth Hk (Hk0 & c & Hc & Hrest). split; [done|].
  exists c. split; [by apply Hoth|done].
Qed.

(** One step of the loop as the later steps see it. *)
Lemma step_grows cd cd' p c ch :
  (forall j c0, j <> p -> cell_at cd j = Some c0 -> cell_at cd' j = Some c0) ->
  cell_at cd p = Some c -> cell_at cd' p = Some (with_children c ch) ->
  grows cd cd'.
Proof.
  intros Hoth Hc Hc' k K HK. destruct (decide (k = p)) as [->|Hne].
  - rewrite Hc in HK. injection HK as <-. eauto.
  - exists (children K). rewrite with_children_same. by apply Hoth.
Qed.

Lemma createTree_nonleaf fuel cd p root :
  (forall cd1 q c1, cell_at cd1 q = Some c1 -> index c1 = q ->
     depth c1 = depth root + 1 -> fresh_cell c1 ->
     exists cd2, createTree dflt junk fuel max_depth cd1 q = Some cd2 /\
                 subtree_built max_depth q cd1 cd2) ->
  cell_at cd p = Some root -> index root = p -> depth root < max_depth ->
  exists cd', createTree dflt junk (S fuel) max_depth cd p = Some cd' /\
    subtree_built max_depth p cd cd' /\
    exists root', cell_at cd' p = Some root' /\ built_children cd' root root'.
Proof.
  intros Hrec Hroot Hidx Hdepth.
  pose proof (cell_at_range _ _ _ Hroot) as Hp.
  cbn [createTree]. rewrite Hroot. cbn [mbind option_bind].
  destruct (Z.geb_spec (depth root) max_depth) as [?|_]; [lia|].
  rewrite Hidx.
  set (P := prism root). set (tris := Triangle.subdivide _).
  set (count := if Prism.isHalfCube P then 2 else 4).
  set (hi0 := if count =? 2 then _ else _).
  destruct (createTree_child_spec _ P tris p (depth root) count 0 0
              (rmin (Prism.z_range P)) hi0 cd root Hrec Hroot)
    as (cd1 & -> & Hl1 & Ho1 & Hp1 & Hc1 & Hw1).
  cbn [mbind option_bind].
  destruct (createTree_child_spec _ P tris p (depth root) count 0 1
              (rmin (Prism.z_range P)) hi0 cd1 _ Hrec Hp1)
    as (cd2 & -> & Hl2 & Ho2 & Hp2 & Hc2 & Hw2).
  cbn [mbind option_bind].
  destruct (createTree_child_spec _ P tris p (depth root) count 1 0
              hi0 (rmax (Prism.z_range P)) cd2 _ Hrec Hp2)
    as (cd3 & -> & Hl3 & Ho3 & Hp3 & Hc3 & Hw3).
  cbn [mbind option_bind].
  destruct (createTree_child_spec _ P tris p (depth root) count 1 1
              hi0 (rmax (Prism.z_range P)) cd3 _ Hrec Hp3)
    as (cd4 & -> & Hl4 & Ho4 & Hp4 & Hc4 & Hw4).
  pose proof (step_grows _ _ _ _ _ Ho2 Hp1 Hp2) as Hg2.
  pose proof (step_grows _ _ _ _ _ Ho3 Hp2 Hp3) as Hg3.
  pose proof (step_grows _ _ _ _ _ Ho4 Hp3 Hp4) as Hg4.
  assert (Hp4' : cell_at cd4 p = Some
            (with_children root
               (mkChildren (if 0 =? Z.quot count 2 then -1 else Z.of_nat (length cd))
                  (if 0 =? Z.quot count 2 then -1 else Z.of_nat (length cd1))
                  (if 1 =? Z.quot count 2 then -1 else Z.of_nat (length cd2))
                  (if 1 =? Z.quot count 2 then -1 else Z.of_nat (length cd3)))))
    by exact Hp4.
  clear Hp4. rename Hp4' into Hp4.
  exists cd4. split; [done|].
  assert (Hn1 : Z.of_nat (length cd) <> p) by lia.
  assert (Hn2 : Z.of_nat (length cd1) <> p) by lia.
  assert (Hn3 : Z.of_nat (length cd2) <> p) by lia.
  assert (Hn4 : Z.of_nat (length cd3) <> p) by lia.
  assert (Hk1 : 0 <> Z.quot count 2 ->
    is_child cd4 (Z.of_nat (length cd)) (fst tris) (rmin (Prism.z_range P)) hi0
      (child_is_expanding P 0 0) (depth root + 1)).
  { intros Hz. eapply is_child_mono; [exact Ho4|done|].
    eapply is_child_mono; [exact Ho3|done|].
    eapply is_child_mono; [exact Ho2|done|]. by apply Hc1. }
  assert (Hk2 : 0 <> Z.quot count 2 ->
    is_child cd4 (Z.of_nat (length cd1)) (snd tris) (rmin (Prism.z_range P)) hi0
      (child_is_expanding P 0 1) (depth root + 1)).
  { intros Hz. eapply is_child_mono; [exact Ho4|done|].
    eapply is_child_mono; [exact Ho3|done|]. by apply Hc2. }
  assert (Hk3 : 1 <> Z.quot count 2 ->
    is_child cd4 (Z.of_nat (length cd2)) (fst tris) hi0 (rmax (Prism.z_range P))
      (child_is_expanding P 1 0) (depth root + 1)).
  { intros Hz. eapply is_child_mono; [exact Ho4|done|]. by apply Hc3. }
  assert (Hnew : forall j C, Z.of_nat (length cd) <= j -> cell_at cd4 j = Some C ->
            (wf_cell cd4 j C /\ tidy_cell max_depth C) /\ fresh_cell C).
  { intros j C Hj HC. assert (j <> p) as Hjp by lia.
    destruct (Z.lt_ge_cases j (Z.of_nat (length cd1))) as [Hlt1|Hge1].
    { destruct (cell_at_in_range cd1 j) as [C1 HC1]; [lia|].
      assert (C = C1) as ->.
      { pose proof (Ho4 _ _ Hjp (Ho3 _ _ Hjp (Ho2 _ _ Hjp HC1))). congruence. }
      destruct (Hw1 _ _ Hj HC1) as [[? ?] ?]. split; [|done]. split; [|done].
      eauto using wf_cell_grows, grows_trans. }
    destruct (Z.lt_ge_cases j (Z.of_nat (length cd2))) as [Hlt2|Hge2].
    { destruct (cell_at_in_range cd2 j) as [C2 HC2]; [lia|].
      assert (C = C2) as ->.
      { pose proof (Ho4 _ _ Hjp (Ho3 _ _ Hjp HC2)). congruence. }
      destruct (Hw2 _ _ Hge1 HC2) as [[? ?] ?]. split; [|done]. split; [|done].
      eauto using wf_cell_grows, grows_trans. }
    destruct (Z.lt_ge_cases j (Z.of_nat (length cd3))) as [Hlt3|Hge3].
    { destruct (cell_at_in_range cd3 j) as [C3 HC3]; [lia|].
      assert (C = C3) as ->.
      { pose proof (Ho4 _ _ Hjp HC3). congruence. }
      destruct (Hw3 _ _ Hge2 HC3) as [[? ?] ?]. split; [|done]. split; [|done].
      eauto using wf_cell_grows. }
    by apply Hw4. }
  assert (Hbuilt : built_children cd4 root
            (with_children root
               (mkChildren (if 0 =? Z.quot count 2 then -1 else Z.of_nat (length cd))
                  (if 0 =? Z.quot count 2 then -1 else Z.of_nat (length cd1))
                  (if 1 =? Z.quot count 2 then -1 else Z.of_nat (length cd2))
                  (if 1 =? Z.quot count 2 then -1 else Z.of_nat (length cd3))))).
  { clear Hc1 Hc2 Hc3 Ho1 Ho2 Ho3 Ho4 Hp1 Hp2 Hp3 Hp4 Hrec Hw1 Hw2 Hw3 Hw4 Hnew Hg2 Hg3 Hg4.
    unfold built_children. fold P tris. clearbody tris.
    cbn [children with_children child0 child1 child2 child3].
    split; [done|]. unfold getChildCount.
    cbn [children with_children child0 child1 child2 child3].
    subst count hi0. destruct (Prism.isHalfCube P).
    - change (1 =? Z.quot 2 2) with true. change (2 =? 2) with true in *.
      cbn match. split; [done|]. split; [by apply Hk1|]. split; [by apply Hk2|]. done.
    - change (1 =? Z.quot 4 2) with false. change (4 =? 2) with false in *.
      cbn match. split.
      { destruct (Z.ltb_spec (Z.of_nat (length cd2)) 0); [lia|done]. }
      split; [by apply Hk1|]. split; [by apply Hk2|].
      split; [by apply Hk3|]. by apply Hc4. }
  split; [|eexists; split; [exact Hp4|exact Hbuilt]].
  split; [|split].
  - split; [lia|]. split.
    + intros j c0 Hj Hc0. by apply Ho4, Ho3, Ho2, Ho1.
    + intros c0 Hc0. rewrite Hroot in Hc0. injection Hc0 as <-.
      eexists. rewrite Hp4. done.
  - intros j C [->|Hj] HC; [|by destruct (Hnew j C Hj HC)].
    remember (0 =? Z.quot count 2) as b0 eqn:Hb0.
    remember (1 =? Z.quot count 2) as b1 eqn:Hb1.
    symmetry in Hb0, Hb1.
    rewrite Hp4 in HC. injection HC as <-.
    split; cycle 1.
    { unfold tidy_cell. cbn [children with_children depth child0 child1].
      split; [|split; [|lia]].
      - intros k Hk Hk0. unfold children_list in Hk.
        cbn [child0 child1 child2 child3] in Hk.
        rewrite !elem_of_cons, elem_of_nil in Hk.
        destruct Hk as [Hk|[Hk|[Hk|[Hk|[]]]]]; destruct b0, b1; lia.
      - intros _. assert (b0 = false) as ->; [|lia].
        rewrite <- Hb0. apply Z.eqb_neq. subst count. by destruct (Prism.isHalfCube P). }
    split; [done|]. cbn [children with_children depth]. split.
    + intros k Hk Hk0. unfold children_list in Hk.
      cbn [child0 child1 child2 child3] in Hk.
      assert (forall (b : bool) (n : nat) T lo hi e,
                k = (if b then -1 else Z.of_nat n) ->
                (b = false -> is_child cd4 (Z.of_nat n) T lo hi e (depth root + 1)) ->
                (length cd <= n)%nat ->
                0 < k /\ exists K, cell_at cd4 k = Some K /\ depth K = depth root + 1) as Hslot.
      { intros b n T lo hi e -> Hchild Hn. destruct b; [lia|].
        destruct (Hchild eq_refl) as (_ & K & HK & _ & HdK & _).
        split; [lia|]. eauto. }
      rewrite !elem_of_cons, elem_of_nil in Hk.
      destruct Hk as [Hk|[Hk|[Hk|[Hk|[]]]]].
      * eapply (Hslot b0 (length cd) _ _ _ _ Hk); [|lia].
        intros Hb. apply Hk1. apply Z.eqb_neq. congruence.
      * eapply (Hslot b0 (length cd1) _ _ _ _ Hk); [|lia].
        intros Hb. apply Hk2. apply Z.eqb_neq. congruence.
      * eapply (Hslot b1 (length cd2) _ _ _ _ Hk); [|lia].
        intros Hb. apply Hk3. apply Z.eqb_neq. congruence.
      * eapply (Hslot b1 (length cd3) _ _ _ _ Hk); [|lia].
        intros Hb. apply Hc4. apply Z.eqb_neq. congruence.
    + cbn [child2 child3]. destruct b1; lia.
  - intros j C Hj HC. by destruct (Hnew j C Hj HC).
Qed.

Lemma createTree_ok fuel : forall cd q c,
  cell_at cd q = Some c -> index c = q ->
  (Z.to_nat (max_depth - depth c) < fuel)%nat ->
  exists cd', createTree dflt junk fuel max_depth cd q = Some cd' /\ subtree_built max_depth q cd cd'.
Proof.
  induction fuel as [|fuel IH]; intros cd q c Hc Hidx Hfuel; [lia|].
  destruct (Z.lt_ge_cases (depth c) max_depth) as [Hd|Hd].
  - destruct (createTree_nonleaf fuel cd q c) as (cd' & Hcd' & Hfr & _); try done.
    + intros cd1 q1 c1 Hc1 Hi1 Hd1 _. eapply IH; [done..|]. lia.
    + eauto.
  - cbn [createTree]. rewrite Hc. cbn [mbind option_bind].
    destruct (Z.geb_spec (depth c) max_depth) as [_|?]; [|lia].
    erewrite update_cell_Some by done. eexists; split; [done|].
    pose proof (cell_at_range _ _ _ Hc).
    assert (Hq : cell_at (<[Z.to_nat q := with_children c (mkChildren (-1) (-1) (-1) (-1))]> cd) q
                 = Some (with_children c (mkChildren (-1) (-1) (-1) (-1))))
      by (by erewrite cell_at_insert_eq).
    split; [|split].
    + split; [by rewrite length_insert|]. split.
      * intros j c0 Hj Hc0. by rewrite cell_at_insert_ne by lia.
      * intros c0 Hc0. rewrite Hc in Hc0. injection Hc0 as <-. eauto.
    + intros p C [->|Hp] HC.
      * rewrite Hq in HC. injection HC as <-. split.
        -- split; [done|]. split; [|cbn; lia].
           intros k Hk Hk0. unfold children_list in Hk. cbn in Hk.
           rewrite !elem_of_cons, elem_of_nil in Hk. lia.
        -- unfold tidy_cell. cbn [children with_children depth child0 child1].
           split; [|split; [lia|done]].
           intros k Hk Hk0. unfold children_list in Hk. cbn in Hk.
           rewrite !elem_of_cons, elem_of_nil in Hk. lia.
      * apply cell_at_range in HC. rewrite length_insert in HC. lia.
    + intros p C Hp HC. apply cell_at_range in HC. rewrite length_insert in HC. lia.
Qed.

(** C6 (as amended): a cell below [max_depth] whose prism is a half-cube
    receives two children across its whole z-range and the sentinel -1 in
    slots 2 and 3; a cell whose prism is not a half-cube, so every
    quarter-cube that is not a half-cube as well, receives four children,
    0 and 1 on [z_min, z_mid] and 2 and 3 on [z_mid, z_max]. *)
Theorem createTree_child_layout fuel cd p root :
  cell_at cd p = Some root -> index root = p -> depth root < max_depth ->
  (Z.to_nat (max_depth - depth root) < fuel)%nat ->
  exists cd' root',
    createTree dflt junk fuel max_depth cd p = Some cd' /\
    cell_at cd' p = Some root' /\ built_children cd' root root'.
Proof.
  intros Hroot Hidx Hd Hfuel. destruct fuel as [|fuel]; [lia|].
  destruct (createTree_nonleaf fuel cd p root) as (cd' & Hcd' & _ & root' & Hr' & Hb);
    try done.
  - intros cd1 q c1 Hc1 Hi1 Hd1 _. eapply createTree_ok; [done..|]. lia.
  - eauto.
Qed.

End CreateTreeProofs.

Lemma createTree_child_layout_witness :
  exists cd' root',
    createTree tt 7 3 3 Examples.tall_arena 1 = Some cd' /\
    cell_at cd' 1 = Some root' /\
    built_children cd' (Cell_new tt 0 (Prism.mk Examples.tall_triangle (mkRange 0 1414) true) 1 1) root'.
Proof.
  apply (createTree_child_layout tt 7 3 3 Examples.tall_arena 1).
  - reflexivity.
  - reflexivity.
  - cbn; lia.
  - vm_compute; lia.
Defined.

(** C6 (as stated) fails: the first level-1 cell of a 10-micron cube is a
    quarter-cube (and a half-cube too), lies below [max_depth], and
    receives two children, not four. *)
Lemma createTree_quarter_cube_two_children :
  exists root cd' root',
    cell_at Examples.tiny_arena 1 = Some root /\
    depth root < 3 /\
    Prism.isQuarterCube (prism root) = true /\
    createTree tt 7 3 3 Examples.tiny_arena 1 = Some cd' /\
    cell_at cd' 1 = Some root' /\
    getChildCount root' = 2 /\
    children root' = mkChildren 2 5 (-1) (-1).
Proof.
  eexists _, _, _. split; [reflexivity|]. split; [cbn; lia|].
  split; [reflexivity|]. split; [vm_compute; reflexivity|].
  split; [reflexivity|]. split; reflexivity.
Qed.

(** ** The whole tree *)

Section BuildProofs.
Context {F : Type}.
Implicit Types (cd : list (Cell F)) (c : Cell F).

Lemma same_skeleton_refl cd : same_skeleton cd cd.
Proof. done. Qed.

Lemma same_skeleton_trans cd1 cd2 cd3 :
  same_skeleton cd1 cd2 -> same_skeleton cd2 cd3 -> same_skeleton cd1 cd3.
Proof. unfold same_skeleton. congruence. Qed.

Lemma update_cell_same_skeleton cd i f cd' :
  (forall c, skeleton (f c) = skeleton c) ->
  update_cell cd i f = Some cd' -> same_skeleton cd cd'.
Proof.
  intros Hf (c & Hc & ->)%update_cell_inv. unfold same_skeleton.
  rewrite list_fmap_insert, Hf. apply list_insert_id.
  rewrite list_lookup_fmap. apply cell_at_Some in Hc as [_ ->]. done.
Qed.

Lemma for_children_same_skeleton stop body chs : forall cd cd',
  (forall cd k cd', body cd k = Some cd' -> same_skeleton cd cd') ->
  for_children stop body cd chs = Some cd' -> same_skeleton cd cd'.
Proof.
  induction chs as [|ch rest IH]; intros cd cd' Hbody Hfor; cbn [for_children] in Hfor.
  { by injection Hfor as <-. }
  destruct (stop ch); [by injection Hfor as <-|].
  destruct (body cd ch) as [cd1|] eqn:Hb; [|done]. cbn [mbind option_bind] in Hfor.
  eapply same_skeleton_trans; [by eapply Hbody|by eapply IH].
Qed.

Lemma same_skeleton_cell cd cd' k K :
  same_skeleton cd cd' -> cell_at cd k = Some K ->
  exists K', cell_at cd' k = Some K' /\ skeleton K' = skeleton K.
Proof.
  unfold same_skeleton. intros Hs [Hk HK]%cell_at_Some.
  assert (H : (skeleton <$> cd') !! Z.to_nat k = Some (skeleton K)).
  { rewrite Hs, list_lookup_fmap, HK. done. }
  rewrite list_lookup_fmap in H.
  destruct (cd' !! Z.to_nat k) as [K'|] eqn:HK'; [|done].
  exists K'. split; [by apply cell_at_Some|]. cbn in H. congruence.
Qed.

Lemma same_skeleton_length cd cd' : same_skeleton cd cd' -> length cd' = length cd.
Proof.
  unfold same_skeleton. intros Hs.
  by rewrite <- (length_fmap skeleton cd'), Hs, length_fmap.
Qed.

Lemma same_skeleton_settles cd cd' : same_skeleton cd cd' -> settles cd cd'.
Proof.
  intros Hs k K HK. destruct (same_skeleton_cell _ _ _ _ Hs HK) as (K' & HK' & Hsk).
  exists K'. split; [done|]. unfold skeleton in Hsk. injection Hsk as ? ? ? ? ? ?.
  auto 10.
Qed.

Lemma settles_refl cd : settles cd cd.
Proof. intros k K HK. exists K. auto 10. Qed.

Lemma settles_trans cd1 cd2 cd3 : settles cd1 cd2 -> settles cd2 cd3 -> settles cd1 cd3.
Proof.
  intros H1 H2 k K HK. destruct (H1 _ _ HK) as (K1 & HK1 & ? & ? & ? & ? & ? & Hc1).
  destruct (H2 _ _ HK1) as (K2 & HK2 & ? & ? & ? & ? & ? & Hc2).
  exists K2. split; [done|]. repeat split; try congruence.
  intros Hk. rewrite Hc2, Hc1 by done. done.
Qed.

Lemma wf_cell_settles cd cd' p C C' :
  settles cd cd' -> p <> 0 ->
  cell_at cd p = Some C -> cell_at cd' p = Some C' ->
  wf_cell cd p C -> wf_cell cd' p C'.
Proof.
  intros Hs Hp HC HC' (Hi & Hk & H23).
  destruct (Hs _ _ HC) as (C2 & HC2 & Hd & Hidx & _ & _ & _ & Hch).
  rewrite HC' in HC2. injection HC2 as <-. specialize (Hch Hp).
  split; [congruence|]. rewrite Hch, Hd. split; [|done].
  intros k Hin H0. destruct (Hk k Hin H0) as (Hpos & K & HK & HdK).
  split; [done|]. destruct (Hs _ _ HK) as (K' & HK' & HdK' & _).
  exists K'. split; [done|lia].
Qed.

Lemma fresh_cell_settles cd cd' p C C' :
  settles cd cd' -> cell_at cd p = Some C -> cell_at cd' p = Some C' ->
  fresh_cell C -> fresh_cell C'.
Proof.
  intros Hs HC HC' [Ha Hsub].
  destruct (Hs _ _ HC) as (C2 & HC2 & _ & _ & _ & Ha2 & Hs2 & _).
  rewrite HC' in HC2. injection HC2 as <-. split; congruence.
Qed.

Section Volumes.
Variables (INT2MM INT2MM2 : Z -> F) (fmul fadd fmax : F -> F -> F) (fhalf : F).
Variable density_provider : AABB3D.t -> F.

Lemma setVolume_same_skeleton fuel : forall cd q cd',
  setVolume INT2MM INT2MM2 fmul fhalf fuel cd q = Some cd' -> same_skeleton cd cd'.
Proof.
  induction fuel as [|fuel IH]; intros cd q cd' H; [done|].
  cbn [setVolume] in H.
  destruct (cell_at cd q) as [C|]; [|done]. cbn [mbind option_bind] in H.
  match type of H with context [update_cell cd q ?f] =>
    destruct (update_cell cd q f) as [cd1|] eqn:Hu; [|done] end.
  cbn [mbind option_bind] in H.
  apply update_cell_same_skeleton in Hu; [|done].
  destruct (child0 (children C) >=? 0); [|by injection H as <-].
  eapply same_skeleton_trans; [exact Hu|].
  eapply for_children_same_skeleton; [|exact H].
  intros cd2 k cd3 Hk. cbv beta in Hk.
  destruct ((k >? 0) && (k <? Z.of_nat (length cd2))); [|done]. by eapply IH.
Qed.

Lemma setSpecificationAllowance_same_skeleton fuel : forall cd q cd',
  setSpecificationAllowance fmul fadd fmax density_provider fuel cd q = Some cd' ->
  same_skeleton cd cd'.
Proof.
  induction fuel as [|fuel IH]; intros cd q cd' H; [done|].
  cbn [setSpecificationAllowance] in H.
  destruct (cell_at cd q) as [C|]; [|done]. cbn [mbind option_bind] in H.
  destruct (child0 (children C) >=? 0).
  - eapply for_children_same_skeleton; [|exact H].
    intros cd2 k cd3 Hk. cbv beta in Hk.
    destruct (cell_at cd2 k); [|done]. cbn [mbind option_bind] in Hk.
    destruct (setSpecificationAllowance _ _ _ _ fuel cd2 k) as [cd4|] eqn:Hrec; [|done].
    cbn [mbind option_bind] in Hk.
    destruct (cell_at cd4 k) as [child|]; [|done]. cbn [mbind option_bind] in Hk.
    eapply same_skeleton_trans; [by eapply IH|].
    by eapply update_cell_same_skeleton; [|exact Hk].
  - by eapply update_cell_same_skeleton; [|exact H].
Qed.

Variables (dflt : F) (junk : Z) (max_depth : Z).

Lemma createTree_first_level_spec fuel aabb slot T cd cd' R :
  cell_at cd 0 = Some R ->
  (Z.to_nat max_depth < fuel)%nat ->
  createTree_first_level dflt junk INT2MM INT2MM2 fmul fhalf fuel max_depth aabb slot T cd
    = Some cd' ->
  settles cd cd' /\
  (exists R', cell_at cd' 0 = Some R' /\
     children R' = set_child (children R) slot (Z.of_nat (length cd))) /\
  (exists K, cell_at cd' (Z.of_nat (length cd)) = Some K /\ depth K = 1 /\
     index K = Z.of_nat (length cd) /\
     prism K = Prism.mk T (mkRange (Point3.z (AABB3D.min aabb)) (Point3.z (AABB3D.max aabb)))
                 true) /\
  (forall p C, Z.of_nat (length cd) <= p -> cell_at cd' p = Some C ->
     wf_cell cd' p C /\ fresh_cell C).
Proof.
  intros HR Hfuel H. pose proof (cell_at_range _ _ _ HR) as Hlen.
  unfold createTree_first_level in H.
  erewrite update_cell_Some in H by done. cbn [mbind option_bind] in H.
  set (n := Z.of_nat (length cd)) in *.
  set (R1 := with_children R (set_child (children R) slot n)) in *.
  set (new := Cell_new dflt junk _ n 1) in *.
  set (cd2 := <[Z.to_nat 0 := R1]> cd ++ [new]) in *.
  assert (Hlen2 : Z.of_nat (length cd2) = n + 1).
  { unfold cd2. rewrite length_app, length_insert. cbn. lia. }
  assert (Hnew : cell_at cd2 n = Some new).
  { unfold cd2. replace n with (Z.of_nat (length (<[Z.to_nat 0 := R1]> cd))).
    - apply cell_at_app_new.
    - by rewrite length_insert. }
  replace (Z.of_nat (length cd2) - 1) with n in H by lia.
  destruct (createTree_ok dflt junk max_depth fuel cd2 n new Hnew eq_refl)
    as (cd3 & Hcd3 & (Hlen3 & Hoth & Hq) & Hwf & Hfresh).
  { cbn. lia. }
  rewrite Hcd3 in H. cbn [mbind option_bind] in H.
  apply setVolume_same_skeleton in H.
  pose proof (same_skeleton_settles _ _ H) as Hset.
  assert (Hroot3 : cell_at cd3 0 = Some R1).
  { apply Hoth; [lia|]. unfold cd2. apply cell_at_app_l.
    by erewrite cell_at_insert_eq. }
  destruct (Hq _ Hnew) as [ch Hn3].
  assert (Hold : settles cd cd3).
  { intros k K HK. pose proof (cell_at_range _ _ _ HK) as Hk.
    destruct (Z.eq_dec k 0) as [->|Hk0].
    - rewrite HR in HK. injection HK as <-. exists R1. split; [done|]. repeat split; done.
    - exists K. split; [|auto 10]. apply Hoth; [lia|]. unfold cd2.
      apply cell_at_app_l. by rewrite cell_at_insert_ne by lia. }
  split; [by eapply settles_trans|]. split; [|split].
  - destruct (same_skeleton_cell _ _ _ _ H Hroot3) as (R' & HR' & Hsk).
    exists R'. split; [done|]. unfold skeleton in Hsk. by injection Hsk as _ _ _ _ _ ->.
  - destruct (same_skeleton_cell _ _ _ _ H Hn3) as (K & HK & Hsk).
    exists K. split; [done|]. unfold skeleton in Hsk. by injection Hsk as -> -> -> _ _ _.
  - intros p C Hp HC. pose proof (cell_at_range _ _ _ HC) as Hr.
    rewrite (same_skeleton_length _ _ H) in Hr.
    destruct (cell_at_in_range cd3 p Hr) as [C3 HC3].
    assert (wf_cell cd3 p C3 /\ fresh_cell C3) as [Hw3 Hf3].
    { split; [apply Hwf; [lia|done]|].
      destruct (Z.eq_dec p n) as [->|Hpn].
      - rewrite Hn3 in HC3. by injection HC3 as <-.
      - eapply Hfresh; [|exact HC3]. lia. }
    split.
    + eapply wf_cell_settles; [exact Hset|lia|exact HC3|exact HC|exact Hw3].
    + eapply fresh_cell_settles; [exact Hset|exact HC3|exact HC|exact Hf3].
Qed.

Variable root_prism : Prism.t.

(** The arena on which [createTree()] starts its two level-1 subtrees. *)
Lemma createTreeRoot_start fuel aabb :
  let lo := AABB3D.min aabb in
  let hi := AABB3D.max aabb in
  let T1 := Triangle.mk (mkPoint (Point3.x lo) (Point3.y hi))
              (mkPoint (Point3.x lo) (Point3.y lo)) (mkPoint (Point3.x hi) (Point3.y hi))
              Triangle.AC_TO_AB true in
  let T2 := Triangle.mk (mkPoint (Point3.x hi) (Point3.y lo))
              (mkPoint (Point3.x hi) (Point3.y hi)) (mkPoint (Point3.x lo) (Point3.y lo))
              Triangle.AB_TO_BC true in
  exists R,
    children R = mkChildren junk junk (-1) (-1) /\ depth R = 0 /\ index R = 0 /\
    prism R = root_prism /\ fresh_cell R /\
    createTreeRoot dflt junk root_prism INT2MM INT2MM2 fmul fadd fmax fhalf density_provider
      fuel max_depth aabb []
    = (cd ← createTree_first_level dflt junk INT2MM INT2MM2 fmul fhalf fuel max_depth aabb
             0 T1 [R];
       cd ← createTree_first_level dflt junk INT2MM INT2MM2 fmul fhalf fuel max_depth aabb
             1 T2 cd;
       setSpecificationAllowance fmul fadd fmax density_provider fuel cd 0).
Proof.
  eexists (mkCell root_prism 0 0 _ dflt dflt false adj_empty (mkChildren junk junk (-1) (-1))).
  repeat split.
Qed.

(** Whatever [createTree()] builds is a well-formed tree of fresh cells. *)
Lemma createTreeRoot_wf fuel aabb cd :
  (Z.to_nat max_depth < fuel)%nat ->
  createTreeRoot dflt junk root_prism INT2MM INT2MM2 fmul fadd fmax fhalf density_provider
    fuel max_depth aabb [] = Some cd ->
  wf_tree cd /\ (forall p C, cell_at cd p = Some C -> fresh_cell C).
Proof.
  intros Hfuel H.
  destruct (createTreeRoot_start fuel aabb) as (R & Hch & Hd & Hi & HpR & Hf & Heq).
  rewrite Heq in H. clear Heq.
  destruct (createTree_first_level _ _ _ _ _ _ _ _ _ 0 _ _) as [cd1|] eqn:H1; [|done].
  cbn [mbind option_bind] in H.
  destruct (createTree_first_level _ _ _ _ _ _ _ _ _ 1 _ _) as [cd2|] eqn:H2; [|done].
  cbn [mbind option_bind] in H.
  apply setSpecificationAllowance_same_skeleton in H.
  eapply createTree_first_level_spec in H1 as (Hs1 & (R1 & HR1 & Hch1) & (K1 & HK1 & HdK1 & HiK1 & HpK1) & Hn1);
    [|reflexivity|done].
  eapply createTree_first_level_spec in H2 as (Hs2 & (R2 & HR2 & Hch2) & (K2 & HK2 & HdK2 & HiK2 & HpK2) & Hn2);
    [|exact HR1|done].
  pose proof (same_skeleton_settles _ _ H) as Hs3.
  pose proof (same_skeleton_length _ _ H) as Hlen3.
  pose proof (settles_trans _ _ _ Hs2 Hs3) as Hs23.
  pose proof (settles_trans _ _ _ Hs1 Hs23) as Hs123.
  pose proof (cell_at_range _ _ _ HK1) as Hlen1.
  assert (HR : cell_at [R] 0 = Some R) by reflexivity.
  assert (Hall : forall p C, cell_at cd p = Some C -> wf_cell cd p C /\ fresh_cell C).
  { intros p C HC. pose proof (cell_at_range _ _ _ HC) as Hp. rewrite Hlen3 in Hp.
    destruct (Z.eq_dec p 0) as [->|Hp0].
    - split; [|by eapply (fresh_cell_settles [R] cd 0 R C)].
      destruct (Hs3 _ _ HR2) as (C' & HC' & HdC & HiC & _).
      destruct (same_skeleton_cell _ _ _ _ H HR2) as (C'' & HC'' & Hsk).
      rewrite HC in HC', HC''. injection HC' as <-. injection HC'' as <-.
      destruct (Hs123 _ _ HR) as (C' & HC' & HdR & HiR & _).
      rewrite HC in HC'. injection HC' as <-.
      assert (HchC : children C = mkChildren 1 (Z.of_nat (length cd1)) (-1) (-1)).
      { unfold skeleton in Hsk. injection Hsk as _ _ _ _ _ ->.
        rewrite Hch2, Hch1, Hch. reflexivity. }
      split; [congruence|]. rewrite HchC. split; [|cbn; lia].
      intros k Hk Hk0. unfold children_list in Hk. cbn in Hk.
      rewrite !elem_of_cons, elem_of_nil in Hk.
      destruct Hk as [->|[->|[->|[->|[]]]]]; try lia.
      + split; [lia|]. destruct (Hs23 _ _ HK1) as (K & HK & HdK & _).
        exists K. split; [done|]. lia.
      + split; [lia|]. destruct (Hs3 _ _ HK2) as (K & HK & HdK & _).
        exists K. split; [done|]. lia.
    - destruct (Z.lt_ge_cases p (Z.of_nat (length cd1))) as [Hlt|Hge].
      + destruct (cell_at_in_range cd1 p) as [C1 HC1]; [lia|].
        destruct (Hn1 p C1) as [Hw1 Hf1]; [cbn; lia|done|]. split.
        * by eapply (wf_cell_settles cd1 cd p C1 C).
        * by eapply (fresh_cell_settles cd1 cd p C1 C).
      + destruct (cell_at_in_range cd2 p Hp) as [C2 HC2].
        destruct (Hn2 p C2) as [Hw2 Hf2]; [lia|done|]. split.
        * by eapply (wf_cell_settles cd2 cd p C2 C).
        * by eapply (fresh_cell_settles cd2 cd p C2 C). }
  split; intros p C HC; by destruct (Hall p C HC).
Qed.

(** The root and the two level-1 cells of the tree [createTree()] builds. *)
Lemma createTreeRoot_layout fuel aabb cd :
  (Z.to_nat max_depth < fuel)%nat ->
  createTreeRoot dflt junk root_prism INT2MM INT2MM2 fmul fadd fmax fhalf density_provider
    fuel max_depth aabb [] = Some cd ->
  let lo := AABB3D.min aabb in
  let hi := AABB3D.max aabb in
  let T1 := Triangle.mk (mkPoint (Point3.x lo) (Point3.y hi))
              (mkPoint (Point3.x lo) (Point3.y lo)) (mkPoint (Point3.x hi) (Point3.y hi))
              Triangle.AC_TO_AB true in
  let T2 := Triangle.mk (mkPoint (Point3.x hi) (Point3.y lo))
              (mkPoint (Point3.x hi) (Point3.y hi)) (mkPoint (Point3.x lo) (Point3.y lo))
              Triangle.AB_TO_BC true in
  let zr := mkRange (Point3.z lo) (Point3.z hi) in
  exists root first second k,
    cell_at cd 0 = Some root /\ prism root = root_prism /\ depth root = 0 /\
    children root = mkChildren 1 k (-1) (-1) /\ 1 < k /\
    cell_at cd 1 = Some first /\ prism first = Prism.mk T1 zr true /\ depth first = 1 /\
    cell_at cd k = Some second /\ prism second = Prism.mk T2 zr true /\ depth second = 1.
Proof.
  intros Hfuel H lo hi T1 T2 zr.
  destruct (createTreeRoot_start fuel aabb) as (R & Hch & Hd & Hi & HpR & Hf & Heq).
  rewrite Heq in H. clear Heq.
  destruct (createTree_first_level _ _ _ _ _ _ _ _ _ 0 _ _) as [cd1|] eqn:H1; [|done].
  cbn [mbind option_bind] in H.
  destruct (createTree_first_level _ _ _ _ _ _ _ _ _ 1 _ _) as [cd2|] eqn:H2; [|done].
  cbn [mbind option_bind] in H.
  apply setSpecificationAllowance_same_skeleton in H.
  eapply createTree_first_level_spec in H1
    as (Hs1 & (R1 & HR1 & Hch1) & (K1 & HK1 & HdK1 & HiK1 & HpK1) & Hn1);
    [|reflexivity|done].
  eapply createTree_first_level_spec in H2
    as (Hs2 & (R2 & HR2 & Hch2) & (K2 & HK2 & HdK2 & HiK2 & HpK2) & Hn2);
    [|exact HR1|done].
  pose proof (same_skeleton_settles _ _ H) as Hs3.
  pose proof (settles_trans _ _ _ Hs2 Hs3) as Hs23.
  pose proof (settles_trans _ _ _ Hs1 Hs23) as Hs123.
  pose proof (cell_at_range _ _ _ HK1) as Hlen1. cbn [length] in Hlen1.
  assert (HR : cell_at [R] 0 = Some R) by reflexivity.
  destruct (Hs123 _ _ HR) as (root & Hroot & HdR & _ & HpR' & _).
  destruct (same_skeleton_cell _ _ _ _ H HR2) as (root' & Hroot' & Hsk).
  rewrite Hroot in Hroot'. injection Hroot' as <-.
  destruct (Hs23 _ _ HK1) as (first & Hfirst & Hdf & _ & Hpf & _).
  destruct (Hs3 _ _ HK2) as (second & Hsecond & Hds & _ & Hps & _).
  exists root, first, second, (Z.of_nat (length cd1)).
  split; [done|]. split; [congruence|]. split; [congruence|]. split.
  { unfold skeleton in Hsk. injection Hsk as _ _ _ _ _ ->.
    rewrite Hch2, Hch1, Hch. reflexivity. }
  split; [cbn in Hlen1; lia|].
  split; [done|]. split; [by rewrite Hpf, HpK1|]. split; [congruence|].
  split; [done|]. split; [by rewrite Hps, HpK2|congruence].
Qed.

End Volumes.

End BuildProofs.

(** ** Nodes of a [std::list<Link>] *)

Section ListNodes.
Implicit Types (l : list LinkNode) (x y : LinkNode) (pos r : LinkIterator).

(** A list that holds a node at [pos] splits at the first such node. *)
Lemma first_node_split pos l :
  pos ∈ l.*1 ->
  exists l1 y l2, l = l1 ++ y :: l2 /\ y.1 = pos /\ pos ∉ l1.*1.
Proof.
  induction l as [|x l IH]; cbn; [by intros ?%elem_of_nil|].
  intros Hin. destruct (decide (x.1 = pos)) as [Heq|Hne].
  - exists [], x, l. split; [done|]. split; [done|]. apply not_elem_of_nil.
  - apply elem_of_cons in Hin as [?|Hin]; [congruence|].
    destruct (IH Hin) as (l1 & y & l2 & -> & Hy & Hl1).
    exists (x :: l1), y, l2. split; [done|]. split; [done|].
    cbn. intros [?|?]%elem_of_cons; [congruence|done].
Qed.

Lemma list_emplace_split pos x l1 y l2 :
  y.1 = pos -> pos ∉ l1.*1 ->
  list_emplace pos x (l1 ++ y :: l2) = Some (l1 ++ x :: y :: l2).
Proof.
  intros Hy. induction l1 as [|z l1 IH]; cbn; intros Hl1.
  - by rewrite (proj2 (Nat.eqb_eq _ _) Hy).
  - apply not_elem_of_cons in Hl1 as [Hz Hl1].
    rewrite (proj2 (Nat.eqb_neq _ _)) by congruence.
    by rewrite (IH Hl1).
Qed.

Lemma list_erase_split pos l1 y l2 :
  y.1 = pos -> pos ∉ l1.*1 ->
  list_erase pos (l1 ++ y :: l2) = Some (l1 ++ l2).
Proof.
  intros Hy. induction l1 as [|z l1 IH]; cbn; intros Hl1.
  - by rewrite (proj2 (Nat.eqb_eq _ _) Hy).
  - apply not_elem_of_cons in Hl1 as [Hz Hl1].
    rewrite (proj2 (Nat.eqb_neq _ _)) by congruence.
    by rewrite (IH Hl1).
Qed.

Lemma list_set_reverse_split pos r l1 y l2 :
  y.1 = pos -> pos ∉ l1.*1 ->
  list_set_reverse pos r (l1 ++ y :: l2)
  = Some (l1 ++ (pos, mkLink (to_index y.2) (Some r)) :: l2).
Proof.
  intros Hy. induction l1 as [|z l1 IH]; cbn; intros Hl1.
  - rewrite (proj2 (Nat.eqb_eq _ _) Hy). by rewrite Hy.
  - apply not_elem_of_cons in Hl1 as [Hz Hl1].
    rewrite (proj2 (Nat.eqb_neq _ _)) by congruence.
    by rewrite (IH Hl1).
Qed.


Lemma list_prev_cons pos x y l :
  list_prev pos (x :: y :: l)
  = if Nat.eqb x.1 pos then None
    else if Nat.eqb y.1 pos then Some x.1 else list_prev pos (y :: l).
Proof. done. Qed.

Lemma list_prev_split pos x l1 y l2 :
  y.1 = pos -> x.1 <> pos -> pos ∉ l1.*1 ->
  list_prev pos (l1 ++ x :: y :: l2) = Some x.1.
Proof.
  intros Hy Hx. induction l1 as [|z l1 IH]; intros Hl1.
  - cbn [app]. rewrite list_prev_cons.
    rewrite (proj2 (Nat.eqb_neq _ _)) by done.
    by rewrite (proj2 (Nat.eqb_eq _ _) Hy).
  - apply not_elem_of_cons in Hl1 as [Hz Hl1].
    specialize (IH Hl1). destruct l1 as [|z' l1].
    + cbn [app] in *. rewrite list_prev_cons.
      rewrite (proj2 (Nat.eqb_neq z.1 pos)) by congruence.
      rewrite (proj2 (Nat.eqb_neq x.1 pos)) by congruence. done.
    + cbn [app] in *. rewrite list_prev_cons.
      rewrite (proj2 (Nat.eqb_neq z.1 pos)) by congruence.
      apply not_elem_of_cons in Hl1 as [Hz' _].
      rewrite (proj2 (Nat.eqb_neq z'.1 pos)) by congruence. done.
Qed.

Lemma node_content_unique l pos (L L' : Link) :
  NoDup l.*1 -> (pos, L) ∈ l -> (pos, L') ∈ l -> L = L'.
Proof.
  induction l as [|x l IH]; cbn; [by intros _ ?%elem_of_nil|].
  intros [Hx Hnd]%NoDup_cons [Heq|Hin]%elem_of_cons [Heq'|Hin']%elem_of_cons.
  - congruence.
  - subst x. destruct Hx. apply list_elem_of_fmap. by exists (pos, L').
  - subst x. destruct Hx. apply list_elem_of_fmap. by exists (pos, L).
  - by apply IH.
Qed.

End ListNodes.

(** ** Reading and writing neighbour lists *)

Section StateLemmas.
Context {F : Type}.
Implicit Types (st : State F) (c : Z) (d : Direction) (it : LinkIterator) (L : Link)
  (l : list LinkNode).

Lemma adj_get_set A d l A' d' :
  adj_set A d l = Some A' ->
  adj_get A' d' = if decide (d' = d) then Some l else adj_get A d'.
Proof. destruct d, d'; cbn; intros [= <-]; done. Qed.

Lemma adj_set_Some A d l l0 :
  adj_get A d = Some l0 -> exists A', adj_set A d l = Some A'.
Proof. destruct d; cbn; intros [= ?]; eauto. Qed.

Lemma forget_links_with_adjacent (C : Cell F) A :
  forget_links (with_adjacent C A) = forget_links C.
Proof. done. Qed.

Lemma same_cells_refl st : same_cells st st.
Proof. done. Qed.

Lemma same_cells_trans st1 st2 st3 :
  same_cells st1 st2 -> same_cells st2 st3 -> same_cells st1 st3.
Proof. unfold same_cells. congruence. Qed.

Lemma same_cells_cell_at st st' i C :
  same_cells st st' -> cell_at (cell_data st) i = Some C ->
  exists C', cell_at (cell_data st') i = Some C' /\ forget_links C' = forget_links C.
Proof.
  unfold same_cells. intros Hs [Hi HC]%cell_at_Some.
  assert (H : (forget_links <$> cell_data st') !! Z.to_nat i = Some (forget_links C)).
  { rewrite Hs, list_lookup_fmap, HC. done. }
  rewrite list_lookup_fmap in H.
  destruct (cell_data st' !! Z.to_nat i) as [C'|] eqn:HC'; [|done].
  exists C'. split; [by apply cell_at_Some|]. cbn in H. congruence.
Qed.

Lemma same_cells_sym st st' : same_cells st st' -> same_cells st' st.
Proof. unfold same_cells. congruence. Qed.

Lemma forget_links_fields (C C' : Cell F) :
  forget_links C' = forget_links C ->
  index C' = index C /\ depth C' = depth C /\ children C' = children C /\
  prism C' = prism C /\ is_subdivided C' = is_subdivided C.
Proof. destruct C, C'; cbn. intros [= -> -> -> -> -> -> -> ->]. done. Qed.

Lemma links_Some st c d l :
  links st c d = Some l <->
  exists C, cell_at (cell_data st) c = Some C /\ adj_get (adjacent_cells C) d = Some l.
Proof.
  unfold links. destruct (cell_at (cell_data st) c) as [C|]; cbn.
  - split; [eauto|]. by intros (C' & [= <-] & ?).
  - split; [done|]. by intros (C' & ? & ?).
Qed.


Lemma set_links_modifies st c d l l0 :
  links st c d = Some l0 ->
  exists st', set_links st c d l = Some st' /\ modifies st st' c d l 0.
Proof.
  intros (C & HC & HA)%links_Some. unfold set_links. rewrite HC. cbn.
  destruct (adj_set_Some _ _ l _ HA) as [A' HA']. rewrite HA'. cbn.
  eexists; split; [done|]. pose proof (cell_at_range _ _ _ HC) as Hc.
  split; [|split; [|split]]; cbn.
  - apply links_Some. cbn [cell_data]. eexists. split; [by erewrite cell_at_insert_eq|].
    cbn. rewrite (adj_get_set _ _ _ _ _ HA'). by rewrite decide_True.
  - intros c' d' Hne. unfold links; cbn.
    destruct (decide (c' = c)) as [->|Hc'].
    + erewrite cell_at_insert_eq by done. rewrite HC. cbn.
      rewrite (adj_get_set _ _ _ _ _ HA'). rewrite decide_False; [done|].
      by destruct Hne.
    + by rewrite cell_at_insert_ne by lia.
  - unfold same_cells; cbn. rewrite list_fmap_insert.
    rewrite forget_links_with_adjacent. apply list_insert_id.
    rewrite list_lookup_fmap. apply cell_at_Some in HC as [_ ->]. done.
  - done.
Qed.

Lemma modifies_has_link st st' c d l' k c' d' it L :
  modifies st st' c d l' k ->
  has_link st' c' d' it L <->
  (c' = c /\ d' = d /\ (it, L) ∈ l') \/ ((c' <> c \/ d' <> d) /\ has_link st c' d' it L).
Proof.
  intros (Hl & Hoth & _ & _). unfold has_link.
  destruct (decide (c' = c)) as [->|Hc]; [destruct (decide (d' = d)) as [->|Hd]|].
  - rewrite Hl. split.
    + intros (l & [= <-] & Hin). by left.
    + intros [(_ & _ & Hin)|[[?|?] _]]; [eauto|done..].
  - rewrite Hoth by auto. split; [|intros [(_ & ? & _)|[_ ?]]; done].
    intros ?. right. auto.
  - rewrite Hoth by auto. split; [|intros [(? & _ & _)|[_ ?]]; done].
    intros ?. right. auto.
Qed.

Lemma links_next_node st k : links (mkState (cell_data st) k) = links st.
Proof. done. Qed.

Lemma modifies_bump st st' c d l' k :
  modifies st st' c d l' k ->
  modifies st (mkState (cell_data st') (S (next_node st'))) c d l' (S k).
Proof.
  intros (Hl & Hoth & Hs & Hn). split; [done|]. split; [done|].
  split; [done|]. cbn. lia.
Qed.

Lemma emplace_front_modifies st c d to l :
  links st c d = Some l ->
  exists st', emplace_front st c d to = Some st' /\
    modifies st st' c d ((next_node st, mkLink to None) :: l) 1.
Proof.
  intros Hl. unfold emplace_front. rewrite Hl. cbn [mbind option_bind].
  destruct (set_links_modifies st c d ((next_node st, mkLink to None) :: l) l Hl)
    as (st1 & -> & Hm). cbn.
  eexists; split; [done|]. destruct Hm as (? & ? & ? & Hn).
  split; [done|]. split; [done|]. split; [done|]. cbn. lia.
Qed.

Lemma emplace_modifies st c d pos to l1 y l2 :
  links st c d = Some (l1 ++ y :: l2) -> y.1 = pos -> pos ∉ l1.*1 ->
  exists st', emplace st c d pos to = Some st' /\
    modifies st st' c d (l1 ++ (next_node st, mkLink to None) :: y :: l2) 1.
Proof.
  intros Hl Hy Hl1. unfold emplace. rewrite Hl. cbn [mbind option_bind].
  rewrite list_emplace_split by done. cbn [mbind option_bind].
  destruct (set_links_modifies st c d
              (l1 ++ (next_node st, mkLink to None) :: y :: l2) _ Hl)
    as (st1 & -> & Hm). cbn.
  eexists; split; [done|]. destruct Hm as (? & ? & ? & Hn).
  split; [done|]. split; [done|]. split; [done|]. cbn. lia.
Qed.

Lemma erase_modifies st c d pos l1 y l2 :
  links st c d = Some (l1 ++ y :: l2) -> y.1 = pos -> pos ∉ l1.*1 ->
  exists st', erase st c d pos = Some st' /\ modifies st st' c d (l1 ++ l2) 0.
Proof.
  intros Hl Hy Hl1. unfold erase. rewrite Hl. cbn [mbind option_bind].
  rewrite list_erase_split by done. cbn [mbind option_bind].
  by apply set_links_modifies with (l0 := l1 ++ y :: l2).
Qed.

Lemma set_reverse_modifies st c d pos r l1 y l2 :
  links st c d = Some (l1 ++ y :: l2) -> y.1 = pos -> pos ∉ l1.*1 ->
  exists st', set_reverse st c d pos r = Some st' /\
    modifies st st' c d (l1 ++ (pos, mkLink (to_index y.2) (Some r)) :: l2) 0.
Proof.
  intros Hl Hy Hl1. unfold set_reverse. rewrite Hl. cbn [mbind option_bind].
  rewrite list_set_reverse_split by done. cbn [mbind option_bind].
  by apply set_links_modifies with (l0 := l1 ++ y :: l2).
Qed.

Lemma begin_cons st c d x l : links st c d = Some (x :: l) -> begin st c d = Some x.1.
Proof. intros Hl. unfold begin. by rewrite Hl. Qed.


Lemma modifies_then_other st st1 st2 c1 d1 l1' c2 d2 l2' k1 k2 :
  c2 <> c1 \/ d2 <> d1 ->
  modifies st st1 c1 d1 l1' k1 -> modifies st1 st2 c2 d2 l2' k2 ->
  modifies2 st st2 c1 d1 l1' c2 d2 l2' (k2 + k1).
Proof.
  intros Hne (Hl1 & Ho1 & Hs1 & Hn1) (Hl2 & Ho2 & Hs2 & Hn2).
  split; [|split; [done|split; [|split]]].
  - rewrite Ho2; [done|]. destruct Hne; auto.
  - intros c' d' H1 H2. rewrite Ho2 by done. by apply Ho1.
  - by eapply same_cells_trans.
  - lia.
Qed.

Lemma modifies2_then_first st st1 st2 c1 d1 l1' c2 d2 l2' l1'' k k' :
  c2 <> c1 \/ d2 <> d1 ->
  modifies2 st st1 c1 d1 l1' c2 d2 l2' k -> modifies st1 st2 c1 d1 l1'' k' ->
  modifies2 st st2 c1 d1 l1'' c2 d2 l2' (k' + k).
Proof.
  intros Hne (Hl1 & Hl2 & Ho & Hs & Hn) (Hl1' & Ho' & Hs' & Hn').
  split; [done|split; [|split; [|split]]].
  - by rewrite Ho'.
  - intros c' d' H1 H2. rewrite Ho' by done. by apply Ho.
  - by eapply same_cells_trans.
  - lia.
Qed.

Lemma modifies2_then_second st st1 st2 c1 d1 l1' c2 d2 l2' l2'' k k' :
  c2 <> c1 \/ d2 <> d1 ->
  modifies2 st st1 c1 d1 l1' c2 d2 l2' k -> modifies st1 st2 c2 d2 l2'' k' ->
  modifies2 st st2 c1 d1 l1' c2 d2 l2'' (k' + k).
Proof.
  intros Hne (Hl1 & Hl2 & Ho & Hs & Hn) (Hl2' & Ho' & Hs' & Hn').
  split; [|split; [done|split; [|split]]].
  - rewrite Ho'; [done|]. destruct Hne; auto.
  - intros c' d' H1 H2. rewrite Ho' by done. by apply Ho.
  - by eapply same_cells_trans.
  - lia.
Qed.

End StateLemmas.

(** ** Adding a pair of links, erasing a link, clearing a list *)

Section Effects.
Context {F : Type}.
Implicit Types (st : State F) (c : Z) (d : Direction) (it : LinkIterator) (L : Link)
  (l : list LinkNode).

Lemma links_side st c d l : links st c d = Some l -> d <> COUNT /\ opposite d <> d.
Proof.
  intros (C & _ & HA)%links_Some. by destruct d.
Qed.

Lemma opposite_involutive d : d <> COUNT -> opposite (opposite d) = d.
Proof. by destruct d. Qed.

Lemma modifies2_has_link st st' c1 d1 l1' c2 d2 l2' k c d it L :
  c2 <> c1 \/ d2 <> d1 ->
  modifies2 st st' c1 d1 l1' c2 d2 l2' k ->
  has_link st' c d it L <->
    (c = c1 /\ d = d1 /\ (it, L) ∈ l1') \/
    (c = c2 /\ d = d2 /\ (it, L) ∈ l2') \/
    ((c <> c1 \/ d <> d1) /\ (c <> c2 \/ d <> d2) /\ has_link st c d it L).
Proof.
  intros Hne (Hl1 & Hl2 & Hoth & _ & _). unfold has_link.
  destruct (decide (c = c1 /\ d = d1)) as [[-> ->]|H1].
  { rewrite Hl1. split.
    - intros (l & [= <-] & Hin). by left.
    - intros [(_ & _ & Hin)|[(-> & -> & _)|([?|?] & _)]]; try done; [eauto|].
      by destruct Hne. }
  destruct (decide (c = c2 /\ d = d2)) as [[-> ->]|H2].
  { rewrite Hl2. split.
    - intros (l & [= <-] & Hin). right. by left.
    - intros [(-> & -> & _)|[(_ & _ & Hin)|(_ & [?|?] & _)]]; try done; [|eauto].
      by destruct Hne. }
  assert (c <> c1 \/ d <> d1) as H1'.
  { destruct (decide (c = c1)); [|by left]. destruct (decide (d = d1)); [|by right].
    by destruct H1. }
  assert (c <> c2 \/ d <> d2) as H2'.
  { destruct (decide (c = c2)); [|by left]. destruct (decide (d = d2)); [|by right].
    by destruct H2. }
  rewrite Hoth by done. split; [by auto|].
  intros [(? & ? & _)|[(? & ? & _)|(_ & _ & ?)]]; [by destruct H1|by destruct H2|done].
Qed.


Lemma has_link_not_fresh st c d it L :
  wf_mem st -> has_link st c d it L -> (next_node st <= it)%nat -> False.
Proof. intros Hwf H%(mem_bounded _ Hwf). lia. Qed.

Lemma elem_of_fst (l : list LinkNode) it L : (it, L) ∈ l -> it ∈ l.*1.
Proof. intros H. apply list_elem_of_fmap. by exists (it, L). Qed.

Lemma modifies2_adds_pair st st' c1 d1 l1 c2 la lb :
  wf_mem st ->
  links st c1 d1 = Some l1 -> links st c2 (opposite d1) = Some (la ++ lb) ->
  modifies2 st st' c1 d1 ((next_node st, mkLink c2 (Some (S (next_node st)))) :: l1)
    c2 (opposite d1) (la ++ (S (next_node st), mkLink c1 (Some (next_node st))) :: lb) 2 ->
  adds_pair st st' c1 d1 c2.
Proof.
  intros Hwf Hl1 Hl2 Hm.
  destruct (links_side _ _ _ _ Hl1) as [Hd1 Hopp].
  assert (Hne : c2 <> c1 \/ opposite d1 <> d1) by (by right).
  pose proof (fun c d it L => modifies2_has_link _ _ _ _ _ _ _ _ _ c d it L Hne Hm) as Hiff.
  assert (Hview : forall c d it L, has_link st' c d it L <->
     has_link st c d it L \/
     (c = c1 /\ d = d1 /\ it = next_node st /\
        L = mkLink c2 (Some (S (next_node st)))) \/
     (c = c2 /\ d = opposite d1 /\ it = S (next_node st) /\
        L = mkLink c1 (Some (next_node st)))).
  { intros c d it L. rewrite Hiff. split.
    - intros [(-> & -> & Hin)|[(-> & -> & Hin)|(_ & _ & H)]]; [| |by left].
      + apply elem_of_cons in Hin as [[= -> ->]|Hin]; [right; by left|].
        left. by exists l1.
      + apply elem_of_app in Hin as [Hin|Hin].
        * left. exists (la ++ lb). split; [done|]. apply elem_of_app. by left.
        * apply elem_of_cons in Hin as [[= -> ->]|Hin]; [right; by right|].
          left. exists (la ++ lb). split; [done|]. apply elem_of_app. by right.
    - intros [H|[(-> & -> & -> & ->)|(-> & -> & -> & ->)]].
      + destruct (decide (c = c1 /\ d = d1)) as [[-> ->]|H1].
        { left. split; [done|]. split; [done|]. apply elem_of_cons. right.
          destruct H as (l & Hl & Hin). by rewrite Hl1 in Hl; injection Hl as <-. }
        destruct (decide (c = c2 /\ d = opposite d1)) as [[-> ->]|H2].
        { right. left. split; [done|]. split; [done|].
          destruct H as (l & Hl & Hin). rewrite Hl2 in Hl; injection Hl as <-.
          apply elem_of_app in Hin as [?|?]; apply elem_of_app; [by left|].
          right. apply elem_of_cons. by right. }
        right. right. split; [|split; [|done]].
        * destruct (decide (c = c1)); [|by left]. destruct (decide (d = d1)); [|by right].
          by destruct H1.
        * destruct (decide (c = c2)); [|by left].
          destruct (decide (d = opposite d1)); [|by right]. by destruct H2.
      + left. split; [done|]. split; [done|]. apply elem_of_cons. by left.
      + right. left. split; [done|]. split; [done|]. apply elem_of_app. right.
        apply elem_of_cons. by left. }
  destruct Hm as (Hl1' & Hl2' & Hoth & Hs & Hn).
  split; [done|]. split; [lia|]. split; [done|]. split.
  { intros c d l Hl.
    destruct (decide (c = c1 /\ d = d1)) as [[-> ->]|H1]; [eauto|].
    destruct (decide (c = c2 /\ d = opposite d1)) as [[-> ->]|H2]; [eauto|].
    exists l. rewrite Hoth; [done| |].
    - destruct (decide (c = c1)); [|by left]. destruct (decide (d = d1)); [|by right].
      by destruct H1.
    - destruct (decide (c = c2)); [|by left].
      destruct (decide (d = opposite d1)); [|by right]. by destruct H2. }
  split.
  - intros c d it L [H|[(_ & _ & -> & _)|(_ & _ & -> & _)]]%Hview; [|lia..].
    apply (mem_bounded _ Hwf) in H. lia.
  - intros c d l Hl.
    destruct (decide (c = c1 /\ d = d1)) as [[-> ->]|H1].
    { rewrite Hl1' in Hl. injection Hl as <-. cbn. apply NoDup_cons. split.
      - intros (x & Hx & Hin)%list_elem_of_fmap. destruct x as [it L]. cbn in Hx. subst it.
        eapply (has_link_not_fresh st); [done| |reflexivity]. by exists l1.
      - by eapply mem_nodup. }
    destruct (decide (c = c2 /\ d = opposite d1)) as [[-> ->]|H2].
    { rewrite Hl2' in Hl. injection Hl as <-.
      pose proof (mem_nodup _ Hwf _ _ _ Hl2) as Hnd.
      rewrite fmap_app in *. cbn.
      apply NoDup_app in Hnd as (Ha & Hab & Hb).
      assert (Hfresh : forall x, x ∈ (la ++ lb).*1 -> x <> S (next_node st)).
      { intros x (y & -> & Hin)%list_elem_of_fmap Heq. destruct y as [it L]. cbn in Heq.
        subst it. eapply (has_link_not_fresh st); [done| |].
        - by exists (la ++ lb).
        - lia. }
      rewrite fmap_app in Hfresh.
      apply NoDup_app. split; [done|]. split.
      - intros x Hx [->|?]%elem_of_cons; [|by eapply Hab].
        eapply Hfresh; [|done]. apply elem_of_app. by left.
      - apply NoDup_cons. split; [|done]. intros Hin.
        eapply Hfresh; [|done]. apply elem_of_app. by right. }
    rewrite Hoth in Hl.
    + by eapply mem_nodup.
    + destruct (decide (c = c1)); [|by left]. destruct (decide (d = d1)); [|by right].
      by destruct H1.
    + destruct (decide (c = c2)); [|by left].
      destruct (decide (d = opposite d1)); [|by right]. by destruct H2.
  - intros c d it L c' d' L'.
    intros [H|[(-> & -> & -> & ->)|(-> & -> & -> & ->)]]%Hview
           [H'|[(-> & -> & Hit & ->)|(-> & -> & Hit & ->)]]%Hview; try done; try lia.
    + by eapply mem_unique.
    + subst it. exfalso. eapply (has_link_not_fresh st); [done..|lia].
    + subst it. exfalso. eapply (has_link_not_fresh st); [done..|lia].
    + exfalso. eapply (has_link_not_fresh st); [done..|lia].
    + exfalso. eapply (has_link_not_fresh st); [done..|lia].
Qed.

Lemma links_exists st c d (C : Cell F) :
  cell_at (cell_data st) c = Some C -> d <> COUNT -> exists l, links st c d = Some l.
Proof.
  intros HC Hd. unfold links. rewrite HC. cbn. destruct d; cbn; eauto. done.
Qed.

Lemma initialConnection_adds_pair st b a dir (B A : Cell F) :
  wf_mem st -> dir <> COUNT ->
  cell_at (cell_data st) b = Some B -> cell_at (cell_data st) a = Some A ->
  index B = b -> index A = a ->
  exists st', initialConnection st b a dir = Some st' /\ adds_pair st st' b dir a.
Proof.
  intros Hwf Hdir HB HA HiB HiA.
  destruct (links_exists st b dir B HB Hdir) as [lb Hlb].
  destruct (links_exists st a (opposite dir) A HA) as [la Hla]; [by destruct dir|].
  destruct (links_side _ _ _ _ Hlb) as [_ Hopp].
  assert (Hne : a <> b \/ opposite dir <> dir) by (by right).
  unfold initialConnection. rewrite HB, HA. cbn [mbind option_bind]. rewrite HiA, HiB.
  destruct (emplace_front_modifies st b dir a lb Hlb) as (st1 & -> & Hm1).
  cbn [mbind option_bind].
  assert (Hla1 : links st1 a (opposite dir) = Some la).
  { destruct Hm1 as (_ & Ho & _). rewrite Ho; [done|by right]. }
  destruct (emplace_front_modifies st1 a (opposite dir) b la Hla1) as (st2 & -> & Hm2).
  cbn [mbind option_bind].
  assert (Hn1 : next_node st1 = S (next_node st)) by (destruct Hm1 as (_ & _ & _ & ->); lia).
  rewrite Hn1 in Hm2.
  pose proof (modifies_then_other _ _ _ _ _ _ _ _ _ _ _ Hne Hm1 Hm2) as Hm12.
  rewrite (begin_cons st2 b dir _ _ (proj1 Hm12)).
  rewrite (begin_cons st2 a (opposite dir) _ _ (proj1 (proj2 Hm12))).
  cbn [mbind option_bind fst].
  destruct (set_reverse_modifies st2 b dir (next_node st) (S (next_node st)) [] _ lb
              (proj1 Hm12) eq_refl) as (st3 & -> & Hm3); [apply not_elem_of_nil|].
  cbn [mbind option_bind app snd to_index] in *.
  pose proof (modifies2_then_first _ _ _ _ _ _ _ _ _ _ _ _ Hne Hm12 Hm3) as Hm123.
  destruct (set_reverse_modifies st3 a (opposite dir) (S (next_node st)) (next_node st)
              [] _ la (proj1 (proj2 Hm123)) eq_refl) as (st4 & -> & Hm4);
    [apply not_elem_of_nil|].
  cbn [app snd to_index] in *.
  pose proof (modifies2_then_second _ _ _ _ _ _ _ _ _ _ _ _ Hne Hm123 Hm4) as Hm1234.
  eexists; split; [done|].
  by apply (modifies2_adds_pair st st4 b dir lb a [] la).
Qed.


Lemma modifies_sublist_wf_mem st st' c d l l' :
  wf_mem st -> links st c d = Some l -> l' `sublist_of` l ->
  modifies st st' c d l' 0 -> wf_mem st'.
Proof.
  intros Hwf Hl Hsub Hm.
  assert (Hmono : forall c0 d0 it L, has_link st' c0 d0 it L -> has_link st c0 d0 it L).
  { intros c0 d0 it L [(-> & -> & Hin)|(_ & H)]%(modifies_has_link _ _ _ _ _ _ _ _ _ _ Hm);
      [|done].
    exists l. split; [done|]. by eapply elem_of_sublist. }
  destruct Hm as (Hl' & Hoth & _ & Hn). split.
  - intros c0 d0 it L H%Hmono. apply (mem_bounded _ Hwf) in H. lia.
  - intros c0 d0 l0 Hl0. destruct (decide (c0 = c /\ d0 = d)) as [[-> ->]|Hne].
    + rewrite Hl' in Hl0. injection Hl0 as <-.
      eapply sublist_NoDup; [by eapply (mem_nodup _ Hwf)|]. by apply fmap_sublist.
    + rewrite Hoth in Hl0; [by eapply mem_nodup|].
      destruct (decide (c0 = c)); [|by left]. destruct (decide (d0 = d)); [|by right].
      by destruct Hne.
  - intros c0 d0 it L c0' d0' L' H%Hmono H'%Hmono. by eapply mem_unique.
Qed.

Lemma modifies_links_exist st st' c d l' k c0 d0 l0 :
  modifies st st' c d l' k -> links st c0 d0 = Some l0 ->
  exists l0', links st' c0 d0 = Some l0'.
Proof.
  intros (Hl' & Hoth & _) Hl0.
  destruct (decide (c0 = c /\ d0 = d)) as [[-> ->]|Hne]; [eauto|].
  exists l0. rewrite Hoth; [done|].
  destruct (decide (c0 = c)); [|by left]. destruct (decide (d0 = d)); [|by right].
  by destruct Hne.
Qed.

Lemma erase_removes st n d r Lr :
  wf_mem st -> has_link st n d r Lr ->
  exists st', erase st n d r = Some st' /\ removes st st' (fun _ _ it => it = r).
Proof.
  intros Hwf Hr. pose proof Hr as (ln & Hln & Hin).
  destruct (first_node_split r ln (elem_of_fst _ _ _ Hin)) as (la & y & lb & -> & Hy & Hla).
  destruct (erase_modifies st n d r la y lb Hln Hy Hla) as (st' & -> & Hm).
  eexists; split; [done|].
  pose proof (mem_nodup _ Hwf _ _ _ Hln) as Hnd.
  rewrite fmap_app in Hnd. cbn in Hnd. rewrite Hy in Hnd.
  apply NoDup_app in Hnd as (_ & Hab & [Hrb _]%NoDup_cons).
  split; [by destruct Hm as (_ & _ & ? & _)|]. split; [by destruct Hm as (_ & _ & _ & ?)|].
  split; [|split].
  - intros c d0 it L. rewrite (modifies_has_link _ _ _ _ _ _ _ _ _ _ Hm). split.
    + intros [(-> & -> & Hin')|(Hne & H)].
      * split.
        -- exists (la ++ y :: lb). split; [done|].
           apply elem_of_app in Hin' as [?|?]; apply elem_of_app; [by left|].
           right. apply elem_of_cons. by right.
        -- intros ->. apply elem_of_fst in Hin'. rewrite fmap_app in Hin'.
           apply elem_of_app in Hin' as [?|?]; done.
      * split; [done|]. intros ->.
        destruct (mem_unique _ Hwf _ _ _ _ _ _ _ H Hr) as [-> ->]. by destruct Hne.
    + intros [H Hit]. destruct (decide (c = n /\ d0 = d)) as [[-> ->]|Hne].
      * left. split; [done|]. split; [done|]. destruct H as (l & Hl & Hin').
        rewrite Hln in Hl. injection Hl as <-.
        apply elem_of_app in Hin' as [?|[Heq|?]%elem_of_cons]; apply elem_of_app; auto.
        subst y. cbn in *. congruence.
      * right. split; [|done].
        destruct (decide (c = n)); [|by left]. destruct (decide (d0 = d)); [|by right].
        by destruct Hne.
  - intros c d0 l. by eapply modifies_links_exist.
  - eapply modifies_sublist_wf_mem; [done..| |done].
    apply sublist_app; [done|]. by apply sublist_cons.
Qed.

Lemma clear_removes st c d l :
  wf_mem st -> links st c d = Some l ->
  exists st', set_links st c d [] = Some st' /\
    removes st st' (fun c' d' _ => c' = c /\ d' = d).
Proof.
  intros Hwf Hl. destruct (set_links_modifies st c d [] l Hl) as (st' & -> & Hm).
  eexists; split; [done|].
  split; [by destruct Hm as (_ & _ & ? & _)|]. split; [by destruct Hm as (_ & _ & _ & ?)|].
  split; [|split].
  - intros c' d' it L. rewrite (modifies_has_link _ _ _ _ _ _ _ _ _ _ Hm). split.
    + intros [(_ & _ & Hin)|(Hne & H)]; [by apply elem_of_nil in Hin|].
      split; [done|]. intros [-> ->]. by destruct Hne.
    + intros [H Hne]. right. split; [|done].
      destruct (decide (c' = c)); [|by left]. destruct (decide (d' = d)); [|by right].
      by destruct Hne.
  - intros c0 d0 l0. by eapply modifies_links_exist.
  - eapply modifies_sublist_wf_mem; [done..| |done]. apply sublist_nil_l.
Qed.

End Effects.

Section ConnectChild.
Context {F : Type}.
Variable isNextTo : Cell F -> Cell F -> Direction -> option bool.
Implicit Types (st : State F).

Lemma connect_child_adds_pair st side n r ch lc Lr :
  wf_mem st -> links st ch side = Some lc ->
  has_link st n (opposite side) r Lr ->
  exists st', connect_child st side n r ch = Some st' /\ adds_pair st st' ch side n.
Proof.
  intros Hwf Hlc Hr.
  pose proof (mem_bounded _ Hwf _ _ _ _ Hr) as Hrb.
  destruct Hr as (ln & Hln & Hin).
  destruct (first_node_split r ln (elem_of_fst _ _ _ Hin)) as (la & y & lb & -> & Hy & Hla).
  destruct (links_side _ _ _ _ Hlc) as [_ Hopp].
  assert (Hne : n <> ch \/ opposite side <> side) by (by right).
  unfold connect_child.
  destruct (emplace_front_modifies st ch side n lc Hlc) as (st1 & -> & Hm1).
  cbn [mbind option_bind].
  rewrite (begin_cons st1 ch side _ _ (proj1 Hm1)). cbn [mbind option_bind fst].
  assert (Hln1 : links st1 n (opposite side) = Some (la ++ y :: lb)).
  { destruct Hm1 as (_ & Ho & _). rewrite Ho; [done|by right]. }
  destruct (emplace_modifies st1 n (opposite side) r ch la y lb Hln1 Hy Hla)
    as (st2 & -> & Hm2).
  cbn [mbind option_bind].
  assert (Hn1 : next_node st1 = S (next_node st)) by (destruct Hm1 as (_ & _ & _ & ->); lia).
  rewrite Hn1 in Hm2.
  pose proof (modifies_then_other _ _ _ _ _ _ _ _ _ _ _ Hne Hm1 Hm2) as Hm12.
  rewrite (proj1 (proj2 Hm12)). cbn [mbind option_bind].
  rewrite (list_prev_split r (S (next_node st), _) la y lb Hy); [|cbn; lia|done].
  cbn [mbind option_bind fst].
  destruct (set_reverse_modifies st2 ch side (next_node st) (S (next_node st)) [] _ lc
              (proj1 Hm12) eq_refl) as (st3 & -> & Hm3); [apply not_elem_of_nil|].
  cbn [mbind option_bind app snd to_index] in *.
  pose proof (modifies2_then_first _ _ _ _ _ _ _ _ _ _ _ _ Hne Hm12 Hm3) as Hm123.
  assert (Hfresh : S (next_node st) ∉ la.*1).
  { intros (x & Hx & Hxin)%list_elem_of_fmap. destruct x as [it L]. cbn in Hx. subst it.
    eapply (has_link_not_fresh st); [done| |].
    - exists (la ++ y :: lb). split; [done|]. apply elem_of_app. by left.
    - lia. }
  destruct (set_reverse_modifies st3 n (opposite side) (S (next_node st)) (next_node st)
              la _ (y :: lb) (proj1 (proj2 Hm123)) eq_refl Hfresh) as (st4 & -> & Hm4).
  cbn [app snd to_index] in *.
  pose proof (modifies2_then_second _ _ _ _ _ _ _ _ _ _ _ _ Hne Hm123 Hm4) as Hm1234.
  eexists; split; [done|].
  by apply (modifies2_adds_pair st st4 ch side lc n la (y :: lb)).
Qed.

End ConnectChild.

(** ** The invariants under the three effects *)

Section Preservation.
Context {F : Type}.
Implicit Types (st : State F) (c : Z) (d : Direction) (it : LinkIterator) (L : Link).

Lemma same_cells_depth st st' c (C C' : Cell F) :
  same_cells st st' ->
  cell_at (cell_data st) c = Some C -> cell_at (cell_data st') c = Some C' ->
  index C' = index C /\ depth C' = depth C /\ children C' = children C /\
  prism C' = prism C /\ is_subdivided C' = is_subdivided C.
Proof.
  intros Hs HC HC'. destruct (same_cells_cell_at _ _ _ _ Hs HC) as (C'' & HC'' & Hf).
  rewrite HC' in HC''. injection HC'' as <-. by apply forget_links_fields.
Qed.

Lemma same_cells_cell_back st st' c (C' : Cell F) :
  same_cells st st' -> cell_at (cell_data st') c = Some C' ->
  exists C, cell_at (cell_data st) c = Some C /\
    index C' = index C /\ depth C' = depth C /\ children C' = children C /\
    prism C' = prism C /\ is_subdivided C' = is_subdivided C.
Proof.
  intros Hs HC'.
  destruct (same_cells_cell_at _ _ _ _ (same_cells_sym _ _ Hs) HC') as (C & HC & Hf).
  exists C. split; [done|]. symmetry in Hf.
  apply forget_links_fields in Hf. naive_solver.
Qed.

Lemma same_cells_wf_tree st st' :
  same_cells st st' -> wf_tree (cell_data st) -> wf_tree (cell_data st').
Proof.
  intros Hs Hwf p C' HC'.
  destruct (same_cells_cell_back _ _ _ _ Hs HC') as (C & HC & Hi & Hd & Hch & _).
  destruct (Hwf p C HC) as (Hidx & Hkids & H23). split; [congruence|].
  split; [|by rewrite Hch].
  intros k Hk Hk0. rewrite Hch in Hk. destruct (Hkids k Hk Hk0) as (Hpos & K & HK & HdK).
  split; [done|].
  destruct (same_cells_cell_at _ _ _ _ Hs HK) as (K' & HK' & Hf).
  exists K'. split; [done|]. apply forget_links_fields in Hf. lia.
Qed.

Lemma has_link_functional st c d it L L' :
  wf_mem st -> has_link st c d it L -> has_link st c d it L' -> L = L'.
Proof.
  intros Hwf (l & Hl & Hin) (l' & Hl' & Hin'). rewrite Hl in Hl'. injection Hl' as <-.
  pose proof (mem_nodup _ Hwf _ _ _ Hl) as Hnd.
  by eapply node_content_unique.
Qed.

Lemma has_link_cell st c d it L :
  has_link st c d it L -> d <> COUNT /\ exists C, cell_at (cell_data st) c = Some C.
Proof.
  intros (l & Hl & _). split; [by eapply links_side|].
  apply links_Some in Hl as (C & ? & _). eauto.
Qed.

Lemma adds_pair_paired dead st st' c1 d1 c2 :
  d1 <> COUNT -> ~ dead (next_node st) -> ~ dead (S (next_node st)) ->
  adds_pair st st' c1 d1 c2 -> paired_except dead st -> paired_except dead st'.
Proof.
  intros Hd1 Ho Hi (_ & _ & Hview & _) Hp c d it L H Hlive.
  apply Hview in H as [H|[(-> & -> & -> & ->)|(-> & -> & -> & ->)]].
  - destruct (Hp _ _ _ _ H Hlive) as (r & Hr & Hrl & Hback).
    exists r. split; [done|]. split; [done|]. apply Hview. by left.
  - eexists. split; [done|]. split; [done|]. apply Hview. right. by right.
  - eexists. split; [done|]. split; [done|]. apply Hview. right. left.
    by rewrite opposite_involutive.
Qed.

Lemma adds_pair_targets st st' c1 d1 c2 :
  0 < c1 -> 0 < c2 ->
  adds_pair st st' c1 d1 c2 -> targets_positive st -> targets_positive st'.
Proof.
  intros H1 H2 (_ & _ & Hview & _) Ht c d it L H.
  apply Hview in H as [H|[(-> & -> & -> & ->)|(-> & -> & -> & ->)]]; [|done..].
  by eapply Ht.
Qed.

Lemma adds_pair_balanced st st' c1 d1 c2 (C1 C2 : Cell F) :
  cell_at (cell_data st) c1 = Some C1 -> cell_at (cell_data st) c2 = Some C2 ->
  Z.abs (depth C1 - depth C2) <= 1 ->
  adds_pair st st' c1 d1 c2 -> balanced st -> balanced st'.
Proof.
  intros HC1 HC2 Hd (Hs & _ & Hview & _) Hb c d it L C' N' H HC' HN'.
  destruct (same_cells_cell_back _ _ _ _ Hs HC') as (C & HC & _ & HdC & _).
  destruct (same_cells_cell_back _ _ _ _ Hs HN') as (N & HN & _ & HdN & _).
  rewrite HdC, HdN.
  apply Hview in H as [H|[(-> & -> & -> & ->)|(-> & -> & -> & ->)]].
  - by eapply Hb.
  - cbn in HN. rewrite HC1 in HC. rewrite HC2 in HN. by injection HC as <-; injection HN as <-.
  - cbn in HN. rewrite HC2 in HC. rewrite HC1 in HN.
    injection HC as <-; injection HN as <-. lia.
Qed.

Lemma adds_pair_unconstrained st st' ci c1 d1 c2 (C1 C2 : Cell F) :
  cell_at (cell_data st) c1 = Some C1 -> cell_at (cell_data st) c2 = Some C2 ->
  (c1 = ci -> depth C1 <= depth C2) -> (c2 = ci -> depth C2 <= depth C1) ->
  adds_pair st st' c1 d1 c2 -> unconstrained st ci -> unconstrained st' ci.
Proof.
  intros HC1 HC2 H1 H2 (Hs & _ & Hview & _) Hu d it L C' N' H HC' HN'.
  destruct (same_cells_cell_back _ _ _ _ Hs HC') as (C & HC & _ & HdC & _).
  destruct (same_cells_cell_back _ _ _ _ Hs HN') as (N & HN & _ & HdN & _).
  rewrite HdC, HdN.
  apply Hview in H as [H|[(-> & -> & -> & ->)|(-> & -> & -> & ->)]].
  - by eapply Hu.
  - cbn in HN. rewrite HC1 in HC. rewrite HC2 in HN.
    injection HC as <-; injection HN as <-. by apply H1.
  - cbn in HN. rewrite HC2 in HC. rewrite HC1 in HN.
    injection HC as <-; injection HN as <-. by apply H2.
Qed.

Lemma removes_targets st st' gone :
  removes st st' gone -> targets_positive st -> targets_positive st'.
Proof.
  intros (_ & _ & Hview & _) Ht c d it L [H _]%Hview. by eapply Ht.
Qed.

Lemma removes_balanced st st' gone :
  removes st st' gone -> balanced st -> balanced st'.
Proof.
  intros (Hs & _ & Hview & _) Hb c d it L C' N' [H _]%Hview HC' HN'.
  destruct (same_cells_cell_back _ _ _ _ Hs HC') as (C & HC & _ & HdC & _).
  destruct (same_cells_cell_back _ _ _ _ Hs HN') as (N & HN & _ & HdN & _).
  rewrite HdC, HdN. by eapply Hb.
Qed.

Lemma removes_unconstrained st st' gone ci :
  removes st st' gone -> unconstrained st ci -> unconstrained st' ci.
Proof.
  intros (Hs & _ & Hview & _) Hu d it L C' N' [H _]%Hview HC' HN'.
  destruct (same_cells_cell_back _ _ _ _ Hs HC') as (C & HC & _ & HdC & _).
  destruct (same_cells_cell_back _ _ _ _ Hs HN') as (N & HN & _ & HdN & _).
  rewrite HdC, HdN. by eapply Hu.
Qed.

End Preservation.

(** ** Subdivision keeps the invariants *)

Section LinkSteps.
Context {F : Type}.
Implicit Types (st : State F) (c : Z) (d : Direction) (it : LinkIterator) (L : Link).

Lemma wf_tree_child st ci (C : Cell F) ch :
  wf_tree (cell_data st) -> cell_at (cell_data st) ci = Some C ->
  ch ∈ children_list (children C) -> 0 <= ch ->
  0 < ch /\ ch <> ci /\ exists K, cell_at (cell_data st) ch = Some K /\
    depth K = depth C + 1 /\ index K = ch.
Proof.
  intros Hwf HC Hch H0. destruct (Hwf _ _ HC) as (_ & Hk & _).
  destruct (Hk ch Hch H0) as (Hpos & K & HK & HdK).
  split; [done|]. split.
  - intros ->. rewrite HC in HK. injection HK as <-. lia.
  - exists K. split; [done|]. split; [done|]. by destruct (Hwf _ _ HK).
Qed.

Lemma connect_child_inv st ci s D todo nid N r (C : Cell F) ch :
  side_inv st ci s D todo ->
  (nid, N) ∈ todo -> link_reverse N = Some r ->
  cell_at (cell_data st) ci = Some C ->
  ch ∈ children_list (children C) -> 0 <= ch ->
  exists st', connect_child st s (to_index N) r ch = Some st' /\
    side_inv st' ci s D todo /\ same_cells st st' /\
    (balanced_around st ci -> balanced_around st' ci).
Proof.
  intros Hinv Hin Hr HC Hch Hch0.
  destruct (si_todo _ _ _ _ _ Hinv _ _ Hin) as [HN Hlive].
  destruct (has_link_cell _ _ _ _ _ HN) as [Hs _].
  destruct (si_paired _ _ _ _ _ Hinv _ _ _ _ HN Hlive) as (r' & Hr' & Hrlive & HR).
  rewrite Hr in Hr'. injection Hr' as <-.
  destruct (wf_tree_child _ _ _ _ (si_tree _ _ _ _ _ Hinv) HC Hch Hch0)
    as (Hchpos & Hne & K & HK & HdK & HiK).
  destruct (links_exists st ch s K HK Hs) as [lc Hlc].
  destruct (connect_child_adds_pair st s (to_index N) r ch lc _
              (si_mem _ _ _ _ _ Hinv) Hlc HR) as (st' & Hst' & Hadd).
  exists st'. split; [done|].
  pose proof Hadd as (Hsame & Hnext & Hview & Hex & Hmem).
  pose proof (si_targets _ _ _ _ _ Hinv _ _ _ _ HN) as Hnpos.
  assert (Hfresh : forall k, (next_node st <= k)%nat -> k ∉ D).
  { intros k Hk HkD. apply (si_dead_bounded _ _ _ _ _ Hinv) in HkD. lia. }
  split; [|split; [done|]].
  - split.
    + eapply same_cells_wf_tree; [done|apply Hinv].
    + done.
    + eapply adds_pair_paired; [done| | |done|by apply (si_paired _ _ _ _ _ Hinv)].
      * apply Hfresh. lia.
      * apply Hfresh. lia.
    + eapply adds_pair_targets; [| |done|by apply (si_targets _ _ _ _ _ Hinv)]; done.
    + intros c d it L [H|[(_ & _ & -> & _)|(_ & _ & -> & _)]]%Hview HD.
      * by eapply (si_dead_here _ _ _ _ _ Hinv).
      * exfalso. eapply Hfresh; [|done]. lia.
      * exfalso. eapply Hfresh; [|done]. lia.
    + intros it HD. apply (si_dead_bounded _ _ _ _ _ Hinv) in HD. lia.
    + intros it L Hit. destruct (si_todo _ _ _ _ _ Hinv _ _ Hit) as [H ?].
      split; [|done]. apply Hview. by left.
    + by apply (si_todo_nodup _ _ _ _ _ Hinv).
    + intros it L [H|[(? & _)|(_ & Hd & _)]]%Hview.
      * by apply (si_covered _ _ _ _ _ Hinv).
      * congruence.
      * destruct s; done.
  - intros [Hbal Hunc].
    destruct (has_link_cell _ _ _ _ _ HR) as [_ [Nc HNc]].
    pose proof (Hbal _ _ _ _ _ _ HN HC HNc) as Hb1.
    pose proof (Hunc _ _ _ _ _ HN HC HNc) as Hu1.
    split.
    + eapply adds_pair_balanced; [exact HK|exact HNc| |done|done]. lia.
    + eapply adds_pair_unconstrained; [exact HK|exact HNc| | |done|done].
      * done.
      * intros Heq. rewrite Heq, HC in HNc. injection HNc as <-. lia.
Qed.

Lemma erase_reverse_inv st ci s D nid N rest r :
  side_inv st ci s D ((nid, N) :: rest) -> link_reverse N = Some r ->
  exists st', erase st (to_index N) (opposite s) r = Some st' /\
    side_inv st' ci s (nid :: D) rest /\ same_cells st st' /\
    (balanced_around st ci -> balanced_around st' ci).
Proof.
  intros Hinv Hr.
  destruct (si_todo _ _ _ _ _ Hinv nid N) as [HN Hlive]; [by left|].
  destruct (si_paired _ _ _ _ _ Hinv _ _ _ _ HN Hlive) as (r' & Hr' & Hrlive & HR).
  rewrite Hr in Hr'. injection Hr' as <-.
  pose proof (si_mem _ _ _ _ _ Hinv) as Hmem.
  destruct (erase_removes st (to_index N) (opposite s) r _ Hmem HR) as (st' & -> & Hrem).
  exists st'. split; [done|].
  pose proof Hrem as (Hsame & Hnext & Hview & Hex & Hmem').
  destruct (has_link_cell _ _ _ _ _ HN) as [Hs _].
  split; [|split; [done|]].
  - split.
    + eapply same_cells_wf_tree; [done|apply Hinv].
    + done.
    + intros c d it L [H Hit]%Hview Hlive'.
      apply not_elem_of_cons in Hlive' as [Hnid HiD].
      destruct (si_paired _ _ _ _ _ Hinv _ _ _ _ H HiD) as (q & Hq & Hqlive & HQ).
      exists q. split; [done|].
      assert (q <> r) as Hqr.
      { intros ->.
        destruct (mem_unique _ Hmem _ _ _ _ _ _ _ HQ HR) as [Heq1 Heq2].
        rewrite Heq1, Heq2 in HQ.
        pose proof (has_link_functional _ _ _ _ _ _ Hmem HQ HR) as Heq.
        injection Heq as _ ->. done. }
      split.
      * apply not_elem_of_cons. split; [|done]. intros ->.
        destruct (mem_unique _ Hmem _ _ _ _ _ _ _ HQ HN) as [Heq1 Heq2].
        rewrite Heq1, Heq2 in HQ.
        pose proof (has_link_functional _ _ _ _ _ _ Hmem HQ HN) as Heq.
        rewrite <- Heq in Hr. cbn in Hr. by injection Hr as ->.
      * apply Hview. done.
    + by eapply removes_targets; [|apply Hinv].
    + intros c d it L [H _]%Hview [->|HD]%elem_of_cons.
      * by destruct (mem_unique _ Hmem _ _ _ _ _ _ _ H HN).
      * by eapply (si_dead_here _ _ _ _ _ Hinv).
    + intros it [->|HD]%elem_of_cons.
      * rewrite Hnext. by eapply mem_bounded.
      * rewrite Hnext. by apply (si_dead_bounded _ _ _ _ _ Hinv).
    + pose proof (si_todo_nodup _ _ _ _ _ Hinv) as Hnd. cbn in Hnd.
      apply NoDup_cons in Hnd as [Hnid _].
      intros it L Hit. destruct (si_todo _ _ _ _ _ Hinv it L) as [H HiD]; [by right|].
      split.
      * apply Hview. split; [done|]. intros ->.
        destruct (mem_unique _ Hmem _ _ _ _ _ _ _ H HR) as [_ Hd]. by destruct s.
      * apply not_elem_of_cons. split; [|done]. intros ->.
        apply Hnid. by eapply elem_of_fst.
    + pose proof (si_todo_nodup _ _ _ _ _ Hinv) as Hnd. cbn in Hnd.
      by apply NoDup_cons in Hnd as [_ ?].
    + intros it L [H _]%Hview.
      destruct (si_covered _ _ _ _ _ Hinv _ _ H) as [?|[[= -> ->]|?]%elem_of_cons].
      * left. by right.
      * left. by left.
      * by right.
  - intros [Hbal Hunc]. split.
    + by eapply removes_balanced.
    + by eapply removes_unconstrained.
Qed.

Lemma initialConnection_keeps_inv st b a dir (B A : Cell F) :
  adjacency_inv st -> dir <> COUNT ->
  cell_at (cell_data st) b = Some B -> cell_at (cell_data st) a = Some A ->
  0 < b -> 0 < a ->
  exists st', initialConnection st b a dir = Some st' /\
    adjacency_inv st' /\ adds_pair st st' b dir a.
Proof.
  intros [Htree Hmem Hpair Htar] Hdir HB HA Hb Ha.
  destruct (initialConnection_adds_pair st b a dir B A Hmem Hdir HB HA)
    as (st' & -> & Hadd).
  { by destruct (Htree _ _ HB). }
  { by destruct (Htree _ _ HA). }
  exists st'. split; [done|].
  pose proof Hadd as (Hsame & Hnext & Hview & Hex & Hmem').
  split; [|done]. split.
  - by eapply same_cells_wf_tree.
  - done.
  - eapply adds_pair_paired; [done| | |done|done]; tauto.
  - eapply adds_pair_targets; [exact Hb|exact Ha|exact Hadd|done].
Qed.

Lemma initialConnection_inv st ci b a dir (B A : Cell F) :
  adjacency_inv st -> dir <> COUNT ->
  cell_at (cell_data st) b = Some B -> cell_at (cell_data st) a = Some A ->
  0 < b -> 0 < a -> b <> ci -> a <> ci -> depth B = depth A ->
  exists st', initialConnection st b a dir = Some st' /\
    adjacency_inv st' /\ same_cells st st' /\
    (balanced_around st ci -> balanced_around st' ci).
Proof.
  intros Hinv Hdir HB HA Hb Ha Hbci Haci Hdep.
  destruct (initialConnection_keeps_inv st b a dir B A Hinv Hdir HB HA Hb Ha)
    as (st' & -> & Hinv' & Hadd).
  exists st'. split; [done|]. split; [done|].
  split; [by destruct Hadd|].
  intros [Hbal Hunc]. split.
  - eapply adds_pair_balanced; [exact HB|exact HA| |done|done]. lia.
  - eapply adds_pair_unconstrained; [exact HB|exact HA| | |done|done]; done.
Qed.

Lemma set_is_subdivided_links st ci (C : Cell F) :
  cell_at (cell_data st) ci = Some C ->
  exists st', set_is_subdivided st ci = Some st' /\
    next_node st' = next_node st /\
    cell_at (cell_data st') ci = Some (with_subdivided C true) /\
    (forall j, j <> ci -> cell_at (cell_data st') j = cell_at (cell_data st) j) /\
    (forall c d, links st' c d = links st c d).
Proof.
  intros HC. unfold set_is_subdivided. erewrite update_cell_Some by done.
  cbn [mbind option_bind]. eexists; split; [done|]. cbn [cell_data next_node].
  pose proof (cell_at_range _ _ _ HC) as Hr.
  split; [done|]. split; [by erewrite cell_at_insert_eq|]. split.
  - intros j Hj. by rewrite cell_at_insert_ne by lia.
  - intros c d. unfold links. cbn [cell_data]. destruct (decide (c = ci)) as [->|Hne].
    + erewrite cell_at_insert_eq by done. by rewrite HC.
    + by rewrite cell_at_insert_ne by lia.
Qed.

Lemma same_cells_same_tree st st' : same_cells st st' -> same_tree st st'.
Proof.
  intros Hs j. destruct (cell_at (cell_data st) j) as [C|] eqn:HC.
  - destruct (same_cells_cell_at _ _ _ _ Hs HC) as (C' & -> & Hf).
    apply forget_links_fields in Hf as (? & ? & ? & ? & _). cbn.
    unfold cell_shape. congruence.
  - destruct (cell_at (cell_data st') j) as [C'|] eqn:HC'; [|done].
    destruct (same_cells_cell_back _ _ _ _ Hs HC') as (C & HC2 & _). congruence.
Qed.

Lemma same_tree_trans st1 st2 st3 :
  same_tree st1 st2 -> same_tree st2 st3 -> same_tree st1 st3.
Proof. intros H1 H2 j. by rewrite H2, H1. Qed.

Lemma same_tree_cell st st' j (C' : Cell F) :
  same_tree st st' -> cell_at (cell_data st') j = Some C' ->
  exists C, cell_at (cell_data st) j = Some C /\ cell_shape C' = cell_shape C.
Proof.
  intros Hs HC'. specialize (Hs j). rewrite HC' in Hs.
  destruct (cell_at (cell_data st) j) as [C|]; [|done].
  exists C. split; [done|]. cbn in Hs. congruence.
Qed.

Lemma same_tree_sym st st' : same_tree st st' -> same_tree st' st.
Proof. intros Hs j. by rewrite Hs. Qed.

Lemma same_tree_wf_tree st st' :
  same_tree st st' -> wf_tree (cell_data st) -> wf_tree (cell_data st').
Proof.
  intros Hs Hwf p C' HC'.
  destruct (same_tree_cell _ _ _ _ Hs HC') as (C & HC & [= Hp Hi Hd Hch]).
  destruct (Hwf p C HC) as (Hidx & Hkids & H23). split; [congruence|].
  split; [|by rewrite Hch].
  intros k Hk Hk0. rewrite Hch in Hk. destruct (Hkids k Hk Hk0) as (Hpos & K & HK & HdK).
  split; [done|].
  destruct (same_tree_cell _ _ _ _ (same_tree_sym _ _ Hs) HK) as (K' & HK' & [= _ _ HdK' _]).
  exists K'. split; [done|]. lia.
Qed.

Lemma same_links_inv st st' :
  (forall c d, links st' c d = links st c d) -> next_node st' = next_node st ->
  same_tree st st' ->
  (adjacency_inv st -> adjacency_inv st') /\ (balanced st -> balanced st').
Proof.
  intros Hl Hn Hs.
  assert (Hv : forall c d it L, has_link st' c d it L <-> has_link st c d it L).
  { intros c d it L. unfold has_link. by rewrite Hl. }
  split.
  - intros [Htree [Hb Hnd Hu] Hpair Htar]. split.
    + by eapply same_tree_wf_tree.
    + split.
      * intros c d it L H%Hv. rewrite Hn. by eapply Hb.
      * intros c d l H. rewrite Hl in H. by eapply Hnd.
      * intros c d it L c' d' L' H%Hv H'%Hv. by eapply Hu.
    + intros c d it L H%Hv Hlive. destruct (Hpair _ _ _ _ H Hlive) as (r & ? & ? & ?).
      exists r. split; [done|]. split; [done|]. by apply Hv.
    + intros c d it L H%Hv. by eapply Htar.
  - intros Hbal c d it L C' N' H%Hv HC' HN'.
    destruct (same_tree_cell _ _ _ _ Hs HC') as (C & HC & [= _ _ HdC _]).
    destruct (same_tree_cell _ _ _ _ Hs HN') as (N & HN & [= _ _ HdN _]).
    rewrite HdC, HdN. by eapply Hbal.
Qed.

Lemma later_cell st st' j (K : Cell F) :
  same_cells st st' -> cell_at (cell_data st) j = Some K ->
  exists K', cell_at (cell_data st') j = Some K' /\ depth K' = depth K /\
    children K' = children K.
Proof.
  intros Hs HK. destruct (same_cells_cell_at _ _ _ _ Hs HK) as (K' & HK' & Hf).
  exists K'. split; [done|]. apply forget_links_fields in Hf. tauto.
Qed.

Lemma has_link_at st ci (C : Cell F) d it L :
  cell_at (cell_data st) ci = Some C ->
  has_link st ci d it L <->
  exists l, adj_get (adjacent_cells C) d = Some l /\ (it, L) ∈ l.
Proof.
  intros HC. unfold has_link, links. rewrite HC. done.
Qed.

Lemma in_adjacency_lists (A : Adjacency) (x : LinkNode) :
  (exists side, side ∈ adjacency_lists A /\ x ∈ side) <->
  (exists d l, adj_get A d = Some l /\ x ∈ l).
Proof.
  unfold adjacency_lists. split.
  - intros (side & Hside & Hx). rewrite !elem_of_cons, elem_of_nil in Hside.
    destruct Hside as [->|[->|[->|[->|[]]]]];
      [exists LEFT|exists RIGHT|exists UP|exists DOWN]; eauto.
  - intros (d & l & Hl & Hx). exists l. split; [|done].
    rewrite !elem_of_cons. destruct d; cbn in Hl; try done; injection Hl as <-; auto.
Qed.

Lemma isConstrained_side_spec cd (C : Cell F) side :
  (forall x, x ∈ side -> exists N, cell_at cd (to_index x.2) = Some N) ->
  exists b, isConstrained_side cd C side = Some b /\
    (b = true <-> exists x N, x ∈ side /\ cell_at cd (to_index x.2) = Some N /\
                    depth N < depth C).
Proof.
  induction side as [|x side IH]; intros Hvalid.
  { exists false. split; [done|]. split; [done|]. by intros (x & N & ?%elem_of_nil & _). }
  cbn [isConstrained_side]. destruct (Hvalid x) as [N HN]; [by left|].
  rewrite HN. cbn [mbind option_bind]. unfold isConstrainedBy.
  destruct (Z.ltb_spec (depth N) (depth C)) as [Hlt|Hge].
  - exists true. split; [done|]. split; [|done]. intros _. exists x, N.
    split; [by left|done].
  - destruct IH as (b & -> & Hb); [intros y Hy; apply Hvalid; by right|].
    exists b. split; [done|]. rewrite Hb. split.
    + intros (y & M & Hy & ?). exists y, M. split; [by right|done].
    + intros (y & M & [->|Hy]%elem_of_cons & HM & Hlt).
      * rewrite HN in HM. injection HM as <-. lia.
      * eauto.
Qed.

Lemma isConstrained_sides_spec cd (C : Cell F) all_sides :
  (forall side x, side ∈ all_sides -> x ∈ side ->
     exists N, cell_at cd (to_index x.2) = Some N) ->
  exists b, isConstrained_sides cd C all_sides = Some b /\
    (b = true <-> exists side x N, side ∈ all_sides /\ x ∈ side /\
                    cell_at cd (to_index x.2) = Some N /\ depth N < depth C).
Proof.
  induction all_sides as [|side rest IH]; intros Hvalid.
  { exists false. split; [done|]. split; [done|].
    by intros (s & x & N & ?%elem_of_nil & _). }
  cbn [isConstrained_sides].
  destruct (isConstrained_side_spec cd C side) as (b & -> & Hb).
  { intros x Hx. eapply Hvalid; [by left|done]. }
  cbn [mbind option_bind]. destruct b.
  - exists true. split; [done|]. split; [|done]. intros _.
    destruct (proj1 Hb eq_refl) as (x & N & ? & ? & ?). exists side, x, N.
    split; [by left|done].
  - destruct IH as (b & -> & Hb'); [intros s x Hs; apply Hvalid; by right|].
    exists b. split; [done|]. rewrite Hb'. split.
    + intros (s & x & N & Hs & ?). exists s, x, N. split; [by right|done].
    + intros (s & x & N & [->|Hs]%elem_of_cons & Hx & HN & Hlt).
      * assert (false = true) by (apply Hb; eauto). done.
      * eauto 10.
Qed.

Lemma isConstrained_spec st ci (C : Cell F) :
  adjacency_inv st -> cell_at (cell_data st) ci = Some C ->
  exists b, isConstrained st C = Some b /\
    (b = true <-> exists d it L N, has_link st ci d it L /\
                    cell_at (cell_data st) (to_index L) = Some N /\ depth N < depth C).
Proof.
  intros Hinv HC. unfold isConstrained.
  destruct (isConstrained_sides_spec (cell_data st) C (adjacency_lists (adjacent_cells C)))
    as (b & -> & Hb).
  { intros side [it L] Hside Hx.
    destruct (proj1 (in_adjacency_lists (adjacent_cells C) (it, L))) as (d & l & Hl & Hin);
      [eauto|].
    assert (has_link st ci d it L) as H by (apply (has_link_at _ _ C); eauto).
    destruct (inv_paired _ Hinv _ _ _ _ H) as (r & _ & _ & HR); [tauto|].
    destruct (has_link_cell _ _ _ _ _ HR) as [_ [N HN]]. eauto. }
  exists b. split; [done|]. rewrite Hb. split.
  - intros (side & [it L] & N & Hside & Hx & HN & Hlt).
    destruct (proj1 (in_adjacency_lists (adjacent_cells C) (it, L))) as (d & l & Hl & Hin);
      [eauto|].
    exists d, it, L, N. split; [|done]. apply (has_link_at _ _ C); eauto.
  - intros (d & it & L & N & H & HN & Hlt).
    apply (has_link_at _ _ C) in H as (l & Hl & Hin); [|done].
    destruct (proj2 (in_adjacency_lists (adjacent_cells C) (it, L))) as (side & ? & ?);
      [eauto|].
    exists side, (it, L), N. done.
Qed.

Lemma not_constrained_unconstrained st ci (C : Cell F) :
  adjacency_inv st -> cell_at (cell_data st) ci = Some C ->
  isConstrained st C = Some false -> unconstrained st ci.
Proof.
  intros Hinv HC Hcon d it L C' N H HC' HN.
  rewrite HC in HC'. injection HC' as <-.
  destruct (isConstrained_spec st ci C Hinv HC) as (b & Hb & Hiff).
  rewrite Hcon in Hb. injection Hb as <-.
  destruct (Z.le_gt_cases (depth C) (depth N)) as [?|Hlt]; [done|].
  assert (false = true); [|done]. apply Hiff. exists d, it, L, N. split; [done|].
  split; [done|lia].
Qed.

End LinkSteps.

Section SubdivideProofs.
Context {F : Type}.
(** The loops of [subdivide], started in [st0], where [isNextTo] fails no
    assertion on the cells below the root. *)
Variable isNextTo : Cell F -> Cell F -> Direction -> option bool.
Variable st0 : State F.
Hypothesis isNextTo_returns : returns_on_arena isNextTo st0.
Implicit Types (st : State F) (c : Z) (d : Direction) (it : LinkIterator) (L : Link).

Lemma same_cells_arena_cell st i (A : Cell F) :
  same_cells st0 st -> 0 < i -> cell_at (cell_data st) i = Some A -> arena_cell st0 A.
Proof.
  intros Hs Hi HA.
  destruct (same_cells_cell_at _ _ _ _ (same_cells_sym _ _ Hs) HA) as (A0 & HA0 & Hf).
  by exists i, A0.
Qed.

Lemma children_loop_inv ci s D todo nid N r chs : forall st (C : Cell F),
  same_cells st0 st ->
  side_inv st ci s D todo ->
  (nid, N) ∈ todo -> link_reverse N = Some r ->
  cell_at (cell_data st) ci = Some C ->
  (forall ch, ch ∈ chs -> ch ∈ children_list (children C)) ->
  exists st', children_loop isNextTo st s (to_index N) r chs = Some st' /\
    side_inv st' ci s D todo /\ same_cells st st' /\
    (balanced_around st ci -> balanced_around st' ci).
Proof.
  induction chs as [|ch rest IH]; intros st C Hst0 Hinv Hin Hr HC Hsub.
  { exists st. done. }
  cbn [children_loop]. destruct (Z.ltb_spec ch 0) as [_|Hch0].
  { exists st. done. }
  assert (Hch : ch ∈ children_list (children C)) by (apply Hsub; left).
  destruct (wf_tree_child _ _ _ _ (si_tree _ _ _ _ _ Hinv) HC Hch Hch0)
    as (Hchpos & _ & K & HK & _).
  rewrite HK. cbn [mbind option_bind].
  destruct (si_todo _ _ _ _ _ Hinv _ _ Hin) as [HN Hlive].
  destruct (si_paired _ _ _ _ _ Hinv _ _ _ _ HN Hlive) as (r' & Hr' & _ & HR).
  destruct (has_link_cell _ _ _ _ _ HR) as [_ [Nc HNc]].
  destruct (has_link_cell _ _ _ _ _ HN) as [Hside _].
  rewrite HNc. cbn [mbind option_bind].
  pose proof (si_targets _ _ _ _ _ Hinv _ _ _ _ HN) as Hnpos.
  destruct (Z.gtb_spec (to_index N) 0) as [_|?]; [|lia].
  destruct (isNextTo_returns K Nc s) as [next ->];
    [done|by eapply (same_cells_arena_cell st ch)
         |by eapply (same_cells_arena_cell st (to_index N))|].
  cbn [mbind option_bind].
  assert (exists st1, (if next
                       then connect_child st s (to_index N) r ch else Some st) = Some st1 /\
            side_inv st1 ci s D todo /\ same_cells st st1 /\
            (balanced_around st ci -> balanced_around st1 ci))
    as (st1 & -> & Hinv1 & Hs1 & Hb1).
  { destruct next; [|by exists st].
    by eapply connect_child_inv. }
  cbn [mbind option_bind].
  destruct (same_cells_cell_at _ _ _ _ Hs1 HC) as (C1 & HC1 & Hf).
  apply forget_links_fields in Hf as (_ & _ & Hch1 & _).
  destruct (IH st1 C1 (same_cells_trans _ _ _ Hst0 Hs1) Hinv1 Hin Hr HC1)
    as (st2 & -> & Hinv2 & Hs2 & Hb2).
  { intros ch' Hch'. rewrite Hch1. apply Hsub. by right. }
  exists st2. split; [done|]. split; [done|]. split; [by eapply same_cells_trans|].
  auto.
Qed.

Lemma links_loop_inv ci s todo : forall st D,
  same_cells st0 st ->
  side_inv st ci s D todo ->
  exists st' D', links_loop isNextTo st ci s todo = Some st' /\
    side_inv st' ci s D' [] /\ same_cells st st' /\
    (balanced_around st ci -> balanced_around st' ci).
Proof.
  induction todo as [|[nid N] rest IH]; intros st D Hst0 Hinv.
  { exists st, D. done. }
  cbn [links_loop snd].
  destruct (si_todo _ _ _ _ _ Hinv nid N) as [HN Hlive]; [by left|].
  destruct (si_paired _ _ _ _ _ Hinv _ _ _ _ HN Hlive) as (r & Hr & _ & HR).
  rewrite Hr. cbn [mbind option_bind].
  destruct (has_link_cell _ _ _ _ _ HR) as [_ [Nc HNc]].
  rewrite HNc. cbn [mbind option_bind].
  destruct (has_link_cell _ _ _ _ _ HN) as [_ [C HC]].
  rewrite HC. cbn [mbind option_bind].
  destruct (children_loop_inv ci s D _ nid N r (children_list (children C)) st C Hst0 Hinv)
    as (st1 & -> & Hinv1 & Hs1 & Hb1); [by left|done|done|done|].
  cbn [mbind option_bind].
  destruct (erase_reverse_inv st1 ci s D nid N rest r Hinv1 Hr)
    as (st2 & -> & Hinv2 & Hs2 & Hb2).
  cbn [mbind option_bind].
  destruct (IH st2 _ (same_cells_trans _ _ _ (same_cells_trans _ _ _ Hst0 Hs1) Hs2) Hinv2)
    as (st3 & D' & -> & Hinv3 & Hs3 & Hb3).
  exists st3, D'. split; [done|]. split; [done|].
  split; [eauto using same_cells_trans|]. auto.
Qed.

Lemma side_loop_inv st ci s (C : Cell F) :
  same_cells st0 st ->
  adjacency_inv st -> cell_at (cell_data st) ci = Some C -> s <> COUNT ->
  exists st', side_loop isNextTo st ci s = Some st' /\
    adjacency_inv st' /\ same_cells st st' /\
    (balanced_around st ci -> balanced_around st' ci).
Proof.
  intros Hst0 [Htree Hmem Hpair Htar] HC Hs.
  destruct (links_exists st ci s C HC Hs) as [nodes Hnodes].
  unfold side_loop. rewrite Hnodes. cbn [mbind option_bind].
  assert (Hinv : side_inv st ci s [] nodes).
  { split; try done.
    - intros c d it L H _. destruct (Hpair c d it L H) as (r & ? & _ & ?); [tauto|].
      exists r. split; [done|]. split; [apply not_elem_of_nil|done].
    - by intros c d it L _ ?%elem_of_nil.
    - by intros it ?%elem_of_nil.
    - intros it L Hit. split; [by exists nodes|apply not_elem_of_nil].
    - by eapply mem_nodup.
    - intros it L (l & Hl & Hin). rewrite Hnodes in Hl. injection Hl as <-. by right. }
  destruct (links_loop_inv ci s nodes st [] Hst0 Hinv)
    as (st1 & D & -> & Hinv1 & Hs1 & Hb1).
  cbn [mbind option_bind].
  destruct (links_exists st1 ci s) with (C := match cell_at (cell_data st1) ci with
                                               | Some C1 => C1 | None => C end)
    as [l1 Hl1]; [|done|].
  { by destruct (same_cells_cell_at _ _ _ _ Hs1 HC) as (C1 & -> & _). }
  destruct (clear_removes st1 ci s l1 (si_mem _ _ _ _ _ Hinv1) Hl1) as (st2 & -> & Hrem).
  exists st2. split; [done|].
  pose proof Hrem as (Hsame & Hnext & Hview & Hex & Hmem').
  split; [|split; [eauto using same_cells_trans|]].
  - split.
    + eapply same_cells_wf_tree; [done|]. eapply same_cells_wf_tree; [done|done].
    + done.
    + intros c d it L [H Hne]%Hview _.
      assert (it ∉ D) as HiD.
      { intros HD. by apply Hne, (si_dead_here _ _ _ _ _ Hinv1 _ _ _ _ H). }
      destruct (si_paired _ _ _ _ _ Hinv1 _ _ _ _ H HiD) as (r & Hr & Hrlive & HR).
      exists r. split; [done|]. split; [tauto|]. apply Hview. split; [done|].
      intros [Heq1 Heq2]. rewrite Heq1, Heq2 in HR.
      by destruct (si_covered _ _ _ _ _ Hinv1 _ _ HR) as [?|?%elem_of_nil].
    + by eapply removes_targets; [|apply Hinv1].
  - intros Hb. destruct (Hb1 Hb). split.
    + by eapply removes_balanced.
    + by eapply removes_unconstrained.
Qed.

Lemma sides_loop_inv ci all_sides : forall st (C : Cell F),
  same_cells st0 st ->
  adjacency_inv st -> cell_at (cell_data st) ci = Some C ->
  (forall s, s ∈ all_sides -> s <> COUNT) ->
  exists st', sides_loop isNextTo st ci all_sides = Some st' /\
    adjacency_inv st' /\ same_cells st st' /\
    (balanced_around st ci -> balanced_around st' ci).
Proof.
  induction all_sides as [|s rest IH]; intros st C Hst0 Hinv HC Hsides.
  { exists st. done. }
  cbn [sides_loop].
  destruct (side_loop_inv st ci s C Hst0 Hinv HC) as (st1 & -> & Hinv1 & Hs1 & Hb1).
  { apply Hsides. by left. }
  cbn [mbind option_bind].
  destruct (same_cells_cell_at _ _ _ _ Hs1 HC) as (C1 & HC1 & _).
  destruct (IH st1 C1 (same_cells_trans _ _ _ Hst0 Hs1) Hinv1 HC1)
    as (st2 & -> & Hinv2 & Hs2 & Hb2).
  { intros s' Hs'. apply Hsides. by right. }
  exists st2. split; [done|]. split; [done|].
  split; [eauto using same_cells_trans|]. auto.
Qed.

Lemma subdivide_inv st ci (C : Cell F) :
  same_cells st0 st ->
  adjacency_inv st -> cell_at (cell_data st) ci = Some C ->
  0 <= child0 (children C) -> 0 <= child1 (children C) ->
  exists st', subdivide isNextTo st ci = Some st' /\
    adjacency_inv st' /\ same_tree st st' /\
    (balanced st -> unconstrained st ci -> balanced st') /\
    exists C', cell_at (cell_data st') ci = Some C' /\ is_subdivided C' = true.
Proof.
  intros Hst0 Hinv HC H0 H1. pose proof (inv_tree _ Hinv) as Htree.
  unfold subdivide. rewrite HC. cbn [mbind option_bind].
  rewrite (proj2 (Z.geb_le _ _) H0), (proj2 (Z.geb_le _ _) H1). cbn [andb].
  assert (Hin0 : child0 (children C) ∈ children_list (children C))
    by (unfold children_list; rewrite !elem_of_cons; auto).
  assert (Hin1 : child1 (children C) ∈ children_list (children C))
    by (unfold children_list; rewrite !elem_of_cons; auto).
  assert (Hin2 : child2 (children C) ∈ children_list (children C))
    by (unfold children_list; rewrite !elem_of_cons; auto).
  assert (Hin3 : child3 (children C) ∈ children_list (children C))
    by (unfold children_list; rewrite !elem_of_cons; auto).
  destruct (wf_tree_child _ _ _ _ Htree HC Hin0 H0) as (Hp0 & Hn0 & K0 & HK0 & Hd0 & _).
  destruct (wf_tree_child _ _ _ _ Htree HC Hin1 H1) as (Hp1 & Hn1 & K1 & HK1 & Hd1 & _).
  destruct (initialConnection_inv st ci (child0 (children C)) (child1 (children C)) RIGHT K0 K1 Hinv) as (st1 & -> & Hinv1 & Hs1 & Hb1);
    [done..|lia|].
  cbn [mbind option_bind].
  assert (exists st2,
    (if getChildCount C =? 4
     then st ← initialConnection st1 (child2 (children C)) (child3 (children C)) RIGHT;
          st ← initialConnection st (child0 (children C)) (child2 (children C)) UP;
          initialConnection st (child1 (children C)) (child3 (children C)) UP
     else Some st1) = Some st2 /\
    adjacency_inv st2 /\ same_cells st1 st2 /\
    (balanced_around st1 ci -> balanced_around st2 ci))
    as (st2 & -> & Hinv2 & Hs2 & Hb2).
  { unfold getChildCount. destruct (Z.ltb_spec (child2 (children C)) 0) as [?|H2].
    { exists st1. done. }
    cbn [Z.eqb Pos.eqb].
    pose proof (proj2 (proj2 (Htree _ _ HC)) H2) as H3.
    destruct (wf_tree_child _ _ _ _ Htree HC Hin2 H2) as (Hp2 & Hn2 & K2 & HK2 & Hd2 & _).
    destruct (wf_tree_child _ _ _ _ Htree HC Hin3 H3) as (Hp3 & Hn3 & K3 & HK3 & Hd3 & _).
    destruct (later_cell _ _ _ _ Hs1 HK2) as (K2a & HK2a & Hd2a & _).
    destruct (later_cell _ _ _ _ Hs1 HK3) as (K3a & HK3a & Hd3a & _).
    destruct (initialConnection_inv st1 ci (child2 (children C)) (child3 (children C)) RIGHT K2a K3a Hinv1)
      as (sa & -> & Hinva & Hsa & Hba); [done..|lia|].
    cbn [mbind option_bind].
    pose proof (same_cells_trans _ _ _ Hs1 Hsa) as Hs1a.
    destruct (later_cell _ _ _ _ Hs1a HK0) as (K0b & HK0b & Hd0b & _).
    destruct (later_cell _ _ _ _ Hs1a HK2) as (K2b & HK2b & Hd2b & _).
    destruct (initialConnection_inv sa ci (child0 (children C)) (child2 (children C)) UP K0b K2b Hinva)
      as (sb & -> & Hinvb & Hsb & Hbb); [done..|lia|].
    cbn [mbind option_bind].
    pose proof (same_cells_trans _ _ _ Hs1a Hsb) as Hs1b.
    destruct (later_cell _ _ _ _ Hs1b HK1) as (K1c & HK1c & Hd1c & _).
    destruct (later_cell _ _ _ _ Hs1b HK3) as (K3c & HK3c & Hd3c & _).
    destruct (initialConnection_inv sb ci (child1 (children C)) (child3 (children C)) UP K1c K3c Hinvb)
      as (sc & -> & Hinvc & Hsc & Hbc); [done..|lia|].
    exists sc. split; [done|]. split; [done|].
    split; [eauto using same_cells_trans|]. auto. }
  cbn [mbind option_bind].
  pose proof (same_cells_trans _ _ _ Hs1 Hs2) as Hs12.
  destruct (same_cells_cell_at _ _ _ _ Hs12 HC) as (C2 & HC2 & Hf2).
  destruct (sides_loop_inv ci sides st2 C2 (same_cells_trans _ _ _ Hst0 Hs12) Hinv2 HC2)
    as (st3 & -> & Hinv3 & Hs3 & Hb3).
  { intros s Hs. unfold sides in Hs. rewrite !elem_of_cons, elem_of_nil in Hs.
    by destruct Hs as [->|[->|[->|[->|[]]]]]. }
  cbn [mbind option_bind].
  pose proof (same_cells_trans _ _ _ Hs12 Hs3) as Hs123.
  destruct (same_cells_cell_at _ _ _ _ Hs123 HC) as (C3 & HC3 & Hf3).
  destruct (set_is_subdivided_links st3 ci C3 HC3) as (st4 & -> & Hn4 & HC4 & Hoth4 & Hl4).
  exists st4. split; [done|].
  assert (Hst : same_tree st3 st4).
  { intros j. destruct (decide (j = ci)) as [->|Hne].
    - by rewrite HC4, HC3.
    - by rewrite Hoth4. }
  destruct (same_links_inv st3 st4 Hl4 Hn4 Hst) as [Hi4 Hbal4].
  split; [by apply Hi4|].
  split; [eapply same_tree_trans; [by apply same_cells_same_tree|done]|].
  split.
  - intros Hbal Hunc. apply Hbal4. by apply Hb3, Hb2, Hb1.
  - eexists. split; [exact HC4|done].
Qed.

End SubdivideProofs.

Section SubdivideAnswers.
Context {F : Type}.
(** The loops of [subdivide] under a test that always answers. *)
Variable next_to : Cell F -> Cell F -> Direction -> bool.
Local Abbreviation isNextTo := (fun a b s => Some (next_to a b s)).
Implicit Types (st : State F) (c : Z) (d : Direction) (it : LinkIterator) (L : Link).

Lemma answers_return st0 : returns_on_arena isNextTo st0.
Proof. intros a b side _ _ _. by eexists. Qed.

Lemma children_loop_answers_inv ci s D todo nid N r chs st (C : Cell F) :
  side_inv st ci s D todo ->
  (nid, N) ∈ todo -> link_reverse N = Some r ->
  cell_at (cell_data st) ci = Some C ->
  (forall ch, ch ∈ chs -> ch ∈ children_list (children C)) ->
  exists st', children_loop isNextTo st s (to_index N) r chs = Some st' /\
    side_inv st' ci s D todo /\ same_cells st st' /\
    (balanced_around st ci -> balanced_around st' ci).
Proof. apply (children_loop_inv isNextTo st (answers_return st)), same_cells_refl. Qed.

Lemma links_loop_answers_inv ci s todo st D :
  side_inv st ci s D todo ->
  exists st' D', links_loop isNextTo st ci s todo = Some st' /\
    side_inv st' ci s D' [] /\ same_cells st st' /\
    (balanced_around st ci -> balanced_around st' ci).
Proof. apply (links_loop_inv isNextTo st (answers_return st)), same_cells_refl. Qed.

Lemma side_loop_answers_inv st ci s (C : Cell F) :
  adjacency_inv st -> cell_at (cell_data st) ci = Some C -> s <> COUNT ->
  exists st', side_loop isNextTo st ci s = Some st' /\
    adjacency_inv st' /\ same_cells st st' /\
    (balanced_around st ci -> balanced_around st' ci).
Proof. apply (side_loop_inv isNextTo st (answers_return st)), same_cells_refl. Qed.

Lemma sides_loop_answers_inv ci all_sides st (C : Cell F) :
  adjacency_inv st -> cell_at (cell_data st) ci = Some C ->
  (forall s, s ∈ all_sides -> s <> COUNT) ->
  exists st', sides_loop isNextTo st ci all_sides = Some st' /\
    adjacency_inv st' /\ same_cells st st' /\
    (balanced_around st ci -> balanced_around st' ci).
Proof. apply (sides_loop_inv isNextTo st (answers_return st)), same_cells_refl. Qed.

Lemma subdivide_answers_inv st ci (C : Cell F) :
  adjacency_inv st -> cell_at (cell_data st) ci = Some C ->
  0 <= child0 (children C) -> 0 <= child1 (children C) ->
  exists st', subdivide isNextTo st ci = Some st' /\
    adjacency_inv st' /\ same_tree st st' /\
    (balanced st -> unconstrained st ci -> balanced st') /\
    exists C', cell_at (cell_data st') ci = Some C' /\ is_subdivided C' = true.
Proof. apply (subdivide_inv isNextTo st (answers_return st)), same_cells_refl. Qed.

End SubdivideAnswers.

Section SubdivideAborts.
Context {F : Type}.
Variable isNextTo : Cell F -> Cell F -> Direction -> option bool.
Implicit Types (st : State F) (c : Z) (d : Direction) (it : LinkIterator) (L : Link).

(** The answers of [isNextTo], with [false] where it aborts. *)
Local Abbreviation answers := (fun a b s => default false (isNextTo a b s)).
Local Abbreviation answered := (fun a b s => Some (default false (isNextTo a b s))).

Lemma children_loop_answered s n r chs : forall st st',
  children_loop isNextTo st s n r chs = Some st' ->
  children_loop answered st s n r chs = Some st'.
Proof.
  induction chs as [|ch rest IH]; intros st st' H; [done|].
  cbn [children_loop] in *. destruct (ch <? 0); [done|].
  destruct (cell_at (cell_data st) ch) as [K|]; [|done]. cbn [mbind option_bind] in *.
  destruct (cell_at (cell_data st) n) as [Nc|]; [|done]. cbn [mbind option_bind] in *.
  destruct (n >? 0); [|done].
  destruct (isNextTo K Nc s) as [b|]; [|done]. cbn [mbind option_bind default from_option id] in *.
  destruct (if b then connect_child st s n r ch else Some st) as [st1|]; [|done].
  cbn [mbind option_bind] in *. by apply IH.
Qed.

Lemma links_loop_answered ci s nodes : forall st st',
  links_loop isNextTo st ci s nodes = Some st' ->
  links_loop answered st ci s nodes = Some st'.
Proof.
  induction nodes as [|x rest IH]; intros st st' H; [done|].
  cbn [links_loop] in *.
  destruct (link_reverse (snd x)) as [r|]; [|done]. cbn [mbind option_bind] in *.
  destruct (cell_at (cell_data st) (to_index (snd x))) as [Nc|]; [|done].
  cbn [mbind option_bind] in *.
  destruct (cell_at (cell_data st) ci) as [C|]; [|done]. cbn [mbind option_bind] in *.
  destruct (children_loop isNextTo st s (to_index (snd x)) r (children_list (children C)))
    as [st1|] eqn:H1; [|done].
  rewrite (children_loop_answered _ _ _ _ _ _ H1). cbn [mbind option_bind] in *.
  destruct (erase st1 (to_index (snd x)) (opposite s) r) as [st2|]; [|done].
  cbn [mbind option_bind] in *. by apply IH.
Qed.

Lemma side_loop_answered st ci s st' :
  side_loop isNextTo st ci s = Some st' -> side_loop answered st ci s = Some st'.
Proof.
  unfold side_loop. intros H.
  destruct (links st ci s) as [nodes|]; [|done]. cbn [mbind option_bind] in *.
  destruct (links_loop isNextTo st ci s nodes) as [st1|] eqn:H1; [|done].
  by rewrite (links_loop_answered _ _ _ _ _ H1).
Qed.

Lemma sides_loop_answered ci all_sides : forall st st',
  sides_loop isNextTo st ci all_sides = Some st' ->
  sides_loop answered st ci all_sides = Some st'.
Proof.
  induction all_sides as [|s rest IH]; intros st st' H; [done|].
  cbn [sides_loop] in *.
  destruct (side_loop isNextTo st ci s) as [st1|] eqn:H1; [|done].
  rewrite (side_loop_answered _ _ _ _ H1). cbn [mbind option_bind] in *. by apply IH.
Qed.

(** A call of [subdivide] that returns is a call under the answers that
    [isNextTo] gave. *)
Lemma subdivide_answered st ci st' :
  subdivide isNextTo st ci = Some st' -> subdivide answered st ci = Some st'.
Proof.
  unfold subdivide. intros H.
  destruct (cell_at (cell_data st) ci) as [C|]; [|done]. cbn [mbind option_bind] in *.
  destruct ((child0 (children C) >=? 0) && (child1 (children C) >=? 0)); [|done].
  destruct (initialConnection st (child0 (children C)) (child1 (children C)) RIGHT)
    as [st1|]; [|done].
  cbn [mbind option_bind] in *.
  destruct (if getChildCount C =? 4
            then st ← initialConnection st1 (child2 (children C)) (child3 (children C)) RIGHT;
                 st ← initialConnection st (child0 (children C)) (child2 (children C)) UP;
                 initialConnection st (child1 (children C)) (child3 (children C)) UP
            else Some st1) as [st2|]; [|done].
  cbn [mbind option_bind] in *.
  destruct (sides_loop isNextTo st2 ci sides) as [st3|] eqn:H3; [|done].
  by rewrite (sides_loop_answered _ _ _ _ H3).
Qed.

(** [subdivide] returns where the first two child slots are filled and
    [isNextTo] fails no assertion on the cells below the root. *)
Lemma subdivide_returns st ci (C : Cell F) :
  returns_on_arena isNextTo st ->
  adjacency_inv st -> cell_at (cell_data st) ci = Some C ->
  0 <= child0 (children C) -> 0 <= child1 (children C) ->
  exists st', subdivide isNextTo st ci = Some st'.
Proof.
  intros Hret Hinv HC H0 H1.
  destruct (subdivide_inv isNextTo st Hret st ci C (same_cells_refl _) Hinv HC H0 H1)
    as (st' & H & _).
  by exists st'.
Qed.

Lemma subdivide_slots st ci (C : Cell F) st' :
  cell_at (cell_data st) ci = Some C -> subdivide isNextTo st ci = Some st' ->
  0 <= child0 (children C) /\ 0 <= child1 (children C).
Proof.
  intros HC Hsub.
  unfold subdivide in Hsub. rewrite HC in Hsub. cbn [mbind option_bind] in Hsub.
  destruct (Z.geb_spec (child0 (children C)) 0), (Z.geb_spec (child1 (children C)) 0);
    cbn [andb] in Hsub; first [done|lia].
Qed.

Lemma subdivide_Some_inv st ci st' :
  adjacency_inv st -> subdivide isNextTo st ci = Some st' ->
  adjacency_inv st' /\ same_tree st st' /\
  (balanced st -> unconstrained st ci -> balanced st').
Proof.
  intros Hinv Hsub.
  destruct (cell_at (cell_data st) ci) as [C|] eqn:HC;
    [|by unfold subdivide in Hsub; rewrite HC in Hsub].
  destruct (subdivide_slots st ci C st' HC Hsub) as [H0 H1].
  destruct (subdivide_answers_inv answers st ci C Hinv HC H0 H1) as (st2 & Hst2 & ? & ? & ? & _).
  rewrite (subdivide_answered _ _ _ Hsub) in Hst2. injection Hst2 as <-. done.
Qed.

Lemma subdivide_sets_flag st ci st' :
  adjacency_inv st -> subdivide isNextTo st ci = Some st' ->
  exists C', cell_at (cell_data st') ci = Some C' /\ is_subdivided C' = true.
Proof.
  intros Hinv Hsub.
  destruct (cell_at (cell_data st) ci) as [C|] eqn:HC;
    [|by unfold subdivide in Hsub; rewrite HC in Hsub].
  destruct (subdivide_slots st ci C st' HC Hsub) as [H0 H1].
  destruct (subdivide_answers_inv answers st ci C Hinv HC H0 H1) as (st2 & Hst2 & _ & _ & _ & HC').
  rewrite (subdivide_answered _ _ _ Hsub) in Hst2. by injection Hst2 as <-.
Qed.

End SubdivideAborts.

(** ** Balance and pairing along runs *)

Section Checking.
Context {F : Type}.
Implicit Types (st : State F) (cd : list (Cell F)).

Lemma wf_cells_b_lookup cd cells : forall p i (C : Cell F),
  wf_cells_b cd p cells = true -> cells !! i = Some C ->
  wf_cell_b cd (p + i) C = true.
Proof.
  induction cells as [|C0 cells IH]; intros p i C Hb Hi; [done|].
  cbn in Hb. apply andb_prop in Hb as [H0 Hrest]. destruct i as [|i]; cbn in Hi.
  - injection Hi as <-. by rewrite Nat.add_0_r.
  - replace (p + S i)%nat with (S p + i)%nat by lia. by apply IH.
Qed.

Lemma wf_tree_b_sound cd : wf_tree_b cd = true -> wf_tree cd.
Proof.
  intros Hb p C [Hp HC]%cell_at_Some.
  pose proof (wf_cells_b_lookup cd cd 0 _ C Hb HC) as Hc. cbn in Hc.
  unfold wf_cell_b in Hc.
  apply andb_prop in Hc as [[Hidx%Z.eqb_eq Hkids]%andb_prop H23].
  split; [lia|]. split.
  - intros k Hk Hk0. rewrite forallb_forall in Hkids.
    specialize (Hkids k (proj1 (list_elem_of_In _ _) Hk)). unfold wf_child_b in Hkids.
    apply orb_prop in Hkids as [?%Z.ltb_lt|[Hpos%Z.ltb_lt HK]%andb_prop]; [lia|].
    split; [lia|]. destruct (cell_at cd k) as [K|]; [|done]. exists K. split; [done|].
    by apply Z.eqb_eq.
  - intros H2. apply orb_prop in H23 as [?%Z.ltb_lt|?%Z.leb_le]; lia.
Qed.

Lemma no_links_b_sound st : no_links_b st = true -> no_links st.
Proof.
  unfold no_links_b. rewrite forallb_forall. intros Hb c C [_ HC]%cell_at_Some.
  apply list_elem_of_lookup_2, list_elem_of_In, Hb in HC.
  by destruct (adjacent_cells C) as [[|??] [|??] [|??] [|??]].
Qed.

Lemma no_links_has_link st c d it L : no_links st -> ~ has_link st c d it L.
Proof.
  intros Hno (l & (C & HC & Hl)%links_Some & Hin).
  rewrite (Hno _ _ HC) in Hl. destruct d; cbn in Hl; try done;
    injection Hl as <-; by apply elem_of_nil in Hin.
Qed.

Lemma fresh_state_inv st :
  wf_tree (cell_data st) -> no_links st -> adjacency_inv st /\ balanced st.
Proof.
  intros Htree Hno. split; [split; [done|split|..]|].
  - intros c d it L H. by apply no_links_has_link in H.
  - intros c d l (C & HC & Hl)%links_Some. rewrite (Hno _ _ HC) in Hl.
    destruct d; cbn in Hl; try done; injection Hl as <-; apply NoDup_nil_2.
  - intros c d it L c' d' L' H. by apply no_links_has_link in H.
  - intros c d it L H. by apply no_links_has_link in H.
  - intros c d it L H. by apply no_links_has_link in H.
  - intros c d it L C N H. by apply no_links_has_link in H.
Qed.

(** The state in which the constructor leaves the tree, before any link
    is made, satisfies the invariant and is balanced. *)
Lemma createTreeRoot_inv dflt junk root_prism (INT2MM INT2MM2 : Z -> F)
    (fmul fadd fmax : F -> F -> F) fhalf density_provider fuel max_depth aabb cd :
  (Z.to_nat max_depth < fuel)%nat ->
  createTreeRoot dflt junk root_prism INT2MM INT2MM2 fmul fadd fmax fhalf density_provider
    fuel max_depth aabb [] = Some cd ->
  adjacency_inv (mkState cd 0) /\ balanced (mkState cd 0).
Proof.
  intros Hfuel H. apply createTreeRoot_wf in H as [Hwf Hfresh]; [|done].
  apply fresh_state_inv; [done|].
  intros c C HC. by destruct (Hfresh c C HC).
Qed.

End Checking.

Section Runs.
Context {F : Type}.
Variable isNextTo : Cell F -> Cell F -> Direction -> option bool.
Variable max_depth : Z.
Implicit Types (st : State F).

Lemma canSubdivide_true st (C : Cell F) :
  canSubdivide max_depth st C = Some true ->
  depth C < max_depth /\ isConstrained st C = Some false.
Proof.
  unfold canSubdivide. destruct (Z.geb_spec (depth C) max_depth); [done|].
  destruct (isConstrained st C) as [[]|]; cbn; try done.
Qed.

Lemma subdivisions_inv st0 st :
  adjacency_inv st0 -> balanced st0 ->
  subdivisions isNextTo max_depth st0 st ->
  adjacency_inv st /\ balanced st /\ same_tree st0 st.
Proof.
  intros Hinv Hbal Hrun. induction Hrun as [st|st st1 st2 ci C _ IH HC Hcan Hsub].
  { split; [done|]. split; [done|]. by intros j. }
  destruct (IH Hinv Hbal) as (Hinv1 & Hbal1 & Hs1).
  destruct (canSubdivide_true _ _ Hcan) as [_ Hcon].
  destruct (subdivide_Some_inv isNextTo st1 ci st2 Hinv1 Hsub) as (Hinv2 & Hs2 & Hb2).
  split; [done|]. split.
  - apply Hb2; [done|]. by eapply not_constrained_unconstrained.
  - by eapply same_tree_trans.
Qed.

(** C1 (as amended): when [subdivide] is only called on cells for which
    [canSubdivide] holds, after any completed sequence of subdivisions two
    cells joined by a link differ in depth by one at most; and
    [canSubdivide] returns false exactly when the depth of the cell is at
    least [max_depth] or a linked neighbour is strictly shallower. *)
Theorem one_level_balance st0 st :
  adjacency_inv st0 -> balanced st0 ->
  subdivisions isNextTo max_depth st0 st ->
  (forall c d it L A B,
     has_link st c d it L ->
     cell_at (cell_data st) c = Some A ->
     cell_at (cell_data st) (to_index L) = Some B ->
     Z.abs (depth A - depth B) <= 1) /\
  (forall c C, cell_at (cell_data st) c = Some C ->
     (canSubdivide max_depth st C = Some false <->
      max_depth <= depth C \/
      exists d it L N, has_link st c d it L /\
        cell_at (cell_data st) (to_index L) = Some N /\ depth N < depth C) /\
     (canSubdivide max_depth st C = Some true \/
      canSubdivide max_depth st C = Some false)).
Proof.
  intros Hinv Hbal Hrun.
  destruct (subdivisions_inv st0 st Hinv Hbal Hrun) as (Hinv' & Hbal' & _).
  split; [exact Hbal'|].
  intros c C HC. destruct (isConstrained_spec st c C Hinv' HC) as (b & Hb & Hiff).
  unfold canSubdivide. rewrite Hb. cbn [mbind option_bind].
  destruct (Z.geb_spec (depth C) max_depth) as [Hge|Hlt].
  - split; [|by right]. split; [intros _; left; lia|done].
  - split; [|destruct b; auto]. split.
    + intros [= Hnb]. right. apply Hiff. by destruct b.
    + intros [?|Hex]; [lia|]. apply Hiff in Hex. by rewrite Hex.
Qed.

End Runs.

Lemma box_state_fresh :
  adjacency_inv Examples.box_state /\ balanced Examples.box_state.
Proof.
  apply (createTreeRoot_inv tt 0 Examples.sentinel_prism (fun _ => tt) (fun _ => tt)
           (fun _ _ => tt) (fun _ _ => tt) (fun _ _ => tt) tt (fun _ => tt) 5 3 Examples.box).
  - lia.
  - vm_compute. reflexivity.
Qed.

Lemma box_state_run :
  subdivisions Examples.always_next 3 Examples.box_state Examples.box_state_2.
Proof.
  eapply (subdivisions_step _ _ _ Examples.box_state_1 _ 1).
  - eapply (subdivisions_step _ _ _ Examples.box_state _ 0).
    + apply subdivisions_nil.
    + vm_compute. reflexivity.
    + vm_compute. reflexivity.
    + vm_compute. reflexivity.
  - vm_compute. reflexivity.
  - vm_compute. reflexivity.
  - vm_compute. reflexivity.
Qed.

Lemma one_level_balance_witness :
  adjacency_inv Examples.box_state /\ balanced Examples.box_state /\
  subdivisions Examples.always_next 3 Examples.box_state Examples.box_state_2 /\
  ((forall c d it L A B,
     has_link Examples.box_state_2 c d it L ->
     cell_at (cell_data Examples.box_state_2) c = Some A ->
     cell_at (cell_data Examples.box_state_2) (to_index L) = Some B ->
     Z.abs (depth A - depth B) <= 1) /\
   (forall c C, cell_at (cell_data Examples.box_state_2) c = Some C ->
     (canSubdivide 3 Examples.box_state_2 C = Some false <->
      3 <= depth C \/
      exists d it L N, has_link Examples.box_state_2 c d it L /\
        cell_at (cell_data Examples.box_state_2) (to_index L) = Some N /\
        depth N < depth C) /\
     (canSubdivide 3 Examples.box_state_2 C = Some true \/
      canSubdivide 3 Examples.box_state_2 C = Some false))).
Proof.
  split; [apply box_state_fresh|]. split; [apply box_state_fresh|].
  split; [apply box_state_run|].
  apply (one_level_balance Examples.always_next 3 Examples.box_state Examples.box_state_2).
  - apply box_state_fresh.
  - apply box_state_fresh.
  - apply box_state_run.
Defined.

(** C1 (as stated) fails at "equals [max_depth]": built for
    [max_depth = 0], the level-1 cell at position 1 has depth 1 and not a
    single neighbour, and [canSubdivide] returns false for it. *)
Lemma canSubdivide_false_above_max_depth :
  exists C,
    cell_at Examples.flat_arena 1 = Some C /\
    canSubdivide 0 (mkState Examples.flat_arena 0) C = Some false /\
    depth C <> 0 /\
    adjacent_cells C = adj_empty.
Proof.
  eexists. split; [vm_compute; reflexivity|]. split; [vm_compute; reflexivity|].
  split; [cbn; lia|reflexivity].
Qed.

(** ** The pairing invariant after every operation *)

Section Pairing.
Context {F : Type}.
Variable isNextTo : Cell F -> Cell F -> Direction -> option bool.
Variable max_depth : Z.
Variable getActualizedVolume : Cell F -> F.
Variable fdiv : F -> F -> F.
Variable flt : F -> F -> bool.
Implicit Types (st : State F).

Lemma inv_links_paired st : adjacency_inv st -> links_paired st.
Proof.
  intros Hinv c C S l it L HC Hl Hin.
  assert (has_link st c S it L) as H by (apply (has_link_at _ _ C); eauto).
  destruct (inv_paired _ Hinv _ _ _ _ H) as (r & Hr & _ & HR); [tauto|].
  destruct HR as (lr & (N & HN & Hlr)%links_Some & Hinr).
  exists r, (mkLink c (Some it)), N, lr.
  split; [done|]. split; [done|]. split; [done|]. split; [done|].
  split; [|done]. cbn. by destruct (inv_tree _ Hinv _ _ HC) as [-> _].
Qed.

Lemma initialConnection_Some_inv st b a dir st' :
  adjacency_inv st -> 0 < b -> 0 < a ->
  initialConnection st b a dir = Some st' -> adjacency_inv st'.
Proof.
  intros Hinv Hb Ha Hsome.
  destruct (cell_at (cell_data st) b) as [B|] eqn:HB;
    [|by unfold initialConnection in Hsome; rewrite HB in Hsome].
  destruct (cell_at (cell_data st) a) as [A|] eqn:HA;
    [|by unfold initialConnection in Hsome; rewrite HB, HA in Hsome].
  assert (dir <> COUNT) as Hdir.
  { intros ->. unfold initialConnection in Hsome. rewrite HB, HA in Hsome.
    cbn [mbind option_bind] in Hsome. unfold emplace_front, links in Hsome.
    rewrite HB in Hsome. done. }
  destruct (initialConnection_keeps_inv st b a dir B A Hinv Hdir HB HA Hb Ha)
    as (st2 & Hst2 & Hinv2 & _).
  rewrite Hsome in Hst2. by injection Hst2 as <-.
Qed.

Lemma density_step_inv st queue st' queue' :
  adjacency_inv st ->
  density_step isNextTo max_depth getActualizedVolume fdiv flt st queue = Some (st', queue') ->
  adjacency_inv st' /\ (balanced st -> balanced st') /\ same_tree st st'.
Proof.
  intros Hinv Hstep. destruct queue as [|idx popped]; [done|].
  cbn [density_step] in Hstep.
  destruct (cell_at (cell_data st) idx) as [C|] eqn:HC; [|done].
  cbn [mbind option_bind] in Hstep.
  destruct ((child0 (children C) <? 0) || (depth C >=? max_depth)).
  { injection Hstep as <- <-. split; [done|]. split; [done|]. by intros j. }
  destruct (isConstrained st C) as [[]|] eqn:Hcon; [| |done];
    cbn [mbind option_bind negb] in Hstep.
  - destruct (push_constrainers _ _ _ _) as [q|]; [|done].
    cbn [mbind option_bind] in Hstep.
    injection Hstep as <- <-. split; [done|]. split; [done|]. by intros j.
  - destruct (subdivide isNextTo st idx) as [st2|] eqn:Hsub; [|done].
    cbn [mbind option_bind] in Hstep.
    destruct (cell_at (cell_data st2) idx) as [C2|]; [|done].
    cbn [mbind option_bind] in Hstep.
    destruct (push_children _ _ _ _ _ _) as [q|]; [|done].
    cbn [mbind option_bind] in Hstep.
    injection Hstep as <- <-.
    destruct (subdivide_Some_inv isNextTo st idx st2 Hinv Hsub) as (Hinv2 & Hs2 & Hb2).
    split; [done|]. split; [|done]. intros Hbal. apply Hb2; [done|].
    by eapply not_constrained_unconstrained.
Qed.

Lemma density_loop_inv fuel : forall st queue st',
  adjacency_inv st ->
  density_loop isNextTo max_depth getActualizedVolume fdiv flt fuel st queue = Some st' ->
  adjacency_inv st' /\ (balanced st -> balanced st') /\ same_tree st st'.
Proof.
  induction fuel as [|fuel IH]; intros st queue st' Hinv Hloop.
  - destruct queue; [|done]. injection Hloop as <-.
    split; [done|]. split; [done|]. by intros j.
  - destruct queue as [|idx popped].
    { injection Hloop as <-. split; [done|]. split; [done|]. by intros j. }
    cbn [density_loop] in Hloop.
    destruct (density_step _ _ _ _ _ st (idx :: popped)) as [[st1 q1]|] eqn:Hstep; [|done].
    destruct (density_step_inv _ _ _ _ Hinv Hstep) as (Hinv1 & Hb1 & Hs1).
    destruct (IH _ _ _ Hinv1 Hloop) as (Hinv2 & Hb2 & Hs2).
    split; [done|]. split; [auto|]. by eapply same_tree_trans.
Qed.

(** C2: after [initialConnection], after [subdivide] and after
    [createMinimalDensityPattern], whenever they complete on a state that
    satisfies the invariant of the adjacency manager, every link [L] of
    side [S] of a cell [C] has its reverse among the links of the opposite
    side of the cell it leads to, that reverse leads back to [C] and has
    [L] as its own reverse; and the invariant holds again. *)
Theorem pairing_after_operations st :
  adjacency_inv st ->
  (forall b a dir st', 0 < b -> 0 < a ->
     initialConnection st b a dir = Some st' ->
     adjacency_inv st' /\ links_paired st') /\
  (forall ci st', subdivide isNextTo st ci = Some st' ->
     adjacency_inv st' /\ links_paired st') /\
  (forall fuel st',
     createMinimalDensityPattern isNextTo max_depth getActualizedVolume fdiv flt fuel st
       = Some st' ->
     adjacency_inv st' /\ links_paired st').
Proof.
  intros Hinv. split; [|split].
  - intros b a dir st' Hb Ha Hsome.
    pose proof (initialConnection_Some_inv _ _ _ _ _ Hinv Hb Ha Hsome).
    split; [done|]. by apply inv_links_paired.
  - intros ci st' Hsome.
    destruct (subdivide_Some_inv isNextTo st ci st' Hinv Hsome) as (Hinv' & _).
    split; [done|]. by apply inv_links_paired.
  - intros fuel st' Hsome. unfold createMinimalDensityPattern in Hsome.
    destruct (cell_data st) eqn:Hcd; [done|].
    destruct (density_loop_inv fuel st [0] st' Hinv Hsome) as (Hinv' & _).
    split; [done|]. by apply inv_links_paired.
Qed.

End Pairing.

Lemma pairing_after_operations_witness :
  adjacency_inv Examples.box_state /\
  ((forall b a dir st', 0 < b -> 0 < a ->
     initialConnection Examples.box_state b a dir = Some st' ->
     adjacency_inv st' /\ links_paired st') /\
   (forall ci st', subdivide Examples.always_next Examples.box_state ci = Some st' ->
     adjacency_inv st' /\ links_paired st') /\
   (forall fuel st',
     createMinimalDensityPattern Examples.always_next 3 (fun _ => tt) (fun _ _ => tt)
       (fun _ _ => true) fuel Examples.box_state = Some st' ->
     adjacency_inv st' /\ links_paired st')).
Proof.
  split; [apply box_state_fresh|].
  apply (pairing_after_operations Examples.always_next 3 (fun _ => tt) (fun _ _ => tt)
           (fun _ _ => true) Examples.box_state).
  apply box_state_fresh.
Defined.

(** ** The work queue of the density policy *)

Section DensityProofs.
Context {F : Type}.
Variable isNextTo : Cell F -> Cell F -> Direction -> option bool.
Variable max_depth : Z.
Variable getActualizedVolume : Cell F -> F.
Variable fdiv : F -> F -> F.
Variable flt : F -> F -> bool.
Implicit Types (st : State F) (cd : list (Cell F)).

Abbreviation shouldBeSubdivided := (shouldBeSubdivided getActualizedVolume fdiv flt).
Abbreviation too_sparse := (too_sparse getActualizedVolume fdiv flt).
Abbreviation density_step := (density_step isNextTo max_depth getActualizedVolume fdiv flt).
Abbreviation density_loop := (density_loop isNextTo max_depth getActualizedVolume fdiv flt).

Lemma push_children_spec cd chs : forall queue,
  (forall ch, ch ∈ chs -> 0 <= ch -> exists K, cell_at cd ch = Some K) ->
  push_children getActualizedVolume fdiv flt cd chs queue
  = Some (queue ++ List.filter (too_sparse cd) chs).
Proof.
  induction chs as [|ch rest IH]; intros queue Hvalid.
  { cbn. by rewrite app_nil_r. }
  cbn [push_children List.filter]. unfold too_sparse at 1.
  destruct (Z.geb_spec ch 0) as [Hge|Hlt]; cbn [andb].
  - destruct (Hvalid ch) as [K HK]; [by left|lia|]. rewrite HK. cbn [mbind option_bind].
    rewrite IH by (intros; apply Hvalid; [by right|done]).
    destruct (shouldBeSubdivided K); [|done]. by rewrite <- app_assoc.
  - apply IH. intros; apply Hvalid; [by right|done].
Qed.

Lemma push_constrainers_side_spec cd (C : Cell F) side : forall queue,
  (forall x, x ∈ side -> exists N, cell_at cd (to_index x.2) = Some N) ->
  push_constrainers_side cd C side queue
  = Some (rev (List.map (fun x : LinkNode => to_index x.2)
                 (List.filter (constrains cd C) side)) ++ queue).
Proof.
  induction side as [|x side IH]; intros queue Hvalid; [done|].
  cbn [push_constrainers_side List.filter]. unfold constrains at 1.
  destruct (Hvalid x) as [N HN]; [by left|]. rewrite HN. cbn [mbind option_bind].
  rewrite IH by (intros; apply Hvalid; by right). unfold isConstrainedBy.
  destruct (depth N <? depth C); [|done].
  cbn [List.map rev]. by rewrite <- app_assoc.
Qed.

Lemma push_constrainers_spec cd (C : Cell F) all_sides : forall queue,
  (forall side x, side ∈ all_sides -> x ∈ side ->
     exists N, cell_at cd (to_index x.2) = Some N) ->
  push_constrainers cd C all_sides queue
  = Some (rev (List.map (fun x : LinkNode => to_index x.2)
                 (List.filter (constrains cd C) (concat all_sides))) ++ queue).
Proof.
  induction all_sides as [|side rest IH]; intros queue Hvalid; [done|].
  cbn [push_constrainers concat].
  rewrite push_constrainers_side_spec by (intros; eapply Hvalid; [by left|done]).
  cbn [mbind option_bind].
  rewrite IH by (intros; eapply Hvalid; [by right|done]).
  rewrite List.filter_app, List.map_app, rev_app_distr. by rewrite <- app_assoc.
Qed.

Lemma density_step_leaf st idx popped (C : Cell F) :
  cell_at (cell_data st) idx = Some C ->
  child0 (children C) < 0 \/ max_depth <= depth C ->
  density_step st (idx :: popped) = Some (st, popped).
Proof.
  intros HC Hleaf. cbn [density_step]. rewrite HC. cbn [mbind option_bind].
  destruct (Z.ltb_spec (child0 (children C)) 0); [done|].
  destruct (Z.geb_spec (depth C) max_depth); [done|]. lia.
Qed.

Lemma density_step_subdivides st idx popped (C : Cell F) :
  adjacency_inv st -> cell_at (cell_data st) idx = Some C ->
  0 <= child0 (children C) -> depth C < max_depth ->
  isConstrained st C = Some false ->
  (subdivide isNextTo st idx = None -> density_step st (idx :: popped) = None) /\
  (forall st', subdivide isNextTo st idx = Some st' ->
     exists C', cell_at (cell_data st') idx = Some C' /\ is_subdivided C' = true /\
       density_step st (idx :: popped)
       = Some (st', popped ++ sparse_children getActualizedVolume fdiv flt (cell_data st') C')).
Proof.
  intros Hinv HC H0 Hd Hcon.
  assert (Hstep : density_step st (idx :: popped)
    = st' ← subdivide isNextTo st idx;
      C' ← cell_at (cell_data st') idx;
      queue' ← push_children getActualizedVolume fdiv flt (cell_data st')
                 (children_list (children C')) popped;
      Some (st', queue')).
  { cbn [density_step]. rewrite HC. cbn [mbind option_bind].
    destruct (Z.ltb_spec (child0 (children C)) 0); [lia|].
    destruct (Z.geb_spec (depth C) max_depth); [lia|]. cbn [orb].
    rewrite Hcon. done. }
  split.
  - intros Hsub. by rewrite Hstep, Hsub.
  - intros st' Hsub. rewrite Hstep, Hsub. cbn [mbind option_bind].
    destruct (subdivide_Some_inv isNextTo st idx st' Hinv Hsub) as (Hinv' & Hs' & _).
    destruct (subdivide_sets_flag isNextTo st idx st' Hinv Hsub) as (C' & HC' & Hflag).
    exists C'. split; [done|]. split; [done|]. rewrite HC'. cbn [mbind option_bind].
    rewrite push_children_spec; [done|].
    intros ch Hch Hch0.
    destruct (wf_tree_child _ _ _ _ (inv_tree _ Hinv') HC' Hch Hch0) as (_ & _ & K & ? & _).
    eauto.
Qed.

Lemma density_step_constrained st idx popped (C : Cell F) :
  adjacency_inv st -> cell_at (cell_data st) idx = Some C ->
  0 <= child0 (children C) -> depth C < max_depth ->
  isConstrained st C = Some true ->
  density_step st (idx :: popped)
  = Some (st, rev (constraining_neighbors (cell_data st) C) ++ idx :: popped) /\
  exists n rest,
    rev (constraining_neighbors (cell_data st) C) = n :: rest /\
    exists N, cell_at (cell_data st) n = Some N /\ depth N < depth C.
Proof.
  intros Hinv HC H0 Hd Hcon.
  assert (Hvalid : forall side x, side ∈ adjacency_lists (adjacent_cells C) -> x ∈ side ->
            exists N, cell_at (cell_data st) (to_index x.2) = Some N).
  { intros side [it L] Hside Hx.
    destruct (proj1 (in_adjacency_lists (adjacent_cells C) (it, L))) as (d & l & Hl & Hin);
      [eauto|].
    assert (has_link st idx d it L) as H by (apply (has_link_at _ _ C); eauto).
    destruct (inv_paired _ Hinv _ _ _ _ H) as (r & _ & _ & HR); [tauto|].
    destruct (has_link_cell _ _ _ _ _ HR) as [_ [N HN]]. eauto. }
  split.
  + cbn [density_step]. rewrite HC. cbn [mbind option_bind].
    destruct (Z.ltb_spec (child0 (children C)) 0); [lia|].
    destruct (Z.geb_spec (depth C) max_depth); [lia|]. cbn [orb].
    rewrite Hcon. cbn [mbind option_bind negb].
    by rewrite push_constrainers_spec.
  + destruct (isConstrained_spec st idx C Hinv HC) as (b & Hb & Hiff).
    rewrite Hcon in Hb. injection Hb as <-.
    destruct (proj1 Hiff eq_refl) as (d & it & L & N & H & HN & Hlt).
    apply (has_link_at _ _ C) in H as (l & Hl & Hin); [|done].
    assert (to_index L ∈ rev (constraining_neighbors (cell_data st) C)) as Hmem.
    { apply list_elem_of_In, in_rev. rewrite rev_involutive. unfold constraining_neighbors.
      apply in_map_iff. exists (it, L). split; [done|].
      apply filter_In. split.
      - apply in_concat. exists l. split; [|by apply list_elem_of_In].
        destruct (proj2 (in_adjacency_lists (adjacent_cells C) (it, L))) as (s & Hs & Hx);
          [eauto|].
        unfold adjacency_lists in *. destruct d; cbn in Hl; try done;
          injection Hl as <-; cbn; auto.
      - unfold constrains. cbn. rewrite HN. by apply Z.ltb_lt. }
    destruct (rev (constraining_neighbors (cell_data st) C)) as [|n rest] eqn:Hrev;
      [by apply elem_of_nil in Hmem|].
    exists n, rest. split; [done|].
    assert (In n (constraining_neighbors (cell_data st) C)) as Hn.
    { apply in_rev. rewrite Hrev. by left. }
    unfold constraining_neighbors in Hn. apply in_map_iff in Hn as (x & <- & Hx).
    apply filter_In in Hx as [_ Hx]. unfold constrains in Hx.
    destruct (cell_at (cell_data st) (to_index x.2)) as [M|]; [|done].
    exists M. split; [done|]. by apply Z.ltb_lt.
Qed.


End DensityProofs.


(** ** The slice walker *)

Section WalkerProofs.
Context {F : Type}.
Implicit Types (st : State F) (cd : list (Cell F)).

Lemma replace_pass_nothing_below cd new_z todo : forall passed log,
  still_below cd new_z todo = Some false ->
  replace_pass cd new_z passed todo log = Some (rev passed ++ todo, log).
Proof.
  induction todo as [|it after IH]; intros passed log Hbelow.
  { cbn. by rewrite app_nil_r. }
  cbn [still_below replace_pass] in *.
  destruct (cell_at cd it) as [cell|]; [|done]. cbn [mbind option_bind] in *.
  destruct (rmax (Prism.z_range (prism cell)) <? new_z); [done|].
  rewrite IH by done. cbn [rev]. by rewrite <- app_assoc.
Qed.

Lemma cells_above_log cd before after nodes ins log :
  cells_above cd before after nodes = Some (ins, log) ->
  LayersHigherThanPrisms ∉ log.
Proof.
  revert ins log. induction nodes as [|x nodes IH]; intros ins log Hc.
  { injection Hc as <- <-. apply not_elem_of_nil. }
  cbn [cells_above] in Hc.
  destruct (negb _ && negb _).
  - destruct (cell_at cd (to_index x.2)); [|done]. cbn [mbind option_bind] in Hc.
    destruct (cells_above cd before after nodes) as [[ins' log']|]; [|done].
    cbn in Hc. injection Hc as <- <-. by eapply IH.
  - destruct (cells_above cd before after nodes) as [[ins' log']|]; [|done].
    cbn in Hc. injection Hc as <- <-.
    intros [?|?]%elem_of_cons; [done|]. by eapply IH.
Qed.

Lemma replace_pass_log cd new_z todo : forall passed log seq' log',
  replace_pass cd new_z passed todo log = Some (seq', log') ->
  exists ext, log' = log ++ ext.
Proof.
  induction todo as [|it after IH]; intros passed log seq' log' Hp.
  { injection Hp as <- <-. exists []. by rewrite app_nil_r. }
  cbn [replace_pass] in Hp.
  destruct (cell_at cd it) as [cell|]; [|done]. cbn [mbind option_bind] in Hp.
  destruct (rmax (Prism.z_range (prism cell)) <? new_z); [|by eapply IH].
  destruct (index_or_minus_one cd (head passed)) as [b|]; [|done].
  destruct (index_or_minus_one cd (head after)) as [a|]; [|done].
  cbn [mbind option_bind] in Hp.
  destruct (adj_get (adjacent_cells cell) UP) as [[|n ns]|]; [done| |done].
  cbn [mbind option_bind] in Hp.
  destruct (cells_above cd b a (n :: ns)) as [[[|i ins] lg]|]; [done| |done].
  cbn [mbind option_bind] in Hp.
  destruct (IH _ _ _ _ Hp) as [ext ->]. exists (lg ++ ext). by rewrite app_assoc.
Qed.

Lemma advance_loop_result fuel cd new_z : forall seq log seq' log',
  advance_loop fuel cd new_z seq log = Some (seq', log') ->
  still_below cd new_z seq' = Some false /\ exists ext, log' = log ++ ext.
Proof.
  induction fuel as [|fuel IH]; intros seq log seq' log' Hl; [done|].
  cbn [advance_loop] in Hl.
  destruct (replace_pass cd new_z [] seq log) as [[seq1 log1]|] eqn:Hp; [|done].
  cbn [mbind option_bind] in Hl.
  destruct (replace_pass_log _ _ _ _ _ _ _ Hp) as [ext1 ->].
  destruct (still_below cd new_z seq1) as [[]|] eqn:Hb; [| |done];
    cbn [mbind option_bind] in Hl.
  - destruct (IH _ _ _ _ Hl) as [Hres [ext ->]]. split; [done|].
    exists (ext1 ++ [LayersHigherThanPrisms] ++ ext). by rewrite <- !app_assoc.
  - injection Hl as <- <-. split; [done|]. by exists ext1.
Qed.

(** C9: once [advanceSequence (w, z)] has returned, a second call with the
    same [z] leaves [layer_sequence] as it is (and logs nothing). *)
Theorem advanceSequence_idempotent fuel fuel' st walker new_z walker' log :
  advanceSequence fuel st walker new_z = Some (walker', log) ->
  advanceSequence (S fuel') st walker' new_z = Some (walker', []).
Proof.
  unfold advanceSequence. intros [Hbelow _]%advance_loop_result.
  cbn [advance_loop]. rewrite replace_pass_nothing_below by done.
  cbn [mbind option_bind rev app]. by rewrite Hbelow.
Qed.

Lemma replace_pass_skip cd new_z pre : forall passed todo log,
  (forall c, c ∈ pre ->
     exists C, cell_at cd c = Some C /\ new_z <= rmax (Prism.z_range (prism C))) ->
  replace_pass cd new_z passed (pre ++ todo) log
  = replace_pass cd new_z (rev pre ++ passed) todo log.
Proof.
  induction pre as [|c pre IH]; intros passed todo log Hall; [done|].
  cbn [app replace_pass]. destruct (Hall c) as (C & -> & Hz); [by left|].
  cbn [mbind option_bind]. destruct (Z.ltb_spec (rmax (Prism.z_range (prism C))) new_z); [lia|].
  rewrite IH by (intros c' Hc'; apply Hall; by right).
  cbn [rev]. by rewrite <- app_assoc.
Qed.

Lemma cells_above_nothing_new cd before after ups :
  (forall it L, (it, L) ∈ ups -> to_index L = before \/ to_index L = after) ->
  cells_above cd before after ups = None \/
  exists log, cells_above cd before after ups = Some ([], log).
Proof.
  induction ups as [|[it L] ups IH]; intros Hall; [right; by exists []|].
  cbn [cells_above snd].
  assert (negb (to_index L =? before) && negb (to_index L =? after) = false) as ->.
  { destruct (Hall it L) as [->| ->]; [by left| |]; rewrite Z.eqb_refl; cbn;
      [done|by rewrite andb_false_r]. }
  destruct IH as [->|[log ->]]; [intros it' L' Hin; apply (Hall it' L'); by right|by left|].
  right. by eexists.
Qed.

Lemma head_rev {A} (l : list A) : head (rev l) = last l.
Proof.
  induction l as [|x l IH] using rev_ind; [done|].
  rewrite rev_app_distr, last_snoc. done.
Qed.

(** A pass fails an assertion at the first cell of the sequence that is
    too low, when that cell has no link upwards or each of its links
    upwards leads to the cell in front of it or after it. *)
Lemma advance_loop_stuck fuel cd pre c post new_z (C : Cell F) ups log :
  (forall p, p ∈ pre ->
     exists P, cell_at cd p = Some P /\ new_z <= rmax (Prism.z_range (prism P))) ->
  cell_at cd c = Some C ->
  rmax (Prism.z_range (prism C)) < new_z ->
  adj_get (adjacent_cells C) UP = Some ups ->
  (forall it L, (it, L) ∈ ups ->
     index_or_minus_one cd (last pre) = Some (to_index L) \/
     index_or_minus_one cd (head post) = Some (to_index L)) ->
  advance_loop fuel cd new_z (pre ++ c :: post) log = None.
Proof.
  intros Hpre HC Hz Hups Hall.
  destruct fuel as [|fuel]; [done|]. cbn [advance_loop].
  rewrite replace_pass_skip by done. rewrite app_nil_r.
  cbn [replace_pass]. rewrite HC. cbn [mbind option_bind].
  destruct (Z.ltb_spec (rmax (Prism.z_range (prism C))) new_z); [|lia].
  rewrite head_rev.
  destruct (index_or_minus_one cd (last pre)) as [before|]; [|done].
  cbn [mbind option_bind].
  destruct (index_or_minus_one cd (head post)) as [after|]; [|done].
  cbn [mbind option_bind]. rewrite Hups. cbn [mbind option_bind].
  destruct ups as [|up ups]; [done|].
  destruct (cells_above_nothing_new cd before after (up :: ups)) as [->|[lg ->]];
    [|done..].
  intros it L Hin. destruct (Hall it L Hin) as [[= ->]|[= ->]]; auto.
Qed.

(** C8 (as amended): when after a full replacement pass some cell of the
    sequence still has [z_max < new_z], the warning is logged and the
    walker is not left as it is: the [while] loop runs a further
    replacement pass on the sequence it has reached, so that the call goes
    on as the loop on that sequence.  [advanceSequence] returns only with a
    sequence in which no cell has [z_max < new_z], which is therefore
    another sequence than the one the warning was logged for and than the
    one the call was given.  The call
    can also end in a failed assertion: it does when the first cell of the
    sequence reached that is too low has no link upwards, or only links
    upwards to the cell in front of it or after it in the sequence. *)
Theorem advanceSequence_retries fuel st walker new_z walker1 log1 :
  replace_pass (cell_data st) new_z [] walker [] = Some (walker1, log1) ->
  still_below (cell_data st) new_z walker1 = Some true ->
  advanceSequence (S fuel) st walker new_z
    = advance_loop fuel (cell_data st) new_z walker1 (log1 ++ [LayersHigherThanPrisms]) /\
  (forall walker' log',
     advanceSequence (S fuel) st walker new_z = Some (walker', log') ->
     LayersHigherThanPrisms ∈ log' /\
     still_below (cell_data st) new_z walker' = Some false /\
     walker' <> walker1 /\ walker' <> walker) /\
  (forall pre c post (C : Cell F) ups,
     walker1 = pre ++ c :: post ->
     (forall p, p ∈ pre ->
        exists P, cell_at (cell_data st) p = Some P /\
                  new_z <= rmax (Prism.z_range (prism P))) ->
     cell_at (cell_data st) c = Some C ->
     rmax (Prism.z_range (prism C)) < new_z ->
     adj_get (adjacent_cells C) UP = Some ups ->
     (forall it L, (it, L) ∈ ups ->
        index_or_minus_one (cell_data st) (last pre) = Some (to_index L) \/
        index_or_minus_one (cell_data st) (head post) = Some (to_index L)) ->
     forall fuel', advanceSequence fuel' st walker new_z = None).
Proof.
  intros Hpass Hbelow.
  assert (Hloop : forall fuel0, advanceSequence (S fuel0) st walker new_z
    = advance_loop fuel0 (cell_data st) new_z walker1 (log1 ++ [LayersHigherThanPrisms])).
  { intros fuel0. unfold advanceSequence. cbn [advance_loop].
    rewrite Hpass. cbn [mbind option_bind]. by rewrite Hbelow. }
  split; [apply Hloop|]. split.
  - rewrite Hloop. intros walker' log' [Hres [ext ->]]%advance_loop_result.
    split; [|split; [done|split]].
    + rewrite <- app_assoc. apply elem_of_app. right. apply elem_of_app. left.
      by apply list_elem_of_singleton.
    + intros ->. congruence.
    + intros ->. rewrite (replace_pass_nothing_below _ _ _ [] [] Hres) in Hpass.
      cbn [rev app] in Hpass. injection Hpass as <- _. congruence.
  - intros pre c post C ups -> Hpre HC Hz Hups Hall [|fuel']; [done|].
    rewrite Hloop. by eapply advance_loop_stuck.
Qed.

End WalkerProofs.

Lemma advanceSequence_idempotent_witness :
  advanceSequence 1 Examples.stack_state [3] 25 = Some ([3], []).
Proof.
  apply (advanceSequence_idempotent 3 0 Examples.stack_state [1] 25 [3]
           [LayersHigherThanPrisms]).
  vm_compute. reflexivity.
Defined.

Lemma advanceSequence_retries_witness :
  (advanceSequence 3 Examples.stack_state [1] 25
     = advance_loop 2 Examples.stack_arena 25 [2] ([] ++ [LayersHigherThanPrisms]) /\
   forall walker' log',
     advanceSequence 3 Examples.stack_state [1] 25 = Some (walker', log') ->
     LayersHigherThanPrisms ∈ log' /\
     still_below Examples.stack_arena 25 walker' = Some false /\
     walker' <> [2] /\ walker' <> [1]) /\
  forall fuel', advanceSequence fuel' Examples.stack_state [2] 35 = None.
Proof.
  split.
  - destruct (advanceSequence_retries 2 Examples.stack_state [1] 25 [2] [])
      as (Hloop & Hret & _); [vm_compute; reflexivity..|].
    split; [exact Hloop|exact Hret].
  - destruct (advanceSequence_retries 2 Examples.stack_state [2] 35 [3] [])
      as (_ & _ & Hstuck); [vm_compute; reflexivity..|].
    apply (Hstuck [] 3 [] (Examples.slab 3 20 30
             (mkAdj [] [] [] [(3%nat, mkLink 2 (Some 2%nat))])) []).
    + reflexivity.
    + by intros p ?%elem_of_nil.
    + vm_compute. reflexivity.
    + vm_compute. reflexivity.
    + vm_compute. reflexivity.
    + by intros it L ?%elem_of_nil.
Defined.

(** C8 (as stated) fails on three prisms stacked 10 microns high each.  A
    walker on the lowest one advanced to z = 25 reaches the middle prism
    in its first pass, which is still too low; the warning is logged, and
    the walker is moved on to the top prism instead of being left where it
    was.  A walker on the middle prism advanced to z = 35 reaches the top
    prism, which is too low and has nothing above it; the warning is
    logged, and the next pass fails its assertion, whatever the fuel. *)
Lemma advanceSequence_moves_on_after_warning :
  (replace_pass Examples.stack_arena 25 [] [1] [] = Some ([2], []) /\
   still_below Examples.stack_arena 25 [2] = Some true /\
   advanceSequence 3 Examples.stack_state [1] 25 = Some ([3], [LayersHigherThanPrisms]) /\
   [3] <> [1] /\ [3] <> [2]) /\
  (replace_pass Examples.stack_arena 35 [] [2] [] = Some ([3], []) /\
   still_below Examples.stack_arena 35 [3] = Some true /\
   forall fuel, advanceSequence fuel Examples.stack_state [2] 35 = None).
Proof.
  split.
  - split; [vm_compute; reflexivity|]. split; [vm_compute; reflexivity|].
    split; [vm_compute; reflexivity|]. split; intros [=].
  - split; [vm_compute; reflexivity|]. split; [vm_compute; reflexivity|].
    intros [|[|fuel]]; reflexivity.
Qed.

(** ** The bottom sequence *)

Section BottomSequence.
Context {F : Type}.
Implicit Types (st : State F) (cd : list (Cell F)).

Lemma descend_spec fuel cd : forall c c',
  descend fuel cd c = Some c' ->
  descends cd c c' /\ exists C', cell_at cd c' = Some C' /\ is_subdivided C' = false.
Proof.
  induction fuel as [|fuel IH]; intros c c' Hd; cbn [descend] in Hd.
  - destruct (cell_at cd c) as [C|] eqn:HC; [|done]. cbn [mbind option_bind] in Hd.
    destruct (is_subdivided C) eqn:Hs; [done|]. injection Hd as <-.
    split; [constructor|eauto].
  - destruct (cell_at cd c) as [C|] eqn:HC; [|done]. cbn [mbind option_bind] in Hd.
    destruct (is_subdivided C) eqn:Hs.
    + destruct (IH _ _ Hd) as [Hdesc Hleaf]. split; [|done]. by econstructor.
    + injection Hd as <-. split; [constructor|eauto].
Qed.

Lemma walk_right_spec fuel st : forall c rest,
  links_reach_active st ->
  walk_right fuel (cell_data st) c = Some rest ->
  forall c', c' ∈ rest ->
    exists C', cell_at (cell_data st) c' = Some C' /\ is_subdivided C' = false.
Proof.
  induction fuel as [|fuel IH]; intros c rest Hact Hw c' Hc'; cbn [walk_right] in Hw.
  - destruct (cell_at (cell_data st) c) as [C|]; [|done]. cbn [mbind option_bind] in Hw.
    destruct (adj_get (adjacent_cells C) RIGHT) as [[|front l]|]; [|done..].
    injection Hw as <-. by apply elem_of_nil in Hc'.
  - destruct (cell_at (cell_data st) c) as [C|] eqn:HC; [|done].
    cbn [mbind option_bind] in Hw.
    destruct (adj_get (adjacent_cells C) RIGHT) as [[|[it L] l]|] eqn:Hl; [|
      |done].
    { injection Hw as <-. by apply elem_of_nil in Hc'. }
    cbn [mbind option_bind snd] in Hw.
    destruct (walk_right fuel (cell_data st) (to_index L)) as [rest'|] eqn:Hrest;
      cbn [mbind option_bind] in Hw; [|done].
    injection Hw as <-.
    apply elem_of_cons in Hc' as [->|Hc'].
    + eapply Hact; [exact HC|exact Hl|by left].
    + by eapply IH.
Qed.

Lemma root_has_no_links st d it L : adjacency_inv st -> ~ has_link st 0 d it L.
Proof.
  intros Hinv H. destruct (inv_paired _ Hinv _ _ _ _ H) as (r & _ & _ & HR); [tauto|].
  apply (inv_targets _ Hinv) in HR. cbn in HR. lia.
Qed.

Lemma links_reach_active_b_sound st :
  links_reach_active_b st = true -> links_reach_active st.
Proof.
  unfold links_reach_active_b. rewrite forallb_forall.
  intros Hb c C S l it L [_ HC]%cell_at_Some Hl Hin.
  apply list_elem_of_lookup_2, list_elem_of_In, Hb in HC.
  rewrite forallb_forall in HC.
  destruct (proj2 (in_adjacency_lists (adjacent_cells C) (it, L))) as (side & Hs & Hx);
    [eauto|].
  apply list_elem_of_In, HC in Hs. rewrite forallb_forall in Hs.
  apply list_elem_of_In, Hs in Hx. unfold reaches_active_b in Hx. cbn in Hx.
  destruct (cell_at (cell_data st) (to_index L)) as [N|]; [|done].
  exists N. split; [done|]. by destruct (is_subdivided N).
Qed.

Lemma getBottomSequence_root st root :
  adjacency_inv st -> cell_at (cell_data st) 0 = Some root -> is_subdivided root = false ->
  forall fuel, getBottomSequence fuel st = Some [0].
Proof.
  intros Hinv Hroot Hsub fuel. unfold getBottomSequence.
  assert (descend fuel (cell_data st) 0 = Some 0) as ->.
  { destruct fuel; cbn [descend]; rewrite Hroot; cbn [mbind option_bind];
      by rewrite Hsub. }
  cbn [mbind option_bind].
  assert (adj_get (adjacent_cells root) RIGHT = Some []) as Hright.
  { cbn. f_equal. destruct (adj_right (adjacent_cells root)) as [|[it L] l] eqn:Hr; [done|].
    exfalso. apply (root_has_no_links st RIGHT it L Hinv).
    apply (has_link_at _ _ root); [done|]. exists ((it, L) :: l). cbn. rewrite Hr.
    split; [done|]. by left. }
  assert (walk_right fuel (cell_data st) 0 = Some []) as ->; [|done].
  destruct fuel; cbn [walk_right]; rewrite Hroot; cbn [mbind option_bind];
    by rewrite Hright.
Qed.

(** The descent returns the cell it can reach, given fuel for its steps. *)
Lemma descends_descend cd c c' (C' : Cell F) :
  descends cd c c' -> cell_at cd c' = Some C' -> is_subdivided C' = false ->
  exists fuel0, forall fuel, (fuel0 <= fuel)%nat -> descend fuel cd c = Some c'.
Proof.
  intros Hd HC' Hs. induction Hd as [c|c C c' HC Hsub _ IH].
  - exists 0%nat. intros fuel _.
    destruct fuel; cbn [descend]; rewrite HC'; cbn [mbind option_bind]; by rewrite Hs.
  - destruct (IH HC') as [n Hn]. exists (S n). intros [|fuel] Hf; [lia|].
    cbn [descend]. rewrite HC. cbn [mbind option_bind]. rewrite Hsub. apply Hn. lia.
Qed.

(** The walk to the right returns the path along the first links, given
    fuel for its steps. *)
Lemma right_path_walk cd : forall rest c fuel,
  right_path cd c rest -> (length rest <= fuel)%nat -> walk_right fuel cd c = Some rest.
Proof.
  induction rest as [|c' rest IH]; intros c fuel (C & l & HC & Hl & Hrest) Hf.
  - subst l. destruct fuel; cbn [walk_right]; rewrite HC; cbn [mbind option_bind];
      by rewrite Hl.
  - destruct Hrest as [(front & l' & -> & Hto) Hpath].
    destruct fuel as [|fuel]; [cbn in Hf; lia|].
    cbn [walk_right]. rewrite HC. cbn [mbind option_bind]. rewrite Hl.
    cbn [mbind option_bind]. rewrite Hto.
    rewrite (IH c' fuel Hpath) by (cbn in Hf; lia). done.
Qed.

End BottomSequence.

Lemma box_state_2_inv : adjacency_inv Examples.box_state_2.
Proof.
  assert (Hfresh : adjacency_inv Examples.box_state /\ balanced Examples.box_state).
  { apply fresh_state_inv.
    - apply wf_tree_b_sound. vm_compute. reflexivity.
    - apply no_links_b_sound. vm_compute. reflexivity. }
  destruct Hfresh as [Hinv _].
  assert (adjacency_inv Examples.box_state_1) as Hinv1.
  { eapply (subdivide_Some_inv Examples.always_next Examples.box_state 0); [done|].
    vm_compute. reflexivity. }
  eapply (subdivide_Some_inv Examples.always_next Examples.box_state_1 1); [done|].
  vm_compute. reflexivity.
Qed.


(** ** Adjacency of two cells *)

Section NextToProofs.
Context {F : Type}.
Variables (double Polygons : Type).
Variable polygon_area : list Point -> double.
Variable polygon_intersection : list Point -> list Point -> Polygons.
Variable polygons_area : Polygons -> double.
Variables (dsub dmin : double -> double -> double) (dabs : double -> double).
Variable dlt : double -> double -> bool.
Variables (d0 d100 : double).
Variable areCollinear : LineSegment -> LineSegment -> bool.
Variable range_overlap : Range -> Range -> bool.
Variable range_expanded : Range -> Z -> Range.
Variable range_default : Range.
Variable range_include : Range -> Z -> Range.
Variable range_intersection : Range -> Range -> Range.
Variable range_size : Range -> Z.
Variable segment_default : LineSegment.

Abbreviation isNextTo' :=
  (isNextTo (F := F) double Polygons polygon_area polygon_intersection polygons_area
     dsub dmin dabs dlt d0 d100 areCollinear range_overlap range_expanded range_default
     range_include range_intersection range_size segment_default).
Abbreviation toPolygon' := (toPolygon double polygon_area dlt d0).
Abbreviation projections_overlap' :=
  (projections_overlap range_default range_include range_intersection range_size).
Abbreviation footprints_match' :=
  (footprints_match double Polygons polygon_area polygon_intersection polygons_area
     dsub dmin dabs dlt d100).
Abbreviation edges_next_to' :=
  (edges_next_to areCollinear range_default range_include range_intersection range_size).

Lemma edges_next_to_spec a_edge b_edge :
  0 < vSize (getVector a_edge) ->
  edges_next_to' a_edge b_edge
  = Some (areCollinear a_edge b_edge && (projections_overlap' a_edge b_edge >? 10)).
Proof.
  intros Hsize. unfold edges_next_to, projections_overlap.
  destruct (areCollinear a_edge b_edge); [|done]. cbn [negb andb].
  destruct (Z.gtb_spec (vSize (getVector a_edge)) 0); [done|lia].
Qed.


End NextToProofs.


(** ** Further properties of directions and triangles *)


(** X2: the curve passes from child 0 to child 1 of a subdivided triangle:
    the to-edge of child 0 is the from-edge of child 1.  Child 0 is entered
    over the parent's from-edge, or over the half of it at the parent's
    [a] when the parent runs [AB_TO_BC]; child 1 is left over the parent's
    to-edge, or over the half of it at the parent's [b] when the parent
    runs [AC_TO_AB]. *)
Theorem triangle_subdivide_chains (T : Triangle.t) :
  let c0 := fst (Triangle.subdivide T) in
  let c1 := snd (Triangle.subdivide T) in
  let middle := midpoint (Triangle.a T) (Triangle.b T) in
  let oriented (s : LineSegment) :=
    if Triangle.straight_corner_is_left T then s else reverse s in
  Triangle.getToEdge c0 = Triangle.getFromEdge c1 /\
  Triangle.getToEdge c0 = oriented (mkSeg (Triangle.straight_corner T) middle) /\
  Triangle.getFromEdge c0 =
    (match Triangle.dir T with
     | Triangle.AB_TO_BC => oriented (mkSeg (Triangle.a T) middle)
     | _ => Triangle.getFromEdge T
     end) /\
  Triangle.getToEdge c1 =
    (match Triangle.dir T with
     | Triangle.AC_TO_AB => oriented (mkSeg (Triangle.b T) middle)
     | _ => Triangle.getToEdge T
     end).
Proof.
  destruct T as [sc pa pb d l]. unfold Triangle.getToEdge, Triangle.getFromEdge.
  cbn. by destruct d, l.
Qed.

Section VolumeOfCurve.
Context {F : Type}.
Variables (INT2MM : Z -> F) (fmul : F -> F -> F) (line_width : Z).

(** X3: the length [getActualizedVolume] charges to a cell is the distance
    between the middle of the from-edge and the middle of the to-edge of
    its triangle, whichever side the straight corner is on. *)
Theorem getActualizedVolume_between_edge_middles (node : Cell F) :
  let T := Prism.triangle (prism node) in
  let middle_of (s : LineSegment) := midpoint (from s) (to s) in
  getActualizedVolume INT2MM fmul line_width node =
  fmul (fmul (INT2MM line_width)
          (INT2MM (vSize (psub (middle_of (Triangle.getFromEdge T))
                               (middle_of (Triangle.getToEdge T))))))
       (INT2MM (rmax (Prism.z_range (prism node)) - rmin (Prism.z_range (prism node)))).
Proof.
  assert (Hcomm : forall p q, padd p q = padd q p).
  { intros p q. unfold padd. f_equal; lia. }
  unfold getActualizedVolume, Triangle.getFromEdge, Triangle.getToEdge, midpoint.
  destruct (prism node) as [[sc pa pb d l] zr e]. cbn [Prism.triangle Triangle.dir
    Triangle.a Triangle.b Triangle.straight_corner Triangle.straight_corner_is_left
    Prism.z_range].
  destruct d, l; cbn [negb reverse from to fst snd];
    rewrite ?(Hcomm sc pa), ?(Hcomm sc pb), ?(Hcomm pb pa); reflexivity.
Qed.

End VolumeOfCurve.

(** ** Further properties of the tree builder *)

Section TreeBuilder.
Context {F : Type}.
Implicit Types (cd : list (Cell F)) (c C : Cell F).

Lemma for_children_rel (R : list (Cell F) -> list (Cell F) -> Prop) stop body chs :
  (forall cd, R cd cd) ->
  (forall cd1 cd2 cd3, R cd1 cd2 -> R cd2 cd3 -> R cd1 cd3) ->
  (forall cd k cd', body cd k = Some cd' -> R cd cd') ->
  forall cd cd', for_children stop body cd chs = Some cd' -> R cd cd'.
Proof.
  intros Hrefl Htrans Hbody.
  induction chs as [|ch rest IH]; intros cd cd' Hfor; cbn [for_children] in Hfor.
  { injection Hfor as <-. apply Hrefl. }
  destruct (stop ch); [injection Hfor as <-; apply Hrefl|].
  destruct (body cd ch) as [cd1|] eqn:Hb; [|done]. cbn [mbind option_bind] in Hfor.
  eapply Htrans; [by eapply Hbody|by eapply IH].
Qed.

Lemma cells_related_refl (R : Cell F -> Cell F -> Prop) cd :
  (forall c, R c c) -> cells_related R cd cd.
Proof. intros Hrefl. split; [done|]. intros p C HC. eauto. Qed.

Lemma cells_related_trans (R : Cell F -> Cell F -> Prop) cd1 cd2 cd3 :
  (forall c1 c2 c3, R c1 c2 -> R c2 c3 -> R c1 c3) ->
  cells_related R cd1 cd2 -> cells_related R cd2 cd3 -> cells_related R cd1 cd3.
Proof.
  intros Htrans [Hl1 H1] [Hl2 H2]. split; [congruence|]. intros p C HC.
  destruct (H1 _ _ HC) as (C1 & HC1 & HR1). destruct (H2 _ _ HC1) as (C2 & HC2 & HR2).
  eauto.
Qed.

Lemma update_cell_related (R : Cell F -> Cell F -> Prop) cd i f cd' :
  (forall c, R c c) -> (forall c, R c (f c)) ->
  update_cell cd i f = Some cd' -> cells_related R cd cd'.
Proof.
  intros Hrefl Hf (c & Hc & ->)%update_cell_inv.
  pose proof (cell_at_range _ _ _ Hc) as Hi.
  split; [by rewrite length_insert|]. intros p C HC.
  pose proof (cell_at_range _ _ _ HC) as Hp.
  destruct (Z.eq_dec p i) as [->|Hne].
  - rewrite Hc in HC. injection HC as <-. exists (f c).
    split; [by erewrite cell_at_insert_eq|done].
  - exists C. split; [by rewrite cell_at_insert_ne by lia|done].
Qed.

Section Volumes.
Variables (INT2MM INT2MM2 : Z -> F) (fmul fadd fmax : F -> F -> F) (fhalf : F).
Variable density_provider : AABB3D.t -> F.

(** The volume [setVolume] computes from a prism. *)
Local Abbreviation prism_volume P :=
  (fmul (fmul fhalf
           (INT2MM2 (vSize2 (psub (Triangle.straight_corner (Prism.triangle P))
                                  (Triangle.a (Prism.triangle P))))))
        (INT2MM (rmax (Prism.z_range P) - rmin (Prism.z_range P)))).

Local Abbreviation volume_set C C' :=
  (C' = with_volume C (volume C') /\
   (volume C' = volume C \/ volume C' = prism_volume (prism C))).

Lemma volume_set_refl C : volume_set C C.
Proof. split; [by destruct C|by left]. Qed.

Lemma volume_set_trans C1 C2 C3 : volume_set C1 C2 -> volume_set C2 C3 -> volume_set C1 C3.
Proof.
  intros [E1 V1] [E2 V2]. split.
  - rewrite E2, E1. by destruct C1.
  - assert (prism C2 = prism C1) as Hp by (rewrite E1; by destruct C1).
    rewrite Hp in V2. destruct V2 as [-> | ->]; [done|by right].
Qed.

Lemma setVolume_related fuel : forall cd q cd',
  setVolume INT2MM INT2MM2 fmul fhalf fuel cd q = Some cd' ->
  cells_related (fun C C' => volume_set C C') cd cd'.
Proof.
  induction fuel as [|fuel IH]; intros cd q cd' H; [done|].
  cbn [setVolume] in H.
  destruct (cell_at cd q) as [C|] eqn:HC; [|done]. cbn [mbind option_bind] in H.
  match type of H with context [update_cell cd q ?f] =>
    destruct (update_cell cd q f) as [cd1|] eqn:Hu; [|done] end.
  cbn [mbind option_bind] in H.
  assert (H1 : cells_related (fun C C' => volume_set C C') cd cd1).
  { destruct (update_cell_inv _ _ _ _ Hu) as (c & Hc & ->).
    rewrite HC in Hc. injection Hc as <-.
    pose proof (cell_at_range _ _ _ HC) as Hi.
    split; [by rewrite length_insert|]. intros p C0 HC0.
    pose proof (cell_at_range _ _ _ HC0) as Hp.
    destruct (Z.eq_dec p q) as [->|Hne].
    - rewrite HC in HC0. injection HC0 as <-. eexists.
      split; [by erewrite cell_at_insert_eq|]. split; [by destruct C|by right].
    - exists C0. split; [by rewrite cell_at_insert_ne by lia|apply volume_set_refl]. }
  destruct (child0 (children C) >=? 0); [|by injection H as <-].
  eapply cells_related_trans; [apply volume_set_trans|exact H1|].
  eapply (for_children_rel (cells_related (fun C C' => volume_set C C'))); [| | |exact H].
  - intros cd0. apply cells_related_refl, volume_set_refl.
  - intros cd2 cd3 cd4. apply cells_related_trans, volume_set_trans.
  - intros cd2 k cd3 Hk. cbv beta in Hk.
    destruct ((k >? 0) && (k <? Z.of_nat (length cd2))); [|done]. by eapply IH.
Qed.

(** X4: [setVolume] writes the field [volume] and nothing else: the arena
    keeps its length and every cell all its other fields; the cell it is
    called on ends with the volume of its prism, half the square of the
    leg from [straight_corner] to [a] times the height. *)
Theorem setVolume_writes_volume_only fuel cd q cd' :
  setVolume INT2MM INT2MM2 fmul fhalf fuel cd q = Some cd' ->
  length cd' = length cd /\
  (forall p C, cell_at cd p = Some C ->
     exists C', cell_at cd' p = Some C' /\ C' = with_volume C (volume C')) /\
  (exists C', cell_at cd' q = Some C' /\ volume C' = prism_volume (prism C')).
Proof.
  intros H. pose proof (setVolume_related _ _ _ _ H) as [Hlen Hrel].
  split; [done|]. split.
  { intros p C HC. destruct (Hrel _ _ HC) as (C' & HC' & E & _). eauto. }
  destruct fuel as [|fuel]; [done|]. cbn [setVolume] in H.
  destruct (cell_at cd q) as [C|] eqn:HC; [|done]. cbn [mbind option_bind] in H.
  match type of H with context [update_cell cd q ?f] =>
    destruct (update_cell cd q f) as [cd1|] eqn:Hu; [|done] end.
  cbn [mbind option_bind] in H.
  destruct (update_cell_inv _ _ _ _ Hu) as (c & Hc & ->).
  rewrite HC in Hc. injection Hc as <-.
  assert (H1 : cell_at (<[Z.to_nat q := with_volume C (prism_volume (prism C))]> cd) q
               = Some (with_volume C (prism_volume (prism C))))
    by (by erewrite cell_at_insert_eq).
  assert (Hrest : cells_related (fun C C' => volume_set C C')
            (<[Z.to_nat q := with_volume C (prism_volume (prism C))]> cd) cd').
  { destruct (child0 (children C) >=? 0).
    - eapply (for_children_rel (cells_related (fun C C' => volume_set C C'))); [| | |exact H].
      + intros cd0. apply cells_related_refl, volume_set_refl.
      + intros cd2 cd3 cd4. apply cells_related_trans, volume_set_trans.
      + intros cd2 k cd3 Hk. cbv beta in Hk.
        destruct ((k >? 0) && (k <? Z.of_nat (length cd2))); [|done].
        by eapply setVolume_related.
    - injection H as <-. apply cells_related_refl, volume_set_refl. }
  destruct Hrest as [_ Hrest]. destruct (Hrest _ _ H1) as (C' & HC' & E & V).
  exists C'. split; [done|].
  assert (prism C' = prism C) as -> by (rewrite E; by destruct C).
  by destruct V as [-> | ->].
Qed.

Local Abbreviation allowance_set C C' :=
  (C' = with_allowance C (filled_volume_allowance C') (minimally_required_density C')).

Lemma setSpecificationAllowance_related fuel : forall cd q cd',
  setSpecificationAllowance fmul fadd fmax density_provider fuel cd q = Some cd' ->
  cells_related (fun C C' => allowance_set C C') cd cd'.
Proof.
  assert (Hrefl : forall C : Cell F, allowance_set C C) by (intros c0; by destruct c0).
  assert (Htrans : forall C1 C2 C3 : Cell F,
            allowance_set C1 C2 -> allowance_set C2 C3 -> allowance_set C1 C3).
  { intros C1 C2 C3 E1 E2. rewrite E2, E1. by destruct C1. }
  induction fuel as [|fuel IH]; intros cd q cd' H; [done|].
  cbn [setSpecificationAllowance] in H.
  destruct (cell_at cd q) as [C|]; [|done]. cbn [mbind option_bind] in H.
  destruct (child0 (children C) >=? 0).
  - eapply (for_children_rel (cells_related (fun C C' => allowance_set C C'))); [| | |exact H].
    + intros cd0. by apply cells_related_refl.
    + intros cd2 cd3 cd4. by apply cells_related_trans.
    + intros cd2 k cd3 Hk. cbv beta in Hk.
      destruct (cell_at cd2 k); [|done]. cbn [mbind option_bind] in Hk.
      destruct (setSpecificationAllowance _ _ _ _ fuel cd2 k) as [cd4|] eqn:Hrec; [|done].
      cbn [mbind option_bind] in Hk.
      destruct (cell_at cd4 k) as [child|]; [|done]. cbn [mbind option_bind] in Hk.
      eapply cells_related_trans; [exact Htrans|by eapply IH|].
      eapply update_cell_related; [exact Hrefl| |exact Hk]. intros c0; by destruct c0.
  - eapply update_cell_related; [exact Hrefl| |exact H]. intros c0; by destruct c0.
Qed.

(** X5: [setSpecificationAllowance] writes the fields
    [filled_volume_allowance] and [minimally_required_density] and nothing
    else: the arena keeps its length and every cell its prism, index,
    depth, volume, children, links and flag. *)
Theorem setSpecificationAllowance_writes_allowance_only fuel cd q cd' :
  setSpecificationAllowance fmul fadd fmax density_provider fuel cd q = Some cd' ->
  length cd' = length cd /\
  forall p C, cell_at cd p = Some C ->
    exists C', cell_at cd' p = Some C' /\
      C' = with_allowance C (filled_volume_allowance C') (minimally_required_density C').
Proof. apply setSpecificationAllowance_related. Qed.

End Volumes.

Section Builder.
Variables (dflt : F) (junk : Z) (max_depth : Z).

(** X6: given fuel for the levels below it, the recursive [createTree]
    returns; it appends cells and writes the child slots of the cell it is
    called on, and nothing else: every other cell of the arena is as it
    was, and every cell it appended knows its position, has no links and
    is not flagged as subdivided. *)
Theorem createTree_only_appends fuel cd q c :
  cell_at cd q = Some c -> index c = q ->
  (Z.to_nat (max_depth - depth c) < fuel)%nat ->
  exists cd',
    createTree dflt junk fuel max_depth cd q = Some cd' /\
    (length cd <= length cd')%nat /\
    (forall j c0, j <> q -> cell_at cd j = Some c0 -> cell_at cd' j = Some c0) /\
    (exists ch, cell_at cd' q = Some (with_children c ch)) /\
    (forall p C, Z.of_nat (length cd) <= p -> cell_at cd' p = Some C ->
       index C = p /\ adjacent_cells C = adj_empty /\ is_subdivided C = false).
Proof.
  intros Hc Hidx Hfuel.
  destruct (createTree_ok dflt junk max_depth fuel cd q c Hc Hidx Hfuel)
    as (cd' & Hcd' & (Hlen & Hoth & Hq) & Hwf & Hfresh).
  exists cd'. split; [done|]. split; [done|]. split; [done|]. split; [by apply Hq|].
  intros p C Hp HC. destruct (Hfresh p C Hp HC) as [Ha Hs].
  destruct (Hwf p C (or_intror Hp) HC) as [[Hi _] _]. done.
Qed.

End Builder.

Section WholeTree.
Variables (dflt : F) (junk : Z) (root_prism : Prism.t).
Variables (INT2MM INT2MM2 : Z -> F) (fmul fadd fmax : F -> F -> F) (fhalf : F).
Variable density_provider : AABB3D.t -> F.
Variable max_depth : Z.

Local Abbreviation createTreeRoot' :=
  (createTreeRoot dflt junk root_prism INT2MM INT2MM2 fmul fadd fmax fhalf density_provider).

(** X7: in the tree [createTree()] builds every cell holds its own
    position in [index]; every child slot that is not negative holds the
    position of a cell of the arena, other than the root, that is exactly
    one level deeper; slot 3 is filled whenever slot 2 is; and no cell has
    a link or is flagged as subdivided. *)
Theorem createTree_builds_wellformed_tree fuel aabb cd :
  (Z.to_nat max_depth < fuel)%nat ->
  createTreeRoot' fuel max_depth aabb [] = Some cd ->
  forall p C, cell_at cd p = Some C ->
    index C = p /\
    (forall k, k ∈ children_list (children C) -> 0 <= k ->
       0 < k /\ exists K, cell_at cd k = Some K /\ depth K = depth C + 1) /\
    (0 <= child2 (children C) -> 0 <= child3 (children C)) /\
    adjacent_cells C = adj_empty /\ is_subdivided C = false.
Proof.
  intros Hfuel H p C HC. apply createTreeRoot_wf in H as [Hwf Hfresh]; [|done].
  destruct (Hwf p C HC) as (Hi & Hk & H23). destruct (Hfresh p C HC) as [Ha Hs]. done.
Qed.

(** X8: [createTree()] puts the sentinel root at position 0 with depth 0
    and two children, the first at position 1; both are level-1 prisms over
    the whole height of the bounding box, their triangles the halves of
    its footprint on either side of the diagonal, and the curve leaves the
    first over the edge by which it enters the second. *)
Theorem createTree_splits_along_diagonal fuel aabb cd :
  (Z.to_nat max_depth < fuel)%nat ->
  createTreeRoot' fuel max_depth aabb [] = Some cd ->
  let lo := AABB3D.min aabb in
  let hi := AABB3D.max aabb in
  let T1 := Triangle.mk (mkPoint (Point3.x lo) (Point3.y hi))
              (mkPoint (Point3.x lo) (Point3.y lo)) (mkPoint (Point3.x hi) (Point3.y hi))
              Triangle.AC_TO_AB true in
  let T2 := Triangle.mk (mkPoint (Point3.x hi) (Point3.y lo))
              (mkPoint (Point3.x hi) (Point3.y hi)) (mkPoint (Point3.x lo) (Point3.y lo))
              Triangle.AB_TO_BC true in
  let zr := mkRange (Point3.z lo) (Point3.z hi) in
  (exists root first second k,
     cell_at cd 0 = Some root /\ prism root = root_prism /\ depth root = 0 /\
     children root = mkChildren 1 k (-1) (-1) /\ 1 < k /\
     cell_at cd 1 = Some first /\ prism first = Prism.mk T1 zr true /\ depth first = 1 /\
     cell_at cd k = Some second /\ prism second = Prism.mk T2 zr true /\
     depth second = 1) /\
  Triangle.getToEdge T1 = Triangle.getFromEdge T2.
Proof.
  intros Hfuel H lo hi T1 T2 zr. split; [|reflexivity].
  eapply createTreeRoot_layout; [exact Hfuel|exact H].
Qed.

Lemma debugCheckDepths_children_ok cd cell chs :
  (forall k, k ∈ chs -> 0 <= k ->
     exists K, cell_at cd k = Some K /\ depth K = depth cell + 1) ->
  debugCheckDepths_children cd cell chs = Some O.
Proof.
  induction chs as [|k rest IH]; intros Hk; [done|].
  cbn [debugCheckDepths_children].
  destruct (Z.ltb_spec k 0) as [|Hk0]; [done|].
  destruct (Hk k) as (K & HK & Hd); [left|done|].
  rewrite HK. cbn [mbind option_bind].
  rewrite IH by (intros k' Hin; apply Hk; by right). cbn [mbind option_bind].
  by rewrite Hd, Z.eqb_refl.
Qed.

Lemma debugCheckDepths_cells_ok cd cells :
  (forall C k, C ∈ cells -> k ∈ children_list (children C) -> 0 <= k ->
     exists K, cell_at cd k = Some K /\ depth K = depth C + 1) ->
  debugCheckDepths_cells cd cells = Some O.
Proof.
  induction cells as [|C rest IH]; intros HC; [done|].
  cbn [debugCheckDepths_cells].
  rewrite debugCheckDepths_children_ok by (intros k Hin; apply HC; [left|done]).
  cbn [mbind option_bind].
  rewrite IH by (intros C' k Hin; apply HC; by right). done.
Qed.

Lemma debugCheckDepths_wf_tree cd : wf_tree cd -> debugCheckDepths cd = Some tt.
Proof.
  intros Hwf. unfold debugCheckDepths. rewrite debugCheckDepths_cells_ok; [done|].
  intros C k [i Hi]%list_elem_of_lookup Hk Hk0.
  assert (HC : cell_at cd (Z.of_nat i) = Some C).
  { apply cell_at_Some. split; [lia|]. by rewrite Nat2Z.id. }
  destruct (Hwf _ _ HC) as (_ & Hch & _). destruct (Hch k Hk Hk0) as (_ & K & HK & Hd).
  eauto.
Qed.

(** X9: the check [debugCheckDepths] that [initialize] runs after
    [createTree()] counts no problem: its assertion holds on every tree
    [createTree()] builds. *)
Theorem debugCheckDepths_passes_after_createTree fuel aabb cd :
  (Z.to_nat max_depth < fuel)%nat ->
  createTreeRoot' fuel max_depth aabb [] = Some cd ->
  debugCheckDepths cd = Some tt.
Proof.
  intros Hfuel H. apply createTreeRoot_wf in H as [Hwf _]; [|done].
  by apply debugCheckDepths_wf_tree.
Qed.

End WholeTree.

End TreeBuilder.

Lemma createTree_only_appends_witness :
  exists cd',
    createTree tt 7 3 3 Examples.tall_arena 1 = Some cd' /\
    (length Examples.tall_arena <= length cd')%nat /\
    (forall j c0, j <> 1 -> cell_at Examples.tall_arena j = Some c0 ->
       cell_at cd' j = Some c0) /\
    (exists ch, cell_at cd' 1 =
       Some (with_children
               (Cell_new tt 0 (Prism.mk Examples.tall_triangle (mkRange 0 1414) true) 1 1)
               ch)) /\
    (forall p C, Z.of_nat (length Examples.tall_arena) <= p -> cell_at cd' p = Some C ->
       index C = p /\ adjacent_cells C = adj_empty /\ is_subdivided C = false).
Proof.
  apply (createTree_only_appends tt 7 3 3 Examples.tall_arena 1).
  - reflexivity.
  - reflexivity.
  - vm_compute; lia.
Defined.

Lemma createTree_builds_wellformed_tree_witness :
  (Z.to_nat 3 < 5)%nat /\
  forall p C, cell_at Examples.box_arena p = Some C ->
    index C = p /\
    (forall k, k ∈ children_list (children C) -> 0 <= k ->
       0 < k /\ exists K, cell_at Examples.box_arena k = Some K /\ depth K = depth C + 1) /\
    (0 <= child2 (children C) -> 0 <= child3 (children C)) /\
    adjacent_cells C = adj_empty /\ is_subdivided C = false.
Proof.
  split; [lia|].
  apply (createTree_builds_wellformed_tree tt 0 Examples.sentinel_prism
           (fun _ => tt) (fun _ => tt) (fun _ _ => tt) (fun _ _ => tt) (fun _ _ => tt) tt
           (fun _ => tt) 3 5 Examples.box).
  - lia.
  - vm_compute. reflexivity.
Defined.

Lemma createTree_splits_along_diagonal_witness :
  let T1 := Triangle.mk (mkPoint 0 1000) (mkPoint 0 0) (mkPoint 1000 1000)
              Triangle.AC_TO_AB true in
  let T2 := Triangle.mk (mkPoint 1000 0) (mkPoint 1000 1000) (mkPoint 0 0)
              Triangle.AB_TO_BC true in
  (exists root first second k,
     cell_at Examples.box_arena 0 = Some root /\ prism root = Examples.sentinel_prism /\
     depth root = 0 /\ children root = mkChildren 1 k (-1) (-1) /\ 1 < k /\
     cell_at Examples.box_arena 1 = Some first /\
     prism first = Prism.mk T1 (mkRange 0 1414) true /\ depth first = 1 /\
     cell_at Examples.box_arena k = Some second /\
     prism second = Prism.mk T2 (mkRange 0 1414) true /\ depth second = 1) /\
  Triangle.getToEdge T1 = Triangle.getFromEdge T2.
Proof.
  apply (createTree_splits_along_diagonal tt 0 Examples.sentinel_prism
           (fun _ => tt) (fun _ => tt) (fun _ _ => tt) (fun _ _ => tt) (fun _ _ => tt) tt
           (fun _ => tt) 3 5 Examples.box).
  - lia.
  - vm_compute. reflexivity.
Defined.

Lemma debugCheckDepths_passes_after_createTree_witness :
  debugCheckDepths Examples.box_arena = Some tt.
Proof.
  apply (debugCheckDepths_passes_after_createTree tt 0 Examples.sentinel_prism
           (fun _ => tt) (fun _ => tt) (fun _ _ => tt) (fun _ _ => tt) (fun _ _ => tt) tt
           (fun _ => tt) 3 5 Examples.box).
  - lia.
  - vm_compute. reflexivity.
Defined.

Lemma setVolume_writes_volume_only_witness :
  length Measured.sized_arena = length Measured.raw_arena /\
  (forall p C, cell_at Measured.raw_arena p = Some C ->
     exists C', cell_at Measured.sized_arena p = Some C' /\
       C' = with_volume C (volume C')) /\
  (exists C', cell_at Measured.sized_arena 1 = Some C' /\
     volume C' =
       1 * vSize2 (psub (Triangle.straight_corner (Prism.triangle (prism C')))
                        (Triangle.a (Prism.triangle (prism C'))))
       * (rmax (Prism.z_range (prism C')) - rmin (Prism.z_range (prism C')))).
Proof.
  apply (setVolume_writes_volume_only (fun z => z) (fun z => z) Z.mul 1
           5 Measured.raw_arena 1 Measured.sized_arena).
  vm_compute. reflexivity.
Defined.

Lemma setSpecificationAllowance_writes_allowance_only_witness :
  length Measured.rated_arena = length Measured.sized_arena /\
  forall p C, cell_at Measured.sized_arena p = Some C ->
    exists C', cell_at Measured.rated_arena p = Some C' /\
      C' = with_allowance C (filled_volume_allowance C') (minimally_required_density C').
Proof.
  apply (setSpecificationAllowance_writes_allowance_only Z.mul Z.add Z.max (fun _ => 1)
           5 Measured.sized_arena 1 Measured.rated_arena).
  vm_compute. reflexivity.
Defined.

(** ** Further properties of the adjacency manager *)

Section LinkAccounting.
Context {F : Type}.
Implicit Types (st : State F) (c : Z) (d : Direction) (it : LinkIterator) (L : Link).

Lemma initialConnection_modifies2 st b a dir (B A : Cell F) lb la :
  cell_at (cell_data st) b = Some B -> cell_at (cell_data st) a = Some A ->
  links st b dir = Some lb -> links st a (opposite dir) = Some la ->
  exists st', initialConnection st b a dir = Some st' /\
    modifies2 st st'
      b dir ((next_node st, mkLink (index A) (Some (S (next_node st)))) :: lb)
      a (opposite dir) ((S (next_node st), mkLink (index B) (Some (next_node st))) :: la) 2.
Proof.
  intros HB HA Hlb Hla.
  destruct (links_side _ _ _ _ Hlb) as [_ Hopp].
  assert (Hne : a <> b \/ opposite dir <> dir) by (by right).
  unfold initialConnection. rewrite HB, HA. cbn [mbind option_bind].
  destruct (emplace_front_modifies st b dir (index A) lb Hlb) as (st1 & -> & Hm1).
  cbn [mbind option_bind].
  assert (Hla1 : links st1 a (opposite dir) = Some la).
  { destruct Hm1 as (_ & Ho & _). rewrite Ho; [done|by right]. }
  destruct (emplace_front_modifies st1 a (opposite dir) (index B) la Hla1)
    as (st2 & -> & Hm2).
  cbn [mbind option_bind].
  assert (Hn1 : next_node st1 = S (next_node st)) by (destruct Hm1 as (_ & _ & _ & ->); lia).
  rewrite Hn1 in Hm2.
  pose proof (modifies_then_other _ _ _ _ _ _ _ _ _ _ _ Hne Hm1 Hm2) as Hm12.
  rewrite (begin_cons st2 b dir _ _ (proj1 Hm12)).
  rewrite (begin_cons st2 a (opposite dir) _ _ (proj1 (proj2 Hm12))).
  cbn [mbind option_bind fst].
  destruct (set_reverse_modifies st2 b dir (next_node st) (S (next_node st)) [] _ lb
              (proj1 Hm12) eq_refl) as (st3 & -> & Hm3); [apply not_elem_of_nil|].
  cbn [mbind option_bind app snd to_index] in *.
  pose proof (modifies2_then_first _ _ _ _ _ _ _ _ _ _ _ _ Hne Hm12 Hm3) as Hm123.
  destruct (set_reverse_modifies st3 a (opposite dir) (S (next_node st)) (next_node st)
              [] _ la (proj1 (proj2 Hm123)) eq_refl) as (st4 & -> & Hm4);
    [apply not_elem_of_nil|].
  cbn [app snd to_index] in *.
  pose proof (modifies2_then_second _ _ _ _ _ _ _ _ _ _ _ _ Hne Hm123 Hm4) as Hm1234.
  eexists; split; [done|]. exact Hm1234.
Qed.

(** X10: for a real side and two cells of the arena, [initialConnection]
    returns; it puts one new link at the front of the list of side [dir]
    of [before] and one at the front of the opposite side of [after], each
    leading to the [index] of the other cell and holding the other as its
    reverse; every other list, and every other field of every cell, is
    left as it was. *)
Theorem initialConnection_links_front st b a dir (B A : Cell F) :
  dir <> COUNT ->
  cell_at (cell_data st) b = Some B -> cell_at (cell_data st) a = Some A ->
  exists st' lb la,
    initialConnection st b a dir = Some st' /\
    links st b dir = Some lb /\ links st a (opposite dir) = Some la /\
    links st' b dir
      = Some ((next_node st, mkLink (index A) (Some (S (next_node st)))) :: lb) /\
    links st' a (opposite dir)
      = Some ((S (next_node st), mkLink (index B) (Some (next_node st))) :: la) /\
    (forall c d, c <> b \/ d <> dir -> c <> a \/ d <> opposite dir ->
       links st' c d = links st c d) /\
    same_cells st st' /\
    next_node st' = S (S (next_node st)).
Proof.
  intros Hdir HB HA.
  destruct (links_exists st b dir B HB Hdir) as [lb Hlb].
  destruct (links_exists st a (opposite dir) A HA) as [la Hla]; [by destruct dir|].
  destruct (initialConnection_modifies2 st b a dir B A lb la HB HA Hlb Hla)
    as (st' & Hst' & H1 & H2 & Hoth & Hsame & Hnext).
  exists st', lb, la. done.
Qed.

Lemma surgery_trans ci kids st1 st2 st3 :
  surgery ci kids st1 st2 -> surgery ci kids st2 st3 -> surgery ci kids st1 st3.
Proof.
  induction 1 as [|st st1 st2 Hstep _ IH]; [done|].
  intros H3. eapply surgery_next; [exact Hstep|by apply IH].
Qed.

Lemma surgery_one ci kids st st' : surgery_step ci kids st st' -> surgery ci kids st st'.
Proof. intros H. eapply surgery_next; [exact H|apply surgery_done]. Qed.

Lemma surgery_unlinked ci kids st st' d :
  surgery ci kids st st' -> unlinked st ci d -> unlinked st' ci d.
Proof.
  induction 1 as [|st st1 st2 Hstep _ IH]; [done|]. intros Hun. apply IH. clear IH.
  intros it L H.
  destruct Hstep as [st st' b dir a _ _ Hb Ha (_ & _ & Hview & _)
                    |st st' ch s n r Lr _ Hch HR (_ & _ & Hview & _)
                    |st st' n d0 r nid _ _ (_ & _ & Hview & _)
                    |st st' s (_ & _ & Hview & _)
                    |st st' Hsame].
  - apply Hview in H as [H|[(? & _)|(? & _)]]; [by eapply Hun|done..].
  - apply Hview in H as [H|[(? & _)|(<- & -> & _)]]; [by eapply Hun|done|by eapply Hun].
  - apply Hview in H as [H _]. by eapply Hun.
  - apply Hview in H as [H _]. by eapply Hun.
  - destruct H as (l & Hl & Hin). rewrite Hsame in Hl. eapply Hun. by exists l.
Qed.

Lemma surgery_persists ci kids st st' c d it L :
  surgery ci kids st st' ->
  has_link st c d it L -> c <> ci -> to_index L <> ci -> has_link st' c d it L.
Proof.
  induction 1 as [|st st1 st2 Hstep _ IH]; [done|]. intros H Hc HL. apply IH; [|done..].
  clear IH.
  destruct Hstep as [st st' b dir a _ _ Hb Ha (_ & _ & Hview & _)
                    |st st' ch s n r Lr _ Hch HR (_ & _ & Hview & _)
                    |st st' n d0 r nid Hmem HR (_ & _ & Hview & _)
                    |st st' s (_ & _ & Hview & _)
                    |st st' Hsame].
  - apply Hview. by left.
  - apply Hview. by left.
  - apply Hview. split; [done|]. intros ->.
    destruct (mem_unique _ Hmem _ _ _ _ _ _ _ H HR) as [-> ->].
    pose proof (has_link_functional _ _ _ _ _ _ Hmem H HR) as ->. done.
  - apply Hview. split; [done|]. tauto.
  - destruct H as (l & Hl & Hin). exists l. by rewrite Hsame.
Qed.

Lemma surgery_new ci kids st st' c d it L :
  surgery ci kids st st' ->
  has_link st' c d it L ->
  has_link st c d it L \/ c ∈ kids \/ to_index L ∈ kids.
Proof.
  induction 1 as [|st st1 st2 Hstep _ IH]; [by left|]. intros H.
  destruct (IH H) as [H1|?]; [|by right]. clear IH H.
  destruct Hstep as [st st' b dir a Hb Ha _ _ (_ & _ & Hview & _)
                    |st st' ch s n r Lr Hch _ HR (_ & _ & Hview & _)
                    |st st' n d0 r nid Hmem HR (_ & _ & Hview & _)
                    |st st' s (_ & _ & Hview & _)
                    |st st' Hsame].
  - apply Hview in H1 as [?|[(-> & _)|(-> & _)]]; auto.
  - apply Hview in H1 as [?|[(-> & _)|(_ & _ & _ & ->)]]; auto.
  - apply Hview in H1 as [? _]. by left.
  - apply Hview in H1 as [? _]. by left.
  - left. destruct H1 as (l & Hl & Hin). exists l. by rewrite <- Hsame.
Qed.

Lemma adds_pair_pair_linked st st' b dir a : adds_pair st st' b dir a -> pair_linked st' b dir a.
Proof.
  intros (_ & _ & Hview & _). exists (next_node st), (S (next_node st)).
  split; apply Hview; [right; left|right; right]; done.
Qed.

Lemma adds_pair_keeps_pair st st' c1 d1 c2 b dir a :
  adds_pair st st' c1 d1 c2 -> pair_linked st b dir a -> pair_linked st' b dir a.
Proof.
  intros (_ & _ & Hview & _) (it & r & H1 & H2). exists it, r.
  split; apply Hview; by left.
Qed.

Lemma surgery_pair_linked ci kids st st' b dir a :
  surgery ci kids st st' -> b <> ci -> a <> ci ->
  pair_linked st b dir a -> pair_linked st' b dir a.
Proof.
  intros Hsur Hb Ha (it & r & H1 & H2). exists it, r.
  split; eapply surgery_persists; done.
Qed.

End LinkAccounting.

Section SubdivideAnswersAccounting.
Context {F : Type}.
(** The loops of [subdivide] under a test that always answers. *)
Variable next_to : Cell F -> Cell F -> Direction -> bool.
Local Abbreviation isNextTo := (fun a b s => Some (next_to a b s)).
Implicit Types (st : State F) (c : Z) (d : Direction) (it : LinkIterator) (L : Link).

Lemma children_loop_surgery ci s D todo nid N r kids chs : forall st (C : Cell F) st',
  side_inv st ci s D todo ->
  (nid, N) ∈ todo -> link_reverse N = Some r ->
  cell_at (cell_data st) ci = Some C ->
  (forall ch, ch ∈ chs -> ch ∈ children_list (children C)) ->
  (forall ch, ch ∈ present_children chs -> ch ∈ kids) ->
  children_loop isNextTo st s (to_index N) r chs = Some st' ->
  surgery ci kids st st'.
Proof.
  induction chs as [|ch rest IH]; intros st C st' Hinv Hin Hr HC Hsub Hkids H.
  { injection H as <-. apply surgery_done. }
  cbn [children_loop present_children] in H, Hkids.
  destruct (Z.ltb_spec ch 0) as [_|Hch0].
  { injection H as <-. apply surgery_done. }
  assert (Hch : ch ∈ children_list (children C)) by (apply Hsub; left).
  destruct (wf_tree_child _ _ _ _ (si_tree _ _ _ _ _ Hinv) HC Hch Hch0)
    as (_ & Hne & K & HK & _).
  rewrite HK in H. cbn [mbind option_bind] in H.
  destruct (si_todo _ _ _ _ _ Hinv _ _ Hin) as [HN Hlive].
  destruct (has_link_cell _ _ _ _ _ HN) as [Hs _].
  destruct (si_paired _ _ _ _ _ Hinv _ _ _ _ HN Hlive) as (r' & Hr' & _ & HR).
  rewrite Hr in Hr'. injection Hr' as <-.
  destruct (has_link_cell _ _ _ _ _ HR) as [_ [Nc HNc]].
  rewrite HNc in H. cbn [mbind option_bind] in H.
  destruct (to_index N >? 0); [|done]. cbn [mbind option_bind] in H.
  destruct (next_to K Nc s).
  - destruct (connect_child_inv st ci s D todo nid N r C ch Hinv Hin Hr HC Hch Hch0)
      as (st1 & Hst1 & Hinv1 & Hs1 & _).
    destruct (links_exists st ch s K HK Hs) as [lc Hlc].
    destruct (connect_child_adds_pair st s (to_index N) r ch lc _
                (si_mem _ _ _ _ _ Hinv) Hlc HR) as (st1' & Hst1' & Hadd).
    rewrite Hst1 in Hst1'. injection Hst1' as <-.
    rewrite Hst1 in H. cbn [mbind option_bind] in H.
    destruct (later_cell _ _ _ _ Hs1 HC) as (C1 & HC1 & _ & Hch1).
    eapply surgery_next.
    { apply (step_connect ci kids st st1 ch s (to_index N) r (mkLink ci (Some nid)));
        [|done|exact HR|exact Hadd].
      apply Hkids. by left. }
    eapply (IH st1 C1 st'); [done..| | |done].
    + intros ch' Hch'. rewrite Hch1. apply Hsub. by right.
    + intros ch' Hch'. apply Hkids. by right.
  - cbn [mbind option_bind] in H.
    eapply (IH st C st'); [done..| | |done].
    + intros ch' Hch'. apply Hsub. by right.
    + intros ch' Hch'. apply Hkids. by right.
Qed.

Lemma links_loop_surgery ci s kids todo : forall st D st',
  side_inv st ci s D todo ->
  (forall C, cell_at (cell_data st) ci = Some C ->
     forall ch, ch ∈ present_children (children_list (children C)) -> ch ∈ kids) ->
  links_loop isNextTo st ci s todo = Some st' ->
  surgery ci kids st st'.
Proof.
  induction todo as [|[nid N] rest IH]; intros st D st' Hinv Hkids H.
  { injection H as <-. apply surgery_done. }
  cbn [links_loop snd] in H.
  destruct (si_todo _ _ _ _ _ Hinv nid N) as [HN Hlive]; [by left|].
  destruct (si_paired _ _ _ _ _ Hinv _ _ _ _ HN Hlive) as (r & Hr & _ & HR).
  rewrite Hr in H. cbn [mbind option_bind] in H.
  destruct (has_link_cell _ _ _ _ _ HR) as [_ [Nc HNc]].
  rewrite HNc in H. cbn [mbind option_bind] in H.
  destruct (has_link_cell _ _ _ _ _ HN) as [_ [C HC]].
  rewrite HC in H. cbn [mbind option_bind] in H.
  destruct (children_loop_answers_inv next_to ci s D _ nid N r (children_list (children C)) st C
              Hinv) as (st1 & Hst1 & Hinv1 & Hs1 & _); [by left|done|done|done|].
  rewrite Hst1 in H. cbn [mbind option_bind] in H.
  assert (Hsur1 : surgery ci kids st st1).
  { eapply (children_loop_surgery ci s D _ nid N r kids _ st C st1);
      [exact Hinv|by left|done|done|done|by apply Hkids|done]. }
  destruct (si_todo _ _ _ _ _ Hinv1 nid N) as [HN1 Hlive1]; [by left|].
  destruct (si_paired _ _ _ _ _ Hinv1 _ _ _ _ HN1 Hlive1) as (r1 & Hr1 & _ & HR1).
  rewrite Hr in Hr1. injection Hr1 as <-.
  pose proof (si_mem _ _ _ _ _ Hinv1) as Hmem1.
  destruct (erase_removes st1 (to_index N) (opposite s) r _ Hmem1 HR1)
    as (st2 & Hst2 & Hrem).
  rewrite Hst2 in H. cbn [mbind option_bind] in H.
  destruct (erase_reverse_inv st1 ci s D nid N rest r Hinv1 Hr)
    as (st2' & Hst2' & Hinv2 & Hs2 & _).
  rewrite Hst2 in Hst2'. injection Hst2' as <-.
  eapply surgery_trans; [exact Hsur1|].
  eapply surgery_next; [eapply step_erase; [exact Hmem1|exact HR1|exact Hrem]|].
  eapply (IH st2 _ st'); [exact Hinv2| |exact H].
  intros C2 HC2 ch Hch.
  pose proof (same_cells_sym _ _ (same_cells_trans _ _ _ Hs1 Hs2)) as Hback.
  destruct (later_cell _ _ _ _ Hback HC2) as (C0 & HC0 & _ & Hch0).
  apply (Hkids C0 HC0). by rewrite Hch0.
Qed.

Lemma side_inv_start st ci s nodes :
  adjacency_inv st -> links st ci s = Some nodes -> side_inv st ci s [] nodes.
Proof.
  intros [Htree Hmem Hpair Htar] Hnodes. split; try done.
  - intros c d it L H _. destruct (Hpair c d it L H) as (r & ? & _ & ?); [tauto|].
    exists r. split; [done|]. split; [apply not_elem_of_nil|done].
  - by intros c d it L _ ?%elem_of_nil.
  - by intros it ?%elem_of_nil.
  - intros it L Hit. split; [by exists nodes|apply not_elem_of_nil].
  - by eapply mem_nodup.
  - intros it L (l & Hl & Hin). rewrite Hnodes in Hl. injection Hl as <-. by right.
Qed.

Lemma side_loop_surgery st ci s (C : Cell F) kids st' :
  adjacency_inv st -> cell_at (cell_data st) ci = Some C -> s <> COUNT ->
  (forall ch, ch ∈ present_children (children_list (children C)) -> ch ∈ kids) ->
  side_loop isNextTo st ci s = Some st' ->
  surgery ci kids st st' /\ unlinked st' ci s.
Proof.
  intros Hinv0 HC Hs Hkids H.
  destruct (links_exists st ci s C HC Hs) as [nodes Hnodes].
  unfold side_loop in H. rewrite Hnodes in H. cbn [mbind option_bind] in H.
  pose proof (side_inv_start st ci s nodes Hinv0 Hnodes) as Hinv.
  destruct (links_loop_answers_inv next_to ci s nodes st [] Hinv) as (st1 & D & Hst1 & Hinv1 & Hs1 & _).
  rewrite Hst1 in H. cbn [mbind option_bind] in H.
  assert (Hsur1 : surgery ci kids st st1).
  { eapply (links_loop_surgery ci s kids nodes st [] st1); [exact Hinv| |exact Hst1].
    intros C0 HC0. rewrite HC in HC0. by injection HC0 as <-. }
  destruct (same_cells_cell_at _ _ _ _ Hs1 HC) as (C1 & HC1 & _).
  destruct (links_exists st1 ci s C1 HC1 Hs) as [l1 Hl1].
  destruct (clear_removes st1 ci s l1 (si_mem _ _ _ _ _ Hinv1) Hl1) as (st2 & Hst2 & Hrem).
  rewrite Hst2 in H. injection H as <-.
  split.
  - eapply surgery_trans; [exact Hsur1|]. apply surgery_one. by apply (step_clear ci kids st1 st2 s).
  - intros it L Hl. destruct Hrem as (_ & _ & Hview & _).
    apply Hview in Hl as [_ Hgone]. by apply Hgone.
Qed.

Lemma sides_loop_surgery ci kids all_sides : forall st (C : Cell F) st',
  adjacency_inv st -> cell_at (cell_data st) ci = Some C ->
  (forall s, s ∈ all_sides -> s <> COUNT) ->
  (forall ch, ch ∈ present_children (children_list (children C)) -> ch ∈ kids) ->
  sides_loop isNextTo st ci all_sides = Some st' ->
  surgery ci kids st st' /\ forall s, s ∈ all_sides -> unlinked st' ci s.
Proof.
  induction all_sides as [|s rest IH]; intros st C st' Hinv HC Hsides Hkids H.
  { injection H as <-. split; [apply surgery_done|]. by intros s ?%elem_of_nil. }
  cbn [sides_loop] in H.
  destruct (side_loop_answers_inv next_to st ci s C Hinv HC) as (st1 & Hst1 & Hinv1 & Hs1 & _).
  { apply Hsides. by left. }
  rewrite Hst1 in H. cbn [mbind option_bind] in H.
  destruct (side_loop_surgery st ci s C kids st1 Hinv HC) as [Hsur1 Hun1];
    [apply Hsides; by left|done|done|].
  destruct (later_cell _ _ _ _ Hs1 HC) as (C1 & HC1 & _ & Hch1).
  destruct (IH st1 C1 st' Hinv1 HC1) as [Hsur2 Hun2]; [| |done|].
  { intros s' Hs'. apply Hsides. by right. }
  { by rewrite Hch1. }
  split; [by eapply surgery_trans|].
  intros s' [->|Hs']%elem_of_cons; [|by apply Hun2].
  by eapply surgery_unlinked.
Qed.

Lemma present_children_all (ch : Children) :
  0 <= child0 ch -> 0 <= child1 ch ->
  child0 ch ∈ present_children (children_list ch) /\
  child1 ch ∈ present_children (children_list ch) /\
  (0 <= child2 ch -> 0 <= child3 ch ->
     child2 ch ∈ present_children (children_list ch) /\
     child3 ch ∈ present_children (children_list ch)).
Proof.
  intros H0 H1. unfold children_list. cbn [present_children].
  destruct (Z.ltb_spec (child0 ch) 0) as [?|_]; [lia|].
  destruct (Z.ltb_spec (child1 ch) 0) as [?|_]; [lia|].
  split; [by left|]. split; [right; by left|]. intros Hc2 Hc3.
  destruct (Z.ltb_spec (child2 ch) 0) as [?|_]; [lia|].
  destruct (Z.ltb_spec (child3 ch) 0) as [?|_]; [lia|].
  split; [do 2 right; by left|do 3 right; by left].
Qed.

Lemma present_children_in chs k : k ∈ present_children chs -> k ∈ chs /\ 0 <= k.
Proof.
  induction chs as [|c rest IH]; cbn [present_children]; [by intros ?%elem_of_nil|].
  destruct (Z.ltb_spec c 0); [by intros ?%elem_of_nil|].
  intros [->|Hin]%elem_of_cons; [split; [by left|done]|].
  destruct (IH Hin). split; [by right|done].
Qed.

Lemma subdivide_answers_surgery st ci (C : Cell F) st' :
  adjacency_inv st -> cell_at (cell_data st) ci = Some C ->
  subdivide isNextTo st ci = Some st' ->
  let kids := present_children (children_list (children C)) in
  0 <= child0 (children C) /\ 0 <= child1 (children C) /\
  exists st1 st3 C3,
    adds_pair st st1 (child0 (children C)) RIGHT (child1 (children C)) /\
    surgery ci kids st st1 /\ surgery ci kids st1 st' /\
    (forall d, unlinked st' ci d) /\
    pair_linked st' (child0 (children C)) RIGHT (child1 (children C)) /\
    (0 <= child2 (children C) ->
       pair_linked st' (child2 (children C)) RIGHT (child3 (children C)) /\
       pair_linked st' (child0 (children C)) UP (child2 (children C)) /\
       pair_linked st' (child1 (children C)) UP (child3 (children C))) /\
    same_cells st st3 /\ cell_at (cell_data st3) ci = Some C3 /\
    cell_at (cell_data st') ci = Some (with_subdivided C3 true) /\
    (forall j, j <> ci -> cell_at (cell_data st') j = cell_at (cell_data st3) j) /\
    (forall c d, links st' c d = links st3 c d) /\
    next_node st' = next_node st3.
Proof.
  intros Hinv HC H kids. pose proof (inv_tree _ Hinv) as Htree.
  unfold subdivide in H. rewrite HC in H. cbn [mbind option_bind] in H.
  destruct (Z.geb_spec (child0 (children C)) 0) as [H0|?]; [|done].
  destruct (Z.geb_spec (child1 (children C)) 0) as [H1|?]; [|done].
  cbn [andb] in H. split; [done|]. split; [done|].
  destruct (present_children_all (children C) H0 H1) as (Hk0 & Hk1 & Hk23).
  assert (Hin0 : child0 (children C) ∈ children_list (children C))
    by (unfold children_list; rewrite !elem_of_cons; auto).
  assert (Hin1 : child1 (children C) ∈ children_list (children C))
    by (unfold children_list; rewrite !elem_of_cons; auto).
  assert (Hin2 : child2 (children C) ∈ children_list (children C))
    by (unfold children_list; rewrite !elem_of_cons; auto).
  assert (Hin3 : child3 (children C) ∈ children_list (children C))
    by (unfold children_list; rewrite !elem_of_cons; auto).
  destruct (wf_tree_child _ _ _ _ Htree HC Hin0 H0) as (Hp0 & Hn0 & K0 & HK0 & Hd0 & _).
  destruct (wf_tree_child _ _ _ _ Htree HC Hin1 H1) as (Hp1 & Hn1 & K1 & HK1 & Hd1 & _).
  destruct (initialConnection_keeps_inv st (child0 (children C)) (child1 (children C))
              RIGHT K0 K1 Hinv) as (st1 & Hst1 & Hinv1 & Hadd1); [done..|].
  rewrite Hst1 in H. cbn [mbind option_bind] in H.
  pose proof (proj1 Hadd1) as Hs1.
  assert (Hsur1 : surgery ci kids st st1).
  { apply surgery_one. eapply step_siblings; [exact Hk0|exact Hk1|exact Hn0|exact Hn1|exact Hadd1]. }
  assert (exists st2,
    (if getChildCount C =? 4
     then st ← initialConnection st1 (child2 (children C)) (child3 (children C)) RIGHT;
          st ← initialConnection st (child0 (children C)) (child2 (children C)) UP;
          initialConnection st (child1 (children C)) (child3 (children C)) UP
     else Some st1) = Some st2 /\
    adjacency_inv st2 /\ same_cells st1 st2 /\ surgery ci kids st1 st2 /\
    (0 <= child2 (children C) ->
       child2 (children C) <> ci /\ child3 (children C) <> ci /\
       pair_linked st2 (child2 (children C)) RIGHT (child3 (children C)) /\
       pair_linked st2 (child0 (children C)) UP (child2 (children C)) /\
       pair_linked st2 (child1 (children C)) UP (child3 (children C))))
    as (st2 & Hst2 & Hinv2 & Hs2 & Hsur2 & Hpairs2).
  { unfold getChildCount. destruct (Z.ltb_spec (child2 (children C)) 0) as [?|H2].
    { exists st1. split; [done|]. split; [done|].
      split; [apply same_cells_refl|]. split; [apply surgery_done|lia]. }
    cbn [Z.eqb Pos.eqb].
    pose proof (proj2 (proj2 (Htree _ _ HC)) H2) as H3.
    destruct (Hk23 H2 H3) as [Hk2 Hk3].
    destruct (wf_tree_child _ _ _ _ Htree HC Hin2 H2) as (Hp2 & Hn2 & K2 & HK2 & Hd2 & _).
    destruct (wf_tree_child _ _ _ _ Htree HC Hin3 H3) as (Hp3 & Hn3 & K3 & HK3 & Hd3 & _).
    destruct (later_cell _ _ _ _ Hs1 HK2) as (K2a & HK2a & _).
    destruct (later_cell _ _ _ _ Hs1 HK3) as (K3a & HK3a & _).
    destruct (initialConnection_keeps_inv st1 (child2 (children C)) (child3 (children C))
                RIGHT K2a K3a Hinv1) as (sa & -> & Hinva & Hadda); [done..|].
    cbn [mbind option_bind].
    pose proof (same_cells_trans _ _ _ Hs1 (proj1 Hadda)) as Hs1a.
    destruct (later_cell _ _ _ _ Hs1a HK0) as (K0b & HK0b & _).
    destruct (later_cell _ _ _ _ Hs1a HK2) as (K2b & HK2b & _).
    destruct (initialConnection_keeps_inv sa (child0 (children C)) (child2 (children C))
                UP K0b K2b Hinva) as (sb & -> & Hinvb & Haddb); [done..|].
    cbn [mbind option_bind].
    pose proof (same_cells_trans _ _ _ Hs1a (proj1 Haddb)) as Hs1b.
    destruct (later_cell _ _ _ _ Hs1b HK1) as (K1c & HK1c & _).
    destruct (later_cell _ _ _ _ Hs1b HK3) as (K3c & HK3c & _).
    destruct (initialConnection_keeps_inv sb (child1 (children C)) (child3 (children C))
                UP K1c K3c Hinvb) as (sc & -> & Hinvc & Haddc); [done..|].
    exists sc. split; [done|]. split; [done|]. split; [|split].
    - eapply same_cells_trans; [exact (proj1 Hadda)|].
      eapply same_cells_trans; [exact (proj1 Haddb)|exact (proj1 Haddc)].
    - eapply surgery_next;
        [eapply step_siblings; [exact Hk2|exact Hk3|exact Hn2|exact Hn3|exact Hadda]|].
      eapply surgery_next;
        [eapply step_siblings; [exact Hk0|exact Hk2|exact Hn0|exact Hn2|exact Haddb]|].
      apply surgery_one.
      eapply step_siblings; [exact Hk1|exact Hk3|exact Hn1|exact Hn3|exact Haddc].
    - intros _. split; [done|]. split; [done|]. split; [|split].
      + eapply adds_pair_keeps_pair; [exact Haddc|].
        eapply adds_pair_keeps_pair; [exact Haddb|]. by eapply adds_pair_pair_linked.
      + eapply adds_pair_keeps_pair; [exact Haddc|]. by eapply adds_pair_pair_linked.
      + by eapply adds_pair_pair_linked. }
  rewrite Hst2 in H. cbn [mbind option_bind] in H.
  pose proof (same_cells_trans _ _ _ Hs1 Hs2) as Hs12.
  destruct (later_cell _ _ _ _ Hs12 HC) as (C2 & HC2 & _ & Hch2).
  destruct (sides_loop_answers_inv next_to ci sides st2 C2 Hinv2 HC2)
    as (st3 & Hst3 & Hinv3 & Hs3 & _).
  { intros s Hs. unfold sides in Hs. rewrite !elem_of_cons, elem_of_nil in Hs.
    by destruct Hs as [->|[->|[->|[->|[]]]]]. }
  rewrite Hst3 in H. cbn [mbind option_bind] in H.
  destruct (sides_loop_surgery ci kids sides st2 C2 st3 Hinv2 HC2) as [Hsur3 Hun3];
    [|by rewrite Hch2|done|].
  { intros s Hs. unfold sides in Hs. rewrite !elem_of_cons, elem_of_nil in Hs.
    by destruct Hs as [->|[->|[->|[->|[]]]]]. }
  pose proof (same_cells_trans _ _ _ Hs12 Hs3) as Hs123.
  destruct (same_cells_cell_at _ _ _ _ Hs123 HC) as (C3 & HC3 & Hf3).
  destruct (set_is_subdivided_links st3 ci C3 HC3) as (st4 & Hst4 & Hn4 & HC4 & Hoth4 & Hl4).
  rewrite Hst4 in H. injection H as <-.
  assert (Hsur24 : surgery ci kids st2 st4).
  { eapply surgery_trans; [exact Hsur3|]. apply surgery_one. by apply step_same. }
  exists st1, st3, C3. split; [done|]. split; [done|]. split.
  { by eapply surgery_trans. }
  split; [|split; [|split]]; cycle 1.
  { eapply surgery_pair_linked; [eapply surgery_trans; [exact Hsur2|exact Hsur24]|done..|].
    by eapply adds_pair_pair_linked. }
  { intros H2. destruct (Hpairs2 H2) as (Hn2 & Hn3 & P1 & P2 & P3).
    split; [|split]; (eapply surgery_pair_linked; [exact Hsur24|done..]). }
  { done. }
  { intros d it L Hl. destruct (has_link_cell _ _ _ _ _ Hl) as [Hd _].
    destruct Hl as (l & Hl & Hin). rewrite Hl4 in Hl.
    eapply (Hun3 d); [|by exists l].
    unfold sides. rewrite !elem_of_cons. destruct d; auto. done. }
Qed.

End SubdivideAnswersAccounting.

Section SubdivideAccounting.
Context {F : Type}.
Variable isNextTo : Cell F -> Cell F -> Direction -> option bool.
Implicit Types (st : State F) (c : Z) (d : Direction) (it : LinkIterator) (L : Link).

(** The stages of [subdivide]: the link between the first two children,
    the surgery that follows it, and the flag. *)
Lemma subdivide_surgery st ci (C : Cell F) st' :
  adjacency_inv st -> cell_at (cell_data st) ci = Some C ->
  subdivide isNextTo st ci = Some st' ->
  let kids := present_children (children_list (children C)) in
  0 <= child0 (children C) /\ 0 <= child1 (children C) /\
  exists st1 st3 C3,
    adds_pair st st1 (child0 (children C)) RIGHT (child1 (children C)) /\
    surgery ci kids st st1 /\ surgery ci kids st1 st' /\
    (forall d, unlinked st' ci d) /\
    pair_linked st' (child0 (children C)) RIGHT (child1 (children C)) /\
    (0 <= child2 (children C) ->
       pair_linked st' (child2 (children C)) RIGHT (child3 (children C)) /\
       pair_linked st' (child0 (children C)) UP (child2 (children C)) /\
       pair_linked st' (child1 (children C)) UP (child3 (children C))) /\
    same_cells st st3 /\ cell_at (cell_data st3) ci = Some C3 /\
    cell_at (cell_data st') ci = Some (with_subdivided C3 true) /\
    (forall j, j <> ci -> cell_at (cell_data st') j = cell_at (cell_data st3) j) /\
    (forall c d, links st' c d = links st3 c d) /\
    next_node st' = next_node st3.
Proof.
  intros Hinv HC H.
  apply (subdivide_answers_surgery (fun a b s => default false (isNextTo a b s))
           st ci C st' Hinv HC (subdivide_answered isNextTo _ _ _ H)).
Qed.

Lemma subdivide_fields st ci st' :
  adjacency_inv st -> subdivide isNextTo st ci = Some st' ->
  (forall j, cell_at (cell_data st) j = None -> cell_at (cell_data st') j = None) /\
  forall j (Cj : Cell F), cell_at (cell_data st) j = Some Cj ->
    exists Cj', cell_at (cell_data st') j = Some Cj' /\
      with_adjacent Cj' (adjacent_cells Cj)
      = (if decide (j = ci) then with_subdivided Cj true else Cj).
Proof.
  intros Hinv H. split.
  { destruct (subdivide_Some_inv isNextTo st ci st' Hinv H) as (_ & Hst & _).
    intros j Hj. specialize (Hst j). rewrite Hj in Hst.
    by destruct (cell_at (cell_data st') j). }
  destruct (cell_at (cell_data st) ci) as [C|] eqn:HC;
    [|by unfold subdivide in H; rewrite HC in H].
  destruct (subdivide_surgery st ci C st' Hinv HC H)
    as (_ & _ & st1 & st3 & C3 & _ & _ & _ & _ & _ & _ & Hs3 & HC3 & HC' & Hoth & _).
  assert (Hrestore : forall A B : Cell F,
            forget_links A = forget_links B -> with_adjacent A (adjacent_cells B) = B).
  { intros A B E. destruct A, B. unfold forget_links, with_adjacent in *. cbn in *.
    by injection E as -> -> -> -> -> -> -> ->. }
  intros j Cj HCj.
  destruct (same_cells_cell_at _ _ _ _ Hs3 HCj) as (Cj3 & HCj3 & Hf).
  destruct (decide (j = ci)) as [->|Hne].
  - rewrite HC3 in HCj3. injection HCj3 as <-.
    eexists. split; [exact HC'|].
    rewrite <- (Hrestore C3 Cj Hf). by destruct C3.
  - exists Cj3. split; [by rewrite Hoth|]. by apply Hrestore.
Qed.

Lemma subdivide_no_link_at st ci st' :
  adjacency_inv st -> subdivide isNextTo st ci = Some st' ->
  forall c d it L, has_link st' c d it L -> c <> ci /\ to_index L <> ci.
Proof.
  intros Hinv H c d it L Hl.
  destruct (cell_at (cell_data st) ci) as [C|] eqn:HC;
    [|by unfold subdivide in H; rewrite HC in H].
  destruct (subdivide_surgery st ci C st' Hinv HC H)
    as (_ & _ & st1 & st3 & C3 & _ & _ & _ & Hun & _).
  destruct (subdivide_Some_inv isNextTo st ci st' Hinv H) as (Hinv' & _).
  split.
  - intros ->. by eapply Hun.
  - intros Heq. destruct (inv_paired _ Hinv' _ _ _ _ Hl) as (r & _ & _ & HR); [tauto|].
    rewrite Heq in HR. by eapply Hun.
Qed.

(** X11: on a state that satisfies the invariant of the adjacency manager,
    and where [isNextTo] fails no assertion on the cells below the root,
    whatever their links hold, [subdivide] of a cell of the arena returns
    exactly when the first two child slots of the cell are not negative:
    the leading assertion of [subdivide] and the assertions inside
    [isNextTo] are the only ones that can fail, the other assertions
    inside the loops never do.  Whatever [isNextTo] does, [subdivide]
    does not return when one of the two slots is negative. *)
Theorem subdivide_completes_iff st ci (C : Cell F) :
  adjacency_inv st -> cell_at (cell_data st) ci = Some C ->
  ((exists st', subdivide isNextTo st ci = Some st') ->
   0 <= child0 (children C) /\ 0 <= child1 (children C)) /\
  (returns_on_arena isNextTo st ->
   ((exists st', subdivide isNextTo st ci = Some st') <->
    0 <= child0 (children C) /\ 0 <= child1 (children C))).
Proof.
  intros Hinv HC.
  assert (Hslots : (exists st', subdivide isNextTo st ci = Some st') ->
            0 <= child0 (children C) /\ 0 <= child1 (children C)).
  { intros [st' H]. by apply (subdivide_slots isNextTo st ci C st'). }
  split; [done|]. intros Hret. split; [done|].
  intros [H0 H1]. by apply (subdivide_returns isNextTo st ci C).
Qed.

(** X12: [subdivide] writes neighbour lists and one flag, nothing else: no
    cell is added or removed, every cell keeps its prism, index, depth,
    volume, allowance, required density and children, the cell that was
    subdivided ends with [is_subdivided] set, and every other cell keeps
    its flag. *)
Theorem subdivide_writes_links_and_flag_only st ci st' :
  adjacency_inv st -> subdivide isNextTo st ci = Some st' ->
  (forall j, cell_at (cell_data st) j = None -> cell_at (cell_data st') j = None) /\
  forall j (Cj : Cell F), cell_at (cell_data st) j = Some Cj ->
    exists Cj', cell_at (cell_data st') j = Some Cj' /\
      with_adjacent Cj' (adjacent_cells Cj)
      = (if decide (j = ci) then with_subdivided Cj true else Cj).
Proof. apply subdivide_fields. Qed.

(** X13: after [subdivide] the cell that was subdivided is out of the
    adjacency graph: no link leaves it and no link leads to it. *)
Theorem subdivide_isolates_cell st ci st' :
  adjacency_inv st -> subdivide isNextTo st ci = Some st' ->
  (forall d, links st' ci d = Some [] \/ links st' ci d = None) /\
  (forall c d it L, has_link st' c d it L -> c <> ci /\ to_index L <> ci).
Proof.
  intros Hinv H. split; [|by apply (subdivide_no_link_at st ci st')].
  intros d. destruct (links st' ci d) as [[|[it L] l]|] eqn:Hl; [by left| |by right].
  exfalso. destruct (subdivide_no_link_at st ci st' Hinv H ci d it L) as [Hne _]; [|done].
  exists ((it, L) :: l). split; [done|by left].
Qed.

(** X14: [subdivide] leaves alone the links between other cells: a link
    that neither leaves the subdivided cell nor leads to it is still
    there, in the same node with the same reverse; and every link there
    is afterwards is such an old link or has a child of the subdivided
    cell at one of its ends. *)
Theorem subdivide_link_accounting st ci (C : Cell F) st' :
  adjacency_inv st -> cell_at (cell_data st) ci = Some C ->
  subdivide isNextTo st ci = Some st' ->
  let is_child k := k ∈ children_list (children C) /\ 0 <= k in
  (forall c d it L, has_link st c d it L -> c <> ci -> to_index L <> ci ->
     has_link st' c d it L) /\
  (forall c d it L, has_link st' c d it L ->
     (has_link st c d it L /\ c <> ci /\ to_index L <> ci) \/
     is_child c \/ is_child (to_index L)).
Proof.
  intros Hinv HC H is_child.
  destruct (subdivide_surgery st ci C st' Hinv HC H)
    as (_ & _ & st1 & st3 & C3 & _ & Hsur1 & Hsur2 & _).
  pose proof (surgery_trans _ _ _ _ _ Hsur1 Hsur2) as Hsur. split.
  - intros c d it L Hl Hc HL. by eapply surgery_persists.
  - intros c d it L Hl.
    destruct (subdivide_no_link_at st ci st' Hinv H c d it L Hl) as [Hc HL].
    destruct (surgery_new _ _ _ _ _ _ _ _ Hsur Hl) as [?|[Hk|Hk]].
    + by left.
    + right; left. by apply present_children_in.
    + right; right. by apply present_children_in.
Qed.

(** X15: after [subdivide] the children of the cell are linked with each
    other: child 0 with child 1 to the right, and, when there are four,
    child 2 with child 3 to the right, child 0 with child 2 and child 1
    with child 3 upwards, each link paired with its reverse in the
    opposite side. *)
Theorem subdivide_links_siblings st ci (C : Cell F) st' :
  adjacency_inv st -> cell_at (cell_data st) ci = Some C ->
  subdivide isNextTo st ci = Some st' ->
  pair_linked st' (child0 (children C)) RIGHT (child1 (children C)) /\
  (getChildCount C = 4 ->
     pair_linked st' (child2 (children C)) RIGHT (child3 (children C)) /\
     pair_linked st' (child0 (children C)) UP (child2 (children C)) /\
     pair_linked st' (child1 (children C)) UP (child3 (children C))).
Proof.
  intros Hinv HC H.
  destruct (subdivide_surgery st ci C st' Hinv HC H)
    as (_ & _ & st1 & st3 & C3 & _ & _ & _ & _ & Hp01 & Hp4 & _).
  split; [done|]. unfold getChildCount.
  destruct (Z.ltb_spec (child2 (children C)) 0) as [?|H2]; [done|]. intros _. by apply Hp4.
Qed.

Lemma surgery_known ci kids (known : Z -> Prop) st st' :
  surgery ci kids st st' ->
  (forall k, k ∈ kids -> known k) ->
  (forall c d it L, has_link st c d it L -> known c /\ known (to_index L)) ->
  forall c d it L, has_link st' c d it L -> known c /\ known (to_index L).
Proof.
  intros Hsur Hkids. induction Hsur as [|st st1 st2 Hstep _ IH]; [done|].
  intros Hst. apply IH. clear IH. intros c d it L H.
  destruct Hstep as [st st' b dir a Hb Ha _ _ (_ & _ & Hview & _)
                    |st st' ch s n r Lr Hch _ HR (_ & _ & Hview & _)
                    |st st' n d0 r nid Hmem HR (_ & _ & Hview & _)
                    |st st' s (_ & _ & Hview & _)
                    |st st' Hsame].
  - apply Hview in H as [?|[(-> & _ & _ & ->)|(-> & _ & _ & ->)]]; eauto.
  - destruct (Hst _ _ _ _ HR) as [Hn _].
    apply Hview in H as [?|[(-> & _ & _ & ->)|(-> & _ & _ & ->)]]; eauto.
  - apply Hview in H as [? _]. eauto.
  - apply Hview in H as [? _]. eauto.
  - destruct H as (l & Hl & Hin). rewrite Hsame in Hl. eapply Hst. by exists l.
Qed.

Lemma subdivide_reach_active_step st ci (C : Cell F) st' :
  adjacency_inv st -> links_reach_active st ->
  cell_at (cell_data st) ci = Some C ->
  (forall k K, k ∈ children_list (children C) -> 0 <= k ->
     cell_at (cell_data st) k = Some K -> is_subdivided K = false) ->
  subdivide isNextTo st ci = Some st' ->
  links_reach_active st'.
Proof.
  intros Hinv Hact HC Hkids H c C' S l it L HC' Hl Hin.
  assert (Hlink : has_link st' c S it L).
  { exists l. split; [|done]. apply links_Some. eauto. }
  destruct (subdivide_no_link_at st ci st' Hinv H c S it L Hlink) as [_ HL].
  destruct (subdivide_surgery st ci C st' Hinv HC H)
    as (_ & _ & st1 & st3 & C3 & _ & Hsur1 & Hsur2 & _).
  pose proof (surgery_trans _ _ _ _ _ Hsur1 Hsur2) as Hsur.
  pose (known := fun x : Z =>
          exists N, cell_at (cell_data st) x = Some N /\ is_subdivided N = false).
  assert (Hknown : known (to_index L)).
  { eapply (surgery_known ci _ known st st' Hsur); [| |exact Hlink].
    - intros k [Hk Hk0]%present_children_in.
      destruct (wf_tree_child _ _ _ _ (inv_tree _ Hinv) HC Hk Hk0) as (_ & _ & K & HK & _).
      exists K. split; [done|]. by eapply Hkids.
    - intros c0 d0 it0 L0 H0.
      assert (Htarget : forall c1 d1 it1 L1, has_link st c1 d1 it1 L1 -> known (to_index L1)).
      { intros c1 d1 it1 L1 (l1 & (C1 & HC1 & Hl1)%links_Some & Hin1).
        by eapply (Hact c1 C1 d1 l1 it1 L1). }
      split; [|by eapply Htarget].
      destruct (inv_paired _ Hinv _ _ _ _ H0) as (r & _ & _ & HR); [tauto|].
      by apply (Htarget _ _ _ _ HR). }
  destruct Hknown as (N & HN & HsN).
  destruct (subdivide_fields st ci st' Hinv H) as [_ Hf].
  destruct (Hf _ _ HN) as (N' & HN' & E).
  exists N'. split; [done|].
  destruct (decide (to_index L = ci)) as [|_]; [done|].
  rewrite <- HsN, <- E. by destruct N'.
Qed.

(** X16: subdividing a cell whose children are not subdivided yet keeps
    the property the slice walker relies on: if every link led to a cell
    that is not subdivided before, every link does so afterwards. *)
Theorem subdivide_keeps_links_reach_active st ci (C : Cell F) st' :
  adjacency_inv st -> links_reach_active st ->
  cell_at (cell_data st) ci = Some C ->
  (forall k K, k ∈ children_list (children C) -> 0 <= k ->
     cell_at (cell_data st) k = Some K -> is_subdivided K = false) ->
  subdivide isNextTo st ci = Some st' ->
  links_reach_active st'.
Proof. apply subdivide_reach_active_step. Qed.

End SubdivideAccounting.

Lemma box_state_1_inv : adjacency_inv Examples.box_state_1.
Proof.
  eapply (subdivide_Some_inv Examples.always_next Examples.box_state 0).
  - apply box_state_fresh.
  - vm_compute. reflexivity.
Qed.

Lemma initialConnection_links_front_witness :
  exists st' lb la,
    initialConnection Examples.box_state 1 14 RIGHT = Some st' /\
    links Examples.box_state 1 RIGHT = Some lb /\
    links Examples.box_state 14 (opposite RIGHT) = Some la /\
    links st' 1 RIGHT = Some ((0%nat, mkLink 14 (Some 1%nat)) :: lb) /\
    links st' 14 (opposite RIGHT) = Some ((1%nat, mkLink 1 (Some 0%nat)) :: la) /\
    (forall c d, c <> 1 \/ d <> RIGHT -> c <> 14 \/ d <> opposite RIGHT ->
       links st' c d = links Examples.box_state c d) /\
    same_cells Examples.box_state st' /\
    next_node st' = 2%nat.
Proof.
  apply (initialConnection_links_front Examples.box_state 1 14 RIGHT
           (default box_cell_1 (cell_at (cell_data Examples.box_state) 1))
           (default box_cell_1 (cell_at (cell_data Examples.box_state) 14))).
  - done.
  - vm_compute. reflexivity.
  - vm_compute. reflexivity.
Defined.

Lemma cell_at_tail {F} (cd : list (Cell F)) k K :
  0 < k -> cell_at cd k = Some K -> In K (tail cd).
Proof.
  intros Hk [_ HK]%cell_at_Some. destruct cd as [|root cells]; [done|].
  destruct (Z.to_nat k) as [|n] eqn:Hn; [lia|]. cbn in HK.
  apply list_elem_of_In. by eapply list_elem_of_lookup_2.
Qed.

Lemma geo_next_to_returns : returns_on_arena Examples.geo_next_to Examples.box_state_1.
Proof.
  intros a b side Hside (i & A & Hi & HA & Ha) (j & B & Hj & HB & Hb).
  apply forget_links_fields in Ha as (_ & _ & _ & Ha & _).
  apply forget_links_fields in Hb as (_ & _ & _ & Hb & _).
  assert (Examples.geo_next_to a b side = Examples.geo_next_to A B side) as ->.
  { unfold Examples.geo_next_to, isNextTo. by rewrite Ha, Hb. }
  assert (Hall : forallb (fun A => forallb (fun B => forallb (fun d =>
            match Examples.geo_next_to A B d with Some _ => true | None => false end)
            [LEFT; RIGHT; UP; DOWN]) (tail (cell_data Examples.box_state_1)))
            (tail (cell_data Examples.box_state_1)) = true)
    by (vm_compute; reflexivity).
  pose proof (proj1 (forallb_forall _ _) Hall A (cell_at_tail _ i A Hi HA)) as HallA.
  pose proof (proj1 (forallb_forall _ _) HallA B (cell_at_tail _ j B Hj HB)) as HallB.
  assert (In side [LEFT; RIGHT; UP; DOWN]) as Hin by (destruct side; cbn; tauto).
  pose proof (proj1 (forallb_forall _ _) HallB side Hin) as Hside'.
  cbv beta in Hside'.
  destruct (Examples.geo_next_to A B side) as [next|]; [by exists next|discriminate].
Qed.

Lemma subdivide_completes_iff_witness :
  returns_on_arena Examples.geo_next_to Examples.box_state_1 /\
  ((exists st', subdivide Examples.geo_next_to Examples.box_state_1 1 = Some st') <->
   0 <= child0 (children box_cell_1) /\ 0 <= child1 (children box_cell_1)).
Proof.
  split; [exact geo_next_to_returns|].
  apply (subdivide_completes_iff Examples.geo_next_to Examples.box_state_1 1 box_cell_1).
  - exact box_state_1_inv.
  - vm_compute. reflexivity.
  - exact geo_next_to_returns.
Defined.

Lemma subdivide_writes_links_and_flag_only_witness :
  (forall j, cell_at (cell_data Examples.box_state_1) j = None ->
     cell_at (cell_data Examples.box_state_2) j = None) /\
  forall j Cj, cell_at (cell_data Examples.box_state_1) j = Some Cj ->
    exists Cj', cell_at (cell_data Examples.box_state_2) j = Some Cj' /\
      with_adjacent Cj' (adjacent_cells Cj)
      = (if decide (j = 1) then with_subdivided Cj true else Cj).
Proof.
  apply (subdivide_writes_links_and_flag_only Examples.always_next Examples.box_state_1 1
           Examples.box_state_2).
  - exact box_state_1_inv.
  - vm_compute. reflexivity.
Defined.

Lemma subdivide_isolates_cell_witness :
  (forall d, links Examples.box_state_2 1 d = Some [] \/
             links Examples.box_state_2 1 d = None) /\
  (forall c d it L, has_link Examples.box_state_2 c d it L -> c <> 1 /\ to_index L <> 1).
Proof.
  apply (subdivide_isolates_cell Examples.always_next Examples.box_state_1 1
           Examples.box_state_2).
  - exact box_state_1_inv.
  - vm_compute. reflexivity.
Defined.

Lemma subdivide_link_accounting_witness :
  let is_child k := k ∈ children_list (children box_cell_1) /\ 0 <= k in
  (forall c d it L, has_link Examples.box_state_1 c d it L -> c <> 1 -> to_index L <> 1 ->
     has_link Examples.box_state_2 c d it L) /\
  (forall c d it L, has_link Examples.box_state_2 c d it L ->
     (has_link Examples.box_state_1 c d it L /\ c <> 1 /\ to_index L <> 1) \/
     is_child c \/ is_child (to_index L)).
Proof.
  apply (subdivide_link_accounting Examples.always_next Examples.box_state_1 1 box_cell_1
           Examples.box_state_2).
  - exact box_state_1_inv.
  - vm_compute. reflexivity.
  - vm_compute. reflexivity.
Defined.

Lemma subdivide_links_siblings_witness :
  pair_linked Examples.box_state_2 2 RIGHT 5 /\
  (getChildCount box_cell_1 = 4 ->
     pair_linked Examples.box_state_2 8 RIGHT 11 /\
     pair_linked Examples.box_state_2 2 UP 8 /\
     pair_linked Examples.box_state_2 5 UP 11).
Proof.
  apply (subdivide_links_siblings Examples.always_next Examples.box_state_1 1 box_cell_1
           Examples.box_state_2).
  - exact box_state_1_inv.
  - vm_compute. reflexivity.
  - vm_compute. reflexivity.
Defined.

Lemma subdivide_keeps_links_reach_active_witness :
  subdivide Examples.always_next Examples.box_state_1 1 = Some Examples.box_state_2 /\
  links_reach_active Examples.box_state_2.
Proof.
  split; [vm_compute; reflexivity|].
  apply (subdivide_keeps_links_reach_active Examples.always_next Examples.box_state_1 1
           box_cell_1 Examples.box_state_2).
  - exact box_state_1_inv.
  - apply links_reach_active_b_sound. vm_compute. reflexivity.
  - vm_compute. reflexivity.
  - intros k K Hk _ HK.
    assert (Hch : children_list (children box_cell_1) = [2; 5; 8; 11])
      by (vm_compute; reflexivity).
    rewrite Hch in Hk. rewrite !elem_of_cons, elem_of_nil in Hk.
    destruct Hk as [->|[->|[->|[->|[]]]]]; vm_compute in HK; by injection HK as <-.
  - vm_compute. reflexivity.
Defined.

(** ** Further properties of the density pass and of the slice walker *)

Section DensityPass.
Context {F : Type}.
Variables (dflt : F) (junk : Z) (root_prism : Prism.t).
Variables (INT2MM INT2MM2 : Z -> F) (fmul fadd fmax : F -> F -> F) (fhalf : F).
Variable density_provider : AABB3D.t -> F.
Variable isNextTo : Cell F -> Cell F -> Direction -> option bool.
Variable max_depth : Z.
Variable getActualizedVolume : Cell F -> F.
Variable fdiv : F -> F -> F.
Variable flt : F -> F -> bool.

(** X17: the constructor followed by the density pass: whenever
    [createMinimalDensityPattern] completes on the tree [createTree()]
    built, any two linked cells differ in depth by one at most, every link
    is paired with its reverse, and the tree itself is as [createTree()]
    left it: no cell was added, and every cell has its prism, index, depth
    and children. *)
Theorem createTree_then_density_pattern_balanced fuel aabb cd fuel' st' :
  (Z.to_nat max_depth < fuel)%nat ->
  createTreeRoot dflt junk root_prism INT2MM INT2MM2 fmul fadd fmax fhalf density_provider
    fuel max_depth aabb [] = Some cd ->
  createMinimalDensityPattern isNextTo max_depth getActualizedVolume fdiv flt fuel'
    (mkState cd 0) = Some st' ->
  (forall c d it L A B,
     has_link st' c d it L ->
     cell_at (cell_data st') c = Some A ->
     cell_at (cell_data st') (to_index L) = Some B ->
     Z.abs (depth A - depth B) <= 1) /\
  links_paired st' /\
  (forall j, cell_shape <$> cell_at (cell_data st') j = cell_shape <$> cell_at cd j).
Proof.
  intros Hfuel Hcd Hpat.
  destruct (createTreeRoot_inv _ _ _ _ _ _ _ _ _ _ _ _ _ _ Hfuel Hcd) as [Hinv Hbal].
  unfold createMinimalDensityPattern in Hpat. cbn [cell_data] in Hpat.
  destruct cd as [|root cd0] eqn:Hcd0; [done|]. rewrite <- Hcd0 in *.
  destruct (density_loop_inv isNextTo max_depth getActualizedVolume fdiv flt fuel'
              (mkState cd 0) [0] st' Hinv Hpat) as (Hinv' & Hbal' & Hsame).
  split; [exact (Hbal' Hbal)|]. split; [by apply inv_links_paired|exact Hsame].
Qed.

End DensityPass.

Lemma createTree_then_density_pattern_balanced_witness :
  createMinimalDensityPattern Examples.always_next 3 (fun _ => tt) (fun _ _ => tt)
    (fun _ _ => true) 40 Examples.box_state
  = Some (default Examples.box_state
            (createMinimalDensityPattern Examples.always_next 3 (fun _ => tt)
               (fun _ _ => tt) (fun _ _ => true) 40 Examples.box_state)) /\
  let st' := default Examples.box_state
               (createMinimalDensityPattern Examples.always_next 3 (fun _ => tt)
                  (fun _ _ => tt) (fun _ _ => true) 40 Examples.box_state) in
  (forall c d it L A B,
     has_link st' c d it L ->
     cell_at (cell_data st') c = Some A ->
     cell_at (cell_data st') (to_index L) = Some B ->
     Z.abs (depth A - depth B) <= 1) /\
  links_paired st' /\
  (forall j, cell_shape <$> cell_at (cell_data st') j
             = cell_shape <$> cell_at Examples.box_arena j).
Proof.
  split; [vm_compute; reflexivity|].
  apply (createTree_then_density_pattern_balanced tt 0 Examples.sentinel_prism
           (fun _ => tt) (fun _ => tt) (fun _ _ => tt) (fun _ _ => tt) (fun _ _ => tt) tt
           (fun _ => tt) Examples.always_next 3 (fun _ => tt) (fun _ _ => tt)
           (fun _ _ => true) 5 Examples.box Examples.box_arena 40).
  - lia.
  - vm_compute. reflexivity.
  - vm_compute. reflexivity.
Defined.

Section Walker.
Context {F : Type}.
Implicit Types (st : State F) (cd : list (Cell F)).

Lemma still_below_false cd new_z seq :
  (forall c, c ∈ seq ->
     exists C, cell_at cd c = Some C /\ new_z <= rmax (Prism.z_range (prism C))) ->
  still_below cd new_z seq = Some false.
Proof.
  induction seq as [|c rest IH]; intros Hall; [done|].
  cbn [still_below]. destruct (Hall c) as (C & -> & Hz); [by left|].
  cbn [mbind option_bind]. destruct (Z.ltb_spec (rmax (Prism.z_range (prism C))) new_z); [lia|].
  apply IH. intros c' Hc'. apply Hall. by right.
Qed.

(** X18: [advanceSequence] leaves a walker alone when every cell of its
    sequence reaches up to [new_z] already: the sequence is returned as it
    is after one pass, and nothing is logged. *)
Theorem advanceSequence_noop_when_high_enough fuel st walker new_z :
  (forall c, c ∈ walker ->
     exists C, cell_at (cell_data st) c = Some C /\
               new_z <= rmax (Prism.z_range (prism C))) ->
  advanceSequence (S fuel) st walker new_z = Some (walker, []).
Proof.
  intros Hall. pose proof (still_below_false _ _ _ Hall) as Hb.
  unfold advanceSequence. cbn [advance_loop].
  rewrite (replace_pass_nothing_below _ _ _ [] [] Hb). cbn [rev app mbind option_bind].
  by rewrite Hb.
Qed.

(** X19: a cell that is too low needs a cell above it that the sequence
    does not hold next to it already.  When the first cell of the
    sequence with [z_max < new_z] has no link upwards, or each of its
    links upwards leads to the [index] of the cell in front of it or of
    the cell after it in the sequence, [advanceSequence] does not return:
    one of its two assertions fails. *)
Theorem advanceSequence_needs_new_cell_above fuel st pre c post new_z (C : Cell F) ups :
  (forall p, p ∈ pre ->
     exists P, cell_at (cell_data st) p = Some P /\
               new_z <= rmax (Prism.z_range (prism P))) ->
  cell_at (cell_data st) c = Some C ->
  rmax (Prism.z_range (prism C)) < new_z ->
  adj_get (adjacent_cells C) UP = Some ups ->
  (forall it L, (it, L) ∈ ups ->
     index_or_minus_one (cell_data st) (last pre) = Some (to_index L) \/
     index_or_minus_one (cell_data st) (head post) = Some (to_index L)) ->
  advanceSequence fuel st (pre ++ c :: post) new_z = None.
Proof.
  intros Hpre HC Hz Hups Hall. unfold advanceSequence.
  destruct fuel as [|fuel]; [done|]. cbn [advance_loop].
  rewrite replace_pass_skip by done. rewrite app_nil_r.
  cbn [replace_pass]. rewrite HC. cbn [mbind option_bind].
  destruct (Z.ltb_spec (rmax (Prism.z_range (prism C))) new_z); [|lia].
  rewrite head_rev.
  destruct (index_or_minus_one (cell_data st) (last pre)) as [before|]; [|done].
  cbn [mbind option_bind].
  destruct (index_or_minus_one (cell_data st) (head post)) as [after|]; [|done].
  cbn [mbind option_bind]. rewrite Hups. cbn [mbind option_bind].
  destruct ups as [|up ups]; [done|].
  destruct (cells_above_nothing_new (cell_data st) before after (up :: ups)) as [->|[log ->]];
    [|done..].
  intros it L Hin. destruct (Hall it L Hin) as [[= ->]|[= ->]]; auto.
Qed.

Lemma up_reach_trans cd a b c : up_reach cd a b -> up_reach cd b c -> up_reach cd a c.
Proof.
  induction 1 as [|a A l it L b HA Hl Hin _ IH]; [done|].
  intros Hbc. eapply up_reach_up; [exact HA|exact Hl|exact Hin|by apply IH].
Qed.

Lemma cells_above_targets cd before after ups : forall ins log,
  cells_above cd before after ups = Some (ins, log) ->
  forall x, x ∈ ins -> exists it L, (it, L) ∈ ups /\ to_index L = x.
Proof.
  induction ups as [|[it L] ups IH]; intros ins log H x Hx.
  { injection H as <- <-. by apply elem_of_nil in Hx. }
  cbn [cells_above snd] in H.
  destruct (negb _ && negb _).
  - destruct (cell_at cd (to_index L)); [|done]. cbn [mbind option_bind] in H.
    destruct (cells_above cd before after ups) as [[ins' log']|]; [|done].
    cbn in H. injection H as <- <-.
    apply elem_of_cons in Hx as [->|Hx].
    + exists it, L. split; [by left|done].
    + destruct (IH _ _ eq_refl x Hx) as (it' & L' & Hin & Hto).
      exists it', L'. split; [by right|done].
  - destruct (cells_above cd before after ups) as [[ins' log']|]; [|done].
    cbn in H. injection H as <- <-.
    destruct (IH _ _ eq_refl x Hx) as (it' & L' & Hin & Hto).
    exists it', L'. split; [by right|done].
Qed.

Lemma elem_of_rev' {A} (l : list A) x : x ∈ rev l <-> x ∈ l.
Proof. rewrite !list_elem_of_In. symmetry. apply in_rev. Qed.

Lemma replace_pass_reach cd new_z (walker : list Z) todo : forall passed log seq' log',
  (forall x, x ∈ passed -> exists w, w ∈ walker /\ up_reach cd w x) ->
  (forall x, x ∈ todo -> exists w, w ∈ walker /\ up_reach cd w x) ->
  replace_pass cd new_z passed todo log = Some (seq', log') ->
  forall x, x ∈ seq' -> exists w, w ∈ walker /\ up_reach cd w x.
Proof.
  induction todo as [|it after IH]; intros passed log seq' log' Hpassed Htodo H x Hx.
  { injection H as <- <-. apply Hpassed. by apply (proj1 (elem_of_rev' _ _)). }
  cbn [replace_pass] in H.
  destruct (cell_at cd it) as [cell|] eqn:Hcell; [|done]. cbn [mbind option_bind] in H.
  destruct (rmax (Prism.z_range (prism cell)) <? new_z).
  - destruct (index_or_minus_one cd (head passed)) as [before|]; [|done].
    cbn [mbind option_bind] in H.
    destruct (index_or_minus_one cd (head after)) as [aft|]; [|done].
    cbn [mbind option_bind] in H.
    destruct (adj_get (adjacent_cells cell) UP) as [ups|] eqn:Hups; [|done].
    cbn [mbind option_bind] in H.
    destruct ups as [|up ups]; [done|].
    destruct (cells_above cd before aft (up :: ups)) as [[ins log1]|] eqn:Hins; [|done].
    cbn [mbind option_bind] in H.
    destruct ins as [|i0 ins]; [done|].
    eapply IH; [| |exact H|exact Hx].
    + intros y [Hy|Hy]%elem_of_app; [|by apply Hpassed].
      apply (proj1 (elem_of_rev' _ _)) in Hy.
      destruct (cells_above_targets _ _ _ _ _ _ Hins y Hy) as (it' & L' & Hin & <-).
      destruct (Htodo it) as (w & Hw & Hreach); [by left|].
      exists w. split; [done|]. eapply up_reach_trans; [exact Hreach|].
      eapply up_reach_up; [exact Hcell|exact Hups|exact Hin|apply up_reach_here].
    + intros y Hy. apply Htodo. by right.
  - eapply IH; [| |exact H|exact Hx].
    + intros y [->|Hy]%elem_of_cons; [apply Htodo; by left|by apply Hpassed].
    + intros y Hy. apply Htodo. by right.
Qed.

Lemma advance_loop_reach fuel cd new_z (walker : list Z) : forall seq log seq' log',
  (forall x, x ∈ seq -> exists w, w ∈ walker /\ up_reach cd w x) ->
  advance_loop fuel cd new_z seq log = Some (seq', log') ->
  forall x, x ∈ seq' -> exists w, w ∈ walker /\ up_reach cd w x.
Proof.
  induction fuel as [|fuel IH]; intros seq log seq' log' Hseq H; [done|].
  cbn [advance_loop] in H.
  destruct (replace_pass cd new_z [] seq log) as [[seq1 log1]|] eqn:Hpass; [|done].
  cbn [mbind option_bind] in H.
  assert (Hseq1 : forall x, x ∈ seq1 -> exists w, w ∈ walker /\ up_reach cd w x).
  { eapply replace_pass_reach; [|exact Hseq|exact Hpass]. by intros x ?%elem_of_nil. }
  destruct (still_below cd new_z seq1) as [b|]; [|done].
  cbn [mbind option_bind] in H. destruct b.
  - by eapply IH.
  - by injection H as <- <-.
Qed.

(** X20: [advanceSequence] only ever replaces a cell by cells above it:
    every cell of the sequence it returns is a cell of the sequence it
    was given, or is reached from one along links of side [UP]. *)
Theorem advanceSequence_cells_from_above fuel st walker new_z walker' log :
  advanceSequence fuel st walker new_z = Some (walker', log) ->
  forall x, x ∈ walker' -> exists w, w ∈ walker /\ up_reach (cell_data st) w x.
Proof.
  intros H. eapply advance_loop_reach; [|exact H].
  intros x Hx. exists x. split; [done|apply up_reach_here].
Qed.

Lemma walk_right_path fuel cd : forall c rest,
  walk_right fuel cd c = Some rest -> right_path cd c rest.
Proof.
  induction fuel as [|fuel IH]; intros c rest H; cbn [walk_right] in H.
  - destruct (cell_at cd c) as [C|] eqn:HC; [|done]. cbn [mbind option_bind] in H.
    destruct (adj_get (adjacent_cells C) RIGHT) as [[|front l]|] eqn:Hl; [|done..].
    injection H as <-. exists C, []. done.
  - destruct (cell_at cd c) as [C|] eqn:HC; [|done]. cbn [mbind option_bind] in H.
    destruct (adj_get (adjacent_cells C) RIGHT) as [[|front l]|] eqn:Hl; [| |done].
    { injection H as <-. exists C, []. done. }
    cbn [mbind option_bind] in H.
    destruct (walk_right fuel cd (to_index (snd front))) as [rest'|] eqn:Hrest; [|done].
    cbn [mbind option_bind] in H. injection H as <-.
    exists C, (front :: l). split; [done|]. split; [done|].
    split; [by exists front, l|by apply IH].
Qed.

(** X21: the sequence [getBottomSequence] returns is not empty; from its
    first cell on it follows, cell by cell, the first link of side
    [RIGHT], and its last cell has no link to the right. *)
Theorem getBottomSequence_follows_right_links fuel st seq :
  getBottomSequence fuel st = Some seq ->
  exists first rest, seq = first :: rest /\ right_path (cell_data st) first rest.
Proof.
  unfold getBottomSequence. intros H.
  destruct (descend fuel (cell_data st) 0) as [first|]; [|done].
  cbn [mbind option_bind] in H.
  destruct (walk_right fuel (cell_data st) first) as [rest|] eqn:Hw; [|done].
  cbn [mbind option_bind] in H. injection H as <-.
  exists first, rest. split; [done|]. by eapply walk_right_path.
Qed.

End Walker.

Lemma advanceSequence_noop_when_high_enough_witness :
  advanceSequence 1 Examples.stack_state [2; 3] 15 = Some ([2; 3], []).
Proof.
  apply (advanceSequence_noop_when_high_enough 0 Examples.stack_state [2; 3] 15).
  intros c Hc. rewrite !elem_of_cons, elem_of_nil in Hc.
  destruct Hc as [->|[->|[]]]; eexists; (split; [vm_compute; reflexivity|vm_compute; intros [=]]).
Defined.

Lemma advanceSequence_needs_new_cell_above_witness :
  advanceSequence 5 Examples.stack_state ([3] ++ 1 :: [2]) 15 = None.
Proof.
  apply (advanceSequence_needs_new_cell_above 5 Examples.stack_state [3] 1 [2] 15
           (Examples.slab 1 0 10 (mkAdj [] [] [(0%nat, mkLink 2 (Some 1%nat))] []))
           [(0%nat, mkLink 2 (Some 1%nat))]).
  - intros p Hp. rewrite elem_of_cons, elem_of_nil in Hp. destruct Hp as [->|[]].
    eexists. split; [vm_compute; reflexivity|].
    vm_compute. intros [=].
  - vm_compute. reflexivity.
  - vm_compute. reflexivity.
  - vm_compute. reflexivity.
  - intros it L Hin. rewrite elem_of_cons, elem_of_nil in Hin.
    destruct Hin as [[= -> ->]|[]]. right. vm_compute. reflexivity.
Defined.

Lemma advanceSequence_cells_from_above_witness :
  advanceSequence 3 Examples.stack_state [1] 25 = Some ([3], [LayersHigherThanPrisms]) /\
  forall x, x ∈ [3] -> exists w, w ∈ [1] /\ up_reach (cell_data Examples.stack_state) w x.
Proof.
  split; [vm_compute; reflexivity|].
  apply (advanceSequence_cells_from_above 3 Examples.stack_state [1] 25 [3]
           [LayersHigherThanPrisms]).
  vm_compute. reflexivity.
Defined.

Lemma getBottomSequence_follows_right_links_witness :
  exists first rest,
    [2; 14] = first :: rest /\ right_path (cell_data Examples.box_state_2) first rest.
Proof.
  apply (getBottomSequence_follows_right_links 5 Examples.box_state_2 [2; 14]).
  vm_compute. reflexivity.
Defined.

Section TopDownRuns.
Context {F : Type}.
Variables (dflt : F) (junk : Z) (root_prism : Prism.t).
Variables (INT2MM INT2MM2 : Z -> F) (fmul fadd fmax : F -> F -> F) (fhalf : F).
Variable density_provider : AABB3D.t -> F.
Variable isNextTo : Cell F -> Cell F -> Direction -> option bool.
Variable max_depth : Z.

Lemma top_down_subdivisions_inv st0 st :
  adjacency_inv st0 -> links_reach_active st0 ->
  top_down_subdivisions isNextTo st0 st ->
  adjacency_inv st /\ links_reach_active st.
Proof.
  intros Hinv0 Hact0. induction 1 as [|st0 st1 st2 ci C _ IH HC Hkids Hsub]; [done|].
  destruct (IH Hinv0 Hact0) as [Hinv1 Hact1]. split.
  - by destruct (subdivide_Some_inv isNextTo st1 ci st2 Hinv1 Hsub).
  - by eapply (subdivide_reach_active_step isNextTo st1 ci C st2).
Qed.

(** X24: the constructor, a refinement from the top and the walker
    together: when cells are subdivided, starting from the tree
    [createTree()] built, each before any of its children, every link
    leads to a cell that is not subdivided, and every cell of the
    sequence [getBottomSequence] returns is a cell of the arena that is
    not subdivided. *)
Theorem getBottomSequence_active_after_top_down fuel aabb cd st fuel' seq :
  (Z.to_nat max_depth < fuel)%nat ->
  createTreeRoot dflt junk root_prism INT2MM INT2MM2 fmul fadd fmax fhalf density_provider
    fuel max_depth aabb [] = Some cd ->
  top_down_subdivisions isNextTo (mkState cd 0) st ->
  getBottomSequence fuel' st = Some seq ->
  links_reach_active st /\
  forall c, c ∈ seq ->
    exists C, cell_at (cell_data st) c = Some C /\ is_subdivided C = false.
Proof.
  intros Hfuel Hcd Hrun Hseq.
  destruct (createTreeRoot_inv _ _ _ _ _ _ _ _ _ _ _ _ _ _ Hfuel Hcd) as [Hinv0 _].
  assert (Hact0 : links_reach_active (mkState cd 0)).
  { intros c C S l it L HC Hl Hin. exfalso.
    apply createTreeRoot_wf in Hcd as [_ Hfresh]; [|done].
    destruct (Hfresh c C HC) as [Ha _]. rewrite Ha in Hl.
    destruct S; cbn in Hl; try done; injection Hl as <-; by apply elem_of_nil in Hin. }
  destruct (top_down_subdivisions_inv _ _ Hinv0 Hact0 Hrun) as [Hinv Hact].
  split; [done|].
  unfold getBottomSequence in Hseq.
  destruct (descend fuel' (cell_data st) 0) as [first|] eqn:Hd; [|done].
  cbn [mbind option_bind] in Hseq.
  destruct (walk_right fuel' (cell_data st) first) as [rest|] eqn:Hw; [|done].
  cbn [mbind option_bind] in Hseq. injection Hseq as <-.
  intros c [->|Hc]%elem_of_cons.
  - by destruct (descend_spec _ _ _ _ Hd) as [_ ?].
  - by eapply walk_right_spec.
Qed.

End TopDownRuns.

Lemma getBottomSequence_active_after_top_down_witness :
  top_down_subdivisions Examples.always_next Examples.box_state Examples.box_state_2 /\
  links_reach_active Examples.box_state_2 /\
  forall c, c ∈ [2; 14] ->
    exists C, cell_at (cell_data Examples.box_state_2) c = Some C /\ is_subdivided C = false.
Proof.
  assert (Hrun : top_down_subdivisions Examples.always_next Examples.box_state
                   Examples.box_state_2).
  { eapply (top_down_step _ _ Examples.box_state_1 _ 1 box_cell_1).
    - eapply (top_down_step _ _ Examples.box_state _ 0
                (default box_cell_1 (cell_at (cell_data Examples.box_state) 0))).
      + apply top_down_nil.
      + vm_compute. reflexivity.
      + intros k K Hk Hk0 HK.
        assert (Hch : children_list
                        (children (default box_cell_1
                                     (cell_at (cell_data Examples.box_state) 0)))
                      = [1; 14; -1; -1]) by (vm_compute; reflexivity).
        rewrite Hch in Hk. rewrite !elem_of_cons, elem_of_nil in Hk.
        destruct Hk as [->|[->|[->|[->|[]]]]]; try lia;
          vm_compute in HK; by injection HK as <-.
      + vm_compute. reflexivity.
    - vm_compute. reflexivity.
    - intros k K Hk _ HK.
      assert (Hch : children_list (children box_cell_1) = [2; 5; 8; 11])
        by (vm_compute; reflexivity).
      rewrite Hch in Hk. rewrite !elem_of_cons, elem_of_nil in Hk.
      destruct Hk as [->|[->|[->|[->|[]]]]]; vm_compute in HK; by injection HK as <-.
    - vm_compute. reflexivity. }
  split; [exact Hrun|].
  apply (getBottomSequence_active_after_top_down tt 0 Examples.sentinel_prism
           (fun _ => tt) (fun _ => tt) (fun _ _ => tt) (fun _ _ => tt) (fun _ _ => tt) tt
           (fun _ => tt) Examples.always_next 3 5 Examples.box Examples.box_arena
           Examples.box_state_2 5 [2; 14]).
  - lia.
  - vm_compute. reflexivity.
  - exact Hrun.
  - vm_compute. reflexivity.
Defined.

(** ** The constructor always returns *)

Section ConstructorTotal.
Context {F : Type}.
Implicit Types (cd : list (Cell F)) (c C : Cell F).
Variables (dflt : F) (junk : Z) (root_prism : Prism.t).
Variables (INT2MM INT2MM2 : Z -> F) (fmul fadd fmax : F -> F -> F) (fhalf : F).
Variable density_provider : AABB3D.t -> F.
Variable max_depth : Z.

Lemma same_skeleton_sym cd cd' : same_skeleton cd cd' -> same_skeleton cd' cd.
Proof. unfold same_skeleton. congruence. Qed.

Lemma tidy_cell_skeleton C C' :
  skeleton C' = skeleton C -> tidy_cell max_depth C -> tidy_cell max_depth C'.
Proof.
  unfold skeleton, tidy_cell. intros [= _ _ Hd _ _ Hch]. by rewrite Hd, Hch.
Qed.

Lemma tree_built_same_skeleton cd cd' :
  same_skeleton cd cd' -> tree_built max_depth cd -> tree_built max_depth cd'.
Proof.
  intros Hs Hb p C' Hp HC'.
  destruct (same_skeleton_cell _ _ _ _ (same_skeleton_sym _ _ Hs) HC') as (C & HC & Hsk).
  destruct (Hb p C Hp HC) as [Hwf Ht]. split.
  - eapply wf_cell_settles; [by apply same_skeleton_settles|lia|exact HC|exact HC'|exact Hwf].
  - eapply tidy_cell_skeleton; [|exact Ht]. done.
Qed.

(** A loop over child slots returns when its body does on every slot it
    reaches, the arena keeping its skeleton. *)
Lemma for_children_total cd0 (Good : Z -> Prop) stop body chs : forall cd,
  same_skeleton cd0 cd ->
  (forall k, k ∈ chs -> stop k = true \/ Good k) ->
  (forall cd k, same_skeleton cd0 cd -> Good k ->
     exists cd', body cd k = Some cd' /\ same_skeleton cd cd') ->
  exists cd', for_children stop body cd chs = Some cd' /\ same_skeleton cd cd'.
Proof.
  induction chs as [|k rest IH]; intros cd Hs Hchs Hbody; cbn [for_children].
  { by exists cd. }
  destruct (stop k) eqn:Hstop; [by exists cd|].
  destruct (Hchs k) as [?|Hgood]; [by left|congruence|].
  destruct (Hbody cd k Hs Hgood) as (cd1 & -> & Hs1). cbn [mbind option_bind].
  destruct (IH cd1) as (cd2 & -> & Hs2).
  - by eapply same_skeleton_trans.
  - intros k' Hk'. apply Hchs. by right.
  - done.
  - exists cd2. split; [done|]. by eapply same_skeleton_trans.
Qed.

(** The slots of a cell below the root are -1 or hold a child. *)
Lemma tree_built_slots cd q C k :
  tree_built max_depth cd -> 0 < q -> cell_at cd q = Some C ->
  k ∈ children_list (children C) ->
  k = -1 \/ (0 < k /\ exists K, cell_at cd k = Some K /\ depth K = depth C + 1).
Proof.
  intros Hb Hq HC Hk. destruct (Hb q C Hq HC) as [(_ & Hch & _) (Hneg & _)].
  destruct (Z.lt_ge_cases k 0) as [Hk0|Hk0]; [left; by apply Hneg|right; by apply Hch].
Qed.

Lemma tree_built_parent_depth cd q C :
  tree_built max_depth cd -> 0 < q -> cell_at cd q = Some C ->
  0 <= child0 (children C) -> depth C < max_depth.
Proof.
  intros Hb Hq HC H0. destruct (Hb q C Hq HC) as [_ (_ & _ & Hleaf)].
  destruct (Z.lt_ge_cases (depth C) max_depth) as [|Hge]; [done|].
  rewrite (Hleaf Hge) in H0. cbn in H0. lia.
Qed.

Lemma setVolume_total fuel : forall cd q C,
  tree_built max_depth cd -> 0 < q -> cell_at cd q = Some C ->
  (Z.to_nat (max_depth - depth C) < fuel)%nat ->
  exists cd', setVolume INT2MM INT2MM2 fmul fhalf fuel cd q = Some cd'.
Proof.
  induction fuel as [|fuel IH]; intros cd q C Hb Hq HC Hfuel; [lia|].
  cbn [setVolume]. rewrite HC. cbn [mbind option_bind].
  erewrite update_cell_Some by done. cbn [mbind option_bind].
  set (cd1 := <[Z.to_nat q := _]> cd).
  assert (Hs1 : same_skeleton cd cd1).
  { eapply (update_cell_same_skeleton cd q (fun c => with_volume c _)); [done|].
    by erewrite update_cell_Some. }
  destruct (Z.geb_spec (child0 (children C)) 0) as [H0|_]; [|by eexists].
  pose proof (tree_built_parent_depth cd q C Hb Hq HC H0) as Hd.
  destruct (for_children_total cd1
              (fun k => 0 < k /\ exists K, cell_at cd k = Some K /\ depth K = depth C + 1)
              (fun child_idx => child_idx =? -1)
              (fun cell_data child_idx =>
                 if (child_idx >? 0) && (child_idx <? Z.of_nat (length cell_data))
                 then setVolume INT2MM INT2MM2 fmul fhalf fuel cell_data child_idx
                 else None)
              (children_list (children C)) cd1) as (cd2 & H2 & _); [done| | |by eexists].
  - intros k Hk. destruct (tree_built_slots cd q C k Hb Hq HC Hk) as [->|?]; [by left|by right].
  - intros cd2 k Hs2 (Hk & K & HK & HdK).
    pose proof (same_skeleton_trans _ _ _ Hs1 Hs2) as Hs.
    destruct (same_skeleton_cell _ _ _ _ Hs HK) as (K2 & HK2 & Hsk).
    pose proof (cell_at_range _ _ _ HK2) as Hr.
    destruct (Z.gtb_spec k 0); [|lia].
    destruct (Z.ltb_spec k (Z.of_nat (length cd2))); [|lia]. cbn [andb].
    destruct (IH cd2 k K2) as [cd3 H3]; [by eapply tree_built_same_skeleton|done|done| |].
    { assert (depth K2 = depth K) as -> by (unfold skeleton in Hsk; congruence). lia. }
    exists cd3. split; [done|]. by eapply setVolume_same_skeleton.
Qed.

Lemma setSpecificationAllowance_children_total fuel cd0 q (Q : Cell F) d chs :
  (forall cd k K, tree_built max_depth cd -> 0 < k -> cell_at cd k = Some K ->
     (Z.to_nat (max_depth - depth K) < fuel)%nat ->
     exists cd', setSpecificationAllowance fmul fadd fmax density_provider fuel cd k
                 = Some cd') ->
  tree_built max_depth cd0 -> cell_at cd0 q = Some Q ->
  (forall k, k ∈ chs ->
     k < 0 \/ (0 < k /\ exists K, cell_at cd0 k = Some K /\ depth K = d + 1)) ->
  (Z.to_nat (max_depth - (d + 1)) < fuel)%nat ->
  forall cd, same_skeleton cd0 cd ->
  exists cd',
    for_children (fun child_idx => child_idx <? 0)
      (fun cell_data child_idx =>
         _ ← cell_at cell_data child_idx;
         cell_data ← setSpecificationAllowance fmul fadd fmax density_provider fuel
                       cell_data child_idx;
         child ← cell_at cell_data child_idx;
         update_cell cell_data q
           (fun c => with_allowance c
              (fadd (filled_volume_allowance c) (filled_volume_allowance child))
              (fmax (minimally_required_density c) (minimally_required_density child))))
      cd chs = Some cd' /\ same_skeleton cd cd'.
Proof.
  intros Hrec Hb HQ Hchs Hfuel cd Hs.
  eapply (for_children_total cd0
            (fun k => 0 < k /\ exists K, cell_at cd0 k = Some K /\ depth K = d + 1));
    [exact Hs| |].
  - intros k Hk. destruct (Hchs k Hk) as [Hneg|?]; [left|by right].
    by apply Z.ltb_lt.
  - clear cd Hs. intros cd k Hs (Hk & K & HK & HdK).
    destruct (same_skeleton_cell _ _ _ _ Hs HK) as (K2 & HK2 & Hsk).
    rewrite HK2. cbn [mbind option_bind].
    destruct (Hrec cd k K2) as [cd3 H3]; [by eapply tree_built_same_skeleton|done|done| |].
    { assert (depth K2 = depth K) as -> by (unfold skeleton in Hsk; congruence).
      rewrite HdK. done. }
    rewrite H3. cbn [mbind option_bind].
    pose proof (setSpecificationAllowance_same_skeleton _ _ _ _ _ _ _ _ H3) as Hs3.
    destruct (same_skeleton_cell _ _ _ _ Hs3 HK2) as (K3 & HK3 & _).
    rewrite HK3. cbn [mbind option_bind].
    destruct (same_skeleton_cell _ _ _ _ (same_skeleton_trans _ _ _ Hs Hs3) HQ)
      as (Q3 & HQ3 & _).
    erewrite update_cell_Some by done. eexists. split; [done|].
    eapply same_skeleton_trans; [exact Hs3|].
    eapply (update_cell_same_skeleton cd3 q
              (fun c => with_allowance c
                 (fadd (filled_volume_allowance c) (filled_volume_allowance K3))
                 (fmax (minimally_required_density c) (minimally_required_density K3))));
      [done|].
    exact (update_cell_Some cd3 q
             (fun c => with_allowance c
                (fadd (filled_volume_allowance c) (filled_volume_allowance K3))
                (fmax (minimally_required_density c) (minimally_required_density K3)))
             Q3 HQ3).
Qed.

Lemma setSpecificationAllowance_total fuel : forall cd q C,
  tree_built max_depth cd -> 0 < q -> cell_at cd q = Some C ->
  (Z.to_nat (max_depth - depth C) < fuel)%nat ->
  exists cd', setSpecificationAllowance fmul fadd fmax density_provider fuel cd q = Some cd'.
Proof.
  induction fuel as [|fuel IH]; intros cd q C Hb Hq HC Hfuel; [lia|].
  cbn [setSpecificationAllowance]. rewrite HC. cbn [mbind option_bind].
  destruct (Z.geb_spec (child0 (children C)) 0) as [H0|_].
  - pose proof (tree_built_parent_depth cd q C Hb Hq HC H0) as Hd.
    destruct (setSpecificationAllowance_children_total fuel cd q C (depth C)
                (children_list (children C)) IH Hb HC) with (cd := cd)
      as (cd' & H' & _); [| |done|by eexists].
    + intros k Hk. destruct (tree_built_slots cd q C k Hb Hq HC Hk) as [->|?]; [left; lia|by right].
    + lia.
  - erewrite update_cell_Some by done. by eexists.
Qed.

Lemma createTree_first_level_total fuel aabb slot T cd R :
  cell_at cd 0 = Some R -> tree_built max_depth cd ->
  (Z.to_nat max_depth < fuel)%nat ->
  exists cd',
    createTree_first_level dflt junk INT2MM INT2MM2 fmul fhalf fuel max_depth aabb slot T cd
      = Some cd' /\
    tree_built max_depth cd'.
Proof.
  intros HR Hb Hfuel. pose proof (cell_at_range _ _ _ HR) as Hlen.
  unfold createTree_first_level.
  erewrite update_cell_Some by done. cbn [mbind option_bind].
  set (n := Z.of_nat (length cd)) in *.
  set (R1 := with_children R (set_child (children R) slot n)) in *.
  set (new := Cell_new dflt junk _ n 1) in *.
  set (cd2 := <[Z.to_nat 0 := R1]> cd ++ [new]) in *.
  assert (Hlen2 : Z.of_nat (length cd2) = n + 1).
  { unfold cd2. rewrite length_app, length_insert. cbn. lia. }
  assert (Hnew : cell_at cd2 n = Some new).
  { unfold cd2. replace n with (Z.of_nat (length (<[Z.to_nat 0 := R1]> cd))).
    - apply cell_at_app_new.
    - by rewrite length_insert. }
  replace (Z.of_nat (length cd2) - 1) with n by lia.
  destruct (createTree_ok dflt junk max_depth fuel cd2 n new Hnew eq_refl)
    as (cd3 & Hcd3 & (Hlen3 & Hoth & Hq) & Hwf & Hfresh).
  { cbn. lia. }
  rewrite Hcd3. cbn [mbind option_bind].
  assert (Hold : forall k K, k <> 0 -> cell_at cd k = Some K -> cell_at cd3 k = Some K).
  { intros k K Hk HK. pose proof (cell_at_range _ _ _ HK).
    apply Hoth; [lia|]. unfold cd2. apply cell_at_app_l.
    by rewrite cell_at_insert_ne by lia. }
  assert (Hgrows : grows cd cd3).
  { intros k K HK. destruct (Z.eq_dec k 0) as [->|Hk0].
    - rewrite HR in HK. injection HK as <-. eexists.
      apply Hoth; [lia|]. unfold cd2. apply cell_at_app_l.
      by erewrite cell_at_insert_eq.
    - exists (children K). rewrite with_children_same. by apply Hold. }
  assert (Hb3 : tree_built max_depth cd3).
  { intros p C Hp HC. destruct (Z.lt_ge_cases p n) as [Hlt|Hge].
    - destruct (cell_at_in_range cd p) as [C0 HC0]; [lia|].
      rewrite (Hold p C0) in HC by (done || lia). injection HC as <-.
      destruct (Hb p C0 Hp HC0) as [Hw Ht]. split; [|done].
      by eapply wf_cell_grows.
    - apply Hwf; [|done]. lia. }
  destruct (Hq _ Hnew) as [ch Hn3].
  destruct (setVolume_total fuel cd3 n (with_children new ch) Hb3) as [cd' Hcd'];
    [lia|done|cbn; lia|].
  exists cd'. split; [done|].
  eapply tree_built_same_skeleton; [|exact Hb3]. by eapply setVolume_same_skeleton.
Qed.

Lemma createTreeRoot_total fuel aabb :
  (Z.to_nat max_depth + 1 < fuel)%nat ->
  exists cd,
    createTreeRoot dflt junk root_prism INT2MM INT2MM2 fmul fadd fmax fhalf density_provider
      fuel max_depth aabb [] = Some cd /\
    tree_built max_depth cd.
Proof.
  intros Hfuel.
  destruct (createTreeRoot_start INT2MM INT2MM2 fmul fadd fmax fhalf density_provider
              dflt junk max_depth root_prism fuel aabb)
    as (R & Hch & Hd & Hi & HpR & Hf & Heq).
  rewrite Heq. clear Heq.
  assert (HR : cell_at [R] 0 = Some R) by reflexivity.
  assert (Hb0 : tree_built max_depth [R]).
  { intros p C Hp HC. apply cell_at_range in HC. cbn in HC. lia. }
  match goal with
  | |- context [createTree_first_level _ _ _ _ _ _ _ _ _ 0 ?T [R]] =>
      destruct (createTree_first_level_total fuel aabb 0 T [R] R HR Hb0)
        as (cd1 & H1 & Hb1); [lia|]
  end.
  rewrite H1. cbn [mbind option_bind].
  eapply createTree_first_level_spec in H1
    as (Hs1 & (R1 & HR1 & Hch1) & (K1 & HK1 & HdK1 & _) & _); [|exact HR|lia].
  match goal with
  | |- context [createTree_first_level _ _ _ _ _ _ _ _ _ 1 ?T cd1] =>
      destruct (createTree_first_level_total fuel aabb 1 T cd1 R1 HR1 Hb1)
        as (cd2 & H2 & Hb2); [lia|]
  end.
  rewrite H2. cbn [mbind option_bind].
  eapply createTree_first_level_spec in H2
    as (Hs2 & (R2 & HR2 & Hch2) & (K2 & HK2 & HdK2 & _) & _); [|exact HR1|lia].
  destruct (Hs2 _ _ HK1) as (K1' & HK1' & HdK1' & _).
  destruct (Hs1 _ _ HR) as (R1' & HR1' & HdR1 & _).
  rewrite HR1 in HR1'. injection HR1' as <-.
  destruct (Hs2 _ _ HR1) as (R2' & HR2' & HdR2 & _).
  rewrite HR2 in HR2'. injection HR2' as <-.
  assert (Hchildren : children R2 = mkChildren 1 (Z.of_nat (length cd1)) (-1) (-1)).
  { rewrite Hch2, Hch1, Hch. reflexivity. }
  destruct fuel as [|fuel]; [lia|].
  cbn [setSpecificationAllowance]. rewrite HR2. cbn [mbind option_bind].
  rewrite Hchildren. cbn [child0 Z.geb Z.compare].
  destruct (setSpecificationAllowance_children_total fuel cd2 0 R2 0
              (children_list (mkChildren 1 (Z.of_nat (length cd1)) (-1) (-1)))
              (setSpecificationAllowance_total fuel) Hb2 HR2) with (cd := cd2)
    as (cd3 & H3 & Hs3); [| |done|].
  - intros k Hk. unfold children_list in Hk. cbn in Hk.
    rewrite !elem_of_cons, elem_of_nil in Hk.
    pose proof (cell_at_range _ _ _ HK1) as Hr1. cbn [length] in Hr1.
    destruct Hk as [->|[->|[->|[->|[]]]]]; [right|right|left; lia|left; lia].
    + split; [lia|]. exists K1'. split; [done|]. lia.
    + split; [lia|]. exists K2. split; [done|]. lia.
  - lia.
  - exists cd3. split; [exact H3|]. by eapply tree_built_same_skeleton.
Qed.

(** X22: [createTree()] always returns on an empty arena, whatever
    [max_depth] and the bounding box are: the recursion of [createTree],
    [setVolume] and [setSpecificationAllowance] is at most [max_depth]
    levels deep below the level-1 cells, and neither assertion of
    [setVolume] on a child index fails; on an arena that is not empty its
    first assertion fails. *)
Theorem createTree_always_completes fuel aabb :
  (Z.to_nat max_depth + 1 < fuel)%nat ->
  (exists cd,
     createTreeRoot dflt junk root_prism INT2MM INT2MM2 fmul fadd fmax fhalf
       density_provider fuel max_depth aabb [] = Some cd) /\
  (forall c cd0,
     createTreeRoot dflt junk root_prism INT2MM INT2MM2 fmul fadd fmax fhalf
       density_provider fuel max_depth aabb (c :: cd0) = None).
Proof.
  intros Hfuel. split; [|done].
  destruct (createTreeRoot_total fuel aabb Hfuel) as (cd & Hcd & _). eauto.
Qed.

(** X23: in the tree [createTree()] builds, the cells below the root have
    children exactly above [max_depth]: a cell of depth less than
    [max_depth] has its first two children, a cell of depth [max_depth]
    or more holds -1 in all four slots, and a slot that holds no child
    always holds -1; so for these cells the test [children[0] < 0] agrees
    with the test [depth >= max_depth]. *)
Theorem createTree_leaves_at_max_depth fuel aabb cd :
  (Z.to_nat max_depth + 1 < fuel)%nat ->
  createTreeRoot dflt junk root_prism INT2MM INT2MM2 fmul fadd fmax fhalf density_provider
    fuel max_depth aabb [] = Some cd ->
  forall p C, 0 < p -> cell_at cd p = Some C ->
    (depth C < max_depth -> 0 <= child0 (children C) /\ 0 <= child1 (children C)) /\
    (max_depth <= depth C -> children C = mkChildren (-1) (-1) (-1) (-1)) /\
    (forall k, k ∈ children_list (children C) -> k < 0 -> k = -1) /\
    (child0 (children C) <? 0) = (depth C >=? max_depth).
Proof.
  intros Hfuel H p C Hp HC.
  destruct (createTreeRoot_total fuel aabb Hfuel) as (cd0 & Hcd0 & Hb).
  rewrite H in Hcd0. injection Hcd0 as <-.
  destruct (Hb p C Hp HC) as [_ (Hneg & Hnode & Hleaf)].
  split; [done|]. split; [done|]. split; [done|].
  destruct (Z.geb_spec (depth C) max_depth) as [Hge|Hlt].
  - rewrite (Hleaf Hge). done.
  - destruct (Hnode Hlt) as [H0 _]. by apply Z.ltb_ge.
Qed.

End ConstructorTotal.

Lemma createTree_always_completes_witness :
  (exists cd,
     createTreeRoot tt 0 Examples.sentinel_prism (fun _ => tt) (fun _ => tt)
       (fun _ _ => tt) (fun _ _ => tt) (fun _ _ => tt) tt (fun _ => tt)
       5 3 Examples.box [] = Some cd) /\
  (forall c cd0,
     createTreeRoot tt 0 Examples.sentinel_prism (fun _ => tt) (fun _ => tt)
       (fun _ _ => tt) (fun _ _ => tt) (fun _ _ => tt) tt (fun _ => tt)
       5 3 Examples.box (c :: cd0) = None).
Proof.
  apply (createTree_always_completes tt 0 Examples.sentinel_prism
           (fun _ => tt) (fun _ => tt) (fun _ _ => tt) (fun _ _ => tt) (fun _ _ => tt) tt
           (fun _ => tt) 3 5 Examples.box).
  vm_compute. lia.
Defined.

Lemma createTree_leaves_at_max_depth_witness :
  (Z.to_nat 3 + 1 < 5)%nat /\
  forall p C, 0 < p -> cell_at Examples.box_arena p = Some C ->
    (depth C < 3 -> 0 <= child0 (children C) /\ 0 <= child1 (children C)) /\
    (3 <= depth C -> children C = mkChildren (-1) (-1) (-1) (-1)) /\
    (forall k, k ∈ children_list (children C) -> k < 0 -> k = -1) /\
    (child0 (children C) <? 0) = (depth C >=? 3).
Proof.
  split; [vm_compute; lia|].
  apply (createTree_leaves_at_max_depth tt 0 Examples.sentinel_prism
           (fun _ => tt) (fun _ => tt) (fun _ _ => tt) (fun _ _ => tt) (fun _ _ => tt) tt
           (fun _ => tt) 3 5 Examples.box).
  - vm_compute. lia.
  - vm_compute. reflexivity.
Defined.

(** ** Runs of the density pass and of the walker *)

Section DensityRuns.
Context {F : Type}.
Variable isNextTo : Cell F -> Cell F -> Direction -> option bool.
Variable max_depth : Z.
Variable getActualizedVolume : Cell F -> F.
Variable fdiv : F -> F -> F.
Variable flt : F -> F -> bool.
Implicit Types (st : State F).

Lemma subdivisions_trans st1 st2 st3 :
  subdivisions isNextTo max_depth st1 st2 -> subdivisions isNextTo max_depth st2 st3 ->
  subdivisions isNextTo max_depth st1 st3.
Proof.
  intros H12 H23. induction H23 as [|st2 sa sb ci C _ IH HC Hcan Hsub]; [done|].
  eapply subdivisions_step; [by apply IH|exact HC|exact Hcan|exact Hsub].
Qed.

Lemma density_step_subdivisions st queue st' queue' :
  density_step isNextTo max_depth getActualizedVolume fdiv flt st queue = Some (st', queue') ->
  subdivisions isNextTo max_depth st st'.
Proof.
  intros Hstep. destruct queue as [|idx popped]; [done|].
  cbn [density_step] in Hstep.
  destruct (cell_at (cell_data st) idx) as [C|] eqn:HC; [|done].
  cbn [mbind option_bind] in Hstep.
  destruct (child0 (children C) <? 0); cbn [orb] in Hstep.
  { injection Hstep as <- <-. apply subdivisions_nil. }
  destruct (Z.geb_spec (depth C) max_depth) as [|Hd].
  { injection Hstep as <- <-. apply subdivisions_nil. }
  destruct (isConstrained st C) as [[]|] eqn:Hcon; [| |done];
    cbn [mbind option_bind negb] in Hstep.
  - destruct (push_constrainers _ _ _ _) as [q|]; [|done].
    cbn [mbind option_bind] in Hstep. injection Hstep as <- <-. apply subdivisions_nil.
  - destruct (subdivide isNextTo st idx) as [st2|] eqn:Hsub; [|done].
    cbn [mbind option_bind] in Hstep.
    destruct (cell_at (cell_data st2) idx) as [C2|]; [|done].
    cbn [mbind option_bind] in Hstep.
    destruct (push_children _ _ _ _ _ _) as [q|]; [|done].
    cbn [mbind option_bind] in Hstep. injection Hstep as <- <-.
    eapply subdivisions_step; [apply subdivisions_nil|exact HC| |exact Hsub].
    unfold canSubdivide. destruct (Z.geb_spec (depth C) max_depth); [lia|].
    by rewrite Hcon.
Qed.

Lemma density_loop_subdivisions fuel : forall st queue st',
  density_loop isNextTo max_depth getActualizedVolume fdiv flt fuel st queue = Some st' ->
  subdivisions isNextTo max_depth st st'.
Proof.
  induction fuel as [|fuel IH]; intros st queue st' Hloop.
  - destruct queue; [|done]. injection Hloop as <-. apply subdivisions_nil.
  - destruct queue as [|idx popped].
    { injection Hloop as <-. apply subdivisions_nil. }
    cbn [density_loop] in Hloop.
    destruct (density_step _ _ _ _ _ st (idx :: popped)) as [[st1 q1]|] eqn:Hstep; [|done].
    eapply subdivisions_trans; [by eapply density_step_subdivisions|by eapply IH].
Qed.

(** X25: every subdivision [createMinimalDensityPattern] makes is one that
    [canSubdivide] allows at that moment: whenever the pass completes, the
    state it leaves is reached from the state it started in by a sequence
    of [subdivide] calls, each on a cell for which [canSubdivide] is
    true. *)
Theorem createMinimalDensityPattern_subdivides_legally fuel st st' :
  createMinimalDensityPattern isNextTo max_depth getActualizedVolume fdiv flt fuel st
    = Some st' ->
  subdivisions isNextTo max_depth st st'.
Proof.
  unfold createMinimalDensityPattern. destruct (cell_data st); [done|].
  apply density_loop_subdivisions.
Qed.

End DensityRuns.

Section RootAndWalker.
Context {F : Type}.
Variables (dflt : F) (junk : Z) (root_prism : Prism.t).
Variables (INT2MM INT2MM2 : Z -> F) (fmul fadd fmax : F -> F -> F) (fhalf : F).
Variable density_provider : AABB3D.t -> F.
Variable isNextTo : Cell F -> Cell F -> Direction -> option bool.
Variable max_depth : Z.
Implicit Types (st : State F).

(** X26: the sentinel root stays out of the adjacency graph: after
    [createTree()] and any completed sequence of subdivisions that
    [canSubdivide] allowed, no link leaves the root and no link leads to
    it; so nothing constrains the root, and [canSubdivide] of the root is
    true exactly when [max_depth] is positive. *)
Theorem root_never_linked fuel aabb cd st :
  (Z.to_nat max_depth < fuel)%nat ->
  createTreeRoot dflt junk root_prism INT2MM INT2MM2 fmul fadd fmax fhalf density_provider
    fuel max_depth aabb [] = Some cd ->
  subdivisions isNextTo max_depth (mkState cd 0) st ->
  (forall c d it L, has_link st c d it L -> c <> 0 /\ to_index L <> 0) /\
  exists root, cell_at (cell_data st) 0 = Some root /\
    isConstrained st root = Some false /\
    canSubdivide max_depth st root = Some (0 <? max_depth).
Proof.
  intros Hfuel Hcd Hrun.
  destruct (createTreeRoot_inv _ _ _ _ _ _ _ _ _ _ _ _ _ _ Hfuel Hcd) as [Hinv0 Hbal0].
  destruct (subdivisions_inv isNextTo max_depth _ _ Hinv0 Hbal0 Hrun)
    as (Hinv & Hbal & Hsame).
  assert (Hno : forall c d it L, has_link st c d it L -> c <> 0 /\ to_index L <> 0).
  { intros c d it L H. split.
    - intros ->. by eapply root_has_no_links.
    - pose proof (inv_targets _ Hinv _ _ _ _ H). lia. }
  split; [done|].
  destruct (createTreeRoot_layout INT2MM INT2MM2 fmul fadd fmax fhalf density_provider
              dflt junk max_depth root_prism fuel aabb cd Hfuel Hcd)
    as (root0 & _ & _ & _ & Hroot0 & _ & Hd0 & _).
  specialize (Hsame 0). cbn [cell_data] in Hsame. rewrite Hroot0 in Hsame.
  destruct (cell_at (cell_data st) 0) as [root|] eqn:Hroot; [|done].
  assert (depth root = 0) as Hd by (cbn in Hsame; unfold cell_shape in Hsame; congruence).
  exists root. split; [done|].
  destruct (isConstrained_spec st 0 root Hinv Hroot) as (b & Hb & Hiff).
  assert (b = false) as ->.
  { destruct b; [|done]. destruct (proj1 Hiff eq_refl) as (d & it & L & N & H & _).
    by destruct (Hno _ _ _ _ H). }
  split; [done|]. unfold canSubdivide. rewrite Hd, Hb. cbn [mbind option_bind negb].
  destruct (Z.geb_spec 0 max_depth), (Z.ltb_spec 0 max_depth); first [done|lia].
Qed.

End RootAndWalker.

Lemma createMinimalDensityPattern_subdivides_legally_witness :
  subdivisions Examples.always_next 3 Examples.box_state
    (default Examples.box_state
       (createMinimalDensityPattern Examples.always_next 3 (fun _ => tt)
          (fun _ _ => tt) (fun _ _ => true) 40 Examples.box_state)).
Proof.
  apply (createMinimalDensityPattern_subdivides_legally Examples.always_next 3
           (fun _ => tt) (fun _ _ => tt) (fun _ _ => true) 40 Examples.box_state).
  vm_compute. reflexivity.
Defined.

Lemma root_never_linked_witness :
  subdivisions Examples.always_next 3 Examples.box_state Examples.box_state_2 /\
  (forall c d it L, has_link Examples.box_state_2 c d it L -> c <> 0 /\ to_index L <> 0) /\
  exists root, cell_at (cell_data Examples.box_state_2) 0 = Some root /\
    isConstrained Examples.box_state_2 root = Some false /\
    canSubdivide 3 Examples.box_state_2 root = Some (0 <? 3).
Proof.
  split; [exact box_state_run|].
  apply (root_never_linked tt 0 Examples.sentinel_prism
           (fun _ => tt) (fun _ => tt) (fun _ _ => tt) (fun _ _ => tt) (fun _ _ => tt) tt
           (fun _ => tt) Examples.always_next 3 5 Examples.box Examples.box_arena
           Examples.box_state_2).
  - lia.
  - vm_compute. reflexivity.
  - exact box_state_run.
Defined.


(** ** The bottom sequence after a refinement from the top *)

Section BottomActive.
Context {F : Type}.
Variables (dflt : F) (junk : Z) (root_prism : Prism.t).
Variables (INT2MM INT2MM2 : Z -> F) (fmul fadd fmax : F -> F -> F) (fhalf : F).
Variable density_provider : AABB3D.t -> F.
Variable isNextTo : Cell F -> Cell F -> Direction -> option bool.
Variable max_depth : Z.
Implicit Types (st : State F) (cd : list (Cell F)).

Lemma getBottomSequence_paths fuel st seq :
  getBottomSequence fuel st = Some seq ->
  exists first rest First,
    seq = first :: rest /\ descends (cell_data st) 0 first /\
    cell_at (cell_data st) first = Some First /\ is_subdivided First = false /\
    right_path (cell_data st) first rest.
Proof.
  unfold getBottomSequence. intros Hseq.
  destruct (descend fuel (cell_data st) 0) as [first|] eqn:Hd; [|done].
  cbn [mbind option_bind] in Hseq.
  destruct (walk_right fuel (cell_data st) first) as [rest|] eqn:Hw; [|done].
  cbn [mbind option_bind] in Hseq. injection Hseq as <-.
  destruct (descend_spec _ _ _ _ Hd) as (Hdesc & First & HFirst & Hsub).
  exists first, rest, First. repeat (split; [done|]). by eapply walk_right_path.
Qed.

Lemma getBottomSequence_complete st first rest (First : Cell F) :
  descends (cell_data st) 0 first ->
  cell_at (cell_data st) first = Some First -> is_subdivided First = false ->
  right_path (cell_data st) first rest ->
  exists fuel0, forall fuel, (fuel0 <= fuel)%nat ->
    getBottomSequence fuel st = Some (first :: rest).
Proof.
  intros Hdesc HFirst Hsub Hpath.
  destruct (descends_descend _ _ _ _ Hdesc HFirst Hsub) as [n Hn].
  exists (n + length rest)%nat. intros fuel Hfuel. unfold getBottomSequence.
  rewrite Hn by lia. cbn [mbind option_bind].
  rewrite (right_path_walk _ _ _ _ Hpath) by lia. done.
Qed.

Lemma getBottomSequence_unsubdivided fuel st seq :
  links_reach_active st -> getBottomSequence fuel st = Some seq ->
  forall c, c ∈ seq ->
    exists C, cell_at (cell_data st) c = Some C /\ is_subdivided C = false.
Proof.
  unfold getBottomSequence. intros Hact Hseq.
  destruct (descend fuel (cell_data st) 0) as [first|] eqn:Hd; [|done].
  cbn [mbind option_bind] in Hseq.
  destruct (walk_right fuel (cell_data st) first) as [rest|] eqn:Hw; [|done].
  cbn [mbind option_bind] in Hseq. injection Hseq as <-.
  intros c [->|Hc]%elem_of_cons.
  - by destruct (descend_spec _ _ _ _ Hd) as [_ ?].
  - by eapply walk_right_spec.
Qed.

Lemma createTreeRoot_links_reach_active fuel aabb cd :
  (Z.to_nat max_depth < fuel)%nat ->
  createTreeRoot dflt junk root_prism INT2MM INT2MM2 fmul fadd fmax fhalf density_provider
    fuel max_depth aabb [] = Some cd ->
  links_reach_active (mkState cd 0).
Proof.
  intros Hfuel Hcd c C S l it L HC Hl Hin. exfalso.
  apply createTreeRoot_wf in Hcd as [_ Hfresh]; [|done].
  destruct (Hfresh c C HC) as [Ha _]. rewrite Ha in Hl.
  destruct S; cbn in Hl; try done; injection Hl as <-; by apply elem_of_nil in Hin.
Qed.


End BottomActive.

Lemma box_state_top_down :
  top_down_subdivisions Examples.always_next Examples.box_state Examples.box_state_2.
Proof.
  eapply (top_down_step _ _ Examples.box_state_1 _ 1 box_cell_1).
  - eapply (top_down_step _ _ Examples.box_state _ 0
              (default box_cell_1 (cell_at (cell_data Examples.box_state) 0))).
    + apply top_down_nil.
    + vm_compute. reflexivity.
    + intros k K Hk Hk0 HK.
      assert (Hch : children_list
                      (children (default box_cell_1
                                   (cell_at (cell_data Examples.box_state) 0)))
                    = [1; 14; -1; -1]) by (vm_compute; reflexivity).
      rewrite Hch in Hk. rewrite !elem_of_cons, elem_of_nil in Hk.
      destruct Hk as [->|[->|[->|[->|[]]]]]; try lia;
        vm_compute in HK; by injection HK as <-.
    + vm_compute. reflexivity.
  - vm_compute. reflexivity.
  - intros k K Hk _ HK.
    assert (Hch : children_list (children box_cell_1) = [2; 5; 8; 11])
      by (vm_compute; reflexivity).
    rewrite Hch in Hk. rewrite !elem_of_cons, elem_of_nil in Hk.
    destruct Hk as [->|[->|[->|[->|[]]]]]; vm_compute in HK; by injection HK as <-.
  - vm_compute. reflexivity.
Qed.



(** ** The walker after a refinement from the top *)

Section WalkerActive.
Context {F : Type}.
Variables (dflt : F) (junk : Z) (root_prism : Prism.t).
Variables (INT2MM INT2MM2 : Z -> F) (fmul fadd fmax : F -> F -> F) (fhalf : F).
Variable density_provider : AABB3D.t -> F.
Variable isNextTo : Cell F -> Cell F -> Direction -> option bool.
Variable max_depth : Z.
Implicit Types (st : State F).

Lemma up_reach_active st w x :
  links_reach_active st -> up_reach (cell_data st) w x ->
  (exists W, cell_at (cell_data st) w = Some W /\ is_subdivided W = false) ->
  exists X, cell_at (cell_data st) x = Some X /\ is_subdivided X = false.
Proof.
  intros Hact. induction 1 as [|c C l it L c' HC Hl Hin _ IH]; [done|].
  intros _. apply IH. by eapply (Hact c C UP l it L).
Qed.

(** X27: [advanceSequence] keeps the walker on cells that are not
    subdivided: on the tree [createTree()] built, refined by subdividing
    each cell before any of its children, when no cell of the sequence is
    subdivided (as in the sequence [getBottomSequence] returns), no cell of
    the sequence [advanceSequence] returns is. *)
Theorem advanceSequence_stays_active fuel aabb cd st fuel' walker new_z walker' log :
  (Z.to_nat max_depth < fuel)%nat ->
  createTreeRoot dflt junk root_prism INT2MM INT2MM2 fmul fadd fmax fhalf density_provider
    fuel max_depth aabb [] = Some cd ->
  top_down_subdivisions isNextTo (mkState cd 0) st ->
  (forall c, c ∈ walker ->
     exists C, cell_at (cell_data st) c = Some C /\ is_subdivided C = false) ->
  advanceSequence fuel' st walker new_z = Some (walker', log) ->
  forall c, c ∈ walker' ->
    exists C, cell_at (cell_data st) c = Some C /\ is_subdivided C = false.
Proof.
  intros Hfuel Hcd Hrun Hwalker H c Hc.
  destruct (createTreeRoot_inv _ _ _ _ _ _ _ _ _ _ _ _ _ _ Hfuel Hcd) as [Hinv0 _].
  pose proof (createTreeRoot_links_reach_active dflt junk root_prism INT2MM INT2MM2 fmul
                fadd fmax fhalf density_provider max_depth fuel aabb cd Hfuel Hcd) as Hact0.
  destruct (top_down_subdivisions_inv isNextTo _ _ Hinv0 Hact0 Hrun) as [_ Hact].
  destruct (advance_loop_reach fuel' (cell_data st) new_z walker walker [] walker' log)
    with (x := c) as (w & Hw & Hreach); [|exact H|exact Hc|].
  { intros x Hx. exists x. split; [done|apply up_reach_here]. }
  eapply up_reach_active; [exact Hact|exact Hreach|by apply Hwalker].
Qed.

End WalkerActive.

Lemma advanceSequence_stays_active_witness :
  top_down_subdivisions Examples.always_next Examples.box_state Examples.box_state_2 /\
  getBottomSequence 5 Examples.box_state_2 = Some [2; 14] /\
  advanceSequence 5 Examples.box_state_2 [2; 14] 800 = Some ([8; 14], []) /\
  forall c, c ∈ [8; 14] ->
    exists C, cell_at (cell_data Examples.box_state_2) c = Some C /\ is_subdivided C = false.
Proof.
  split; [exact box_state_top_down|]. split; [vm_compute; reflexivity|].
  split; [vm_compute; reflexivity|].
  apply (advanceSequence_stays_active tt 0 Examples.sentinel_prism
           (fun _ => tt) (fun _ => tt) (fun _ _ => tt) (fun _ _ => tt) (fun _ _ => tt) tt
           (fun _ => tt) Examples.always_next 3 5 Examples.box Examples.box_arena
           Examples.box_state_2 5 [2; 14] 800 [8; 14] []).
  - lia.
  - vm_compute. reflexivity.
  - exact box_state_top_down.
  - intros c Hc. rewrite !elem_of_cons, elem_of_nil in Hc.
    destruct Hc as [->|[->|[]]]; eexists; split; vm_compute; reflexivity.
  - vm_compute. reflexivity.
Defined.
